(* ===== verification/_CoqProject ===== *)
-Q . S2P
Prelude.v
GoInt.v
Utf8.v
JsonText.v
Json.v
Codec.v
Indent.v
Agent.v
Filepath.v
Langs.v
Jobs.v
Config.v
Redis.v
Queue.v
Worker.v
Api.v
Clock.v
Wire.v
Typed.v
Guest.v
Driver.v
Pool.v
Closing.v
Boots.v
Execute.v
Build.v
Cli.v
System.v
Lifecycle.v
Service.v
Testkit.v
App.v
