(* ===== verification/Prelude.v ===== *)
(** * dredd: a verification of the code-execution service

    dredd takes programs over HTTP, queues them in Redis and runs them inside
    single-use Firecracker MicroVMs.  This library translates its Go source
    into definitions one can run, and proves the properties its components
    rely on.  Paths below are relative to src/.

    ** The program and the files that model it

    A submission travels: HTTP API -> queue -> worker -> pool executor -> VM
    pool and driver -> vsock -> guest agent, and the result back into the
    queue, where the API reads it.

    - api/ (Api.v).  [exec], [status], [languages], [health] and the [Router]:
      handlers as functions from a request and the Redis client to a response.
    - queue/redis.go (Queue.v over Redis.v).  [Enqueue], [Dequeue], [Load],
      [SetRunning], [Finish] as the commands they issue, against the abstract
      [store] of jobs, pending ids and times to live.  [represents] relates a
      keyspace to a store.
    - worker/worker.go (Worker.v, System.v, Lifecycle.v).  Worker.v: [process],
      [turn] and [loop] as functions over any [Executor].  System.v: the
      goroutines of [Run] as interleaved steps over one Redis, with
      submissions, reads, expiries and faults in between, and the abstract job
      system they implement ([sys_effect]: what a step may do to the store of
      jobs and to the ids in the workers' hands).  A worker's call of Execute
      may also not return.  Lifecycle.v: what becomes of a job in the long run.
    - pool/executor.go (Execute.v): [Execute], [exchange] and the time budget.
    - pool/pool.go and the three strategies (Pool.v): one transition system
      for refill goroutines, callers of Acquire and Close, with the boot
      semaphore and the WaitGroup (its counter and its waiters, with the two
      panics of reusing it too early); the strategies differ in the record
      [strategy].  Closing.v: how Close ends.  Boots.v: the [bootFor] of each
      strategy over the driver, and the fleet of VMs that boots and kills
      leave.
    - firecracker/driver.go (Driver.v): [Boot], [Kill], [waitForSocket] and
      the API client over a class of host operations.
    - firecracker/vsock.go and the framing of guest/dreddagent/main.go
      (Wire.v): dial, handshake, frames, over a connection with faults.
    - guest/dreddagent/main.go (Guest.v): [main], [serve], [handle], [runOnce]
      and the capped output buffer.
    - the worker over the pool executor over the wire to the agent, between
      two HTTP calls of a client (Service.v): the components composed; a panic
      of the executor ends the process, and a turn of the worker is [None].
    - cmd/dredd-build/main.go (Build.v, with Indent.v for the indented JSON it
      writes): [cmdAdd], [buildRootfs], [appendLanguage]; Cli.v: [main],
      [usage] and the flags, as the flag package parses them.
    - langs/ (Langs.v), config/config.go (Config.v), jobs/ (Jobs.v),
      agent/proto.go (Agent.v): the registry, the environment, the job record
      and the messages with their JSON form.  Typed.v: the types of what is
      decoded at each boundary (class [JsonTyped]).
    - dredd.go and cmd/dredd/main.go (App.v): [New], [Run], [Shutdown] and
      [main], as what they acquire and give back.
    - dreddtest/ (Testkit.v): the local, flaky and container executors.

    Under them lie the parts of Go's standard library the source computes
    with: machine integers and durations (GoInt.v), UTF-8 (Utf8.v), JSON text,
    values, scanner and typed decoding (JsonText.v, Json.v, Codec.v), file
    paths (Filepath.v), polling loops against a clock (Clock.v).  This file
    has what they all share: the vocabulary of Go values (errors, results,
    slices, byte strings), the state-and-error monad [M] of the code that
    calls out, and the recorded calls: a [course] says which calls, each with
    its outcome, a computation makes, and composes as the code does
    ([and_then], [or_else], [finally], [undoing]).

    ** How the code is represented

    A Go error is [error]: its wrapping is kept, so both its text and
    errors.Is can be computed.  A pair (T, error) is [result T].  An int is a
    Z with its wrap-around written out ([wrap64]); a duration is int64
    nanoseconds.  A string is its bytes.  A nil slice differs from an empty
    one ([slice]).  Code that is not under src/ is a typeclass of operations
    over an unknown state - [Redis], [OS], [Host], [Tools], [Link],
    [TestHost] - and what is relied on of it is a separate class of laws
    ([RedisOk], [OSOk], ...), which a concrete instance satisfies in the file
    that needs it (an in-memory Redis with scripted faults, an echoing
    shell).  [RedisLive] is the law of a Redis whose calls do not fail, for
    the theorems about progress; safety never assumes it.  Go interfaces are classes too ([Executor], [VMPool]): the worker
    is proved against any executor, and the pool's and the test executors
    are instances.  Concurrency is a step relation with one transition per
    point where the code can be overtaken (a channel operation, a Redis call,
    a lock), and its theorems are invariants of the reachable states.

    ** What is shown

    - The service as a whole: a posted program is run by the agent of a pooled
      VM and its answer is what a poll reports (submission_end_to_end), also
      when the first VM fails (submission_survives_vm); a backlog is worked
      off in order (backlog_drains_in_order).
    - Decoding is type sound at every boundary (the instances of [JsonTyped]
      and their lemmas in Typed.v).
    - The queue implements its store whatever fails (queue_refines_store), in
      order (queue_is_fifo), and reads back what was submitted
      (enqueue_load_roundtrip, load_all_or_nothing).
    - A worker settles a job with the verdict of at most two attempts
      (process_settles_job, at_most_one_retry); over any interleaving a job is
      in one place (job_in_one_place), statuses only advance and a finished
      job is final (finished_job_is_final), and the function [loop] is an
      instance of those steps (loop_is_worker_steps).  The interleaved system
      implements the abstract one (system_refines_spec), and every stored job
      has the outcome fields its status allows (stored_jobs_typed); its work is
      bounded (work_is_bounded), and on a Redis that answers it stops only when
      every job has settled or waits for an executor call that does not return
      (every_job_settles).  A job whose hash cannot be read is lost
      (load_failure_loses_job), and a job that nobody holds any more is stuck
      (abandoned_job_is_stuck).
    - The API accepts exactly the valid submissions and reports the stored
      job (exec_accepts_iff, exec_413_iff, exec_decodes_submission,
      status_reports_job, submit_then_status).
    - VMs are single-use: alive exactly in one holder's hands
      (vm_has_one_holder), within the pool's bounds (pool_within_bounds), gone
      after Close except for callers' (close_leaves_no_vm), no send on a
      closed channel (no_send_on_closed_channel), refills end when cancelled
      (cancelled_refills_finish), and Close gets on, without waiting for a
      caller, until it returns, panics or waits for a boot (close_returns).  The
      three flaws of that code: failed_boots_drain_pool,
      acquire_can_return_nil (and nil_vm_takes_down), close_can_panic.
    - A VM that was acquired is given back once (execute_returns_vm); the
      budget of an exchange against the guest's own timeouts
      (budget_covers_guest, wrapped_budget_fails).
    - A boot completes or undoes itself (boot_all_or_killed, boot_ok_live);
      running VMs never share an id or a work directory (vms_are_distinct); a
      language id with a slash never boots under the two strategies that boot
      for a language (slash_id_never_boots).
    - Host and guest understand each other (wire_roundtrip, exchange_sound,
      handshake_accepts_iff, serve_answers); the agent has four outcomes, each
      with its calls (handle_contract), one of them silent
      (silent_compile_failure), serves once and powers the VM off
      (agent_powers_off).
    - dredd-build undoes what it sets up, but for a container whose id it
      cannot read (build_takes_down), reads its flags as they are written
      (flags_read_as_written) and registers what the daemon then loads
      (append_then_load, add_registers).
    - The daemon starts wired or not at all (startup_outcomes) and takes its
      pool down and then runs its deferred calls, except when the HTTP server
      fails (daemon_takes_down).
    - The test executors answer as the agent would (local_matches_agent) and
      pull an image once (image_pulled_once).

    The theorems that are not numbered are lemmas in their own right; every
    numbered theorem with hypotheses has a witness, a closed statement at a
    concrete input, at the end of its file.

    ** Fuel and bounds

    Loops over lists are structural.  The two polling loops (dial, socket
    wait) run on [poll_fuel interval timeout] iterations, and [poll_terminates]
    shows that this is enough for every clock that advances over a pause by
    the pause.  JSON decoding is bounded by maxDepth as in the library; the
    round-trip laws carry the nesting height of each type.  The pool's and the
    workers' relations have no bound on their length; neither a boot nor a
    worker's call of Execute is assumed to end.

    ** What is not modelled

    The libraries themselves (go-redis, chi, net/http, os/exec, encoding/json
    beyond the features used), what a system call such as a mount does, the
    text of usage messages, log lines other than the agent's, the sleep after
    a failed dequeue, the closing of files and response bodies, container
    images and build files.  The time a Redis key lives is not measured: an
    expiry may happen at any moment once a TTL is set.  What would follow a
    panic that ends the process is not described. *)
From Stdlib Require Export ZArith Lia Ascii String.
From stdpp Require Export base tactics list strings gmap option relations.

Open Scope Z_scope.

(** * Bytes and Go strings

    A Go [string] is a Rocq [string] (a sequence of 8-bit characters, not
    necessarily valid UTF-8); a Go [[]byte] is a list of characters.  The Go
    conversions between the two are [to_bytes] and [of_bytes]. *)
Notation bytes := (list ascii).

Definition to_bytes (s : string) : bytes := list_ascii_of_string s.
Definition of_bytes (b : bytes) : string := string_of_list_ascii b.

Declare Scope dredd_scope.
Delimit Scope dredd_scope with dredd.
(** A byte-slice literal. *)
Notation "'b#' s" := (to_bytes s%string) (at level 8, s at level 8) : dredd_scope.
Open Scope dredd_scope.

Lemma of_to_bytes s : of_bytes (to_bytes s) = s.
Proof. apply string_of_list_ascii_of_string. Qed.

Lemma to_of_bytes b : to_bytes (of_bytes b) = b.
Proof. apply list_ascii_of_string_of_list_ascii. Qed.

Lemma to_bytes_inj s t : to_bytes s = to_bytes t -> s = t.
Proof. intros H. by rewrite <- (of_to_bytes s), H, of_to_bytes. Qed.

Lemma to_bytes_append s t : to_bytes (s +:+ t) = to_bytes s ++ to_bytes t.
Proof. unfold to_bytes. induction s as [|c s IH]; [done|]. cbn. by rewrite <- IH. Qed.

(** [len(s)] of a Go string and of a byte slice. *)
Definition blen (b : bytes) : Z := Z.of_nat (length b).
Definition slen (s : string) : Z := blen (to_bytes s).

Lemma blen_nonneg b : 0 <= blen b.
Proof. unfold blen. lia. Qed.

Lemma blen_app a b : blen (a ++ b) = blen a + blen b.
Proof. unfold blen. rewrite length_app. lia. Qed.

(** * Slices

    A Go slice is nil or a sequence of elements: the two differ under
    [== nil] and under JSON encoding, never under [len] or [range]. *)
Definition slice (A : Type) : Type := option (list A).
Definition elems {A} (s : slice A) : list A := default [] s.
Definition slice_len {A} (s : slice A) : Z := Z.of_nat (length (elems s)).

(** * Errors

    The error values the program compares by identity ([errors.Is],
    [errors.As]) are sentinels; every other error is known by its message.
    [fmt.Errorf("pre: %w", e)] is [EWrap "pre: " e]. *)
Inductive sentinel :=
  | ErrNotFound
  | ErrPoolClosed
  | RedisNil
  | DeadlineExceeded
  | Canceled
  | EOF
  | UnexpectedEOF
  | ServerClosed
  | MaxBytesError (limit : Z).

Inductive error :=
  | ESentinel (s : sentinel)
  | ENew (msg : string)
  | EWrap (pre : string) (e : error)
  | ENote (e : error) (post : string).

#[export] Instance sentinel_eq_dec : EqDecision sentinel.
Proof. solve_decision. Defined.
#[export] Instance error_eq_dec : EqDecision error.
Proof. solve_decision. Defined.

Definition sentinel_text (s : sentinel) : string :=
  match s with
  | ErrNotFound => "job not found"
  | ErrPoolClosed => "pool: closed"
  | RedisNil => "redis: nil"
  | DeadlineExceeded => "context deadline exceeded"
  | Canceled => "context canceled"
  | EOF => "EOF"
  | UnexpectedEOF => "unexpected EOF"
  | ServerClosed => "http: Server closed"
  | MaxBytesError _ => "http: request body too large"
  end.

(** [err.Error()]. *)
Fixpoint error_text (e : error) : string :=
  match e with
  | ESentinel s => sentinel_text s
  | ENew msg => msg
  | EWrap pre e => pre +:+ error_text e
  | ENote e post => error_text e +:+ ": " +:+ post
  end.

(** The sentinel at the bottom of the chain of wrapped errors, if any:
    [errors.Is(err, s)] is [error_root err = Some s]. *)
Fixpoint error_root (e : error) : option sentinel :=
  match e with
  | ESentinel s => Some s
  | ENew _ => None
  | EWrap _ e | ENote e _ => error_root e
  end.

Definition errors_is (e : error) (s : sentinel) : bool :=
  bool_decide (error_root e = Some s).

(** * Fallible computations: Go's [(T, error)] pairs *)
Inductive result (A : Type) :=
  | Ok (a : A)
  | Err (e : error).
Arguments Ok {A} a.
Arguments Err {A} e.

#[export] Instance result_ret : MRet result := fun A a => Ok a.
#[export] Instance result_bind : MBind result := fun A B f m =>
  match m with Ok a => f a | Err e => Err e end.
#[export] Instance result_fmap : FMap result := fun A B f m =>
  match m with Ok a => Ok (f a) | Err e => Err e end.

#[export] Instance result_eq_dec `{EqDecision A} : EqDecision (result A).
Proof. solve_decision. Defined.

Definition is_ok {A} (r : result A) : bool :=
  match r with Ok _ => true | Err _ => false end.

(** [if err != nil { return fmt.Errorf(pre, err) }] *)
Definition wrap_err {A} (pre : string) (r : result A) : result A :=
  match r with Ok a => Ok a | Err e => Err (EWrap pre e) end.

(** Left fold with early exit: a Go loop whose body may return an error. *)
Fixpoint foldM {A B} (f : A -> B -> result A) (a : A) (l : list B) : result A :=
  match l with
  | [] => Ok a
  | x :: l => match f a x with Ok a' => foldM f a' l | Err e => Err e end
  end.

Lemma foldM_app {A B} (f : A -> B -> result A) a l1 l2 :
  foldM f a (l1 ++ l2) =
  match foldM f a l1 with Ok a' => foldM f a' l2 | Err e => Err e end.
Proof.
  revert a. induction l1 as [|x l1 IH]; intros a; cbn; [done|].
  by destruct (f a x).
Qed.

(** * Computations over a state that may fail *)
Definition M (S A : Type) : Type := S -> S * result A.
#[export] Instance M_ret {S} : MRet (M S) := fun A a s => (s, Ok a).
#[export] Instance M_bind {S} : MBind (M S) := fun A B f m s =>
  match m s with (s, Ok a) => f a s | (s, Err e) => (s, Err e) end.

Definition fail {S A} (e : error) : M S A := fun s => (s, Err e).
Definition lift {S A} (r : result A) : M S A := fun s => (s, r).
(** An operation of Go type [error]. *)
Definition act {S} (f : S -> S * option error) : M S unit := fun s =>
  match f s with (s, Some e) => (s, Err e) | (s, None) => (s, Ok tt) end.
(** [fmt.Errorf(pre + "%w", err)] on the error of [m]. *)
Definition ctx {S A} (pre : string) (m : M S A) : M S A := fun s =>
  let '(s, r) := m s in (s, wrap_err pre r).
(** Clean up when [m] fails. *)
Definition on_error {S A} (cleanup : S -> S) (m : M S A) : M S A := fun s =>
  match m s with (s, Ok a) => (s, Ok a) | (s, Err e) => (cleanup s, Err e) end.

Section monad.
Context {S : Type}.

Lemma bind_ok {A B} (m : M S A) (f : A -> M S B) s s' b :
  (m ≫= f) s = (s', Ok b) -> exists s1 a, m s = (s1, Ok a) /\ f a s1 = (s', Ok b).
Proof. unfold mbind, M_bind. destruct (m s) as [s1 [a|e]]; [by eauto|done]. Qed.

Lemma bind_step {A B} (m : M S A) (f : A -> M S B) s s1 a :
  m s = (s1, Ok a) -> (m ≫= f) s = f a s1.
Proof. intros H. unfold mbind, M_bind. by rewrite H. Qed.

Lemma ctx_ok {A} pre (m : M S A) s s' a : ctx pre m s = (s', Ok a) -> m s = (s', Ok a).
Proof. unfold ctx. destruct (m s) as [s1 [b|e]]; cbn; by intros [= <- <-]. Qed.

Lemma ctx_step {A} pre (m : M S A) s s1 r : m s = (s1, r) -> ctx pre m s = (s1, wrap_err pre r).
Proof. intros H. unfold ctx. by rewrite H. Qed.

Lemma on_error_ok {A} cleanup (m : M S A) s s' a :
  on_error cleanup m s = (s', Ok a) -> m s = (s', Ok a).
Proof. unfold on_error. by destruct (m s) as [s1 [b|e]]. Qed.

Lemma act_ok f (s s' : S) u : act f s = (s', Ok u) -> f s = (s', None).
Proof. unfold act. destruct (f s) as [s1 [e|]]; by intros [= <-]. Qed.
End monad.

(** ** Observations that a computation leaves as they are *)
Section keeping.
Context {S B : Type} (obs : S -> B).

Definition keeping {A} (m : M S A) : Prop := forall s s' r, m s = (s', r) -> obs s' = obs s.

Lemma keeping_bind {A C} (m : M S A) (f : A -> M S C) :
  keeping m -> (forall a, keeping (f a)) -> keeping (m ≫= f).
Proof.
  intros Hm Hf s s' r. unfold mbind, M_bind. destruct (m s) as [s1 [a|e]] eqn:E.
  - intros Hr. etransitivity; [by eapply Hf|by eapply Hm].
  - intros [= <- <-]. by eapply Hm.
Qed.

Lemma keeping_ctx {A} pre (m : M S A) : keeping m -> keeping (ctx pre m).
Proof. intros Hm s s' r. unfold ctx. destruct (m s) eqn:E. intros [= <- _]. by eapply Hm. Qed.

Lemma keeping_act f : (forall s, obs (f s).1 = obs s) -> keeping (act f).
Proof.
  intros Hf s s' r. unfold act. specialize (Hf s). destruct (f s) as [s1 [e|]]; by intros [= <- _].
Qed.
End keeping.

(** ** Recorded calls

    A state that carries the list of the calls made so far, each event with
    what came of it.  A [course] says which calls a computation that succeeds,
    and one that fails, may have made; courses compose as the code does. *)
Section courses.
Context {E : Type}.

Definition course : Type := bool -> list E -> Prop.

(** One call, and the computation fails exactly if it does. *)
Definition attempt (e : bool -> E) : course := fun ok tr => tr = [e ok].
(** A call that is not looked at. *)
Definition mention (e : E) : course := fun ok tr => ok = true /\ tr = [e].
(** No call, with a given outcome. *)
Definition outcome (b : bool) : course := fun ok tr => ok = b /\ tr = [].
(** The second part runs exactly if the first succeeded. *)
Definition and_then (Q1 Q2 : course) : course := fun ok tr =>
  (ok = false /\ Q1 false tr) \/ exists tr1 tr2, tr = tr1 ++ tr2 /\ Q1 true tr1 /\ Q2 ok tr2.
(** The second part runs exactly if the first failed. *)
Definition or_else (Q1 Q2 : course) : course := fun ok tr =>
  (ok = true /\ Q1 true tr) \/ exists tr1 tr2, tr = tr1 ++ tr2 /\ Q1 false tr1 /\ Q2 ok tr2.
(** Calls at the end, whatever came of it ([defer]). *)
Definition finally (K : list E -> Prop) (Q : course) : course := fun ok tr =>
  exists tr1 tr2, tr = tr1 ++ tr2 /\ Q ok tr1 /\ K tr2.
(** Calls at the end if it failed. *)
Definition undoing (K : list E) (Q : course) : course := fun ok tr =>
  (ok = true /\ Q true tr) \/ ok = false /\ exists tr1, tr = tr1 ++ K /\ Q false tr1.

(** [m] makes the calls of [Q] from state [s], or from any; [log] is the log of
    a state. *)
Definition follows_at {S A} (log : S -> list E) (m : M S A) (s : S) (Q : course) : Prop :=
  forall s' r, m s = (s', r) -> exists tr, log s' = log s ++ tr /\ Q (is_ok r) tr.
Definition follows {S A} (log : S -> list E) (m : M S A) (Q : course) : Prop :=
  forall s, follows_at log m s Q.

Section follows.
Context {S : Type} (log : S -> list E).

Lemma follows_bind {A B} (m : M S A) (f : A -> M S B) Q1 Q2 :
  follows log m Q1 -> (forall a, follows log (f a) Q2) -> follows log (m ≫= f) (and_then Q1 Q2).
Proof.
  intros Hm Hf s s' r. unfold mbind, M_bind. destruct (m s) as [s1 [a|e]] eqn:Em.
  - apply Hm in Em as (tr1 & Hs1 & HQ1). intros Hr. apply Hf in Hr as (tr2 & -> & HQ2).
    exists (tr1 ++ tr2). rewrite Hs1, app_assoc. split; [done|]. right. by exists tr1, tr2.
  - apply Hm in Em as (tr & Hs1 & HQ). intros [= <- <-]. exists tr. split; [done|]. by left.
Qed.

Lemma follows_ctx {A} pre (m : M S A) Q : follows log m Q -> follows log (ctx pre m) Q.
Proof.
  intros Hm s s' r. unfold ctx. destruct (m s) as [s1 r1] eqn:Em. intros [= <- <-].
  apply Hm in Em as (tr & ? & ?). exists tr. split; [done|]. by destruct r1.
Qed.

Lemma follows_act (f : S -> S * option error) e :
  (forall s, log (f s).1 = log s ++ [e (bool_decide ((f s).2 = None))]) -> follows log (act f) (attempt e).
Proof.
  intros Hf s s' r. unfold act. specialize (Hf s). destruct (f s) as [s1 [x|]]; cbn in Hf;
    intros [= <- <-]; by eexists.
Qed.

Lemma follows_on_error {A} cleanup (m : M S A) s K Q :
  (forall s, log (cleanup s) = log s ++ K) -> follows_at log m s Q ->
  follows_at log (on_error cleanup m) s (undoing K Q).
Proof.
  intros Hc Hm s' r. unfold on_error. destruct (m s) as [s1 [a|e]] eqn:Em;
    apply Hm in Em as (tr & Hs & HQ).
  - intros [= <- <-]. exists tr. split; [done|]. by left.
  - specialize (Hc s1). revert Hc. generalize (cleanup s1). intros s2 Hc [= <- <-].
    exists (tr ++ K). rewrite Hc, Hs, app_assoc. split; [done|]. right. split; [done|by exists tr].
Qed.

(** A first part that makes no call, and whose outcome from [s] is known. *)
Lemma follows_known {A B} (m : M S A) (f : A -> M S B) s Q :
  log (m s).1 = log s -> (forall a, follows log (f a) Q) ->
  follows_at log (m ≫= f) s (and_then (outcome (is_ok (m s).2)) Q).
Proof.
  intros Hm Hf s' r. unfold mbind, M_bind. destruct (m s) as [s1 [a|e]]; cbn in *.
  - intros (tr & Hs & HQ)%Hf. exists tr. rewrite Hs, Hm. split; [done|]. right. by exists [], tr.
  - intros [= <- <-]. exists []. rewrite app_nil_r, Hm. split; [done|]. by left.
Qed.
End follows.
End courses.
Arguments course E : clear implicits.

(** * Transition systems *)
Section reachability.
Context {S : Type} (init : S -> Prop) (step : S -> S -> Prop).

Definition reachable (s : S) : Prop := exists s0, init s0 /\ rtc step s0 s.

(** Rule induction: an inductive invariant holds in every reachable state. *)
Lemma invariant_reachable (I : S -> Prop) :
  (forall s, init s -> I s) ->
  (forall s s', I s -> step s s' -> I s') ->
  forall s, reachable s -> I s.
Proof.
  intros Hi Hs s (s0 & H0 & Hrtc). apply Hi in H0.
  induction Hrtc; eauto.
Qed.

Lemma reachable_step s s' : reachable s -> step s s' -> reachable s'.
Proof. intros (s0 & H0 & Hr) Hs. exists s0. eauto using rtc_r. Qed.
End reachability.

(** * Automation *)
Create HintDb dredd.
Create HintDb bytes.
Create HintDb fields.
#[export] Hint Rewrite of_to_bytes to_of_bytes length_app blen_app : bytes.
#[export] Hint Resolve blen_nonneg : dredd.

(** Case on the scrutinee of a [match] or [if] in the goal (or in [H]),
    discarding the branches that contradict the context. *)
Ltac case_goal :=
  match goal with
  | |- context [match ?x with _ => _ end] => destruct x eqn:?; try done
  end.
Ltac case_hyp H :=
  match type of H with
  | context [match ?x with _ => _ end] => destruct x eqn:?; try done
  end.
Ltac invc H := inversion H; clear H; subst.

(** Reflect the boolean comparisons of the context and the goal, then [lia]. *)
Ltac zlia :=
  repeat match goal with
  | H : (_ && _)%bool = true |- _ => apply andb_prop in H as [? ?]
  | H : (_ || _)%bool = false |- _ => apply orb_false_elim in H as [? ?]
  end;
  rewrite ?Z.ltb_lt, ?Z.leb_le, ?Z.ltb_ge, ?Z.leb_gt, ?Z.eqb_eq, ?Z.eqb_neq in *;
  try lia.
