(* ===== verification/GoInt.v ===== *)
(** Go's machine integers, durations and their text and wire forms: 64-bit
    [int] and 32-bit wrap-around, [time.Duration], [strconv.Itoa]/[Atoi] and
    [binary.BigEndian].  Standard-library behaviour the components rely on;
    the lemmas here (round trips, ranges) are shared by them. *)
From Stdlib Require Import Decimal DecimalFacts DecimalN DecimalZ.
From S2P Require Import Prelude.

(** * Two's complement integers *)
Definition wrap (w : Z) (z : Z) : Z := (z + 2 ^ (w - 1)) mod 2 ^ w - 2 ^ (w - 1).
Definition wrap64 := wrap 64.
Definition wrap32 := wrap 32.
Definition uwrap32 (z : Z) : Z := z mod 2 ^ 32.

Definition min_int64 : Z := - 2 ^ 63.
Definition max_int64 : Z := 2 ^ 63 - 1.
Definition int64 (z : Z) : Prop := min_int64 <= z <= max_int64.

#[export] Instance int64_dec z : Decision (int64 z).
Proof. unfold int64. apply _. Defined.

Lemma wrap64_range z : int64 (wrap64 z).
Proof.
  unfold int64, min_int64, max_int64, wrap64, wrap.
  pose proof (Z.mod_pos_bound (z + 2 ^ (64 - 1)) (2 ^ 64) ltac:(lia)). lia.
Qed.

Lemma wrap64_id z : int64 z -> wrap64 z = z.
Proof.
  unfold int64, min_int64, max_int64, wrap64, wrap. intros H.
  rewrite Z.mod_small; lia.
Qed.

Lemma wrap32_id z : - 2 ^ 31 <= z < 2 ^ 31 -> wrap32 z = z.
Proof. unfold wrap32, wrap. intros H. rewrite Z.mod_small; lia. Qed.

Lemma wrap32_range z : - 2 ^ 31 <= wrap32 z < 2 ^ 31.
Proof.
  unfold wrap32, wrap.
  pose proof (Z.mod_pos_bound (z + 2 ^ (32 - 1)) (2 ^ 32) ltac:(lia)). lia.
Qed.

(** * [time.Duration]: an int64 count of nanoseconds *)
Definition Millisecond : Z := 1000000.
Definition Second : Z := 1000000000.
Definition Minute : Z := 60 * Second.
Definition dur_mul (a b : Z) : Z := wrap64 (a * b).
Definition dur_add (a b : Z) : Z := wrap64 (a + b).
(** Integer division truncates toward zero. *)
Definition int_div (a b : Z) : Z := wrap64 (Z.quot a b).

(** * Bytes as numbers *)
Definition code (c : ascii) : Z := Z.of_N (N_of_ascii c).
(** [byte(v)] of an unsigned [v]. *)
Definition byte_of (z : Z) : ascii := ascii_of_N (Z.to_N (Z.land z 255)).

Lemma code_range c : 0 <= code c < 256.
Proof. unfold code. pose proof (N_ascii_bounded c). lia. Qed.

Lemma code_inj a b : code a = code b -> a = b.
Proof.
  unfold code. intros H%N2Z.inj.
  by rewrite <- (ascii_N_embedding a), H, ascii_N_embedding.
Qed.

Lemma code_byte_of z : code (byte_of z) = z mod 256.
Proof.
  unfold code, byte_of. change 255 with (Z.ones 8).
  rewrite Z.land_ones by lia. change (2 ^ 8) with 256.
  pose proof (Z.mod_pos_bound z 256 ltac:(lia)).
  rewrite N_ascii_embedding by lia. lia.
Qed.

Lemma byte_of_code c : byte_of (code c) = c.
Proof.
  apply code_inj. rewrite code_byte_of.
  apply Z.mod_small, code_range.
Qed.

(** * [binary.BigEndian.PutUint32] and [Uint32] *)
Definition put_uint32 (v : Z) : bytes :=
  [byte_of (Z.shiftr v 24); byte_of (Z.shiftr v 16);
   byte_of (Z.shiftr v 8); byte_of v].

Definition uint32 (b : bytes) : Z :=
  match b with
  | [b0; b1; b2; b3] =>
      Z.lor (code b3) (Z.lor (Z.shiftl (code b2) 8)
        (Z.lor (Z.shiftl (code b1) 16) (Z.shiftl (code b0) 24)))
  | _ => 0
  end.

Lemma put_uint32_length v : length (put_uint32 v) = 4%nat.
Proof. done. Qed.

(** Disjoint bit ranges add up. *)
Lemma lor_shiftl_add a b n :
  0 <= n -> 0 <= a < 2 ^ n -> Z.lor a (Z.shiftl b n) = a + b * 2 ^ n.
Proof.
  intros Hn Ha. rewrite <- Z.shiftl_mul_pow2 by lia.
  rewrite <- Z.lxor_lor, <- Z.add_nocarry_lxor; [done| |].
  all: apply Z.bits_inj'; intros i Hi; rewrite Z.land_spec, Z.bits_0,
    Z.shiftl_spec by lia.
  all: destruct (decide (i < n)) as [Hlt|Hge];
    [rewrite (Z.testbit_neg_r b) by lia; by rewrite andb_false_r|].
  all: replace a with (a mod 2 ^ n) by (apply Z.mod_small; lia).
  all: by rewrite Z.mod_pow2_bits_high by lia.
Qed.

Lemma uint32_sum b0 b1 b2 b3 :
  uint32 [b0; b1; b2; b3] =
  code b3 + 256 * code b2 + 65536 * code b1 + 16777216 * code b0.
Proof.
  pose proof (code_range b0). pose proof (code_range b1).
  pose proof (code_range b2). pose proof (code_range b3).
  cbn [uint32].
  replace (Z.lor (Z.shiftl (code b1) 16) (Z.shiftl (code b0) 24))
    with (Z.shiftl (Z.lor (code b1) (Z.shiftl (code b0) 8)) 16)
    by (rewrite Z.shiftl_lor, Z.shiftl_shiftl by lia; done).
  replace (Z.lor (Z.shiftl (code b2) 8) _)
    with (Z.shiftl (Z.lor (code b2)
       (Z.shiftl (Z.lor (code b1) (Z.shiftl (code b0) 8)) 8)) 8)
    by (rewrite !Z.shiftl_lor, !Z.shiftl_shiftl by lia; done).
  rewrite !lor_shiftl_add by lia. lia.
Qed.

Lemma uint32_range b : 0 <= uint32 b < 2 ^ 32.
Proof.
  destruct b as [|b0 [|b1 [|b2 [|b3 [|]]]]]; try (cbn; lia).
  rewrite uint32_sum.
  pose proof (code_range b0). pose proof (code_range b1).
  pose proof (code_range b2). pose proof (code_range b3). lia.
Qed.

(** Encoding keeps the low 32 bits. *)
Lemma uint32_put v : uint32 (put_uint32 v) = uwrap32 v.
Proof.
  unfold put_uint32, uwrap32. rewrite uint32_sum, !code_byte_of.
  rewrite !Z.shiftr_div_pow2 by lia.
  change (2 ^ 24) with 16777216. change (2 ^ 16) with 65536.
  change (2 ^ 8) with 256. change (2 ^ 32) with 4294967296.
  Z.div_mod_to_equations. lia.
Qed.

Lemma put_uint32_uint32 h : length h = 4%nat -> put_uint32 (uint32 h) = h.
Proof.
  destruct h as [|b0 [|b1 [|b2 [|b3 [|]]]]]; try done. intros _.
  rewrite uint32_sum. unfold put_uint32. rewrite !Z.shiftr_div_pow2 by lia.
  pose proof (code_range b0). pose proof (code_range b1).
  pose proof (code_range b2). pose proof (code_range b3).
  repeat f_equal; apply code_inj; rewrite code_byte_of.
  all: change (2 ^ 24) with 16777216; change (2 ^ 16) with 65536; change (2 ^ 8) with 256.
  all: Z.div_mod_to_equations; lia.
Qed.

(** * Decimal text *)
Fixpoint uint_bytes (d : Decimal.uint) : bytes :=
  match d with
  | Nil => []
  | D0 d => "0"%char :: uint_bytes d
  | D1 d => "1"%char :: uint_bytes d
  | D2 d => "2"%char :: uint_bytes d
  | D3 d => "3"%char :: uint_bytes d
  | D4 d => "4"%char :: uint_bytes d
  | D5 d => "5"%char :: uint_bytes d
  | D6 d => "6"%char :: uint_bytes d
  | D7 d => "7"%char :: uint_bytes d
  | D8 d => "8"%char :: uint_bytes d
  | D9 d => "9"%char :: uint_bytes d
  end.

Definition is_digit (c : ascii) : bool := (48 <=? code c) && (code c <=? 57).

Definition push_digit (c : ascii) (d : Decimal.uint) : Decimal.uint :=
  match code c - 48 with
  | 0 => D0 d | 1 => D1 d | 2 => D2 d | 3 => D3 d | 4 => D4 d
  | 5 => D5 d | 6 => D6 d | 7 => D7 d | 8 => D8 d | _ => D9 d
  end.

(** The digits of a byte string, [None] when some byte is not a digit. *)
Fixpoint digits (b : bytes) : option Decimal.uint :=
  match b with
  | [] => Some Nil
  | c :: b => if is_digit c then push_digit c <$> digits b else None
  end.

(** [strconv.Itoa(z)]. *)
Definition itoa (z : Z) : bytes :=
  if z <? 0 then "-"%char :: uint_bytes (N.to_uint (Z.to_N (- z)))
  else uint_bytes (N.to_uint (Z.to_N z)).

Definition digits_value (b : bytes) : option Z :=
  match b with
  | [] => None
  | _ => (fun d => Z.of_N (N.of_uint d)) <$> digits b
  end.

Definition syntax_error : error := ENew "invalid syntax".
Definition range_error : error := ENew "value out of range".

(** [strconv.Atoi] and [strconv.ParseInt(s, 10, 64)]: an optional sign, at
    least one digit, and a value that fits in 64 bits. *)
Definition atoi (b : bytes) : result Z :=
  let '(neg, ds) :=
    match b with
    | c :: ds => if Ascii.eqb c "-" then (true, ds)
                 else if Ascii.eqb c "+" then (false, ds) else (false, b)
    | [] => (false, b)
    end in
  match digits_value ds with
  | None => Err syntax_error
  | Some n => let v := if neg : bool then - n else n in
              if decide (int64 v) then Ok v else Err range_error
  end.

Lemma digits_uint_bytes d : digits (uint_bytes d) = Some d.
Proof. induction d as [|d IH|d IH|d IH|d IH|d IH|d IH|d IH|d IH|d IH|d IH]; cbn; [done|..]; by rewrite IH. Qed.

Lemma uint_bytes_nil d : uint_bytes d = [] -> d = Nil.
Proof. by destruct d. Qed.

Lemma to_uint_not_nil n : N.to_uint n <> Nil.
Proof. by destruct n as [|p]; [|apply DecimalPos.Unsigned.to_uint_nonnil]. Qed.

Lemma digits_value_to_uint n :
  digits_value (uint_bytes (N.to_uint n)) = Some (Z.of_N n).
Proof.
  unfold digits_value.
  destruct (uint_bytes (N.to_uint n)) eqn:E.
  - by apply uint_bytes_nil, to_uint_not_nil in E.
  - by rewrite <- E, digits_uint_bytes; cbn; rewrite DecimalN.Unsigned.of_to.
Qed.

Lemma uint_bytes_head d : d <> Nil ->
  exists c b, uint_bytes d = c :: b /\ is_digit c = true.
Proof. destruct d; [done|..]; intros _; cbn; eauto. Qed.

(** [Atoi] inverts [Itoa] on every 64-bit integer. *)
Lemma atoi_itoa z : int64 z -> atoi (itoa z) = Ok z.
Proof.
  intros Hz. unfold itoa. destruct (Z.ltb_spec z 0).
  - unfold atoi. cbn [Ascii.eqb]. cbn -[N.to_uint digits_value int64].
    rewrite digits_value_to_uint.
    replace (- Z.of_N (Z.to_N (- z))) with z by lia. by rewrite decide_True.
  - destruct (uint_bytes_head (N.to_uint (Z.to_N z)) (to_uint_not_nil _))
      as (c & b & E & Hc).
    pose proof (digits_value_to_uint (Z.to_N z)) as Hv.
    rewrite E in *. unfold atoi.
    replace (Ascii.eqb c "-") with false by (symmetry; apply Ascii.eqb_neq; by intros ->).
    replace (Ascii.eqb c "+") with false by (symmetry; apply Ascii.eqb_neq; by intros ->).
    rewrite Hv, Z2N.id by lia. by rewrite decide_True.
Qed.

(** The bytes of a decimal number: an optional minus, no leading zero. *)
Lemma digits_all b d : digits b = Some d -> Forall (fun c => is_digit c = true) b.
Proof.
  revert d. induction b as [|c b IH]; intros d; cbn; [done|].
  destruct (is_digit c) eqn:Hc; [|done].
  destruct (digits b); [|done]. intros _. constructor; eauto.
Qed.

Lemma uint_bytes_digits d : Forall (fun c => is_digit c = true) (uint_bytes d).
Proof. eapply digits_all, digits_uint_bytes. Qed.

(** [N.to_uint] is normal: it starts with a zero only when it is that zero. *)
Lemma to_uint_no_leading_zero n b :
  uint_bytes (N.to_uint n) = "0"%char :: b -> b = [].
Proof.
  intros E.
  assert (Hn : unorm (N.to_uint n) = N.to_uint n).
  { rewrite <- (DecimalN.Unsigned.to_of (N.to_uint n)) at 1.
    by rewrite DecimalN.Unsigned.of_to. }
  destruct (N.to_uint n) as [|d|d|d|d|d|d|d|d|d|d]; try done.
  change (match nzhead d with Nil => D0 Nil | d' => d' end = D0 d) in Hn.
  destruct (nzhead d) eqn:En; invc Hn; [by invc E|].
  by apply nzhead_nonzero in En.
Qed.
