(* ===== verification/Utf8.v ===== *)
(** UTF-8 as [unicode/utf8] sees it: a byte string split into the units
    [utf8.DecodeRune] steps over, and the encoding of one rune.  The JSON
    model reads and writes strings unit by unit. *)
From S2P Require Import Prelude GoInt.

Definition rng (lo hi : Z) (c : ascii) : bool := (lo <=? code c) && (code c <=? hi).
Definition cont : ascii -> bool := rng 128 191.

(** Well-formed sequences (Unicode table 3-7, the [first] and [acceptRanges]
    tables of [unicode/utf8]). *)
Definition ascii1 (a : ascii) : bool := code a <? 128.
Definition seq2 (a b : ascii) : bool := rng 194 223 a && cont b.
Definition seq3 (a b c : ascii) : bool :=
  ((rng 224 224 a && rng 160 191 b)
   || (rng 225 236 a && cont b)
   || (rng 237 237 a && rng 128 159 b)
   || (rng 238 239 a && cont b)) && cont c.
Definition seq4 (a b c d : ascii) : bool :=
  ((rng 240 240 a && rng 144 191 b)
   || (rng 241 243 a && cont b)
   || (rng 244 244 a && rng 128 143 b)) && cont c && cont d.

(** One step of [utf8.DecodeRune]: an ASCII byte, a well-formed multi-byte
    sequence, or one invalid byte ([RuneError] of width 1). *)
Inductive unit8 :=
  | UChar (c : ascii)
  | USeq (b : bytes)
  | UBad (c : ascii).

Fixpoint units (s : bytes) : list unit8 :=
  match s with
  | [] => []
  | a :: s1 =>
      if ascii1 a then UChar a :: units s1
      else match s1 with
      | [] => [UBad a]
      | b :: s2 =>
          if seq2 a b then USeq [a; b] :: units s2
          else match s2 with
          | [] => UBad a :: units s1
          | c :: s3 =>
              if seq3 a b c then USeq [a; b; c] :: units s3
              else match s3 with
              | [] => UBad a :: units s1
              | d :: s4 =>
                  if seq4 a b c d then USeq [a; b; c; d] :: units s4
                  else UBad a :: units s1
              end
          end
      end
  end.

Definition unit_ok (u : unit8) : bool :=
  match u with
  | UChar a => ascii1 a
  | USeq [a; b] => seq2 a b
  | USeq [a; b; c] => seq3 a b c
  | USeq [a; b; c; d] => seq4 a b c d
  | USeq _ => false
  | UBad a => negb (ascii1 a)
  end.

Definition raw_unit (u : unit8) : bytes :=
  match u with UChar c => [c] | USeq b => b | UBad c => [c] end.

(** U+FFFD, the replacement character. *)
Definition replacement : bytes := [byte_of 239; byte_of 191; byte_of 189].

(** What a decode/encode pass leaves of a unit. *)
Definition clean_unit (u : unit8) : bytes :=
  match u with UChar c => [c] | USeq b => b | UBad _ => replacement end.

Definition sanitize (s : bytes) : bytes := flat_map clean_unit (units s).

Definition is_bad (u : unit8) : bool := match u with UBad _ => true | _ => false end.

(** [utf8.Valid]. *)
Definition valid_utf8 (s : bytes) : bool := forallb (fun u => negb (is_bad u)) (units s).

(** [utf8.AppendRune(nil, r)] for a rune below 0x10000 that is not a
    surrogate half, or a supplementary rune. *)
Definition encode_rune (r : Z) : bytes :=
  if r <? 128 then [byte_of r]
  else if r <? 2048 then
    [byte_of (192 + Z.shiftr r 6); byte_of (128 + Z.land r 63)]
  else if ((55296 <=? r) && (r <=? 57343)) || (1114111 <? r) then replacement
  else if r <? 65536 then
    [byte_of (224 + Z.shiftr r 12); byte_of (128 + Z.land (Z.shiftr r 6) 63);
     byte_of (128 + Z.land r 63)]
  else
    [byte_of (240 + Z.shiftr r 18); byte_of (128 + Z.land (Z.shiftr r 12) 63);
     byte_of (128 + Z.land (Z.shiftr r 6) 63); byte_of (128 + Z.land r 63)].

(** ** Splitting is exact *)

Lemma seq2_lead a b : seq2 a b = true -> 194 <= code a <= 223.
Proof. unfold seq2, rng. intros H. zlia. Qed.

Lemma seq3_lead a b c : seq3 a b c = true -> 224 <= code a <= 239.
Proof.
  unfold seq3, rng. intros [H _]%andb_prop.
  repeat (apply orb_prop in H as [H|H]); zlia.
Qed.

Lemma seq4_lead a b c d : seq4 a b c d = true -> 240 <= code a <= 244.
Proof.
  unfold seq4, rng. intros [[H _]%andb_prop _]%andb_prop.
  repeat (apply orb_prop in H as [H|H]); zlia.
Qed.

Lemma not_ascii1 a : 128 <= code a -> ascii1 a = false.
Proof. unfold ascii1. intros. zlia. Qed.

Lemma seq2_false a b : 224 <= code a -> seq2 a b = false.
Proof.
  intros. destruct (seq2 a b) eqn:E; [|done]. apply seq2_lead in E. lia.
Qed.

Lemma seq3_false a b c : 240 <= code a -> seq3 a b c = false.
Proof.
  intros. destruct (seq3 a b c) eqn:E; [|done]. apply seq3_lead in E. lia.
Qed.

(** A well-formed character or sequence at the head is one unit. *)
Lemma units_cons u s :
  unit_ok u = true -> is_bad u = false -> units (raw_unit u ++ s) = u :: units s.
Proof.
  destruct u as [a|[|a [|b [|c [|d [|]]]]]|a]; try done; cbn [unit_ok]; intros H _.
  - cbn. by rewrite H.
  - pose proof (seq2_lead _ _ H). cbn [raw_unit app units].
    by rewrite not_ascii1, H by lia.
  - pose proof (seq3_lead _ _ _ H). cbn [raw_unit app units].
    by rewrite not_ascii1, seq2_false, H by lia.
  - pose proof (seq4_lead _ _ _ _ H). cbn [raw_unit app units].
    by rewrite not_ascii1, seq2_false, seq3_false, H by lia.
Qed.

Lemma units_char c s : ascii1 c = true -> units (c :: s) = UChar c :: units s.
Proof. intros H. apply (units_cons (UChar c) s); done. Qed.

Lemma units_chars s t :
  forallb ascii1 s = true -> units (s ++ t) = (UChar <$> s) ++ units t.
Proof.
  induction s as [|c s IH]; [done|]. cbn [forallb]. intros [Hc Hs]%andb_prop.
  change ((c :: s) ++ t) with (c :: (s ++ t)). by rewrite units_char, IH.
Qed.

Ltac units_case H :=
  let E := fresh "E" in
  destruct H as [? E]; cbn [flat_map raw_unit app]; rewrite E;
  split; [constructor; try done|done].

(** Strong induction on units: every unit of a string is well formed, and the
    units concatenate to the string. *)
Lemma units_spec n s :
  (length s < n)%nat ->
  Forall (fun u => unit_ok u = true) (units s) /\ flat_map raw_unit (units s) = s.
Proof.
  revert s. induction n as [|n IH]; intros s Hn; [lia|].
  destruct s as [|a s1]; [done|].
  assert (Hs1 := IH s1 ltac:(cbn in Hn; lia)).
  cbn [units]. destruct (ascii1 a) eqn:Ha; [units_case Hs1|].
  destruct s1 as [|b s2].
  { cbn. split; [repeat constructor; cbn; by rewrite Ha|done]. }
  assert (Hbad : Forall (fun u => unit_ok u = true) (UBad a :: units (b :: s2)) /\
    flat_map raw_unit (UBad a :: units (b :: s2)) = a :: b :: s2).
  { units_case Hs1. cbn. by rewrite Ha. }
  destruct (seq2 a b) eqn:H2; [units_case (IH s2 ltac:(cbn in *; lia))|].
  destruct s2 as [|c s3]; [done|].
  destruct (seq3 a b c) eqn:H3; [units_case (IH s3 ltac:(cbn in *; lia))|].
  destruct s3 as [|d s4]; [done|]. destruct (seq4 a b c d) eqn:H4; [|done].
  units_case (IH s4 ltac:(cbn in *; lia)).
Qed.

Lemma units_ok s : Forall (fun u => unit_ok u = true) (units s).
Proof. by apply (units_spec (S (length s))); lia. Qed.

Lemma units_raw s : flat_map raw_unit (units s) = s.
Proof. by apply (units_spec (S (length s))); lia. Qed.

(** Valid text is its own sanitized form. *)
Lemma sanitize_valid s : valid_utf8 s = true -> sanitize s = s.
Proof.
  unfold valid_utf8, sanitize. intros H. rewrite <- (units_raw s) at 2.
  induction (units s) as [|u us IH]; [done|].
  cbn in H. apply andb_prop in H as [Hu Hus].
  cbn [flat_map]. rewrite IH by done. by destruct u.
Qed.
