(* ===== verification/JsonText.v ===== *)
(** JSON string literals as [encoding/json] writes and reads them: the
    escaping of [Marshal] (HTML-safe), the unescaping of [Unmarshal], and the
    round trip between them up to invalid UTF-8. *)
From S2P Require Import Prelude GoInt Utf8.

Definition dquote : ascii := "034"%char.
Definition bslash : ascii := "\"%char.

Definition hex_digit (z : Z) : ascii :=
  if z <? 10 then byte_of (48 + z) else byte_of (87 + z).

(** Bytes Marshal copies as they are: printable ASCII but the quote, the
    backslash and the HTML-significant characters. *)
Definition html_safe (c : ascii) : bool :=
  rng 32 127 c && negb (Ascii.eqb c dquote) && negb (Ascii.eqb c bslash)
  && negb (Ascii.eqb c "&") && negb (Ascii.eqb c "<") && negb (Ascii.eqb c ">").

Definition u_escape (r : Z) : bytes :=
  [bslash; "u"%char; hex_digit (Z.shiftr r 12); hex_digit (Z.land (Z.shiftr r 8) 15);
   hex_digit (Z.land (Z.shiftr r 4) 15); hex_digit (Z.land r 15)].

Definition escape_char (c : ascii) : bytes :=
  if html_safe c then [c]
  else if Ascii.eqb c bslash || Ascii.eqb c dquote then [bslash; c]
  else if code c =? 8 then [bslash; "b"%char]
  else if code c =? 12 then [bslash; "f"%char]
  else if code c =? 10 then [bslash; "n"%char]
  else if code c =? 13 then [bslash; "r"%char]
  else if code c =? 9 then [bslash; "t"%char]
  else u_escape (code c).

(** U+2028 and U+2029 in UTF-8. *)
Definition line_sep : bytes := [byte_of 226; byte_of 128; byte_of 168].
Definition para_sep : bytes := [byte_of 226; byte_of 128; byte_of 169].

Definition escape_unit (u : unit8) : bytes :=
  match u with
  | UChar c => escape_char c
  | UBad _ => u_escape 65533
  | USeq b => if decide (b = line_sep) then u_escape 8232
              else if decide (b = para_sep) then u_escape 8233 else b
  end.

Definition escape (s : bytes) : bytes := flat_map escape_unit (units s).
Definition quote (s : bytes) : bytes := dquote :: escape s ++ [dquote].

(** ** Reading *)

Definition hex_val (c : ascii) : option Z :=
  if rng 48 57 c then Some (code c - 48)
  else if rng 97 102 c then Some (code c - 87)
  else if rng 65 70 c then Some (code c - 55)
  else None.

Definition is_hex (c : ascii) : bool := if hex_val c is Some _ then true else false.

(** [getu4]: the rune of a [\uXXXX] escape, its four digits given. *)
Definition hex4 (a b c d : ascii) : option Z :=
  match hex_val a, hex_val b, hex_val c, hex_val d with
  | Some a, Some b, Some c, Some d => Some (4096 * a + 256 * b + 16 * c + d)
  | _, _, _, _ => None
  end.

Definition is_surrogate (r : Z) : bool := (55296 <=? r) && (r <=? 57343).

(** [utf16.DecodeRune]: [None] for the replacement character. *)
Definition utf16_decode (r1 r2 : Z) : option Z :=
  if (55296 <=? r1) && (r1 <=? 56319) && (56320 <=? r2) && (r2 <=? 57343)
  then Some (Z.lor (Z.shiftl (r1 - 55296) 10) (r2 - 56320) + 65536)
  else None.

Definition simple_escape (e : ascii) : option ascii :=
  if Ascii.eqb e dquote || Ascii.eqb e bslash || Ascii.eqb e "/" || Ascii.eqb e "'"
  then Some e
  else if Ascii.eqb e "b" then Some (byte_of 8)
  else if Ascii.eqb e "f" then Some (byte_of 12)
  else if Ascii.eqb e "n" then Some (byte_of 10)
  else if Ascii.eqb e "r" then Some (byte_of 13)
  else if Ascii.eqb e "t" then Some (byte_of 9)
  else None.

(** [unquoteBytes] on the units between the quotes. *)
Fixpoint unquote_units (us : list unit8) : option bytes :=
  match us with
  | [] => Some []
  | USeq b :: us => (app b) <$> unquote_units us
  | UBad _ :: us => (app replacement) <$> unquote_units us
  | UChar c :: us1 =>
      if Ascii.eqb c bslash then
        match us1 with
        | UChar e :: us2 =>
            if Ascii.eqb e "u" then
              match us2 with
              | UChar h1 :: UChar h2 :: UChar h3 :: UChar h4 :: us6 =>
                  match hex4 h1 h2 h3 h4 with
                  | None => None
                  | Some r =>
                      if is_surrogate r then
                        match us6 with
                        | UChar b' :: UChar u' :: UChar k1 :: UChar k2 :: UChar k3 :: UChar k4 :: us12 =>
                            match (if Ascii.eqb b' bslash && Ascii.eqb u' "u"
                                   then r' ← hex4 k1 k2 k3 k4; utf16_decode r r' else None) with
                            | Some dec => (app (encode_rune dec)) <$> unquote_units us12
                            | None => (app replacement) <$> unquote_units us6
                            end
                        | _ => (app replacement) <$> unquote_units us6
                        end
                      else (app (encode_rune r)) <$> unquote_units us6
                  end
              | _ => None
              end
            else match simple_escape e with
                 | Some ch => (cons ch) <$> unquote_units us2
                 | None => None
                 end
        | _ => None
        end
      else if Ascii.eqb c dquote || (code c <? 32) then None
      else (cons c) <$> unquote_units us1
  end.

Definition unquote (s : bytes) : option bytes := unquote_units (units s).

(** ** The round trip *)

(** The three shapes of an escaped ASCII byte. *)
Inductive escape_shape (c : ascii) : bytes -> Prop :=
  | shape_plain :
      Ascii.eqb c bslash = false -> Ascii.eqb c dquote = false ->
      (code c <? 32) = false -> escape_shape c [c]
  | shape_short e :
      Ascii.eqb e "u" = false -> Ascii.eqb e "'" = false -> ascii1 e = true ->
      simple_escape e = Some c -> escape_shape c [bslash; e]
  | shape_hex :
      encode_rune (code c) = [c] -> code c < 128 ->
      escape_shape c (u_escape (code c)).

Lemma escape_char_shape c : ascii1 c = true -> escape_shape c (escape_char c).
Proof.
  destruct c as [[] [] [] [] [] [] [] []];
    try (intros H; vm_compute in H; discriminate H); intros _;
    lazymatch goal with |- escape_shape _ ?e => let e' := eval vm_compute in e in
      lazymatch e' with
      | [_] => apply shape_plain
      | [_; _] => change e with e'; apply shape_short
      | _ => apply shape_hex
      end
    end; vm_compute; reflexivity.
Qed.

Lemma hex4_small r : 0 <= r < 128 \/ r = 8232 \/ r = 8233 \/ r = 65533 ->
  match u_escape r with
  | [_; _; a; b; c; d] => hex4 a b c d = Some r
  | _ => False
  end /\ is_surrogate r = false /\ forallb ascii1 (u_escape r) = true
  /\ forallb is_hex (drop 2 (u_escape r)) = true.
Proof.
  intros [Hr|[-> | [-> | ->]]]; [|done..].
  rewrite <- (Z2Nat.id r) by lia.
  assert (Hn : (Z.to_nat r < 128)%nat) by lia. revert Hn. generalize (Z.to_nat r).
  intros n Hn. do 128 (destruct n as [|n]; [done|]). lia.
Qed.

(** Reading a written [\uXXXX]. *)
Lemma unquote_u_escape r us :
  0 <= r < 128 \/ r = 8232 \/ r = 8233 \/ r = 65533 ->
  unquote_units ((UChar <$> u_escape r) ++ us) =
  (app (encode_rune r)) <$> unquote_units us.
Proof.
  intros [H4 [Hs _]]%hex4_small. cbn [u_escape] in H4.
  cbn [u_escape fmap list_fmap app unquote_units]. by rewrite H4, Hs.
Qed.

Lemma unquote_escape_char c us :
  ascii1 c = true ->
  unquote_units ((UChar <$> escape_char c) ++ us) = (app [c]) <$> unquote_units us.
Proof.
  intros Hc. pose proof (code_range c). destruct (escape_char_shape c Hc) as [Hb Hd H32|e Hu _ _ He|Henc Hlt].
  - cbn [fmap list_fmap app unquote_units]. by rewrite Hb, Hd, H32.
  - cbn [fmap list_fmap app unquote_units]. by rewrite Hu, He.
  - by rewrite unquote_u_escape, Henc by lia.
Qed.

Lemma escape_char_ascii c : ascii1 c = true -> forallb ascii1 (escape_char c) = true.
Proof.
  intros Hc. pose proof (code_range c). destruct (escape_char_shape c Hc) as [| |_ ?].
  - cbn. by rewrite Hc.
  - cbn. by rewrite andb_true_r.
  - apply hex4_small. lia.
Qed.

(** Reading back one written unit leaves its cleaned bytes. *)
Lemma unquote_escape_unit u t :
  unit_ok u = true ->
  unquote (escape_unit u ++ t) = (app (clean_unit u)) <$> unquote t.
Proof.
  unfold unquote. destruct u as [c|b|c]; cbn [escape_unit clean_unit]; intros H.
  - rewrite units_chars by (by apply escape_char_ascii).
    by rewrite unquote_escape_char.
  - case_decide; [subst b|case_decide; [subst b|]].
    + rewrite units_chars by (apply hex4_small; auto).
      by rewrite unquote_u_escape by auto.
    + rewrite units_chars by (apply hex4_small; auto).
      by rewrite unquote_u_escape by auto.
    + by rewrite (units_cons (USeq b)).
  - rewrite units_chars by (apply hex4_small; auto).
    by rewrite unquote_u_escape by auto.
Qed.

Lemma unquote_escape s : unquote (escape s) = Some (sanitize s).
Proof.
  unfold escape, sanitize. pose proof (units_ok s) as Hs.
  induction Hs as [|u us Hu Hus IH]; [done|]. cbn [flat_map].
  by rewrite unquote_escape_unit, IH.
Qed.

(** ** The scanner inside a string literal

    [stateInString], [stateInStringEsc] and [stateInStringEscU*]: a literal is
    left by a bare quote, and refused on a control byte or a bad escape. *)
Inductive scan_str :=
  | SBody
  | SEsc
  | SEscU (k : nat).

Inductive scan_res :=
  | Cont (st : scan_str)
  | Close
  | Refuse.

Definition scan_char (st : scan_str) (c : ascii) : scan_res :=
  match st with
  | SBody => if Ascii.eqb c dquote then Close
             else if Ascii.eqb c bslash then Cont SEsc
             else if code c <? 32 then Refuse else Cont SBody
  | SEsc => if Ascii.eqb c "u" then Cont (SEscU 0)
            else if Ascii.eqb c "'" then Refuse
            else if simple_escape c is Some _ then Cont SBody else Refuse
  | SEscU k => if is_hex c then Cont (if (k =? 3)%nat then SBody else SEscU (S k))
               else Refuse
  end.

Fixpoint scan_all (st : scan_str) (b : bytes) : scan_res :=
  match b with
  | [] => Cont st
  | c :: b => match scan_char st c with Cont st' => scan_all st' b | r => r end
  end.

Lemma scan_all_app st b1 b2 :
  scan_all st (b1 ++ b2) =
  match scan_all st b1 with Cont st' => scan_all st' b2 | r => r end.
Proof.
  revert st. induction b1 as [|c b1 IH]; intros st; [done|]. cbn.
  by destruct (scan_char st c).
Qed.

Lemma scan_u_escape r :
  0 <= r < 128 \/ r = 8232 \/ r = 8233 \/ r = 65533 ->
  scan_all SBody (u_escape r) = Cont SBody.
Proof.
  intros [_ [_ [_ H]]]%hex4_small. cbn in H. unfold u_escape.
  repeat (apply andb_prop in H as [? H]). cbn.
  repeat match goal with E : is_hex _ = true |- _ => rewrite E; clear E; cbn end.
  done.
Qed.

Lemma scan_high b : Forall (fun c => 128 <= code c) b -> scan_all SBody b = Cont SBody.
Proof.
  induction 1 as [|c b Hc _ IH]; [done|]. cbn.
  destruct (Ascii.eqb_spec c dquote) as [->|]; [by vm_compute in Hc|].
  destruct (Ascii.eqb_spec c bslash) as [->|]; [by vm_compute in Hc|].
  destruct (Z.ltb_spec (code c) 32); [lia|done].
Qed.

Lemma seq_high b : unit_ok (USeq b) = true -> Forall (fun c => 128 <= code c) b.
Proof.
  destruct b as [|a [|b [|c [|d [|]]]]]; try done; cbn [unit_ok]; intros H;
    [pose proof (seq2_lead _ _ H)|pose proof (seq3_lead _ _ _ H)
    |pose proof (seq4_lead _ _ _ _ H)];
    unfold seq2, seq3, seq4, cont, rng in H; repeat constructor; zlia.
  all: repeat match goal with
    | E : (_ || _)%bool = true |- _ => apply orb_prop in E as [E|E] end; zlia.
Qed.

(** A written unit leaves the scanner inside the literal. *)
Lemma scan_escape_unit u :
  unit_ok u = true -> scan_all SBody (escape_unit u) = Cont SBody.
Proof.
  destruct u as [c|b|c]; cbn [escape_unit]; intros H.
  - pose proof (code_range c).
    destruct (escape_char_shape c H) as [Hb Hd H32|e Hu Hq _ He|Henc Hlt].
    + cbn. by rewrite Hd, Hb, H32.
    + cbn. by rewrite Hu, Hq, He.
    + apply scan_u_escape. lia.
  - case_decide; [|case_decide].
    1-2: apply scan_u_escape; auto.
    by apply scan_high, seq_high.
  - apply scan_u_escape; auto.
Qed.

Lemma scan_escape s : scan_all SBody (escape s) = Cont SBody.
Proof.
  unfold escape. induction (units_ok s) as [|u us Hu _ IH]; [done|].
  cbn [flat_map]. by rewrite scan_all_app, scan_escape_unit.
Qed.

(** ** [%q] and [%d] of [fmt] *)

(** [strconv.Quote], with every well-formed multi-byte sequence taken as
    printable. *)
Definition quote_go_unit (u : unit8) : bytes :=
  match u with
  | USeq b => b
  | UBad c => [bslash; "x"%char; hex_digit (Z.shiftr (code c) 4); hex_digit (Z.land (code c) 15)]
  | UChar c =>
      if Ascii.eqb c dquote || Ascii.eqb c bslash then [bslash; c]
      else if rng 32 126 c then [c]
      else if code c =? 7 then [bslash; "a"%char]
      else if code c =? 8 then [bslash; "b"%char]
      else if code c =? 12 then [bslash; "f"%char]
      else if code c =? 10 then [bslash; "n"%char]
      else if code c =? 13 then [bslash; "r"%char]
      else if code c =? 9 then [bslash; "t"%char]
      else if code c =? 11 then [bslash; "v"%char]
      else [bslash; "x"%char; hex_digit (Z.shiftr (code c) 4); hex_digit (Z.land (code c) 15)]
  end.

Definition fmt_q (s : string) : string :=
  of_bytes (dquote :: flat_map quote_go_unit (units (to_bytes s)) ++ [dquote]).

Definition fmt_d (z : Z) : string := of_bytes (itoa z).
