(* ===== verification/Json.v ===== *)
(** [encoding/json]: values, the compact printer of [Marshal], the byte-wise
    scanner behind [Unmarshal] and [Decoder.Decode] as a state machine over an
    explicit stack, and the theorem that scanning a printed value gives the
    value back (strings with their invalid UTF-8 replaced). *)
From S2P Require Import Prelude GoInt Utf8 JsonText.

#[local] Set Warnings "-register-all".

(** A JSON value.  Numbers keep their literal; strings and keys are decoded. *)
Inductive json :=
  | JNull
  | JBool (b : bool)
  | JNum (lit : string)
  | JStr (s : string)
  | JArr (l : list json)
  | JObj (l : list (string * json)).

Section json_ind.
Context (P : json -> Prop).
Context (HNull : P JNull) (HBool : forall b, P (JBool b))
  (HNum : forall s, P (JNum s)) (HStr : forall s, P (JStr s))
  (HArr : forall l, Forall P l -> P (JArr l))
  (HObj : forall l, Forall (fun kv => P kv.2) l -> P (JObj l)).

(** Induction that reaches the elements of arrays and objects. *)
Fixpoint json_ind' (v : json) : P v :=
  match v with
  | JNull => HNull
  | JBool b => HBool b
  | JNum s => HNum s
  | JStr s => HStr s
  | JArr l => HArr l ((fix go l : Forall P l :=
      match l return Forall P l with
      | [] => List.Forall_nil _
      | x :: l => List.Forall_cons _ x l (json_ind' x) (go l)
      end) l)
  | JObj l => HObj l ((fix go l : Forall (fun kv => P kv.2) l :=
      match l return Forall (fun kv => P kv.2) l with
      | [] => List.Forall_nil _
      | kv :: l => List.Forall_cons _ kv l (json_ind' kv.2) (go l)
      end) l)
  end.
End json_ind.

(** ** Printing *)
Fixpoint sep (l : list bytes) : bytes :=
  match l with
  | [] => []
  | [x] => x
  | x :: l => x ++ ","%char :: sep l
  end.

Definition print_string (s : string) : bytes := quote (to_bytes s).

Fixpoint print (v : json) : bytes :=
  match v with
  | JNull => b#"null"
  | JBool true => b#"true"
  | JBool false => b#"false"
  | JNum lit => to_bytes lit
  | JStr s => print_string s
  | JArr l => "["%char :: sep (map print l) ++ ["]"%char]
  | JObj l => "{"%char ::
      sep (map (fun kv => print_string kv.1 ++ ":"%char :: print kv.2) l) ++ ["}"%char]
  end.

(** ** Scanning *)
Inductive numst := NNeg | N0 | N1 | NDot | NDot0 | NE | NESign | NE0.

Definition is_e (c : ascii) : bool := Ascii.eqb c "e" || Ascii.eqb c "E".
Definition is_sign (c : ascii) : bool := Ascii.eqb c "+" || Ascii.eqb c "-".

Definition num_start (c : ascii) : option numst :=
  if Ascii.eqb c "-" then Some NNeg
  else if Ascii.eqb c "0" then Some N0
  else if is_digit c then Some N1 else None.

Definition num_step (n : numst) (c : ascii) : option numst :=
  match n with
  | NNeg => if Ascii.eqb c "0" then Some N0 else if is_digit c then Some N1 else None
  | N1 => if is_digit c then Some N1
          else if Ascii.eqb c "." then Some NDot else if is_e c then Some NE else None
  | N0 => if Ascii.eqb c "." then Some NDot else if is_e c then Some NE else None
  | NDot => if is_digit c then Some NDot0 else None
  | NDot0 => if is_digit c then Some NDot0 else if is_e c then Some NE else None
  | NE => if is_sign c then Some NESign else if is_digit c then Some NE0 else None
  | NESign => if is_digit c then Some NE0 else None
  | NE0 => if is_digit c then Some NE0 else None
  end.

Definition num_final (n : numst) : bool :=
  match n with N0 | N1 | NDot0 | NE0 => true | _ => false end.

(** The parse stack: the array or object being read, elements newest first. *)
Inductive frame :=
  | FArr (done : list json)
  | FObj (done : list (string * json)) (key : string).
Notation stack := (list frame).

Inductive state :=
  | BeginValue (k : stack)
  | BeginValueOrEmpty (k : stack)
  | BeginString (done : list (string * json)) (k : stack)
  | BeginStringOrEmpty (k : stack)
  | InString (st : scan_str) (raw : bytes) (key : option (list (string * json))) (k : stack)
  | EndKey (done : list (string * json)) (key : string) (k : stack)
  | InNum (n : numst) (raw : bytes) (k : stack)
  | InLit (rest : bytes) (v : json) (k : stack)
  | EndValue (v : json) (k : stack)
  | Bad.

Definition is_space (c : ascii) : bool :=
  (code c =? 32) || (code c =? 9) || (code c =? 10) || (code c =? 13).

(** [maxNestingDepth] of [encoding/json]. *)
Definition max_nesting : Z := 10000.
Definition can_push (k : stack) : bool := Z.of_nat (length k) <? max_nesting.

Definition step_end_value (v : json) (k : stack) (c : ascii) : state :=
  if is_space c then EndValue v k
  else match k with
  | [] => Bad
  | FArr done :: k' =>
      if Ascii.eqb c "," then BeginValue (FArr (v :: done) :: k')
      else if Ascii.eqb c "]" then EndValue (JArr (rev (v :: done))) k'
      else Bad
  | FObj done key :: k' =>
      if Ascii.eqb c "," then BeginString ((key, v) :: done) k'
      else if Ascii.eqb c "}" then EndValue (JObj (rev ((key, v) :: done))) k'
      else Bad
  end.

Definition step_begin_value (k : stack) (c : ascii) : state :=
  if is_space c then BeginValue k
  else if Ascii.eqb c "{" then (if can_push k then BeginStringOrEmpty k else Bad)
  else if Ascii.eqb c "[" then (if can_push k then BeginValueOrEmpty k else Bad)
  else if Ascii.eqb c dquote then InString SBody [] None k
  else if Ascii.eqb c "t" then InLit (b#"rue") (JBool true) k
  else if Ascii.eqb c "f" then InLit (b#"alse") (JBool false) k
  else if Ascii.eqb c "n" then InLit (b#"ull") JNull k
  else match num_start c with Some n => InNum n [c] k | None => Bad end.

Definition step_begin_string (done : list (string * json)) (k : stack) (c : ascii) : state :=
  if is_space c then BeginString done k
  else if Ascii.eqb c dquote then InString SBody [] (Some done) k
  else Bad.

(** The closing quote: the literal is unquoted, as a key or as a value. *)
Definition close_string (raw : bytes) (key : option (list (string * json))) (k : stack) : state :=
  match unquote (rev raw) with
  | None => Bad
  | Some s => match key with
              | Some done => EndKey done (of_bytes s) k
              | None => EndValue (JStr (of_bytes s)) k
              end
  end.

Definition step (st : state) (c : ascii) : state :=
  match st with
  | BeginValue k => step_begin_value k c
  | BeginValueOrEmpty k =>
      if is_space c then st
      else if Ascii.eqb c "]" then EndValue (JArr []) k
      else step_begin_value (FArr [] :: k) c
  | BeginString done k => step_begin_string done k c
  | BeginStringOrEmpty k =>
      if is_space c then st
      else if Ascii.eqb c "}" then EndValue (JObj []) k
      else step_begin_string [] k c
  | InString s raw key k =>
      match scan_char s c with
      | Cont s' => InString s' (c :: raw) key k
      | Close => close_string raw key k
      | Refuse => Bad
      end
  | EndKey done key k =>
      if is_space c then st
      else if Ascii.eqb c ":" then BeginValue (FObj done key :: k)
      else Bad
  | InNum n raw k =>
      match num_step n c with
      | Some n' => InNum n' (c :: raw) k
      | None => if num_final n then step_end_value (JNum (of_bytes (rev raw))) k c
                else Bad
      end
  | InLit [] v k => step_end_value v k c
  | InLit [x] v k => if Ascii.eqb c x then EndValue v k else Bad
  | InLit (x :: rest) v k => if Ascii.eqb c x then InLit rest v k else Bad
  | EndValue v k => step_end_value v k c
  | Bad => Bad
  end.

Definition run (st : state) (b : bytes) : state := fold_left step b st.

(** The end of the input: the scanner is fed a space. *)
Definition at_eof (st : state) : option json :=
  match step st " " with EndValue v [] => Some v | _ => None end.

(** The value a whole document holds ([checkValid] and the decode after it). *)
Definition parse (b : bytes) : option json := at_eof (run (BeginValue []) b).

(** ** The round trip *)

Fixpoint num_run (n : numst) (b : bytes) : option numst :=
  match b with
  | [] => Some n
  | c :: b => match num_step n c with Some n' => num_run n' b | None => None end
  end.

(** A JSON number literal. *)
Definition valid_num (s : string) : bool :=
  match to_bytes s with
  | [] => false
  | c :: b => match num_start c with
              | Some n => match num_run n b with Some n' => num_final n' | None => false end
              | None => false
              end
  end.

Fixpoint json_ok (v : json) : bool :=
  match v with
  | JNum lit => valid_num lit
  | JArr l => forallb json_ok l
  | JObj l => forallb (fun kv => json_ok kv.2) l
  | _ => true
  end.

Fixpoint jdepth (v : json) : nat :=
  match v with
  | JArr l => S (fold_right (fun x n => Nat.max (jdepth x) n) O l)
  | JObj l => S (fold_right (fun kv n => Nat.max (jdepth kv.2) n) O l)
  | _ => O
  end.

Definition clean_string (s : string) : string := of_bytes (sanitize (to_bytes s)).

Fixpoint jclean (v : json) : json :=
  match v with
  | JStr s => JStr (clean_string s)
  | JArr l => JArr (map jclean l)
  | JObj l => JObj (map (fun kv => (clean_string kv.1, jclean kv.2)) l)
  | _ => v
  end.

#[global] Arguments run : simpl never.

Lemma run_cons st c b : run st (c :: b) = run (step st c) b.
Proof. done. Qed.

Lemma run_nil st : run st [] = st.
Proof. done. Qed.

Lemma run_app st a b : run st (a ++ b) = run (run st a) b.
Proof. apply fold_left_app. Qed.

(** A state that has read the value [v] in context [k], up to the lookahead a
    number literal needs. *)
Inductive ends (v : json) (k : stack) : state -> Prop :=
  | ends_value : ends v k (EndValue v k)
  | ends_num n raw :
      num_final n = true -> v = JNum (of_bytes (rev raw)) -> ends v k (InNum n raw k).

Definition delim (c : ascii) : bool :=
  Ascii.eqb c "," || Ascii.eqb c "]" || Ascii.eqb c "}" || is_space c.

Lemma delim_num n c : delim c = true -> num_step n c = None.
Proof. destruct n, c as [[] [] [] [] [] [] [] []]; first [done|intros H; vm_compute in H; discriminate H]. Qed.

Lemma ends_delim v k st c :
  ends v k st -> delim c = true -> step st c = step_end_value v k c.
Proof.
  intros [|n raw Hn ->] Hc; [done|]. cbn. by rewrite delim_num, Hn.
Qed.

(** ** Literals *)

Lemma scan_run b : forall st raw st' key k, scan_all st b = Cont st' ->
  run (InString st raw key k) b = InString st' (rev b ++ raw) key k.
Proof.
  induction b as [|c b IH]; intros st raw st' key k; cbn; [by intros [= ->]|].
  rewrite run_cons. cbn.
  destruct (scan_char st c) as [s| |]; [|done..]. intros H.
  rewrite (IH _ (c :: raw) st') by done. by rewrite <- app_assoc.
Qed.

(** Reading a printed string, as a value or as a key. *)
Lemma run_print_string s key k :
  run (InString SBody [] key k) (escape (to_bytes s) ++ [dquote]) =
  match key with
  | Some done => EndKey done (clean_string s) k
  | None => EndValue (JStr (clean_string s)) k
  end.
Proof.
  rewrite run_app, (scan_run _ _ _ SBody) by apply scan_escape. rewrite run_cons, run_nil. cbn.
  rewrite app_nil_r. unfold close_string.
  rewrite rev_involutive, unquote_escape. done.
Qed.

Lemma run_num n raw k b n' :
  num_run n b = Some n' -> run (InNum n raw k) b = InNum n' (rev b ++ raw) k.
Proof.
  revert n raw. induction b as [|c b IH]; intros n raw; cbn; [by intros [= ->]|].
  rewrite run_cons. cbn.
  destruct (num_step n c); [|done]. intros H.
  rewrite (IH _ (c :: raw)) by done. by rewrite <- app_assoc.
Qed.

Lemma num_start_not_special c n :
  num_start c = Some n ->
  is_space c = false /\ Ascii.eqb c "{" = false /\ Ascii.eqb c "[" = false /\
  Ascii.eqb c "]" = false /\
  Ascii.eqb c dquote = false /\ Ascii.eqb c "t" = false /\ Ascii.eqb c "f" = false /\
  Ascii.eqb c "n" = false.
Proof. destruct c as [[] [] [] [] [] [] [] []]; first [done|intros H; vm_compute in H; discriminate H]. Qed.

Lemma run_valid_num s k :
  valid_num s = true ->
  ends (JNum s) k (run (BeginValue k) (to_bytes s)).
Proof.
  unfold valid_num. destruct (to_bytes s) as [|c b] eqn:E; [done|].
  destruct (num_start c) as [n|] eqn:Hn; [|done].
  destruct (num_run n b) as [n'|] eqn:Hr; [|done]. intros Hf.
  destruct (num_start_not_special _ _ Hn) as (H1 & H2 & H3 & _ & H4 & H5 & H6 & H7).
  rewrite run_cons. cbn [step]. unfold step_begin_value.
  rewrite H1, H2, H3, H4, H5, H6, H7, Hn.
  rewrite (run_num _ _ _ _ _ Hr). apply ends_num; [done|].
  rewrite rev_app_distr, rev_involutive. change (rev [c] ++ b) with (c :: b).
  by rewrite <- E, of_to_bytes.
Qed.

(** ** Values *)

(** Where [v] may be read: the nesting limit leaves room for it. *)
Definition fits (n : nat) (v : json) : Prop := Z.of_nat (n + jdepth v) <= max_nesting.

(** A printer whose text of [v] is read back as [v]. *)
Definition reads_with (pr : json -> bytes) (v : json) : Prop :=
  forall k, fits (length k) v -> ends (jclean v) k (run (BeginValue k) (pr v)).
Definition reads_back : json -> Prop := reads_with print.

(** White space between tokens. *)
Definition blank (ws : bytes) : Prop := forallb is_space ws = true.

Lemma run_blank st ws :
  (forall c, is_space c = true -> step st c = st) -> blank ws -> run st ws = st.
Proof.
  intros Hst. unfold blank. induction ws as [|c ws IH]; [done|].
  cbn [forallb]. intros [Hc Hws]%andb_prop. by rewrite run_cons, Hst, IH.
Qed.

Lemma delim_space c : is_space c = true -> delim c = true.
Proof. unfold delim. intros ->. by rewrite orb_true_r. Qed.

Lemma skip_begin k c : is_space c = true -> step (BeginValue k) c = BeginValue k.
Proof. intros Hc. cbn. unfold step_begin_value. by rewrite Hc. Qed.

Lemma skip_begin_string d k c : is_space c = true -> step (BeginString d k) c = BeginString d k.
Proof. intros Hc. cbn. unfold step_begin_string. by rewrite Hc. Qed.

Lemma skip_end v k c : is_space c = true -> step_end_value v k c = EndValue v k.
Proof. unfold step_end_value. by intros ->. Qed.

Lemma ends_then v k st ws c :
  ends v k st -> blank ws -> delim c = true -> run st (ws ++ [c]) = step_end_value v k c.
Proof.
  intros He Hws Hc. destruct ws as [|w ws]; cbn [app]; rewrite run_cons.
  - rewrite run_nil. by apply ends_delim.
  - unfold blank in Hws. cbn [forallb] in Hws. apply andb_prop in Hws as [Hw Hws].
    rewrite (ends_delim _ _ _ _ He) by by apply delim_space. rewrite skip_end by done.
    rewrite run_app, (run_blank _ ws); [by rewrite run_cons, run_nil| |done].
    intros c' Hc'. by apply skip_end.
Qed.

Lemma reads_then pr v k pre ws c :
  reads_with pr v -> fits (length k) v -> blank pre -> blank ws -> delim c = true ->
  run (BeginValue k) ((pre ++ pr v) ++ ws ++ [c]) = step_end_value (jclean v) k c.
Proof.
  intros H Hf Hp Hws Hc. rewrite <- app_assoc, run_app, (run_blank _ pre) by (try apply skip_begin; done).
  rewrite run_app. apply ends_then; [by apply H|done..].
Qed.

Lemma sep_cons x y l : sep (x :: y :: l) = x ++ ","%char :: sep (y :: l).
Proof. done. Qed.

Section containers.
Context (pr : json -> bytes) (pre post colon : bytes).
Hypotheses (Hpre : blank pre) (Hpost : blank post) (Hcolon : blank colon).

Definition print_element (v : json) : bytes := pre ++ pr v.

Lemma array_loop l : forall x done k,
  Forall (reads_with pr) (x :: l) -> Forall (fits (S (length k))) (x :: l) ->
  run (BeginValue (FArr done :: k)) (sep (map print_element (x :: l)) ++ post ++ ["]"%char]) =
  EndValue (JArr (rev done ++ map jclean (x :: l))) k.
Proof.
  induction l as [|y l IH]; intros x done k Hr Hf;
    inversion_clear Hr as [|? ? Hx Hl]; inversion_clear Hf as [|? ? Fx Fl].
  - cbn [map sep]. unfold print_element. rewrite reads_then by done. done.
  - cbn [map]. rewrite sep_cons, <- app_assoc.
    replace (print_element x ++ _) with ((print_element x ++ [] ++ [","%char])
      ++ sep (map print_element (y :: l)) ++ post ++ ["]"%char])
      by (cbn [app]; by rewrite <- !app_assoc).
    rewrite run_app. unfold print_element at 1. rewrite reads_then by done.
    change (step_end_value (jclean x) (FArr done :: k) ",")
      with (BeginValue (FArr (jclean x :: done) :: k)).
    rewrite IH by done. cbn [rev]. by rewrite <- app_assoc.
Qed.

Definition print_pair (kv : string * json) : bytes :=
  pre ++ print_string kv.1 ++ ":"%char :: colon ++ pr kv.2.
Definition clean_member (kv : string * json) : string * json :=
  (clean_string kv.1, jclean kv.2).

Lemma member_then done s v k ws c :
  reads_with pr v -> fits (S (length k)) v -> blank ws -> delim c = true ->
  run (BeginString done k) (print_pair (s, v) ++ ws ++ [c]) =
  step_end_value (jclean v) (FObj done (clean_string s) :: k) c.
Proof.
  intros Hv Hf Hws Hc. unfold print_pair, print_string, quote. cbn [fst snd].
  rewrite <- !app_assoc, run_app, (run_blank _ pre) by (try apply skip_begin_string; done).
  transitivity (run (BeginString done k) (dquote :: (escape (to_bytes s) ++ [dquote])
    ++ ":"%char :: ((colon ++ pr v) ++ ws ++ [c]))).
  { by f_equal. }
  rewrite run_cons.
  change (step (BeginString done k) dquote) with (InString SBody [] (Some done) k).
  rewrite run_app, run_print_string, run_cons.
  by apply (reads_then pr v (FObj done (clean_string s) :: k)).
Qed.

Lemma object_loop l : forall kv done k,
  Forall (fun kv => reads_with pr kv.2) (kv :: l) ->
  Forall (fun kv => fits (S (length k)) kv.2) (kv :: l) ->
  run (BeginString done k) (sep (map print_pair (kv :: l)) ++ post ++ ["}"%char]) =
  EndValue (JObj (rev done ++ map clean_member (kv :: l))) k.
Proof.
  induction l as [|y l IH]; intros [s v] done k Hr Hf;
    inversion_clear Hr as [|? ? Hx Hl]; inversion_clear Hf as [|? ? Fx Fl].
  - cbn [map sep]. rewrite member_then by done. done.
  - cbn [map]. rewrite sep_cons, <- app_assoc.
    replace (print_pair (s, v) ++ _) with ((print_pair (s, v) ++ [] ++ [","%char])
      ++ sep (map print_pair (y :: l)) ++ post ++ ["}"%char]) by (cbn [app]; by rewrite <- !app_assoc).
    rewrite run_app, member_then by done.
    change (step_end_value (jclean v) (FObj done (clean_string s) :: k) ",")
      with (BeginString ((clean_string s, jclean v) :: done) k).
    rewrite IH by done. cbn [rev]. by rewrite <- app_assoc.
Qed.
End containers.

(** The first byte of a printed value. *)
Lemma print_head v : json_ok v = true ->
  exists c b, print v = c :: b /\ is_space c = false /\ Ascii.eqb c "]" = false.
Proof.
  destruct v as [|[]|s|s|l|l]; cbn; intros H; eauto 6.
  unfold valid_num in H. destruct (to_bytes s) as [|c b]; [done|].
  destruct (num_start c) eqn:Hn; [|done].
  apply num_start_not_special in Hn as (? & _ & _ & ? & _). eauto 6.
Qed.

Lemma fits_arr n l : fits n (JArr l) -> Forall (fits (S n)) l.
Proof.
  unfold fits. cbn. induction l as [|x l IH]; cbn; intros H; constructor; [lia|].
  apply IH. lia.
Qed.

Lemma fits_obj n l : fits n (JObj l) -> Forall (fun kv => fits (S n) kv.2) l.
Proof.
  unfold fits. cbn. induction l as [|x l IH]; cbn; intros H; constructor; [lia|].
  apply IH. lia.
Qed.

Lemma can_push_fits k l : fits (length k) (JArr l) \/ (exists m, fits (length k) (JObj m)) ->
  can_push k = true.
Proof. unfold can_push, fits. cbn. intros [H|[m H]]; cbn in H; zlia. Qed.

Lemma all_ok_reads {A} (f : A -> json) (l : list A) :
  Forall (fun x => json_ok (f x) = true -> reads_back (f x)) l ->
  forallb (fun x => json_ok (f x)) l = true -> Forall (fun x => reads_back (f x)) l.
Proof.
  induction 1 as [|x l Hx _ IH]; cbn; [done|]. intros [? ?]%andb_prop. constructor; auto.
Qed.

(** Every printable value is read back, strings with invalid UTF-8 replaced. *)
Lemma print_reads_back v : json_ok v = true -> reads_back v.
Proof.
  induction v as [|b|s|s|l IH|l IH] using json_ind'; intros Hok k Hf.
  - apply ends_value.
  - destruct b; apply ends_value.
  - by apply run_valid_num.
  - unfold print, print_string, quote. rewrite run_cons.
    change (step (BeginValue k) dquote) with (InString SBody [] None k).
    rewrite run_print_string. apply ends_value.
  - apply (all_ok_reads id) in IH; [|done]. cbn [print]. rewrite run_cons.
    change (step (BeginValue k) "[") with (if can_push k then BeginValueOrEmpty k else Bad).
    rewrite (can_push_fits k l) by auto.
    destruct l as [|x l]; [apply ends_value|].
    replace (run (BeginValueOrEmpty k) _) with
      (run (BeginValue (FArr [] :: k)) (sep (map (print_element print []) (x :: l)) ++ [] ++ ["]"%char])).
    { rewrite array_loop by (try apply fits_arr; done). apply ends_value. }
    cbn in Hok. apply andb_prop in Hok as [Hx _].
    destruct (print_head x Hx) as (c & b & Ex & Hs & Hb).
    change (sep (map (print_element print []) (x :: l)) ++ [] ++ ["]"%char])
      with (sep (map print (x :: l)) ++ ["]"%char]).
    assert (exists b', sep (map print (x :: l)) ++ ["]"%char] = c :: b') as [b' ->].
    { destruct l; cbn [map sep]; rewrite Ex; cbn; eauto. }
    rewrite !run_cons. cbn [step]. by rewrite Hs, Hb.
  - apply (all_ok_reads snd) in IH; [|done]. cbn [print]. rewrite run_cons.
    change (step (BeginValue k) "{") with (if can_push k then BeginStringOrEmpty k else Bad).
    rewrite (can_push_fits k []) by eauto.
    destruct l as [|kv l]; [apply ends_value|].
    change (map _ (kv :: l)) with (map (print_pair print [] []) (kv :: l)).
    replace (run (BeginStringOrEmpty k) _) with
      (run (BeginString [] k) (sep (map (print_pair print [] []) (kv :: l)) ++ [] ++ ["}"%char])).
    { rewrite object_loop by (try apply fits_obj; done). apply ends_value. }
    assert (exists b', sep (map (print_pair print [] []) (kv :: l)) ++ [] ++ ["}"%char] = dquote :: b')
      as [b' Hb] by (destruct l; cbn; eauto).
    cbn [app] in *. rewrite Hb.
    done.
Qed.

(** [Unmarshal] of [Marshal]: the text of a printable value parses to it. *)
Lemma parse_print v :
  json_ok v = true -> fits 0 v -> parse (print v) = Some (jclean v).
Proof.
  intros Hok Hf. unfold parse, at_eof.
  rewrite (ends_delim (jclean v) []); [done| |done].
  by apply print_reads_back.
Qed.
