(* ===== verification/Codec.v ===== *)
(** The typed layer of [encoding/json]: what [Marshal] writes for a Go value
    and what [Unmarshal] stores into one, as the typeclass [JsonCodec] with its
    round-trip law [JsonCodecOk]; the instances for the basic types and
    slices; struct encoding by field list (tags, [omitempty], case-folded key
    lookup, unknown keys); [Decoder.Decode] over a size-capped body. *)
From S2P Require Import Prelude GoInt Utf8 JsonText Json.

(** [j_enc] is [Marshal]; [j_dec cur v] decodes [v] into a variable that holds
    [cur] ([null] leaves most types alone), [None] when the types disagree. *)
Class JsonCodec (A : Type) := {
  j_zero : A;
  j_enc : A -> json;
  j_dec : A -> json -> option A
}.

(** The law: what comes back from [Unmarshal] of [Marshal] is [j_canon a], for
    every value in the range of its Go type ([j_wf]). *)
Class JsonCodecOk (A : Type) `{JsonCodec A} := {
  j_wf : A -> Prop;
  j_canon : A -> A;
  j_ok : forall a, json_ok (j_enc a) = true;
  j_height : nat;
  j_depth : forall a, (jdepth (j_enc a) <= j_height)%nat;
  j_round : forall a, j_wf a -> j_dec j_zero (jclean (j_enc a)) = Some (j_canon a)
}.

Definition marshal `{JsonCodec A} (a : A) : bytes := print (j_enc a).

Definition json_syntax_error : error := ENew "invalid character in JSON input".
Definition json_type_error : error := ENew "json: cannot unmarshal value into Go value".

(** [json.Unmarshal(b, &x)] with [x] zero. *)
Definition unmarshal `{JsonCodec A} (b : bytes) : result A :=
  match parse b with
  | None => Err json_syntax_error
  | Some v => match j_dec j_zero v with
              | Some a => Ok a
              | None => Err json_type_error
              end
  end.

Lemma unmarshal_marshal `{JsonCodecOk A} (a : A) :
  j_wf a -> Z.of_nat j_height <= max_nesting ->
  unmarshal (marshal a) = Ok (j_canon a).
Proof.
  intros Hwf Hh. unfold unmarshal, marshal.
  rewrite parse_print; [by rewrite j_round|apply j_ok|].
  unfold fits. pose proof (j_depth a). lia.
Qed.

(** ** Basic types *)
Section basic.
#[export] Instance string_codec : JsonCodec string := {
  j_zero := "";
  j_enc := JStr;
  j_dec cur v := match v with JStr s => Some s | JNull => Some cur | _ => None end
}.

#[export] Instance bool_codec : JsonCodec bool := {
  j_zero := false;
  j_enc := JBool;
  j_dec cur v := match v with JBool b => Some b | JNull => Some cur | _ => None end
}.

(** A 64-bit [int]: the literal must be an integer in range. *)
#[export] Instance int_codec : JsonCodec Z := {
  j_zero := 0;
  j_enc z := JNum (of_bytes (itoa z));
  j_dec cur v := match v with
                 | JNum lit => match atoi (to_bytes lit) with Ok z => Some z | Err _ => None end
                 | JNull => Some cur
                 | _ => None
                 end
}.

Fixpoint dec_elems `{JsonCodec A} (prev : list A) (l : list json) : option (list A) :=
  match l with
  | [] => Some []
  | v :: l =>
      a ← j_dec (default j_zero (head prev)) v;
      rest ← dec_elems (tail prev) l;
      Some (a :: rest)
  end.

(** A slice: nil is [null]; an array is decoded over the elements already
    there. *)
#[export] Instance slice_codec `{JsonCodec A} : JsonCodec (slice A) := {
  j_zero := None;
  j_enc s := match s with None => JNull | Some l => JArr (map j_enc l) end;
  j_dec cur v := match v with
                 | JNull => Some None
                 | JArr l => Some <$> dec_elems (elems cur) l
                 | _ => None
                 end
}.
End basic.

#[export] Instance string_codec_ok : JsonCodecOk string.
Proof.
  refine {| j_wf _ := True; j_canon := clean_string; j_height := 0 |}; by cbn.
Defined.

#[export] Instance bool_codec_ok : JsonCodecOk bool.
Proof. refine {| j_wf _ := True; j_canon b := b; j_height := 0 |}; by cbn. Defined.

Lemma num_run_digits b n :
  (n = N1 \/ n = NNeg) -> Forall (fun c => is_digit c = true) b ->
  n = N1 \/ (exists c b', b = c :: b' /\ Ascii.eqb c "0" = false) ->
  num_run n b = Some N1.
Proof.
  intros Hn Hb. revert n Hn. induction Hb as [|c b Hc Hb IH]; intros n Hn Hd.
  - destruct Hd as [->|(? & ? & ? & _)]; done.
  - cbn. destruct Hn as [-> | ->]; cbn.
    + rewrite Hc. apply IH; auto.
    + destruct Hd as [|(? & ? & [= <- <-] & ->)]; [done|].
      rewrite Hc. apply IH; auto.
Qed.

Lemma digit_start c : is_digit c = true -> Ascii.eqb c "0" = false -> num_start c = Some N1.
Proof.
  intros Hd H0. unfold num_start.
  destruct (Ascii.eqb_spec c "-") as [->|]; [done|]. by rewrite H0, Hd.
Qed.

(** [Itoa] prints JSON number literals. *)
Lemma valid_num_itoa z : valid_num (of_bytes (itoa z)) = true.
Proof.
  unfold valid_num. rewrite to_of_bytes. unfold itoa.
  assert (Hu : forall n, exists c b, uint_bytes (N.to_uint n) = c :: b /\ is_digit c = true /\
    Forall (fun c => is_digit c = true) b /\ (Ascii.eqb c "0" = true -> b = [])).
  { intros n. destruct (uint_bytes_head (N.to_uint n) (to_uint_not_nil n)) as (c & b & E & Hc).
    pose proof (uint_bytes_digits (N.to_uint n)) as Hd. rewrite E in Hd. invc Hd.
    exists c, b. repeat split; [done..|]. intros ->%Ascii.eqb_eq.
    by apply (to_uint_no_leading_zero n). }
  destruct (z <? 0).
  - destruct (Hu (Z.to_N (- z))) as (c & b & -> & Hc & Hb & H0). cbn.
    destruct (Ascii.eqb c "0") eqn:E0; [by rewrite (H0 eq_refl)|].
    rewrite Hc, (num_run_digits b N1); auto.
  - destruct (Hu (Z.to_N z)) as (c & b & -> & Hc & Hb & H0).
    destruct (Ascii.eqb c "0") eqn:E0.
    + rewrite (H0 eq_refl). apply Ascii.eqb_eq in E0 as ->. done.
    + rewrite digit_start, (num_run_digits b N1); auto.
Qed.

#[export] Instance int_codec_ok : JsonCodecOk Z.
Proof.
  refine {| j_wf := int64; j_canon z := z; j_height := 0 |}.
  - intros a. apply valid_num_itoa.
  - done.
  - intros a Ha. cbn -[atoi itoa]. by rewrite to_of_bytes, atoi_itoa.
Defined.

Lemma dec_elems_round `{JsonCodecOk A} (l : list A) :
  Forall j_wf l ->
  dec_elems [] (map jclean (map j_enc l)) = Some (map j_canon l).
Proof.
  induction 1 as [|a l Ha Hl IH]; [done|]. cbn [map dec_elems head tail default].
  by rewrite j_round, IH.
Qed.

#[export] Instance slice_codec_ok `{JsonCodecOk A} : JsonCodecOk (slice A).
Proof.
  refine {| j_wf (s : slice A) := Forall j_wf (elems s);
            j_canon (s : slice A) := (map j_canon <$> s : slice A);
            j_height := S j_height |}.
  - intros [l|]; [|done]. cbn. induction l; cbn; [done|]. by rewrite j_ok.
  - intros [l|]; [|cbn; lia]. cbn.
    induction l as [|a l IH]; cbn; [lia|]. pose proof (j_depth a). lia.
  - intros [l|]; [|done]. intros Hl. cbn. by rewrite dec_elems_round.
Defined.

(** ** Structs *)

(** One exported field: its tag, whether [omitempty] drops it, and how its
    value is written and read. *)
Record field (A : Type) := Field {
  f_name : string;
  f_omit : A -> bool;
  f_enc : A -> json;
  f_dec : A -> json -> option A
}.
Arguments Field {A}. Arguments f_name {A}. Arguments f_omit {A}.
Arguments f_enc {A}. Arguments f_dec {A}.

Definition mk_field {A} `{JsonCodec T} (name : string) (get : A -> T) (set : T -> A -> A) : field A :=
  {| f_name := name; f_omit _ := false; f_enc a := j_enc (get a);
     f_dec a v := (fun t => set t a) <$> j_dec (get a) v |}.

(** A field tagged [omitempty]. *)
Definition omitempty {A} (empty : A -> bool) (f : field A) : field A :=
  {| f_name := f_name f; f_omit := empty; f_enc := f_enc f; f_dec := f_dec f |}.

Definition empty_string (s : string) : bool := String.eqb s "".
Definition empty_slice {A} (s : slice A) : bool := slice_len s =? 0.

(** [foldName]: ASCII letters upper-cased, and the two other runes that fold
    into ASCII (U+017F to S, U+212A to K); any other byte is kept. *)
Definition upper (c : ascii) : ascii := if rng 97 122 c then byte_of (code c - 32) else c.
Definition fold_unit (u : unit8) : bytes :=
  match u with
  | UChar c => [upper c]
  | USeq b => if decide (b = [byte_of 197; byte_of 191]) then b#"S"
              else if decide (b = [byte_of 226; byte_of 132; byte_of 170]) then b#"K" else b
  | UBad _ => replacement
  end.
Definition fold_name (s : string) : bytes := flat_map fold_unit (units (to_bytes s)).

Definition find_field {A} (fs : list (field A)) (key : string) : option (field A) :=
  match List.find (fun f => String.eqb (f_name f) key) fs with
  | Some f => Some f
  | None => List.find (fun f => bool_decide (fold_name (f_name f) = fold_name key)) fs
  end.

(** Members in order; an unknown key is skipped, or an error under
    [DisallowUnknownFields] ([strict]); a repeated key overwrites. *)
Fixpoint dec_members {A} (strict : bool) (fs : list (field A)) (cur : A)
    (l : list (string * json)) : option A :=
  match l with
  | [] => Some cur
  | (k, v) :: l =>
      match find_field fs k with
      | Some f => match f_dec f cur v with
                  | Some cur' => dec_members strict fs cur' l
                  | None => None
                  end
      | None => if strict then None else dec_members strict fs cur l
      end
  end.

Definition struct_dec {A} (strict : bool) (fs : list (field A)) (cur : A) (v : json) : option A :=
  match v with
  | JNull => Some cur
  | JObj l => dec_members strict fs cur l
  | _ => None
  end.

Definition members {A} (fs : list (field A)) (a : A) : list (string * json) :=
  omap (fun f => if f_omit f a then None else Some (f_name f, f_enc f a)) fs.

Definition struct_enc {A} (fs : list (field A)) (a : A) : json := JObj (members fs a).

Lemma members_cons {A} (f : field A) fs a :
  members (f :: fs) a =
  if f_omit f a then members fs a else (f_name f, f_enc f a) :: members fs a.
Proof. unfold members. cbn. by destruct (f_omit f a). Qed.

Section structs.
Context {A : Type} (fs : list (field A)).

(** Decoding the members of [a] applies each field's decoder in turn. *)
Fixpoint dec_fields (gs : list (field A)) (a cur : A) : option A :=
  match gs with
  | [] => Some cur
  | f :: gs =>
      if f_omit f a then dec_fields gs a cur
      else match f_dec f cur (jclean (f_enc f a)) with
           | Some cur' => dec_fields gs a cur'
           | None => None
           end
  end.

(** Tags are ASCII and pairwise distinct. *)
Definition tags_ok : bool :=
  forallb (fun f => String.eqb (clean_string (f_name f)) (f_name f)) fs
  && bool_decide (NoDup (map (@f_name A) fs)).

Lemma find_self f gs : In f gs -> NoDup (map (@f_name A) gs) ->
  List.find (fun g => String.eqb (f_name g) (f_name f)) gs = Some f.
Proof.
  induction gs as [|g gs IH]; cbn; [done|].
  intros [->|Hin] Hd; [by rewrite String.eqb_refl|]. inversion_clear Hd as [|? ? Hn Hd'].
  destruct (String.eqb_spec (f_name g) (f_name f)) as [E|]; [|auto].
  exfalso. apply Hn. rewrite E. by apply list_elem_of_In, in_map.
Qed.

Lemma dec_members_fields strict gs a cur :
  tags_ok = true -> (forall g, In g gs -> In g fs) ->
  dec_members strict fs cur (map clean_member (members gs a)) = dec_fields gs a cur.
Proof.
  intros [Hc Hd%bool_decide_eq_true]%andb_prop. revert cur.
  induction gs as [|f gs IH]; intros cur Hin; [done|].
  rewrite members_cons. cbn [dec_fields].
  destruct (f_omit f a); [apply IH; auto with datatypes|].
  rewrite forallb_forall in Hc.
  pose proof (proj1 (String.eqb_eq _ _) (Hc f ltac:(auto with datatypes))) as Ef.
  cbn [map dec_members]. unfold clean_member at 1. cbn [fst snd].
  unfold find_field. rewrite Ef, find_self by auto with datatypes.
  destruct (f_dec f cur _); [|done]. apply IH; auto with datatypes.
Qed.

Lemma struct_round strict a cur :
  tags_ok = true ->
  struct_dec strict fs cur (jclean (struct_enc fs a)) = dec_fields fs a cur.
Proof. intros H. unfold struct_enc. cbn. by apply dec_members_fields. Qed.

Lemma struct_ok a :
  Forall (fun f => json_ok (f_enc f a) = true) fs -> json_ok (struct_enc fs a) = true.
Proof.
  unfold struct_enc. cbn [json_ok]. induction 1 as [|f gs Hf _ IH]; [done|].
  rewrite members_cons. destruct (f_omit f a); [done|]. cbn. by rewrite Hf.
Qed.

Lemma struct_depth a n :
  Forall (fun f => jdepth (f_enc f a) <= n)%nat fs -> (jdepth (struct_enc fs a) <= S n)%nat.
Proof.
  unfold struct_enc. cbn [jdepth]. induction 1 as [|f gs Hf _ IH]; [cbn; lia|].
  rewrite members_cons. destruct (f_omit f a); cbn; lia.
Qed.
End structs.

(** One decoded field: the member written for [a] sets the field to what
    survives of it. *)
Lemma dec_field_mk {A} `{JsonCodecOk T} name (get : A -> T) set gs a cur :
  get cur = j_zero -> j_wf (get a) ->
  dec_fields (mk_field name get set :: gs) a cur =
  dec_fields gs a (set (j_canon (get a)) cur).
Proof. intros Hz Hw. cbn. by rewrite Hz, j_round. Qed.

Lemma dec_field_omitempty {A} `{JsonCodecOk T} (p : A -> bool) name (get : A -> T) set gs a cur :
  get cur = j_zero -> j_wf (get a) ->
  dec_fields (omitempty p (mk_field name get set) :: gs) a cur =
  dec_fields gs a (if p a then cur else set (j_canon (get a)) cur).
Proof. intros Hz Hw. cbn. destruct (p a); [done|]. by rewrite Hz, j_round. Qed.

(** Discharge the laws of a struct whose fields are all [mk_field]s. *)
Ltac struct_law :=
  first [ intros; apply struct_ok;
          repeat (constructor; [apply (j_ok _)|]); constructor
        | intros; apply struct_depth;
          repeat (constructor; [etransitivity; [apply (j_depth _)|cbn; lia]|]); constructor ].
Lemma empty_string_true s : empty_string s = true -> s = "".
Proof. apply String.eqb_eq. Qed.

Lemma strings_wf (s : slice string) : j_wf s.
Proof. cbn. rewrite Forall_forall. done. Qed.
#[export] Hint Resolve strings_wf : dredd.

Ltac struct_fields fs :=
  etransitivity; [apply struct_round; vm_compute; reflexivity|]; unfold fs;
  repeat (first [rewrite dec_field_mk by first [done | by auto with dredd | cbn; auto]
    | rewrite dec_field_omitempty by first [done | by repeat case_match]];
    lazymatch goal with
    | |- dec_fields ?gs ?a ?cur = ?r =>
        let c := eval cbn -[j_canon clean_string] in cur in
        change (dec_fields gs a c = r)
    end).

(** ** [Decoder.Decode] over [http.MaxBytesReader] *)

Inductive dec_scan_res :=
  | Complete (v : json)
  | Broken
  | More (st : state).

Definition container (v : json) : bool :=
  match v with JArr _ | JObj _ => true | _ => false end.

(** A top-level scalar ends at the byte after it, whatever that byte is. *)
Definition scalar_end (st : state) (c : ascii) : option json :=
  match st with
  | EndValue v [] => Some v
  | InNum n raw [] => match num_step n c with
                      | None => if num_final n then Some (JNum (of_bytes (rev raw))) else None
                      | Some _ => None
                      end
  | _ => None
  end.

(** [Decoder.readValue] on the bytes that arrive: it stops at the first
    complete value and looks at nothing after it. *)
Fixpoint dec_scan (st : state) (b : bytes) : dec_scan_res :=
  match b with
  | [] => More st
  | c :: b =>
      match scalar_end st c with
      | Some v => Complete v
      | None =>
          match step st c with
          | Bad => Broken
          | EndValue v [] => if container v then Complete v else dec_scan (EndValue v []) b
          | st' => dec_scan st' b
          end
      end
  end.

(** The bytes a capped reader delivers before it fails; 0 is no cap. *)
Definition capped (limit : Z) (body : bytes) : bytes :=
  if 0 <? limit then take (Z.to_nat limit) body else body.

Definition over_cap (limit : Z) (body : bytes) : bool :=
  (0 <? limit) && (limit <? blen body).

Definition decode_stream (limit : Z) (body : bytes) : result json :=
  match dec_scan (BeginValue []) (capped limit body) with
  | Complete v => Ok v
  | Broken => Err json_syntax_error
  | More st =>
      if over_cap limit body then Err (ESentinel (MaxBytesError limit))
      else match at_eof st with
           | Some v => Ok v
           | None => if forallb is_space body then Err (ESentinel EOF)
                     else Err (ESentinel UnexpectedEOF)
           end
  end.

(** ** The stream decoder against the document parser *)

(** Inside a top-level array or object. *)
Definition inside (st : state) : Prop :=
  match st with
  | BeginValue k | InNum _ _ k | InLit _ _ k | EndValue _ k => k <> []
  | InString _ _ None k => k <> []
  | InString _ _ (Some _) _ | EndKey _ _ _ => True
  | BeginValueOrEmpty _ | BeginString _ _ | BeginStringOrEmpty _ => True
  | Bad => False
  end.

Inductive progress : state -> Prop :=
  | prog_bad : progress Bad
  | prog_inside st : inside st -> progress st
  | prog_done v : container v = true -> progress (EndValue v []).

Ltac prog :=
  repeat case_match; simplify_eq;
  first [apply prog_bad | by apply prog_inside | by apply prog_done].

Lemma step_end_progress v k c : k <> [] -> progress (step_end_value v k c).
Proof.
  intros Hk. unfold step_end_value. destruct (is_space c); [by apply prog_inside|].
  destruct k as [|[vs|vs key] k]; [done| |].
  - destruct (Ascii.eqb c ","); [by apply prog_inside|].
    destruct (Ascii.eqb c "]"); [|apply prog_bad].
    destruct k; [by apply prog_done|by apply prog_inside].
  - destruct (Ascii.eqb c ","); [by apply prog_inside|].
    destruct (Ascii.eqb c "}"); [|apply prog_bad].
    destruct k; [by apply prog_done|by apply prog_inside].
Qed.

Lemma step_begin_progress k c : k <> [] -> progress (step_begin_value k c).
Proof. intros Hk. unfold step_begin_value. prog. Qed.

Lemma step_progress st c : inside st -> progress (step st c).
Proof.
  destruct st as [k|k|ms k|k|s raw key k|ms key k|n raw k|rest v k|v k|];
    cbn [inside step]; intros Hk.
  - by apply step_begin_progress.
  - destruct (is_space c); [by apply prog_inside|].
    destruct (Ascii.eqb c "]"); [destruct k; [by apply prog_done|by apply prog_inside]|].
    by apply step_begin_progress.
  - unfold step_begin_string. prog.
  - destruct (is_space c); [by apply prog_inside|].
    destruct (Ascii.eqb c "}"); [destruct k; [by apply prog_done|by apply prog_inside]|].
    unfold step_begin_string. prog.
  - destruct (scan_char s c) as [s'| |]; [by apply prog_inside| |apply prog_bad].
    unfold close_string. destruct (unquote (rev raw)); [|apply prog_bad].
    destruct key; by apply prog_inside.
  - prog.
  - destruct (num_step n c); [by apply prog_inside|].
    destruct (num_final n); [by apply step_end_progress|apply prog_bad].
  - destruct rest as [|x [|y rest]]; [by apply step_end_progress|prog|prog].
  - by apply step_end_progress.
  - done.
Qed.

Lemma run_bad b : run Bad b = Bad.
Proof. by induction b. Qed.

Lemma run_end_top v b v' k : run (EndValue v []) b = EndValue v' k -> v' = v /\ k = [].
Proof.
  induction b as [|c b IH]; [by intros [= -> ->]|].
  rewrite run_cons. cbn [step]. unfold step_end_value.
  destruct (is_space c); [done|]. by rewrite run_bad.
Qed.

Lemma inside_scalar st c : inside st -> scalar_end st c = None.
Proof. destruct st as [| | | | | |n raw [|]| |v [|]|]; by intros H. Qed.

(** Where the document parser ends with a value, the stream decoder stops with
    the same value. *)
Lemma dec_scan_run b : forall st v,
  inside st -> run st b = EndValue v [] -> dec_scan st b = Complete v.
Proof.
  induction b as [|c b IH]; intros st v Hi Hr; [by rewrite run_nil in Hr; subst|].
  rewrite run_cons in Hr. cbn [dec_scan]. rewrite inside_scalar by done.
  destruct (step_progress st c Hi) as [|st' Hst|v' Hv].
  - by rewrite run_bad in Hr.
  - assert (G : dec_scan st' b = Complete v) by by apply IH.
    destruct st' as [| | | | | | | |v' [|]|]; done.
  - rewrite Hv. by destruct (run_end_top _ _ _ _ Hr) as [-> _].
Qed.

Lemma dec_scan_print l :
  json_ok (JObj l) = true -> fits 0 (JObj l) ->
  dec_scan (BeginValue []) (print (JObj l)) = Complete (jclean (JObj l)).
Proof.
  intros Hok Hf. pose proof (print_reads_back (JObj l) Hok [] Hf) as Hr.
  inversion Hr as [E|]; [|done]. clear Hr. cbn [print] in *.
  symmetry in E. rewrite run_cons in E. cbn [dec_scan scalar_end].
  change (step (BeginValue []) "{") with (BeginStringOrEmpty []) in *.
  by apply dec_scan_run.
Qed.

(** What follows a complete value is never looked at. *)
Lemma dec_scan_app b t : forall st v,
  dec_scan st b = Complete v -> dec_scan st (b ++ t) = Complete v.
Proof.
  induction b as [|c b IH]; intros st v; [done|]. cbn [app dec_scan].
  destruct (scalar_end st c); [done|].
  destruct (step st c) as [| | | | | | | |v' [|]|]; eauto.
  destruct (container v'); eauto.
Qed.

(** A value complete within the cap is accepted whatever follows it. *)
Lemma decode_stream_prefix limit b t v :
  dec_scan (BeginValue []) b = Complete v ->
  limit <= 0 \/ blen b <= limit ->
  decode_stream limit (b ++ t) = Ok v.
Proof.
  intros Hd Hl. unfold decode_stream, capped.
  destruct (Z.ltb_spec 0 limit) as [Hpos|_].
  - assert (exists t', take (Z.to_nat limit) (b ++ t) = b ++ t') as [t' ->].
    { exists (take (Z.to_nat limit - length b) t). unfold blen in Hl.
      rewrite take_app. f_equal. apply take_ge. lia. }
    by rewrite (dec_scan_app b t' _ _ Hd).
  - by rewrite (dec_scan_app b t _ _ Hd).
Qed.

(** The decoder reads nothing beyond the cap. *)
Lemma decode_stream_cap limit b :
  0 < limit ->
  match dec_scan (BeginValue []) (take (Z.to_nat limit) b) with
  | Complete v => decode_stream limit b = Ok v
  | Broken => decode_stream limit b = Err json_syntax_error
  | More _ => limit < blen b -> decode_stream limit b = Err (ESentinel (MaxBytesError limit))
  end.
Proof.
  intros Hl. unfold decode_stream, capped, over_cap.
  destruct (Z.ltb_spec 0 limit); [|lia]. cbn [andb].
  destruct (dec_scan _ _); [done|done|].
  intros Hb. destruct (Z.ltb_spec limit (blen b)); [done|lia].
Qed.
