(* ===== verification/Indent.v ===== *)
(** [json.MarshalIndent(v, "", "  ")]: the indented text of a value, and that
    it is read back like the compact one. *)
From S2P Require Import Prelude GoInt Utf8 JsonText Json Codec.

(** A line break and the indentation of depth [d]. *)
Definition line (d : nat) : bytes := byte_of 10 :: replicate (2 * d) " "%char.

Fixpoint print_indent (d : nat) (v : json) : bytes :=
  match v with
  | JArr (x :: l) =>
      "["%char :: sep (map (fun x => line (S d) ++ print_indent (S d) x) (x :: l)) ++ line d ++ ["]"%char]
  | JObj (kv :: l) =>
      "{"%char ::
        sep (map (fun kv => line (S d) ++ print_string kv.1 ++ ":"%char :: [" "%char] ++ print_indent (S d) kv.2)
               (kv :: l)) ++ line d ++ ["}"%char]
  | _ => print v
  end.

Definition marshal_indent `{JsonCodec A} (a : A) : bytes := print_indent 0 (j_enc a).

Lemma line_blank d : blank (line d).
Proof.
  unfold blank, line. cbn [forallb]. apply andb_true_intro. split; [reflexivity|].
  induction (2 * d)%nat as [|n IH]; [done|]. cbn [replicate forallb]. by rewrite IH.
Qed.

Lemma run_skip st ws b :
  (forall c, is_space c = true -> step st c = st) -> blank ws -> run st (ws ++ b) = run st b.
Proof. intros Hst Hws. by rewrite run_app, (run_blank st ws). Qed.

Lemma skip_array_start k c : is_space c = true -> step (BeginValueOrEmpty k) c = BeginValueOrEmpty k.
Proof. intros Hc. cbn. by rewrite Hc. Qed.

Lemma skip_object_start k c : is_space c = true -> step (BeginStringOrEmpty k) c = BeginStringOrEmpty k.
Proof. intros Hc. cbn. by rewrite Hc. Qed.

Lemma indent_head d v : json_ok v = true ->
  exists c b, print_indent d v = c :: b /\ is_space c = false /\ Ascii.eqb c "]" = false.
Proof.
  intros Hok. destruct v as [|b|s|s|[|x l]|[|kv l]]; try (by apply print_head); cbn; by eauto 6.
Qed.

Lemma indent_array d x l :
  json_ok x = true -> Forall (reads_with (print_indent (S d))) (x :: l) ->
  reads_with (print_indent d) (JArr (x :: l)).
Proof.
  intros Hx Hl k Hf.
  cbn [print_indent]. rewrite run_cons.
  change (step (BeginValue k) "[") with (if can_push k then BeginValueOrEmpty k else Bad).
  rewrite (can_push_fits k (x :: l)) by auto.
  replace (run (BeginValueOrEmpty k) _) with
    (run (BeginValue (FArr [] :: k))
       (sep (map (print_element (print_indent (S d)) (line (S d))) (x :: l)) ++ line d ++ ["]"%char])).
  { rewrite array_loop by (try apply line_blank; try apply fits_arr; done). apply ends_value. }
    destruct (indent_head (S d) x Hx) as (c & b & Ex & Hs & Hb).
  assert (exists b', sep (map (print_element (print_indent (S d)) (line (S d))) (x :: l)) ++ line d ++ ["]"%char]
    = line (S d) ++ c :: b') as [b' Hsep].
  { destruct l; cbn [map sep]; unfold print_element at 1; rewrite Ex, <- !app_assoc; cbn [app]; eauto. }
  change (map (fun x => line (S d) ++ print_indent (S d) x) (x :: l))
    with (map (print_element (print_indent (S d)) (line (S d))) (x :: l)).
  rewrite Hsep, (run_skip (BeginValue (FArr [] :: k))), (run_skip (BeginValueOrEmpty k))
    by (try apply line_blank; try apply skip_begin; apply skip_array_start).
  rewrite !run_cons. cbn [step]. by rewrite Hs, Hb.
Qed.

Lemma indent_object d kv l :
  Forall (fun kv => reads_with (print_indent (S d)) kv.2) (kv :: l) ->
  reads_with (print_indent d) (JObj (kv :: l)).
Proof.
  intros Hl k Hf.
  cbn [print_indent]. rewrite run_cons.
  change (step (BeginValue k) "{") with (if can_push k then BeginStringOrEmpty k else Bad).
  rewrite (can_push_fits k []) by eauto.
  change (map _ (kv :: l)) with (map (print_pair (print_indent (S d)) (line (S d)) [" "%char]) (kv :: l)).
  replace (run (BeginStringOrEmpty k) _) with
    (run (BeginString [] k)
       (sep (map (print_pair (print_indent (S d)) (line (S d)) [" "%char]) (kv :: l)) ++ line d ++ ["}"%char])).
  { rewrite object_loop by (try apply line_blank; try apply fits_obj; done). apply ends_value. }
  assert (exists b', sep (map (print_pair (print_indent (S d)) (line (S d)) [" "%char]) (kv :: l))
    ++ line d ++ ["}"%char] = line (S d) ++ dquote :: b') as [b' Hsep].
  { destruct l; cbn [map sep]; unfold print_pair at 1, print_string, quote; rewrite <- !app_assoc; cbn [app]; eauto. }
  by rewrite Hsep, (run_skip (BeginString [] k)), (run_skip (BeginStringOrEmpty k))
    by (try apply line_blank; try apply skip_begin_string; apply skip_object_start).
Qed.

Lemma ok_reads {A} (f : A -> json) pr (l : list A) :
  Forall (fun x => json_ok (f x) = true -> forall d, reads_with (pr d) (f x)) l ->
  forallb (fun x => json_ok (f x)) l = true -> forall d : nat, Forall (fun x => reads_with (pr d) (f x)) l.
Proof.
  intros Hl Hok d. revert Hok. induction Hl as [|x l Hx _ IH]; cbn; [by constructor|].
  intros [? ?]%andb_prop. constructor; auto.
Qed.

(** Every printable value is read back from its indented text. *)
Lemma indent_reads_back v : json_ok v = true -> forall d, reads_with (print_indent d) v.
Proof.
  induction v as [|b|s|s|l IH|l IH] using json_ind'; intros Hok d.
  1-4: exact (print_reads_back _ Hok).
  - destruct l as [|x l]; [exact (print_reads_back _ Hok)|].
    apply indent_array; [|by apply (ok_reads id)].
    cbn in Hok. by apply andb_prop in Hok as [].
  - destruct l as [|kv l]; [exact (print_reads_back _ Hok)|].
    apply indent_object. by apply (ok_reads snd).
Qed.

(** [Unmarshal] of [MarshalIndent], with the blank line end a file has. *)
Lemma unmarshal_indent `{JsonCodecOk A} (a : A) ws :
  blank ws -> j_wf a -> Z.of_nat j_height <= max_nesting ->
  unmarshal (marshal_indent a ++ ws) = Ok (j_canon a).
Proof.
  intros Hws Hwf Hh. unfold unmarshal, marshal_indent, parse.
  assert (Hf : fits 0 (j_enc a)) by (unfold fits; pose proof (j_depth a); lia).
  pose proof (indent_reads_back _ (j_ok a) 0 [] Hf) as He.
  assert (Hr : at_eof (run (BeginValue []) (print_indent 0 (j_enc a) ++ ws)) = Some (jclean (j_enc a))).
  { unfold at_eof. rewrite run_app.
    replace (step (run (run _ _) ws) " ") with (run (run (BeginValue []) (print_indent 0 (j_enc a))) (ws ++ [" "%char]))
      by by rewrite run_app.
    by rewrite (ends_then (jclean (j_enc a)) []). }
  by rewrite Hr, j_round.
Qed.
