(* ===== verification/Agent.v ===== *)
(** agent/proto.go: the wire protocol between the host and the guest agent,
    its messages and their JSON form.  [job_status] and the job record of
    jobs/ are in Jobs.v. *)
From S2P Require Import Prelude GoInt Utf8 JsonText Json Codec.

Definition VsockPort : Z := 52000.
Definition MaxFrameBytes : Z := 32 * 1024 * 1024.

Record ExecRequest := {
  SourceFile : string;
  Source : string;
  CompileCmd : string;
  RunCmd : string;
  Stdins : slice string;
  TimeLimitMs : Z;
  MemoryLimitMb : Z;
  OutputLimitBytes : Z
}.

Record CaseResult := {
  Stdout : string;
  Stderr : string;
  ExitCode : Z;
  TimeMs : Z;
  MemoryKb : Z;
  TimedOut : bool
}.

Record ExecResponse := {
  CompileError : string;
  Results : slice CaseResult;
  AgentError : string
}.

Definition zero_request : ExecRequest := Build_ExecRequest "" "" "" "" None 0 0 0.
Definition zero_case : CaseResult := Build_CaseResult "" "" 0 0 0 false.
Definition zero_response : ExecResponse := Build_ExecResponse "" None "".

(** ** JSON form *)

Definition request_fields : list (field ExecRequest) := [
  mk_field "source_file" SourceFile (fun x r => Build_ExecRequest x (Source r) (CompileCmd r) (RunCmd r) (Stdins r) (TimeLimitMs r) (MemoryLimitMb r) (OutputLimitBytes r));
  mk_field "source" Source (fun x r => Build_ExecRequest (SourceFile r) x (CompileCmd r) (RunCmd r) (Stdins r) (TimeLimitMs r) (MemoryLimitMb r) (OutputLimitBytes r));
  mk_field "compile_cmd" CompileCmd (fun x r => Build_ExecRequest (SourceFile r) (Source r) x (RunCmd r) (Stdins r) (TimeLimitMs r) (MemoryLimitMb r) (OutputLimitBytes r));
  mk_field "run_cmd" RunCmd (fun x r => Build_ExecRequest (SourceFile r) (Source r) (CompileCmd r) x (Stdins r) (TimeLimitMs r) (MemoryLimitMb r) (OutputLimitBytes r));
  mk_field "stdins" Stdins (fun x r => Build_ExecRequest (SourceFile r) (Source r) (CompileCmd r) (RunCmd r) x (TimeLimitMs r) (MemoryLimitMb r) (OutputLimitBytes r));
  mk_field "time_limit_ms" TimeLimitMs (fun x r => Build_ExecRequest (SourceFile r) (Source r) (CompileCmd r) (RunCmd r) (Stdins r) x (MemoryLimitMb r) (OutputLimitBytes r));
  mk_field "memory_limit_mb" MemoryLimitMb (fun x r => Build_ExecRequest (SourceFile r) (Source r) (CompileCmd r) (RunCmd r) (Stdins r) (TimeLimitMs r) x (OutputLimitBytes r));
  mk_field "output_limit_bytes" OutputLimitBytes (fun x r => Build_ExecRequest (SourceFile r) (Source r) (CompileCmd r) (RunCmd r) (Stdins r) (TimeLimitMs r) (MemoryLimitMb r) x)
].

Definition case_fields : list (field CaseResult) := [
  mk_field "stdout" Stdout (fun x r => Build_CaseResult x (Stderr r) (ExitCode r) (TimeMs r) (MemoryKb r) (TimedOut r));
  mk_field "stderr" Stderr (fun x r => Build_CaseResult (Stdout r) x (ExitCode r) (TimeMs r) (MemoryKb r) (TimedOut r));
  mk_field "exit_code" ExitCode (fun x r => Build_CaseResult (Stdout r) (Stderr r) x (TimeMs r) (MemoryKb r) (TimedOut r));
  mk_field "time_ms" TimeMs (fun x r => Build_CaseResult (Stdout r) (Stderr r) (ExitCode r) x (MemoryKb r) (TimedOut r));
  mk_field "memory_kb" MemoryKb (fun x r => Build_CaseResult (Stdout r) (Stderr r) (ExitCode r) (TimeMs r) x (TimedOut r));
  mk_field "timed_out" TimedOut (fun x r => Build_CaseResult (Stdout r) (Stderr r) (ExitCode r) (TimeMs r) (MemoryKb r) x)
].

#[export] Instance ExecRequest_codec : JsonCodec ExecRequest := {
  j_zero := zero_request;
  j_enc := struct_enc request_fields;
  j_dec := struct_dec false request_fields
}.

#[export] Instance CaseResult_codec : JsonCodec CaseResult := {
  j_zero := zero_case;
  j_enc := struct_enc case_fields;
  j_dec := struct_dec false case_fields
}.

Definition response_fields : list (field ExecResponse) := [
  omitempty (fun r => empty_string (CompileError r))
    (mk_field "compile_error" CompileError (fun x r => Build_ExecResponse x (Results r) (AgentError r)));
  omitempty (fun r => empty_slice (Results r))
    (mk_field "results" Results (fun x r => Build_ExecResponse (CompileError r) x (AgentError r)));
  omitempty (fun r => empty_string (AgentError r))
    (mk_field "agent_error" AgentError (fun x r => Build_ExecResponse (CompileError r) (Results r) x))
].

#[export] Instance ExecResponse_codec : JsonCodec ExecResponse := {
  j_zero := zero_response;
  j_enc := struct_enc response_fields;
  j_dec := struct_dec false response_fields
}.

(** ** What survives the wire

    Integers in the range of [int], text with its invalid UTF-8 replaced, and
    under [omitempty] an empty slice comes back nil. *)

Definition canon_request (r : ExecRequest) : ExecRequest :=
  Build_ExecRequest (clean_string (SourceFile r)) (clean_string (Source r))
    (clean_string (CompileCmd r)) (clean_string (RunCmd r)) (j_canon (Stdins r))
    (TimeLimitMs r) (MemoryLimitMb r) (OutputLimitBytes r).

Definition request_wf (r : ExecRequest) : Prop :=
  int64 (TimeLimitMs r) /\ int64 (MemoryLimitMb r) /\ int64 (OutputLimitBytes r).

Definition canon_case (r : CaseResult) : CaseResult :=
  Build_CaseResult (clean_string (Stdout r)) (clean_string (Stderr r))
    (ExitCode r) (TimeMs r) (MemoryKb r) (TimedOut r).

Definition case_wf (r : CaseResult) : Prop :=
  int64 (ExitCode r) /\ int64 (TimeMs r) /\ int64 (MemoryKb r).

#[export] Instance ExecRequest_codec_ok : JsonCodecOk ExecRequest.
Proof.
  refine {| j_wf := request_wf; j_canon := canon_request; j_height := 2 |};
    [struct_law|struct_law|].
  intros r (Ht & Hm & Ho). by struct_fields request_fields.
Defined.

#[export] Instance CaseResult_codec_ok : JsonCodecOk CaseResult.
Proof.
  refine {| j_wf := case_wf; j_canon := canon_case; j_height := 1 |};
    [struct_law|struct_law|].
  intros r (He & Ht & Hm). by struct_fields case_fields.
Defined.

(** Under [omitempty] an empty string or slice is not sent and stays zero. *)
Definition canon_response (r : ExecResponse) : ExecResponse :=
  Build_ExecResponse (clean_string (CompileError r))
    (if empty_slice (Results r) then None else j_canon (Results r))
    (clean_string (AgentError r)).

Definition response_wf (r : ExecResponse) : Prop := Forall case_wf (elems (Results r)).

#[export] Instance ExecResponse_codec_ok : JsonCodecOk ExecResponse.
Proof.
  refine {| j_wf := response_wf; j_canon := canon_response; j_height := 3 |};
    [struct_law|struct_law|].
  intros [ce rs ae] Hw. struct_fields response_fields.
  unfold canon_response. cbn [CompileError Results AgentError dec_fields].
  by destruct (String.eqb_spec ce "") as [->|], (String.eqb_spec ae "") as [->|],
    (empty_slice rs).
Defined.
