(* ===== verification/Filepath.v ===== *)
(** [path/filepath] on Unix, as far as the program uses it: [IsAbs], [Clean],
    [Join], [Base] and [Dir], by splitting a path into its components. *)
From S2P Require Import Prelude GoInt.

Definition slash : ascii := "/"%char.

(** The pieces of a path between slashes ([strings.Split(p, "/")]). *)
Fixpoint split_slash (b : bytes) : list bytes :=
  match b with
  | [] => [[]]
  | c :: b =>
      if Ascii.eqb c slash then [] :: split_slash b
      else match split_slash b with
           | [] => [[c]]
           | p :: ps => (c :: p) :: ps
           end
  end.

Fixpoint join_slash (ps : list bytes) : bytes :=
  match ps with
  | [] => []
  | [p] => p
  | p :: ps => p ++ slash :: join_slash ps
  end.

Definition rooted (b : bytes) : bool :=
  match b with c :: _ => Ascii.eqb c slash | [] => false end.

Definition dot : bytes := b#".".
Definition dotdot : bytes := b#"..".

(** One component against the stack of components kept so far (last first). *)
Definition clean_step (root : bool) (st : list bytes) (p : bytes) : list bytes :=
  if decide (p = [] \/ p = dot) then st
  else if decide (p = dotdot) then
    match st with
    | q :: st' => if decide (q = dotdot) then p :: st else st'
    | [] => if root then [] else [p]
    end
  else p :: st.

Definition clean_parts (root : bool) (ps : list bytes) : list bytes :=
  rev (fold_left (clean_step root) ps []).

Definition clean_bytes (b : bytes) : bytes :=
  let root := rooted b in
  let body := join_slash (clean_parts root (split_slash b)) in
  if root then slash :: body
  else match body with [] => dot | _ => body end.

Definition Clean (p : string) : string := of_bytes (clean_bytes (to_bytes p)).
Definition IsAbs (p : string) : bool := rooted (to_bytes p).

(** [Join] of two elements: empty leading elements are skipped. *)
Definition Join (a b : string) : string :=
  if String.eqb a "" then (if String.eqb b "" then "" else Clean b)
  else Clean (of_bytes (to_bytes a ++ slash :: to_bytes b)).

Fixpoint strip_slashes (r : bytes) : bytes :=
  match r with
  | c :: r' => if Ascii.eqb c slash then strip_slashes r' else r
  | [] => []
  end.

(** [Base]: the last component, trailing slashes removed. *)
Definition Base (p : string) : string :=
  match to_bytes p with
  | [] => "."
  | b => match rev (strip_slashes (rev b)) with
         | [] => "/"
         | b' => of_bytes (List.last (split_slash b') [])
         end
  end.

(** [Dir]: everything before the last slash, cleaned. *)
Definition Dir (p : string) : string :=
  Clean (of_bytes (match removelast (split_slash (to_bytes p)) with
                   | [] => []
                   | ps => join_slash ps ++ [slash]
                   end)).

Definition no_slash (b : bytes) : bool := forallb (fun c => negb (Ascii.eqb c slash)) b.

(** A plain file name: one component that [Clean] keeps. *)
Definition plain (p : string) : bool :=
  let b := to_bytes p in
  no_slash b && negb (bool_decide (b = [])) && negb (bool_decide (b = dot))
  && negb (bool_decide (b = dotdot)).

(** ** Lemmas *)

Lemma split_no_slash b : no_slash b = true -> split_slash b = [b].
Proof.
  induction b as [|c b IH]; [done|]. cbn. intros [Hc Hb]%andb_prop.
  destruct (Ascii.eqb c slash); [done|]. by rewrite IH.
Qed.

Lemma split_slash_nonempty b : split_slash b <> [].
Proof.
  destruct b as [|c b]; [done|]. cbn. destruct (Ascii.eqb c slash); [done|].
  by destruct (split_slash b).
Qed.

Lemma split_app a b :
  split_slash (a ++ slash :: b) = split_slash a ++ split_slash b.
Proof.
  induction a as [|c a IH]; [done|]. cbn. rewrite IH.
  destruct (Ascii.eqb c slash); [done|].
  pose proof (split_slash_nonempty a). by destruct (split_slash a).
Qed.

Lemma join_split b : join_slash (split_slash b) = b.
Proof.
  induction b as [|c b IH]; [done|]. cbn.
  pose proof (split_slash_nonempty b) as Hn.
  destruct (Ascii.eqb_spec c slash) as [->|].
  - destruct (split_slash b) as [|p ps]; [done|]. cbn in *. by rewrite IH.
  - destruct (split_slash b) as [|p [|q ps]]; [done|..]; cbn in *; by rewrite <- IH.
Qed.

(** Joining a plain name below a non-empty directory appends it to the cleaned
    components of the directory. *)
Lemma clean_join_parts root a p :
  plain p = true ->
  clean_parts root (split_slash (a ++ slash :: to_bytes p)) =
  clean_parts root (split_slash a) ++ [to_bytes p].
Proof.
  unfold plain. intros Hp. apply andb_prop in Hp as [Hp Hdd].
  apply andb_prop in Hp as [Hp Hd]. apply andb_prop in Hp as [Hs He].
  rewrite negb_true_iff, bool_decide_eq_false in Hdd, Hd, He.
  rewrite split_app, (split_no_slash (to_bytes p)) by done.
  unfold clean_parts. rewrite fold_left_app. cbn [fold_left].
  unfold clean_step at 1. rewrite decide_False by tauto.
  rewrite decide_False by done. done.
Qed.
