(* ===== verification/Langs.v ===== *)
(** langs/: the language catalogue.  [Language] and [PublicView] with their
    JSON form, [Load] (validation, path resolution, duplicate detection) and
    the registry operations [Get], [All] and [PublicAll]. *)
From S2P Require Import Prelude GoInt Utf8 JsonText Json Codec Filepath.

Module Language.
Record t := {
  ID : string;
  Name : string;
  Version : string;
  Rootfs : string;
  SourceFile : string;
  CompileCmd : string;
  RunCmd : string
}.

Definition zero : t := Build_t "" "" "" "" "" "" "".

Definition fields : list (field t) := [
  mk_field "id" ID (fun x l => Build_t x (Name l) (Version l) (Rootfs l) (SourceFile l) (CompileCmd l) (RunCmd l));
  mk_field "name" Name (fun x l => Build_t (ID l) x (Version l) (Rootfs l) (SourceFile l) (CompileCmd l) (RunCmd l));
  mk_field "version" Version (fun x l => Build_t (ID l) (Name l) x (Rootfs l) (SourceFile l) (CompileCmd l) (RunCmd l));
  mk_field "rootfs" Rootfs (fun x l => Build_t (ID l) (Name l) (Version l) x (SourceFile l) (CompileCmd l) (RunCmd l));
  mk_field "source_file" SourceFile (fun x l => Build_t (ID l) (Name l) (Version l) (Rootfs l) x (CompileCmd l) (RunCmd l));
  mk_field "compile_cmd" CompileCmd (fun x l => Build_t (ID l) (Name l) (Version l) (Rootfs l) (SourceFile l) x (RunCmd l));
  mk_field "run_cmd" RunCmd (fun x l => Build_t (ID l) (Name l) (Version l) (Rootfs l) (SourceFile l) (CompileCmd l) x)
].

Definition canon (l : t) : t :=
  Build_t (clean_string (ID l)) (clean_string (Name l)) (clean_string (Version l))
    (clean_string (Rootfs l)) (clean_string (SourceFile l))
    (clean_string (CompileCmd l)) (clean_string (RunCmd l)).

(** [l.Rootfs = p] *)
Definition with_rootfs (l : t) (p : string) : t :=
  Build_t (ID l) (Name l) (Version l) p (SourceFile l) (CompileCmd l) (RunCmd l).
End Language.

#[export] Instance Language_codec : JsonCodec Language.t := {
  j_zero := Language.zero;
  j_enc := struct_enc Language.fields;
  j_dec := struct_dec false Language.fields
}.

#[export] Instance Language_codec_ok : JsonCodecOk Language.t.
Proof.
  refine {| j_wf _ := True; j_canon := Language.canon; j_height := 1 |};
    [struct_law|struct_law|].
  intros l _. by struct_fields Language.fields.
Defined.

Module PublicView.
Record t := { ID : string; Name : string; Version : string }.

Definition fields : list (field t) := [
  mk_field "id" ID (fun x v => Build_t x (Name v) (Version v));
  mk_field "name" Name (fun x v => Build_t (ID v) x (Version v));
  mk_field "version" Version (fun x v => Build_t (ID v) (Name v) x)
].
End PublicView.

#[export] Instance PublicView_codec : JsonCodec PublicView.t := {
  j_zero := PublicView.Build_t "" "" "";
  j_enc := struct_enc PublicView.fields;
  j_dec := struct_dec false PublicView.fields
}.

(** [func (l Language) Public() PublicView] *)
Definition Public (l : Language.t) : PublicView.t :=
  PublicView.Build_t (Language.ID l) (Language.Name l) (Language.Version l).

Record Registry := {
  byID : gmap string Language.t;
  order : list string
}.

Definition empty_registry : Registry := {| byID := ∅; order := [] |}.

Definition missing_fields (l : Language.t) : bool :=
  String.eqb (Language.ID l) "" || String.eqb (Language.Rootfs l) ""
  || String.eqb (Language.RunCmd l) "" || String.eqb (Language.SourceFile l) "".

(** The rootfs path of an entry, resolved against the rootfs directory. *)
Definition resolve (rootfsDir : string) (l : Language.t) : Language.t :=
  if negb (IsAbs (Language.Rootfs l))
  then Language.with_rootfs l (Join rootfsDir (Language.Rootfs l)) else l.

Definition err_missing : error := ENew "language entry missing required fields".
Definition err_duplicate (id : string) : error :=
  ENew ("duplicate language id " +:+ fmt_q id).

(** The body of the loop of [Load]. *)
Definition add_entry (rootfsDir : string) (r : Registry) (l : Language.t) : result Registry :=
  if missing_fields l then Err err_missing
  else
    let l := resolve rootfsDir l in
    match byID r !! Language.ID l with
    | Some _ => Err (err_duplicate (Language.ID l))
    | None => Ok {| byID := <[Language.ID l := l]> (byID r);
                    order := order r ++ [Language.ID l] |}
    end.

Definition load_list (list : slice Language.t) (rootfsDir : string) : result Registry :=
  foldM (add_entry rootfsDir) empty_registry (elems list).

(** [func Load(path, rootfsDir string)]; [file] is what [os.ReadFile(path)]
    returned. *)
Definition Load (file : result bytes) (rootfsDir : string) : result Registry :=
  match file with
  | Err e => Err (EWrap "read languages file: " e)
  | Ok b =>
      match unmarshal b with
      | Err e => Err (EWrap "parse languages file: " e)
      | Ok list => load_list list rootfsDir
      end
  end.

(** [func (r *Registry) Get(id string) (Language, bool)] *)
Definition Get (r : Registry) (id : string) : option Language.t := byID r !! id.

(** [r.byID[id]]: the zero value when the key is absent. *)
Definition index (r : Registry) (id : string) : Language.t :=
  default Language.zero (byID r !! id).

Definition All (r : Registry) : list Language.t := index r <$> order r.
Definition PublicAll (r : Registry) : list PublicView.t :=
  (fun id => Public (index r id)) <$> order r.

(** ** The registry invariant *)

Record registry_wf (r : Registry) : Prop := {
  wf_nodup : NoDup (order r);
  wf_dom : forall id, id ∈ order r <-> is_Some (byID r !! id);
  wf_entry : forall id l, byID r !! id = Some l ->
    Language.ID l = id /\ missing_fields l = false
}.

Lemma resolve_id d l : Language.ID (resolve d l) = Language.ID l.
Proof. unfold resolve. by destruct (negb _). Qed.

Lemma Clean_nonempty p : Clean p <> "".
Proof.
  unfold Clean, clean_bytes. intros H. apply (f_equal to_bytes) in H.
  rewrite to_of_bytes in H. destruct (rooted _); [done|].
  by destruct (join_slash _).
Qed.

Lemma Join_nonempty a b : b <> "" -> Join a b <> "".
Proof.
  intros Hb. unfold Join. destruct (String.eqb_spec b ""); [done|].
  destruct (String.eqb a ""); apply Clean_nonempty.
Qed.

Lemma resolve_missing d l : missing_fields l = false -> missing_fields (resolve d l) = false.
Proof.
  unfold resolve. destruct (negb _); [|done]. unfold missing_fields. cbn.
  intros [[[H1 H2]%orb_false_elim H3]%orb_false_elim H4]%orb_false_elim.
  rewrite H1, H3, H4. apply String.eqb_neq in H2.
  pose proof (Join_nonempty d (Language.Rootfs l) H2) as Hj.
  by apply String.eqb_neq in Hj as ->.
Qed.

(** ** What [Load] computes *)

(** The reference: a table from id to resolved entry, and the ids in order. *)
Definition catalogue (d : string) (list : list Language.t) : Registry :=
  {| byID := list_to_map ((fun l => (Language.ID l, resolve d l)) <$> list);
     order := Language.ID <$> list |}.

Definition valid_list (list : list Language.t) : Prop :=
  Forall (fun l => missing_fields l = false) list /\ NoDup (Language.ID <$> list).

#[export] Instance valid_list_dec list : Decision (valid_list list).
Proof. unfold valid_list. apply _. Defined.

Lemma keys_catalogue d list :
  ((fun l => (Language.ID l, resolve d l)) <$> list).*1 = Language.ID <$> list.
Proof. rewrite <- list_fmap_compose. done. Qed.

Lemma catalogue_snoc d pre l :
  Language.ID l ∉ Language.ID <$> pre ->
  catalogue d (pre ++ [l]) =
  {| byID := <[Language.ID l := resolve d l]> (byID (catalogue d pre));
     order := order (catalogue d pre) ++ [Language.ID l] |}.
Proof.
  intros Hn. unfold catalogue. cbn. rewrite !fmap_app. f_equal.
  apply list_to_map_snoc. by rewrite keys_catalogue.
Qed.

Lemma catalogue_lookup d list id :
  byID (catalogue d list) !! id = None <-> id ∉ Language.ID <$> list.
Proof. cbn. by rewrite <- (keys_catalogue d list), <- not_elem_of_list_to_map. Qed.

(** One iteration extends the table, or stops on a bad or repeated entry. *)
Lemma add_entry_spec d pre l :
  add_entry d (catalogue d pre) l =
  if missing_fields l then Err err_missing
  else if decide (Language.ID l ∈ Language.ID <$> pre) then Err (err_duplicate (Language.ID l))
  else Ok (catalogue d (pre ++ [l])).
Proof.
  unfold add_entry. destruct (missing_fields l); [done|]. rewrite resolve_id.
  destruct (byID (catalogue d pre) !! Language.ID l) eqn:E; case_decide as Hin; try done.
  - exfalso. assert (byID (catalogue d pre) !! Language.ID l = None) by by apply catalogue_lookup.
    congruence.
  - by apply catalogue_lookup in E.
  - by rewrite catalogue_snoc.
Qed.

Lemma load_from d pre suf :
  valid_list pre ->
  if decide (valid_list (pre ++ suf))
  then foldM (add_entry d) (catalogue d pre) suf = Ok (catalogue d (pre ++ suf))
  else exists e, foldM (add_entry d) (catalogue d pre) suf = Err e.
Proof.
  revert pre. induction suf as [|l suf IH]; intros pre Hpre.
  { rewrite app_nil_r. by rewrite decide_True. }
  cbn [foldM]. rewrite add_entry_spec.
  destruct (missing_fields l) eqn:Hm.
  { rewrite decide_False; [eauto|]. intros [Hf _].
    apply Forall_app in Hf as [_ Hf]. inversion Hf. congruence. }
  destruct (decide (Language.ID l ∈ Language.ID <$> pre)) as [Hin|Hin].
  { rewrite decide_False; [eauto|]. intros [_ Hd]. rewrite fmap_app in Hd.
    apply NoDup_app in Hd as (_ & Hd & _). apply (Hd _ Hin). cbn. by left. }
  replace (pre ++ l :: suf) with ((pre ++ [l]) ++ suf) by by rewrite <- app_assoc.
  apply IH. destruct Hpre as [Hf Hd]. split.
  - apply Forall_app. auto.
  - rewrite fmap_app. apply NoDup_app. split_and!; [done| |apply NoDup_singleton].
    cbn. set_solver.
Qed.

(** [Load] accepts exactly the valid lists, and builds the catalogue. *)
Lemma load_list_ok list d :
  valid_list (elems list) -> load_list list d = Ok (catalogue d (elems list)).
Proof.
  intros Hv. pose proof (load_from d [] (elems list)) as H. cbn [app] in H.
  rewrite decide_True in H by done. apply H. split; [constructor|apply NoDup_nil_2].
Qed.

Lemma load_list_err list d :
  ~ valid_list (elems list) -> exists e, load_list list d = Err e.
Proof.
  intros Hv. pose proof (load_from d [] (elems list)) as H. cbn [app] in H.
  rewrite decide_False in H by done. apply H. split; [constructor|apply NoDup_nil_2].
Qed.

Lemma load_list_inv list d r :
  load_list list d = Ok r -> valid_list (elems list) /\ r = catalogue d (elems list).
Proof.
  intros H. destruct (decide (valid_list (elems list))) as [Hv|Hv].
  - rewrite load_list_ok in H by done. by invc H.
  - destruct (load_list_err list d Hv) as [e He]. congruence.
Qed.

Lemma catalogue_get d list l :
  NoDup (Language.ID <$> list) -> l ∈ list ->
  byID (catalogue d list) !! Language.ID l = Some (resolve d l).
Proof.
  intros Hd Hl. apply elem_of_list_to_map_1; [by rewrite keys_catalogue|].
  apply list_elem_of_fmap. eauto.
Qed.

Lemma catalogue_wf d list : valid_list list -> registry_wf (catalogue d list).
Proof.
  intros [Hf Hd]. split; [done| |].
  - intros id. rewrite <- not_eq_None_Some, catalogue_lookup. cbn.
    destruct (decide (id ∈ Language.ID <$> list)); tauto.
  - intros id l H. cbn in H. apply elem_of_list_to_map_2, list_elem_of_fmap in H
      as (l0 & [= -> ->] & Hin).
    rewrite resolve_id. split; [done|]. apply resolve_missing.
    rewrite Forall_forall in Hf. auto.
Qed.

Lemma catalogue_all d list :
  NoDup (Language.ID <$> list) -> All (catalogue d list) = resolve d <$> list.
Proof.
  intros Hd. unfold All. cbn [order catalogue]. rewrite <- list_fmap_compose.
  apply list_fmap_ext. intros i l Hl. cbn. unfold index.
  rewrite (catalogue_get d list l); [done|done|]. by eapply list_elem_of_lookup_2.
Qed.

(** * Properties *)

(** A registry that [Load] returns comes from a languages file that parses
    to a list whose entries have their required fields and distinct ids; it is
    well formed (ids in file order without repetition, every id bound to its
    own complete entry), [All] lists the entries in file order with their
    rootfs paths resolved, and [PublicAll] their public views. *)
Theorem Load_builds_catalogue file d r :
  Load file d = Ok r ->
  exists b list, file = Ok b /\ unmarshal b = Ok list /\ valid_list (elems list) /\
    registry_wf r /\ All r = resolve d <$> elems list /\
    PublicAll r = Public <$> elems list.
Proof.
  unfold Load. destruct file as [b|e]; [|done].
  destruct (unmarshal b) as [list|e] eqn:Eu; [|done].
  intros (Hv & ->)%load_list_inv. exists b, list.
  pose proof (catalogue_all d (elems list) (proj2 Hv)) as Ha.
  split_and!; [done..|by apply catalogue_wf|done|].
  unfold All in Ha. unfold PublicAll.
  rewrite (list_fmap_compose (index (catalogue d (elems list))) Public), Ha, <- list_fmap_compose.
  apply list_fmap_ext. intros i l _. cbn. unfold resolve. by destruct (negb _).
Qed.

(** [Load] rejects exactly the parsed lists with an entry missing a
    required field or a repeated id. *)
Theorem Load_rejects_exactly_invalid b list d :
  unmarshal b = Ok list ->
  is_ok (Load (Ok b) d) = true <-> valid_list (elems list).
Proof.
  intros Hu. unfold Load. rewrite Hu.
  destruct (decide (valid_list (elems list))) as [Hv|Hv].
  - by rewrite load_list_ok.
  - destruct (load_list_err list d Hv) as [e ->]. done.
Qed.

Definition demo_languages : list Language.t := [
  Language.Build_t "shell" "Shell" "test" "fake.ext4" "main.sh" "" "sh main.sh";
  Language.Build_t "c" "C" "13" "/abs/c.ext4" "main.c" "gcc main.c" "./a.out"].

Lemma Load_builds_catalogue_witness :
  exists r b list, Load (Ok (marshal (Some demo_languages : slice Language.t))) "/rootfs" = Ok r /\
    Ok (marshal (Some demo_languages : slice Language.t)) = Ok b /\
    unmarshal b = Ok list /\ valid_list (elems list) /\
    Language.Rootfs <$> All r = ["/rootfs/fake.ext4"; "/abs/c.ext4"].
Proof.
  destruct (Load_builds_catalogue (Ok (marshal (Some demo_languages : slice Language.t))) "/rootfs"
    (catalogue "/rootfs" demo_languages)) as (b & list & Hb & Hu & Hv & _ & Ha & _).
  { vm_compute. reflexivity. }
  exists (catalogue "/rootfs" demo_languages), b, list. split; [vm_compute; reflexivity|].
  split; [exact Hb|]. split; [exact Hu|]. split; [exact Hv|].
  vm_compute. reflexivity.
Defined.

Lemma Load_rejects_exactly_invalid_witness :
  is_ok (Load (Ok (marshal (Some (demo_languages ++ demo_languages) : slice Language.t))) "/rootfs")
    <> true.
Proof.
  intros H.
  apply (Load_rejects_exactly_invalid _ (Some (demo_languages ++ demo_languages)) "/rootfs") in H.
  - apply (bool_decide_eq_true_2 _) in H. vm_compute in H. discriminate.
  - vm_compute. reflexivity.
Defined.
