(* ===== verification/Jobs.v ===== *)
(** jobs/: the job record and its status. *)
From S2P Require Import Prelude GoInt Agent.

(** [type Status string]: any text can be read back from the store, the code
    writes four values. *)
Definition Status : Type := string.
Definition StatusQueued : Status := "queued".
Definition StatusRunning : Status := "running".
Definition StatusDone : Status := "done".
Definition StatusFailed : Status := "failed".

(** [func (s Status) Terminal() bool] *)
Definition Terminal (s : Status) : bool :=
  String.eqb s StatusDone || String.eqb s StatusFailed.

Module Job.
Record t := {
  ID : string;
  Language : string;
  Source : string;
  Stdins : slice string;
  TimeLimitMs : Z;
  MemoryLimitMb : Z;
  Status : string; (* a Status *)
  Error : string;
  CompileError : string;
  Results : slice CaseResult
}.
End Job.

Lemma Terminal_iff s : Terminal s = true <-> s = StatusDone \/ s = StatusFailed.
Proof. unfold Terminal. by rewrite orb_true_iff, !String.eqb_eq. Qed.
