(* ===== verification/Config.v ===== *)
(** config/config.go: reading and validating the environment.  The
    environment is a map from variable to value ([os.LookupEnv] is its
    lookup); durations are int64 nanoseconds with Go's wrap-around. *)
From S2P Require Import Prelude GoInt Utf8 JsonText.

(** [type PoolStrategy string] *)
Definition PoolStrategy : Type := string.
Definition PoolPrewarmedPerLang : PoolStrategy := "prewarmed_per_lang".
Definition PoolOnDemandSpare : PoolStrategy := "ondemand_spare".
Definition PoolPrewarmedGeneric : PoolStrategy := "prewarmed_generic".

Record Config := {
  HTTPAddr : string;
  RedisURL : string;
  LanguagesFile : string;
  KernelPath : string;
  RootfsDir : string;
  AgentBinary : string;
  GenericRootfs : string;
  Strategy : PoolStrategy;
  PoolSize : Z;
  BootConcurrency : Z;
  WorkerConcurrency : Z;
  ResultTTL : Z;
  VMVcpus : Z;
  VMMemMB : Z;
  DefaultTimeLimit : Z;
  DefaultMemoryLimit : Z;
  OutputLimit : Z;
  MaxRequestBytes : Z;
  FirecrackerBin : string
}.

Notation environ := (gmap string string).

(** [func env(key, def string) string] *)
Definition env (e : environ) (key def : string) : string :=
  match e !! key with
  | Some v => if String.eqb v "" then def else v
  | None => def
  end.

(** [func envInt(key string, def int) int] *)
Definition envInt (e : environ) (key : string) (def : Z) : Z :=
  match e !! key with
  | Some v => if String.eqb v "" then def
              else match atoi (to_bytes v) with Ok n => n | Err _ => def end
  | None => def
  end.

(** The three clamps at the end of [FromEnv]. *)
Definition at_least_one (n : Z) : Z := if n <? 1 then 1 else n.

Definition read_env (e : environ) : Config := {|
  HTTPAddr := env e "DREDD_HTTP_ADDR" ":8080";
  RedisURL := env e "DREDD_REDIS_URL" "redis://localhost:6379/0";
  LanguagesFile := env e "DREDD_LANGUAGES_FILE" "";
  KernelPath := env e "DREDD_KERNEL_PATH" "";
  RootfsDir := env e "DREDD_ROOTFS_DIR" "/var/lib/dredd/rootfs";
  AgentBinary := env e "DREDD_AGENT_BINARY" "";
  GenericRootfs := env e "DREDD_GENERIC_ROOTFS" "";
  Strategy := env e "DREDD_POOL_STRATEGY" PoolPrewarmedPerLang;
  PoolSize := envInt e "DREDD_POOL_SIZE" 1;
  BootConcurrency := envInt e "DREDD_BOOT_CONCURRENCY" 8;
  WorkerConcurrency := envInt e "DREDD_WORKER_CONCURRENCY" 4;
  ResultTTL := dur_mul (envInt e "DREDD_RESULT_TTL_SECONDS" 300) Second;
  VMVcpus := envInt e "DREDD_VM_VCPUS" 1;
  VMMemMB := envInt e "DREDD_VM_MEM_MB" 256;
  DefaultTimeLimit := dur_mul (envInt e "DREDD_DEFAULT_TIME_LIMIT_MS" 2000) Millisecond;
  DefaultMemoryLimit := envInt e "DREDD_DEFAULT_MEMORY_LIMIT_MB" 256;
  OutputLimit := envInt e "DREDD_OUTPUT_LIMIT_BYTES" (Z.shiftl 1 20);
  MaxRequestBytes := envInt e "DREDD_MAX_REQUEST_BYTES" (Z.shiftl 4 20);
  FirecrackerBin := env e "DREDD_FIRECRACKER_BIN" "firecracker"
|}.

Definition clamp (c : Config) : Config := {|
  HTTPAddr := HTTPAddr c; RedisURL := RedisURL c; LanguagesFile := LanguagesFile c;
  KernelPath := KernelPath c; RootfsDir := RootfsDir c; AgentBinary := AgentBinary c;
  GenericRootfs := GenericRootfs c; Strategy := Strategy c;
  PoolSize := at_least_one (PoolSize c);
  BootConcurrency := at_least_one (BootConcurrency c);
  WorkerConcurrency := at_least_one (WorkerConcurrency c);
  ResultTTL := ResultTTL c; VMVcpus := VMVcpus c; VMMemMB := VMMemMB c;
  DefaultTimeLimit := DefaultTimeLimit c; DefaultMemoryLimit := DefaultMemoryLimit c;
  OutputLimit := OutputLimit c; MaxRequestBytes := MaxRequestBytes c;
  FirecrackerBin := FirecrackerBin c
|}.

Definition known_strategy (s : PoolStrategy) : bool :=
  String.eqb s PoolPrewarmedPerLang || String.eqb s PoolOnDemandSpare
  || String.eqb s PoolPrewarmedGeneric.

(** [FromEnv]: the configuration, or the first problem found. *)
Definition FromEnv (e : environ) : result Config :=
  let c := read_env e in
  if String.eqb (LanguagesFile c) "" then Err (ENew "DREDD_LANGUAGES_FILE is required")
  else if String.eqb (KernelPath c) "" then Err (ENew "DREDD_KERNEL_PATH is required")
  else if negb (known_strategy (Strategy c)) then
    Err (ENew ("DREDD_POOL_STRATEGY invalid: " +:+ fmt_q (Strategy c)))
  else if String.eqb (Strategy c) PoolPrewarmedGeneric && String.eqb (GenericRootfs c) "" then
    Err (ENew "DREDD_GENERIC_ROOTFS required when DREDD_POOL_STRATEGY=prewarmed_generic")
  else Ok (clamp c).

(** ** What a successful configuration guarantees *)

(** The invariants the other components rely on. *)
Record config_wf (c : Config) : Prop := {
  cfg_languages : LanguagesFile c <> "";
  cfg_kernel : KernelPath c <> "";
  cfg_strategy : known_strategy (Strategy c) = true;
  cfg_generic : Strategy c = PoolPrewarmedGeneric -> GenericRootfs c <> "";
  cfg_pool : 1 <= PoolSize c;
  cfg_boot : 1 <= BootConcurrency c;
  cfg_worker : 1 <= WorkerConcurrency c;
  cfg_range : int64 (PoolSize c) /\ int64 (BootConcurrency c) /\ int64 (WorkerConcurrency c)
    /\ int64 (ResultTTL c) /\ int64 (DefaultTimeLimit c) /\ int64 (MaxRequestBytes c)
    /\ int64 (OutputLimit c) /\ int64 (DefaultMemoryLimit c)
}.

Lemma atoi_range b z : atoi b = Ok z -> int64 z.
Proof.
  unfold atoi. destruct (match b with [] => _ | _ => _ end) as [neg ds].
  destruct (digits_value ds); [|done]. case_decide; [|done]. by intros [= <-].
Qed.

Lemma envInt_range e key def : int64 def -> int64 (envInt e key def).
Proof.
  intros Hd. unfold envInt. destruct (e !! key) as [v|]; [|done].
  destruct (String.eqb v ""); [done|].
  destruct (atoi (to_bytes v)) eqn:E; [by eapply atoi_range|done].
Qed.

Lemma at_least_one_spec n : at_least_one n = Z.max 1 n.
Proof. unfold at_least_one. destruct (Z.ltb_spec n 1); lia. Qed.

Lemma at_least_one_range n : int64 n -> int64 (at_least_one n).
Proof.
  rewrite at_least_one_spec. unfold int64, min_int64, max_int64. lia.
Qed.

(** An accepted configuration is well formed. *)
Lemma FromEnv_wf_aux e c : FromEnv e = Ok c -> config_wf c.
Proof.
  unfold FromEnv.
  destruct (String.eqb_spec (LanguagesFile (read_env e)) ""); [done|].
  destruct (String.eqb_spec (KernelPath (read_env e)) ""); [done|].
  destruct (known_strategy (Strategy (read_env e))) eqn:Hs; [|done].
  cbn [negb].
  destruct (String.eqb_spec (Strategy (read_env e)) PoolPrewarmedGeneric);
    destruct (String.eqb_spec (GenericRootfs (read_env e)) ""); cbn [andb]; try done;
    intros [= <-].
  all: assert (Hr : forall k d, int64 d -> int64 (envInt e k d)) by (intros; by apply envInt_range).
  all: split; try done; cbn -[int64 Z.shiftl dur_mul].
  all: try (rewrite at_least_one_spec; lia).
  all: split_and!; try apply at_least_one_range; try apply wrap64_range; apply Hr; done.
Qed.

(** * Properties *)

(** Whatever the environment holds, a configuration that [FromEnv]
    returns has its required paths, a known strategy (with a generic rootfs
    when that strategy needs one), at least one VM, boot slot and worker, and
    every number in the range of its Go type. *)
Theorem FromEnv_wf e c : FromEnv e = Ok c -> config_wf c.
Proof. apply FromEnv_wf_aux. Qed.

(** The result TTL is the configured number of seconds exactly when that
    number is at most 9223372036 in magnitude; beyond it the duration wraps
    around, and 9223372037 seconds give a negative TTL. *)
Theorem result_ttl_wraps e c :
  FromEnv e = Ok c ->
  let n := envInt e "DREDD_RESULT_TTL_SECONDS" 300 in
  (ResultTTL c = n * Second <-> -9223372036 <= n <= 9223372036) /\
  (n = 9223372037 -> ResultTTL c < 0).
Proof.
  intros Hc. cbn zeta.
  assert (ResultTTL c = dur_mul (envInt e "DREDD_RESULT_TTL_SECONDS" 300) Second) as ->.
  { unfold FromEnv in Hc. repeat case_match; try done. by invc Hc. }
  generalize (envInt e "DREDD_RESULT_TTL_SECONDS" 300). intros n. split.
  - unfold dur_mul. split.
    + intros Hw. pose proof (wrap64_range (n * Second)) as Hr. rewrite Hw in Hr.
      unfold int64, min_int64, max_int64, Second in Hr. lia.
    + intros Hn. apply wrap64_id. unfold int64, min_int64, max_int64, Second. lia.
  - intros ->. vm_compute. done.
Qed.

(** An integer variable that is unset, empty, not a decimal integer or out
    of the 64-bit range falls back to its default; any other value is the
    number it spells. *)
Theorem envInt_falls_back e key def :
  envInt e key def =
  match e !! key with
  | Some v => match atoi (to_bytes v) with Ok n => n | Err _ => def end
  | None => def
  end.
Proof.
  unfold envInt. destruct (e !! key) as [v|]; [|done].
  by destruct (String.eqb_spec v "") as [->|].
Qed.

Definition sample_env (ttl : string) : environ :=
  {[ "DREDD_LANGUAGES_FILE" := "/l.json"; "DREDD_KERNEL_PATH" := "/vmlinux";
     "DREDD_RESULT_TTL_SECONDS" := ttl; "DREDD_POOL_SIZE" := "0" ]}.

Lemma FromEnv_wf_witness : 1 <= PoolSize (clamp (read_env (sample_env "60"))).
Proof.
  apply (cfg_pool _ (FromEnv_wf (sample_env "60") (clamp (read_env (sample_env "60")))
    ltac:(vm_compute; reflexivity))).
Defined.

Lemma result_ttl_wraps_witness : ResultTTL (clamp (read_env (sample_env "9223372037"))) < 0.
Proof.
  apply (result_ttl_wraps (sample_env "9223372037") (clamp (read_env (sample_env "9223372037"))));
    vm_compute; reflexivity.
Defined.
