(* ===== verification/Redis.v ===== *)
(** The Redis server and its Go client, as the queue uses them: a typeclass of
    client operations over an unknown state ([Redis]), the documented behaviour
    the queue relies on ([RedisOk], stated on an observable keyspace), and an
    in-memory implementation with a fault script that satisfies it, on which
    the concrete examples run. *)
From S2P Require Import Prelude GoInt JsonText.

(** A command argument: the client sends an integer in decimal. *)
Inductive rarg := RStr (s : string) | RInt (z : Z).
Definition arg_text (a : rarg) : string :=
  match a with RStr s => s | RInt z => fmt_d z end.

Inductive rcmd :=
  | HSet (key : string) (fields : list (string * rarg))
  | LPush (key : string) (v : string)
  | Expire (key : string) (ttl : Z).

(** What a Redis database holds: hashes, lists and the time to live of keys. *)
Record keyspace := {
  hashes : gmap string (gmap string string);
  lists : gmap string (list string);
  ttls : gmap string Z
}.

Definition hash_at (ks : keyspace) (key : string) : gmap string string :=
  default ∅ (hashes ks !! key).
Definition list_at (ks : keyspace) (key : string) : list string :=
  default [] (lists ks !! key).

Definition set_fields (m : gmap string string) (fields : list (string * rarg)) : gmap string string :=
  foldl (fun m fa => <[fa.1 := arg_text fa.2]> m) m fields.

Definition set_list (ks : keyspace) (key : string) (l : list string) : keyspace :=
  {| hashes := hashes ks; lists := <[key := l]> (lists ks); ttls := ttls ks |}.

Lemma list_at_set ks key l : list_at (set_list ks key l) key = l.
Proof. unfold list_at. cbn. by rewrite lookup_insert_eq. Qed.

Definition apply_cmd (ks : keyspace) (c : rcmd) : keyspace :=
  match c with
  | HSet key fields =>
      {| hashes := <[key := set_fields (hash_at ks key) fields]> (hashes ks);
         lists := lists ks; ttls := ttls ks |}
  | LPush key v => set_list ks key (v :: list_at ks key)
  | Expire key ttl =>
      if decide (is_Some (hashes ks !! key)) then
        {| hashes := hashes ks; lists := lists ks; ttls := <[key := ttl]> (ttls ks) |}
      else ks
  end.

Definition apply_cmds : keyspace -> list rcmd -> keyspace := foldl apply_cmd.

(** The client operations the queue calls. *)
Class Redis (R : Type) := {
  redis_tx : R -> list rcmd -> R * option error;       (* TxPipeline ... Exec *)
  redis_do : R -> rcmd -> R * option error;            (* one command *)
  redis_hgetall : R -> string -> R * result (gmap string string);
  redis_brpop : R -> string -> Z -> R * result (list string)
}.

(** Documented behaviour: a transaction applies all of its commands or none,
    and a call that reports an error may still have reached the server;
    reading changes nothing; BRPOP removes the tail of the list and returns
    the key and the element, or times out with [redis.Nil] on an empty list. *)
Class RedisOk (R : Type) `{Redis R} := {
  view : R -> keyspace;
  tx_ok r cmds r' : redis_tx r cmds = (r', None) -> view r' = apply_cmds (view r) cmds;
  tx_err r cmds r' e : redis_tx r cmds = (r', Some e) ->
    view r' = view r \/ view r' = apply_cmds (view r) cmds;
  do_ok r c r' : redis_do r c = (r', None) -> view r' = apply_cmd (view r) c;
  do_err r c r' e : redis_do r c = (r', Some e) ->
    view r' = view r \/ view r' = apply_cmd (view r) c;
  hgetall_ok r k r' m : redis_hgetall r k = (r', Ok m) ->
    view r' = view r /\ m = hash_at (view r) k;
  hgetall_err r k r' e : redis_hgetall r k = (r', Err e) -> view r' = view r;
  brpop_ok r k t r' l : redis_brpop r k t = (r', Ok l) ->
    exists rest v, list_at (view r) k = rest ++ [v] /\ l = [k; v] /\
    view r' = set_list (view r) k rest;
  brpop_err r k t r' e : redis_brpop r k t = (r', Err e) ->
    view r' = view r \/
    (e <> ESentinel RedisNil /\ exists rest v, list_at (view r) k = rest ++ [v] /\
     view r' = set_list (view r) k rest);
  brpop_nil r k t r' : redis_brpop r k t = (r', Err (ESentinel RedisNil)) ->
    list_at (view r) k = []
}.

(** * An in-memory Redis with scripted faults *)

(** A fault makes one call fail with an error, before or after the server
    applied it. *)
Record fault := { f_err : error; f_applied : bool }.
Record mem := { ks : keyspace; script : list (option fault) }.

Definition empty_ks : keyspace := {| hashes := ∅; lists := ∅; ttls := ∅ |}.
Definition mem0 : mem := {| ks := empty_ks; script := [] |}.

Definition next_fault (m : mem) : option fault := default None (head (script m)).

Definition mem_write (m : mem) (ks' : keyspace) : mem * option error :=
  match next_fault m with
  | None => ({| ks := ks'; script := tail (script m) |}, None)
  | Some f => ({| ks := if f_applied f then ks' else ks m; script := tail (script m) |},
               Some (f_err f))
  end.

Definition rest_last (l : list string) : option (list string * string) :=
  match rev l with
  | [] => None
  | v :: r => Some (rev r, v)
  end.

#[export] Instance mem_redis : Redis mem := {
  redis_tx m cmds := mem_write m (apply_cmds (ks m) cmds);
  redis_do m c := mem_write m (apply_cmd (ks m) c);
  redis_hgetall m k :=
    ({| ks := ks m; script := tail (script m) |},
     match next_fault m with
     | None => Ok (hash_at (ks m) k)
     | Some f => Err (f_err f)
     end);
  redis_brpop m k _ :=
    match rest_last (list_at (ks m) k) with
    | None => ({| ks := ks m; script := tail (script m) |},
               match next_fault m with
               | None => Err (ESentinel RedisNil)
               | Some f => Err (f_err f)
               end)
    | Some (rest, v) =>
        match next_fault m with
        | None => ({| ks := set_list (ks m) k rest; script := tail (script m) |}, Ok [k; v])
        | Some f =>
            if decide (f_err f = ESentinel RedisNil)
            then ({| ks := set_list (ks m) k rest; script := tail (script m) |}, Ok [k; v])
            else ({| ks := if f_applied f then set_list (ks m) k rest else ks m;
                     script := tail (script m) |}, Err (f_err f))
        end
    end
}.

Lemma rest_last_spec l :
  match rest_last l with None => l = [] | Some (rest, v) => l = rest ++ [v] end.
Proof.
  unfold rest_last. destruct (rev l) as [|v r] eqn:E; apply (f_equal (@rev _)) in E;
    rewrite rev_involutive in E; done.
Qed.

Lemma mem_write_ok m ks' m' : mem_write m ks' = (m', None) -> ks m' = ks'.
Proof. unfold mem_write. destruct (next_fault m); [done|]. by intros [= <-]. Qed.

Lemma mem_write_err m ks' m' e :
  mem_write m ks' = (m', Some e) -> ks m' = ks m \/ ks m' = ks'.
Proof.
  unfold mem_write. destruct (next_fault m) as [f|]; [|done]. intros [= <- <-].
  cbn. destruct (f_applied f); auto.
Qed.

#[export] Instance mem_redis_ok : RedisOk mem.
Proof.
  refine {| view := ks |}; cbn.
  - intros r cmds r'. apply mem_write_ok.
  - intros r cmds r' e. apply mem_write_err.
  - intros r c r'. apply mem_write_ok.
  - intros r c r' e. apply mem_write_err.
  - intros r k r' m. destruct (next_fault r); intros [= <- <-]; done.
  - intros r k r' e. destruct (next_fault r); intros [= <- _]; done.
  - intros r k _ r' l. pose proof (rest_last_spec (list_at (ks r) k)) as Hl.
    destruct (rest_last _) as [[rest v]|]; destruct (next_fault r) as [f|]; try done;
      try case_decide; intros [= <- <-]; eauto.
  - intros r k _ r' e. pose proof (rest_last_spec (list_at (ks r) k)) as Hl.
    destruct (rest_last _) as [[rest v]|]; destruct (next_fault r) as [f|]; try done;
      try case_decide; intros [= <- <-]; cbn; try destruct (f_applied f); eauto 8.
  - intros r k _ r'. pose proof (rest_last_spec (list_at (ks r) k)) as Hl.
    destruct (rest_last _) as [[rest v]|]; destruct (next_fault r) as [f|]; try done;
      try case_decide; by intros [= <- ?].
Defined.
