(* ===== verification/Queue.v ===== *)
(** queue/redis.go: the job queue.  Each operation as the sequence of Redis
    commands the code issues; [Load] parses a job hash; the abstract job store
    ([store]) the operations implement and the refinement between the two. *)
From S2P Require Import Prelude GoInt Utf8 JsonText Json Codec Agent Jobs Redis.

Definition queueKey : string := "dredd:queue".
Definition jobKey (id : string) : string := "dredd:job:" +:+ id.
Definition popTimeout : Z := 500 * Millisecond.

(** [type Queue struct]: the client is the state the operations thread. *)
Record Queue := { resultTTL : Z }.
Definition New (ttl : Z) : Queue := {| resultTTL := ttl |}.

(** The field map [Enqueue] writes. *)
Definition job_hash (j : Job.t) : list (string * rarg) := [
  ("id", RStr (Job.ID j));
  ("language", RStr (Job.Language j));
  ("source", RStr (Job.Source j));
  ("stdins", RStr (of_bytes (marshal (Job.Stdins j))));
  ("time_limit_ms", RInt (Job.TimeLimitMs j));
  ("memory_limit_mb", RInt (Job.MemoryLimitMb j));
  ("status", RStr StatusQueued)
].

(** [m[key]] of a Go map: the empty string when the key is absent. *)
Definition field_of (m : gmap string string) (key : string) : string := default "" (m !! key).

(** [if s := m[key]; s != "" { ... }] around a parse that may fail. *)
Definition parse_opt {A} (zero : A) (parse : bytes -> result A) (pre id : string) (s : string) : result A :=
  if String.eqb s "" then Ok zero
  else wrap_err ("decode " +:+ pre +:+ " for " +:+ id +:+ ": ") (parse (to_bytes s)).

(** The part of [Load] after HGETALL, on a non-empty hash. *)
Definition decode_job (id : string) (m : gmap string string) : result Job.t :=
  stdins ← parse_opt None unmarshal "stdins" id (field_of m "stdins");
  results ← parse_opt None unmarshal "results" id (field_of m "results");
  tl ← parse_opt 0 atoi "time_limit_ms" id (field_of m "time_limit_ms");
  ml ← parse_opt 0 atoi "memory_limit_mb" id (field_of m "memory_limit_mb");
  Ok {| Job.ID := field_of m "id";
        Job.Language := field_of m "language";
        Job.Source := field_of m "source";
        Job.Stdins := stdins;
        Job.TimeLimitMs := tl;
        Job.MemoryLimitMb := ml;
        Job.Status := field_of m "status";
        Job.Error := field_of m "error";
        Job.CompileError := field_of m "compile_error";
        Job.Results := results |}.

Definition finish_fields (status : Status) (compileErr errStr : string) (results : slice CaseResult)
  : list (string * rarg) := [
  ("status", RStr status);
  ("compile_error", RStr compileErr);
  ("error", RStr errStr);
  ("results", RStr (of_bytes (marshal results)))
].

(** The transaction of [Finish]: a TTL only for a terminal status. *)
Definition finish_cmds (q : Queue) (id : string) (status : Status)
    (compileErr errStr : string) (results : slice CaseResult) : list rcmd :=
  HSet (jobKey id) (finish_fields status compileErr errStr results) ::
  (if Terminal status && (0 <? resultTTL q) then [Expire (jobKey id) (resultTTL q)] else []).

Section ops.
Context `{Redis R}.

Definition Enqueue (r : R) (j : Job.t) : R * option error :=
  redis_tx r [HSet (jobKey (Job.ID j)) (job_hash j); LPush queueKey (Job.ID j)].

Definition Dequeue (r : R) : R * result string :=
  match redis_brpop r queueKey popTimeout with
  | (r, Err e) =>
      if errors_is e RedisNil || errors_is e DeadlineExceeded || errors_is e Canceled
      then (r, Ok "") else (r, Err e)
  | (r, Ok [_; v]) => (r, Ok v)
  | (r, Ok (_ :: v :: _)) => (r, Ok v)
  | (r, Ok _) => (r, Ok "")
  end.

Definition Load (r : R) (id : string) : R * result Job.t :=
  match redis_hgetall r (jobKey id) with
  | (r, Err e) => (r, Err e)
  | (r, Ok m) =>
      if decide (m = ∅) then (r, Err (ESentinel ErrNotFound))
      else (r, decode_job id m)
  end.

Definition SetRunning (r : R) (id : string) : R * option error :=
  redis_do r (HSet (jobKey id) [("status", RStr StatusRunning)]).

Definition Finish (q : Queue) (r : R) (id : string) (status : Status)
    (compileErr errStr : string) (results : slice CaseResult) : R * option error :=
  redis_tx r (finish_cmds q id status compileErr errStr results).
End ops.

(** * The abstract job store *)

(** What the queue promises: a table of jobs, the ids waiting, oldest last,
    and the jobs that will expire. *)
Record store := {
  jobs : gmap string Job.t;
  pending : list string;
  expiring : gmap string Z
}.

Inductive op :=
  | OpEnqueue (j : Job.t)
  | OpSetRunning (id : string)
  | OpFinish (id : string) (status : Status) (compileErr errStr : string)
      (results : slice CaseResult).

Definition with_status (s : Status) (j : Job.t) : Job.t := {|
  Job.ID := Job.ID j; Job.Language := Job.Language j; Job.Source := Job.Source j;
  Job.Stdins := Job.Stdins j; Job.TimeLimitMs := Job.TimeLimitMs j;
  Job.MemoryLimitMb := Job.MemoryLimitMb j; Job.Status := s; Job.Error := Job.Error j;
  Job.CompileError := Job.CompileError j; Job.Results := Job.Results j |}.

Definition with_outcome (s : Status) (ce es : string) (rs : slice CaseResult) (j : Job.t) : Job.t := {|
  Job.ID := Job.ID j; Job.Language := Job.Language j; Job.Source := Job.Source j;
  Job.Stdins := Job.Stdins j; Job.TimeLimitMs := Job.TimeLimitMs j;
  Job.MemoryLimitMb := Job.MemoryLimitMb j; Job.Status := s; Job.Error := es;
  Job.CompileError := ce; Job.Results := rs |}.

(** The job a submission becomes: queued, with no outcome, its stdins as they
    survive JSON. *)
Definition submitted (j : Job.t) : Job.t := {|
  Job.ID := Job.ID j; Job.Language := Job.Language j; Job.Source := Job.Source j;
  Job.Stdins := j_canon (Job.Stdins j); Job.TimeLimitMs := Job.TimeLimitMs j;
  Job.MemoryLimitMb := Job.MemoryLimitMb j; Job.Status := StatusQueued; Job.Error := "";
  Job.CompileError := ""; Job.Results := None |}.

Definition spec_op (q : Queue) (st : store) (o : op) : store :=
  match o with
  | OpEnqueue j => {| jobs := <[Job.ID j := submitted j]> (jobs st);
                      pending := Job.ID j :: pending st; expiring := expiring st |}
  | OpSetRunning id => {| jobs := alter (with_status StatusRunning) id (jobs st);
                          pending := pending st; expiring := expiring st |}
  | OpFinish id s ce es rs =>
      {| jobs := alter (with_outcome s ce es (j_canon rs)) id (jobs st);
         pending := pending st;
         expiring := if Terminal s && (0 <? resultTTL q)
                     then <[id := resultTTL q]> (expiring st) else expiring st |}
  end.

(** When an operation is applied as the program applies it: a fresh id to
    enqueue, a known id otherwise, integers in range. *)
Definition op_pre (st : store) (o : op) : Prop :=
  match o with
  | OpEnqueue j => jobs st !! Job.ID j = None /\ int64 (Job.TimeLimitMs j) /\ int64 (Job.MemoryLimitMb j)
  | OpSetRunning id => is_Some (jobs st !! id)
  | OpFinish id _ _ _ rs => is_Some (jobs st !! id) /\ Forall case_wf (elems rs)
  end.

Definition run_op `{Redis R} (q : Queue) (r : R) (o : op) : R * option error :=
  match o with
  | OpEnqueue j => Enqueue r j
  | OpSetRunning id => SetRunning r id
  | OpFinish id s ce es rs => Finish q r id s ce es rs
  end.

(** The keyspace represents the store: every job hash parses to its job, the
    list is the pending queue and the TTLs are those of the jobs. *)
Record represents (ks : keyspace) (st : store) : Prop := {
  rep_job : forall id,
    match jobs st !! id with
    | None => hashes ks !! jobKey id = None
    | Some j => exists m, hashes ks !! jobKey id = Some m /\ m <> ∅ /\ decode_job id m = Ok j
    end;
  rep_pending : list_at ks queueKey = pending st;
  rep_ttl : forall id, ttls ks !! jobKey id = expiring st !! id
}.

(** ** Keys and fields *)

Lemma jobKey_inj id1 id2 : jobKey id1 = jobKey id2 -> id1 = id2.
Proof. apply (inj (String.append "dredd:job:")). Qed.

Lemma jobKey_not_queue id : jobKey id <> queueKey.
Proof. done. Qed.

Lemma field_of_insert m k v : field_of (<[k := v]> m) k = v.
Proof. unfold field_of. by rewrite lookup_insert_eq. Qed.

Lemma field_of_insert_ne m k k' v : k <> k' -> field_of (<[k := v]> m) k' = field_of m k'.
Proof. intros. unfold field_of. by rewrite lookup_insert_ne. Qed.

Lemma field_of_empty k : field_of ∅ k = "".
Proof. done. Qed.

Create HintDb fields.
#[export] Hint Rewrite field_of_insert field_of_empty : fields.
#[export] Hint Rewrite field_of_insert_ne using done : fields.

Lemma marshal_nonempty `{JsonCodecOk A} (a : A) : of_bytes (marshal a) <> "".
Proof.
  intros E. apply (f_equal to_bytes) in E. rewrite to_of_bytes in E.
  unfold marshal in E. destruct (print_head (j_enc a) (j_ok a)) as (c & b & Ep & _).
  by rewrite Ep in E.
Qed.

Lemma parse_opt_marshal `{JsonCodecOk A} zero pre id (a : A) :
  j_wf a -> Z.of_nat j_height <= max_nesting ->
  parse_opt zero unmarshal pre id (of_bytes (marshal a)) = Ok (j_canon a).
Proof.
  intros Hw Hh. unfold parse_opt.
  pose proof (marshal_nonempty a) as Hn. apply String.eqb_neq in Hn as ->.
  by rewrite to_of_bytes, unmarshal_marshal.
Qed.

Lemma parse_opt_int pre id z :
  int64 z -> parse_opt 0 atoi pre id (fmt_d z) = Ok z.
Proof.
  intros Hz. unfold parse_opt.
  destruct (String.eqb_spec (fmt_d z) "") as [E|_].
  - exfalso. pose proof (valid_num_itoa z) as Hv. unfold fmt_d in E. by rewrite E in Hv.
  - unfold fmt_d. by rewrite to_of_bytes, atoi_itoa.
Qed.

Lemma parse_opt_ok {A} zero (parse : bytes -> result A) pre id s a :
  parse_opt zero parse pre id s = Ok a -> s <> "" -> parse (to_bytes s) = Ok a.
Proof.
  unfold parse_opt. destruct (String.eqb_spec s ""); [done|].
  destruct (parse (to_bytes s)); [by intros [= ->]|done].
Qed.

Lemma parse_opt_err {A} zero (parse : bytes -> result A) pre id s e :
  parse_opt zero parse pre id s = Err e ->
  exists e', s <> "" /\ e = EWrap ("decode " +:+ pre +:+ " for " +:+ id +:+ ": ") e'.
Proof.
  unfold parse_opt. destruct (String.eqb_spec s ""); [done|].
  destruct (parse (to_bytes s)) as [|e']; [done|]. intros [= <-]. eauto.
Qed.

(** The four parsed fields of a hash. *)
Lemma decode_job_inv id m j :
  decode_job id m = Ok j ->
  parse_opt None unmarshal "stdins" id (field_of m "stdins") = Ok (Job.Stdins j) /\
  parse_opt None unmarshal "results" id (field_of m "results") = Ok (Job.Results j) /\
  parse_opt 0 atoi "time_limit_ms" id (field_of m "time_limit_ms") = Ok (Job.TimeLimitMs j) /\
  parse_opt 0 atoi "memory_limit_mb" id (field_of m "memory_limit_mb") = Ok (Job.MemoryLimitMb j) /\
  Job.ID j = field_of m "id" /\ Job.Language j = field_of m "language" /\
  Job.Source j = field_of m "source" /\ Job.Status j = field_of m "status" /\
  Job.Error j = field_of m "error" /\ Job.CompileError j = field_of m "compile_error".
Proof.
  unfold decode_job, mbind, result_bind.
  destruct (parse_opt None _ "stdins" _ _) as [a|]; [|done].
  destruct (parse_opt None _ "results" _ _) as [b|]; [|done].
  destruct (parse_opt 0 _ "time_limit_ms" _ _) as [c|]; [|done].
  destruct (parse_opt 0 _ "memory_limit_mb" _ _) as [d|]; [|done].
  intros [= <-]. done.
Qed.

Lemma decode_submitted id j :
  int64 (Job.TimeLimitMs j) -> int64 (Job.MemoryLimitMb j) ->
  decode_job id (set_fields ∅ (job_hash j)) = Ok (submitted j).
Proof.
  intros Ht Hm. unfold decode_job, set_fields, job_hash.
  cbn [foldl fst snd arg_text]. autorewrite with fields.
  rewrite parse_opt_marshal by first [by auto with dredd | by vm_compute].
  rewrite !parse_opt_int by done. done.
Qed.

Lemma decode_set_running id m j :
  decode_job id m = Ok j ->
  decode_job id (set_fields m [("status", RStr StatusRunning)]) = Ok (with_status StatusRunning j).
Proof.
  intros (H1 & H2 & H3 & H4 & Ei & El & Es & _ & Ee & Ec)%decode_job_inv.
  unfold decode_job, set_fields. cbn [foldl fst snd arg_text]. autorewrite with fields.
  rewrite H1, H2, H3, H4. unfold with_status. by rewrite Ei, El, Es, Ee, Ec.
Qed.

Lemma decode_finish id m j s ce es rs :
  Forall case_wf (elems rs) -> decode_job id m = Ok j ->
  decode_job id (set_fields m (finish_fields s ce es rs)) = Ok (with_outcome s ce es (j_canon rs) j).
Proof.
  intros Hrs (H1 & _ & H3 & H4 & Ei & El & Es & _ & _ & _)%decode_job_inv.
  unfold decode_job, set_fields, finish_fields. cbn [foldl fst snd arg_text].
  autorewrite with fields.
  rewrite H1, H3, H4, parse_opt_marshal by first [done | by vm_compute].
  unfold with_outcome. by rewrite Ei, El, Es.
Qed.

Lemma set_fields_nonempty m k v l : set_fields m ((k, v) :: l) <> ∅.
Proof.
  assert (G : forall l m, m <> ∅ -> set_fields m l <> ∅).
  { clear. induction l as [|[k v] l IH]; intros m Hm; [done|].
    unfold set_fields. cbn. apply IH, insert_non_empty. }
  unfold set_fields. cbn. apply (G l), insert_non_empty.
Qed.

(** ** Refinement *)

(** The commands an operation sends, as one keyspace transformation. *)
Definition op_effect (q : Queue) (ks : keyspace) (o : op) : keyspace :=
  match o with
  | OpEnqueue j => apply_cmds ks [HSet (jobKey (Job.ID j)) (job_hash j); LPush queueKey (Job.ID j)]
  | OpSetRunning id => apply_cmd ks (HSet (jobKey id) [("status", RStr StatusRunning)])
  | OpFinish id s ce es rs => apply_cmds ks (finish_cmds q id s ce es rs)
  end.

(** Writing the hash of one job leaves the hashes of the others. *)
Lemma rep_update ks st id m j h :
  represents ks st -> m <> ∅ -> decode_job id m = Ok j -> h = jobKey id ->
  forall id', match <[id := j]> (jobs st) !! id' with
    | None => <[h := m]> (hashes ks) !! jobKey id' = None
    | Some j' => exists m', <[h := m]> (hashes ks) !! jobKey id' = Some m' /\ m' <> ∅ /\
        decode_job id' m' = Ok j'
    end.
Proof.
  intros Hr Hm Hd -> id'. destruct (decide (id = id')) as [<-|Hne].
  - rewrite !lookup_insert_eq. eauto.
  - rewrite !lookup_insert_ne by (try done; by intros ?%jobKey_inj).
    apply (rep_job _ _ Hr).
Qed.

Lemma rep_lookup ks st id j :
  represents ks st -> jobs st !! id = Some j ->
  exists m, hash_at ks (jobKey id) = m /\ hashes ks !! jobKey id = Some m /\ m <> ∅ /\
  decode_job id m = Ok j.
Proof.
  intros Hr Hj. pose proof (rep_job _ _ Hr id) as H. rewrite Hj in H.
  destruct H as (m & Hm & ? & ?). exists m. unfold hash_at. by rewrite Hm.
Qed.

Lemma alter_insert (m : gmap string Job.t) f id j :
  m !! id = Some j -> alter f id m = <[id := f j]> m.
Proof.
  intros Hj. apply map_eq. intros i. destruct (decide (id = i)) as [<-|].
  - by rewrite lookup_alter_eq, Hj, lookup_insert_eq.
  - by rewrite lookup_alter_ne, lookup_insert_ne.
Qed.

(** A write that only touches the hash of one known job. *)
Lemma rep_write ks st id j j' fs k v l :
  represents ks st -> jobs st !! id = Some j -> fs = (k, v) :: l ->
  decode_job id (set_fields (hash_at ks (jobKey id)) fs) = Ok j' ->
  represents (apply_cmd ks (HSet (jobKey id) fs))
    {| jobs := <[id := j']> (jobs st); pending := pending st; expiring := expiring st |}.
Proof.
  intros Hr Hj -> Hd. split; cbn.
  - eapply rep_update; [done| |done|done]. apply set_fields_nonempty.
  - apply (rep_pending _ _ Hr).
  - apply (rep_ttl _ _ Hr).
Qed.

(** Each operation's commands implement its abstract effect. *)
Lemma op_effect_represents q ks st o :
  represents ks st -> op_pre st o -> represents (op_effect q ks o) (spec_op q st o).
Proof.
  intros Hr. destruct o as [j|id|id s ce es rs]; cbn [op_pre op_effect spec_op].
  - intros (Hf & Ht & Hm). unfold apply_cmds. cbn [foldl].
    assert (Hh : hash_at ks (jobKey (Job.ID j)) = ∅).
    { pose proof (rep_job _ _ Hr (Job.ID j)) as H. rewrite Hf in H.
      unfold hash_at. by rewrite H. }
    split; cbn [apply_cmd set_list hashes lists ttls jobs pending expiring].
    + eapply rep_update; [done|apply set_fields_nonempty| |done].
      rewrite Hh. by apply decode_submitted.
    + etransitivity; [apply list_at_set|].
      f_equal. apply (rep_pending _ _ Hr).
    + apply (rep_ttl _ _ Hr).
  - intros [j Hj]. rewrite (alter_insert _ _ _ j) by done.
    destruct (rep_lookup _ _ _ _ Hr Hj) as (m & Hm & _ & _ & Hd).
    eapply rep_write; [done|done|done|]. rewrite Hm. by apply decode_set_running.
  - intros [[j Hj] Hrs]. rewrite (alter_insert _ _ _ j) by done.
    destruct (rep_lookup _ _ _ _ Hr Hj) as (m & Hm & _ & _ & Hd).
    assert (Hw : represents (apply_cmd ks (HSet (jobKey id) (finish_fields s ce es rs)))
      {| jobs := <[id := with_outcome s ce es (j_canon rs) j]> (jobs st);
         pending := pending st; expiring := expiring st |}).
    { eapply rep_write; [done|done|done|]. rewrite Hm. by apply decode_finish. }
    unfold finish_cmds, apply_cmds.
    destruct (Terminal s && (0 <? resultTTL q)); cbn [foldl]; [|done].
    destruct Hw as [H1 H2 H3]. unfold apply_cmd at 1. rewrite decide_True.
    2:{ cbn. rewrite lookup_insert_eq. eauto. }
    split; [done|done|]. intros id'. cbn. destruct (decide (id = id')) as [<-|].
    + by rewrite !lookup_insert_eq.
    + rewrite !lookup_insert_ne by (try done; by intros ?%jobKey_inj). apply H3.
Qed.

Section refinement.
Context `{RedisOk R} (q : Queue).

(** A successful call applied its commands; a failed one, all or none. *)
Lemma run_op_view r o r' oe :
  run_op q r o = (r', oe) ->
  view r' = op_effect q (view r) o \/ (oe <> None /\ view r' = view r).
Proof.
  destruct o as [j|id|id s ce es rs]; cbn [run_op op_effect]; intros E; destruct oe as [e|].
  1,5: apply tx_err in E as [|]; auto.
  1,4: apply tx_ok in E; auto.
  - apply do_err in E as [|]; auto.
  - apply do_ok in E; auto.
Qed.

(** Reading a job gives the abstract job. *)
Lemma Load_represents r st id r' res :
  represents (view r) st -> Load r id = (r', res) ->
  view r' = view r /\
  ((exists e, res = Err e /\ exists e', redis_hgetall r (jobKey id) = (r', Err e')) \/
   res = match jobs st !! id with
         | Some j => Ok j
         | None => Err (ESentinel ErrNotFound)
         end).
Proof.
  intros Hr. unfold Load. destruct (redis_hgetall r (jobKey id)) as [r1 [m|e]] eqn:E.
  - apply hgetall_ok in E as [Hv ->].
    pose proof (rep_job _ _ Hr id) as Hj. destruct (jobs st !! id) as [j|].
    + destruct Hj as (m & Hm & Hne & Hd). unfold hash_at. rewrite Hm. cbn.
      rewrite decide_False by done. intros [= <- <-]. auto.
    + unfold hash_at. rewrite Hj. cbn. intros [= <- <-]. auto.
  - intros [= <- <-]. split; [by eapply hgetall_err|]. left. eauto.
Qed.

(** Taking from the queue gives the oldest pending id. *)
Lemma Dequeue_represents r st r' res :
  represents (view r) st -> Dequeue r = (r', res) ->
  represents (view r') st \/
  exists rest id, pending st = rest ++ [id] /\ (forall x, res = Ok x -> x = id \/ x = "") /\
    represents (view r') {| jobs := jobs st; pending := rest; expiring := expiring st |}.
Proof.
  intros Hr E.
  assert (Hpop : forall rest v, list_at (view r) queueKey = rest ++ [v] ->
    view r' = set_list (view r) queueKey rest ->
    pending st = rest ++ [v] /\
    represents (view r') {| jobs := jobs st; pending := rest; expiring := expiring st |}).
  { intros rest v Hl Hv. rewrite (rep_pending _ _ Hr) in Hl. split; [done|].
    rewrite Hv. split; cbn; [apply (rep_job _ _ Hr)| |apply (rep_ttl _ _ Hr)].
    unfold list_at. cbn. by rewrite lookup_insert_eq. }
  unfold Dequeue in E. destruct (redis_brpop r queueKey popTimeout) as [r1 [l|e]] eqn:Eb.
  - apply brpop_ok in Eb as (rest & v & Hl & -> & Hv). invc E.
    destruct (Hpop rest v Hl Hv). right. exists rest, v. split_and!; [done| |done].
    intros x [= <-]. auto.
  - assert (r1 = r') as -> by (destruct (_ || _); by invc E).
    apply brpop_err in Eb as [->|(_ & rest & v & Hl & Hv)]; [auto|].
    destruct (Hpop rest v Hl Hv). right. exists rest, v. split_and!; [done| |done].
    destruct (_ || _); invc E; intros x [= <-]. auto.
Qed.
End refinement.

(** ** A concrete store, for the examples *)

Definition empty_store : store := {| jobs := ∅; pending := []; expiring := ∅ |}.

Lemma represents_empty : represents empty_ks empty_store.
Proof. split; done. Qed.

Definition demo_job : Job.t := {|
  Job.ID := "job-1"; Job.Language := "shell"; Job.Source := "echo hi";
  Job.Stdins := Some ["a"; "b"]; Job.TimeLimitMs := 1500; Job.MemoryLimitMb := 64;
  Job.Status := StatusQueued; Job.Error := ""; Job.CompileError := ""; Job.Results := None |}.

Definition demo_queue : Queue := New (300 * Second).

(** An in-memory Redis in which [demo_job] has been enqueued. *)
Definition demo_mem : mem := fst (Enqueue mem0 demo_job).
Definition demo_store : store := spec_op demo_queue empty_store (OpEnqueue demo_job).

Lemma demo_represents : represents (view demo_mem) demo_store.
Proof.
  apply (op_effect_represents demo_queue empty_ks empty_store (OpEnqueue demo_job)).
  - apply represents_empty.
  - by split_and!; vm_compute.
Qed.

(** ** Sequences of operations *)
Section sequences.
Context `{RedisOk R}.

Fixpoint enqueue_all (r : R) (js : list Job.t) : option R :=
  match js with
  | [] => Some r
  | j :: js => match Enqueue r j with (r, None) => enqueue_all r js | _ => None end
  end.

(** [n] dequeues that each returned an id. *)
Fixpoint dequeue_many (r : R) (n : nat) : option (R * list string) :=
  match n with
  | O => Some (r, [])
  | S n =>
      match Dequeue r with
      | (r, Ok id) =>
          if String.eqb id "" then None
          else '(r, ids) ← dequeue_many r n; Some (r, id :: ids)
      | _ => None
      end
  end.

Lemma Enqueue_list r j r' :
  Enqueue r j = (r', None) ->
  list_at (view r') queueKey = Job.ID j :: list_at (view r) queueKey.
Proof.
  intros He. apply tx_ok in He. rewrite He. unfold apply_cmds. cbn [foldl].
  apply list_at_set.
Qed.

Lemma Dequeue_list r r' id :
  Dequeue r = (r', Ok id) -> id <> "" ->
  exists rest, list_at (view r) queueKey = rest ++ [id] /\ list_at (view r') queueKey = rest.
Proof.
  unfold Dequeue. destruct (redis_brpop r queueKey popTimeout) as [r1 [l|e]] eqn:Eb.
  - apply brpop_ok in Eb as (rest & v & Hl & -> & Hv). intros [= <- <-] _.
    exists rest. rewrite Hv. split; [done|apply list_at_set].
  - destruct (_ || _); intros [= <- <-]; done.
Qed.

Lemma enqueue_all_list js : forall r r',
  enqueue_all r js = Some r' ->
  list_at (view r') queueKey = rev (Job.ID <$> js) ++ list_at (view r) queueKey.
Proof.
  induction js as [|j js IH]; intros r r'; cbn [enqueue_all]; [by intros [= ->]|].
  destruct (Enqueue r j) as [r1 [|]] eqn:Ej; [done|]. intros Hq.
  rewrite (IH _ _ Hq), (Enqueue_list _ _ _ Ej). cbn. by rewrite <- app_assoc.
Qed.

Lemma dequeue_many_list ids : forall r r' out,
  list_at (view r) queueKey = rev ids ->
  dequeue_many r (length ids) = Some (r', out) -> out = ids.
Proof.
  induction ids as [|x ids IH]; intros r r' out Hl; cbn [length dequeue_many]; [by intros [= _ <-]|].
  destruct (Dequeue r) as [r1 [id|]] eqn:Ed; [|done].
  destruct (String.eqb_spec id ""); [done|].
  destruct (dequeue_many r1 (length ids)) as [[r2 o]|] eqn:Em; [|done]. intros [= <- <-].
  apply Dequeue_list in Ed as (rest & Hr & Hrest); [|done].
  cbn in Hl. rewrite Hl in Hr. apply app_inj_tail in Hr as [<- ->].
  f_equal. by eapply IH.
Qed.
End sequences.

(** A job enqueued under a fresh id is loaded back as submitted. *)
Section reading_back.
Context `{RedisOk R}.

Lemma enqueue_load (r : R) j r1 r2 res :
  hashes (view r) !! jobKey (Job.ID j) = None ->
  int64 (Job.TimeLimitMs j) -> int64 (Job.MemoryLimitMb j) ->
  Enqueue r j = (r1, None) -> Load r1 (Job.ID j) = (r2, res) ->
  res = Ok (submitted j) \/
  (exists e, redis_hgetall r1 (jobKey (Job.ID j)) = (r2, Err e) /\ res = Err e).
Proof.
  intros Hf Ht Hm He Hl. apply tx_ok in He. unfold Load in Hl.
  destruct (redis_hgetall r1 (jobKey (Job.ID j))) as [r3 [m|e]] eqn:Eg; [|invc Hl; eauto].
  apply hgetall_ok in Eg as [_ ->].
  assert (Hh : hash_at (view r1) (jobKey (Job.ID j)) = set_fields ∅ (job_hash j)).
  { rewrite He. unfold hash_at, apply_cmds. cbn [foldl apply_cmd set_list hashes].
    rewrite lookup_insert_eq. cbn [default]. unfold hash_at. by rewrite Hf. }
  rewrite Hh, decide_False in Hl by apply set_fields_nonempty.
  rewrite decode_submitted in Hl by done. invc Hl. auto.
Qed.
End reading_back.

(** * Properties *)

Section properties.
Context `{RedisOk R}.

(** C4. Every queue operation implements its abstract effect on the job
    store: when the Redis call succeeds the new keyspace represents the new
    store, and when it reports an error it represents the old store or the
    new one, nothing in between. *)
Theorem queue_refines_store q (r : R) st o r' oe :
  represents (view r) st -> op_pre st o -> run_op q r o = (r', oe) ->
  represents (view r') (spec_op q st o) \/
  (oe <> None /\ represents (view r') st).
Proof.
  intros Hr Hp Ho. destruct (run_op_view q r o r' oe Ho) as [Hv|[Hne Hv]]; rewrite Hv.
  - left. by apply op_effect_represents.
  - by right.
Qed.

(** A job enqueued under a fresh id is loaded back as submitted: every
    field as given, the stdins as they survive JSON, status queued and no
    outcome. *)
Theorem enqueue_load_roundtrip (r : R) j r1 r2 res :
  hashes (view r) !! jobKey (Job.ID j) = None ->
  int64 (Job.TimeLimitMs j) -> int64 (Job.MemoryLimitMb j) ->
  Enqueue r j = (r1, None) -> Load r1 (Job.ID j) = (r2, res) ->
  res = Ok (submitted j) \/
  (exists e, redis_hgetall r1 (jobKey (Job.ID j)) = (r2, Err e) /\ res = Err e).
Proof. apply enqueue_load. Qed.

(** First in, first out: on an empty queue, the ids of jobs enqueued
    one after the other come back from successful dequeues in the same
    order. *)
Theorem queue_is_fifo (r : R) js r1 r2 ids :
  list_at (view r) queueKey = [] ->
  enqueue_all r js = Some r1 -> dequeue_many r1 (length js) = Some (r2, ids) ->
  ids = Job.ID <$> js.
Proof.
  intros He Hq Hd. apply enqueue_all_list in Hq. rewrite He, app_nil_r in Hq.
  rewrite <- (length_fmap Job.ID) in Hd.
  by eapply dequeue_many_list in Hd.
Qed.

(** [Load] never returns a partially parsed job: when it succeeds, each
    structured field that is present parsed as a whole, and a field that
    does not parse makes it fail with an error naming the field. *)
Theorem load_all_or_nothing id m :
  match decode_job id m with
  | Ok j =>
      (field_of m "stdins" <> "" -> unmarshal (to_bytes (field_of m "stdins")) = Ok (Job.Stdins j)) /\
      (field_of m "results" <> "" -> unmarshal (to_bytes (field_of m "results")) = Ok (Job.Results j)) /\
      (field_of m "time_limit_ms" <> "" -> atoi (to_bytes (field_of m "time_limit_ms")) = Ok (Job.TimeLimitMs j)) /\
      (field_of m "memory_limit_mb" <> "" -> atoi (to_bytes (field_of m "memory_limit_mb")) = Ok (Job.MemoryLimitMb j))
  | Err e => exists f e', f ∈ ["stdins"; "results"; "time_limit_ms"; "memory_limit_mb"] /\
      field_of m f <> "" /\ e = EWrap ("decode " +:+ f +:+ " for " +:+ id +:+ ": ") e'
  end.
Proof.
  destruct (decode_job id m) as [j|e] eqn:E.
  - apply decode_job_inv in E as (H1 & H2 & H3 & H4 & _).
    split_and!; intros Hne; [apply (parse_opt_ok _ _ _ _ _ _ H1)|apply (parse_opt_ok _ _ _ _ _ _ H2)
      |apply (parse_opt_ok _ _ _ _ _ _ H3)|apply (parse_opt_ok _ _ _ _ _ _ H4)]; done.
  - unfold decode_job, mbind, result_bind in E.
    repeat match type of E with
    | match ?p with _ => _ end = _ => destruct p eqn:Hp; [clear Hp|]
    end; invc E; apply parse_opt_err in Hp as (e' & Hne & ->);
      eexists _, e'; (split_and!; [|exact Hne|reflexivity]); set_solver.
Qed.

(** A finished job gets a time to live exactly when its status is
    terminal and the configured TTL is positive; otherwise the key's expiry
    is left as it was. *)
Theorem finish_sets_ttl q (r : R) id s ce es rs r' :
  Finish q r id s ce es rs = (r', None) ->
  ttls (view r') !! jobKey id =
    if Terminal s && (0 <? resultTTL q) then Some (resultTTL q)
    else ttls (view r) !! jobKey id.
Proof.
  intros Hf. apply tx_ok in Hf. rewrite Hf. unfold finish_cmds, apply_cmds.
  destruct (Terminal s && (0 <? resultTTL q)); cbn [foldl]; [|done].
  unfold apply_cmd at 1. rewrite decide_True.
  - cbn [ttls]. by rewrite lookup_insert_eq.
  - cbn [apply_cmd hashes]. rewrite lookup_insert_eq. eauto.
Qed.
End properties.

(** ** The properties at concrete inputs *)

Lemma queue_refines_store_witness :
  represents (view (fst (SetRunning demo_mem "job-1")))
    (spec_op demo_queue demo_store (OpSetRunning "job-1")).
Proof.
  destruct (queue_refines_store demo_queue demo_mem demo_store (OpSetRunning "job-1")
    (fst (SetRunning demo_mem "job-1")) None) as [H|[H _]].
  - apply demo_represents.
  - exists (submitted demo_job). vm_compute. reflexivity.
  - vm_compute. reflexivity.
  - exact H.
  - exfalso. by apply H.
Defined.

Lemma enqueue_load_roundtrip_witness :
  snd (Load demo_mem "job-1") = Ok (submitted demo_job) \/
  (exists e, redis_hgetall demo_mem (jobKey "job-1") = (fst (Load demo_mem "job-1"), Err e) /\
    snd (Load demo_mem "job-1") = Err e).
Proof.
  apply (enqueue_load_roundtrip mem0 demo_job demo_mem (fst (Load demo_mem "job-1"))
    (snd (Load demo_mem "job-1"))); vm_compute; first [reflexivity | by split].
Defined.

Definition demo_job2 : Job.t := {|
  Job.ID := "job-2"; Job.Language := "shell"; Job.Source := "echo ho";
  Job.Stdins := Some [""]; Job.TimeLimitMs := 0; Job.MemoryLimitMb := 0;
  Job.Status := StatusQueued; Job.Error := ""; Job.CompileError := ""; Job.Results := None |}.

Lemma queue_is_fifo_witness :
  exists r1 r2, enqueue_all mem0 [demo_job; demo_job2] = Some r1 /\
    dequeue_many r1 2 = Some (r2, ["job-1"; "job-2"]) /\
    ["job-1"; "job-2"] = Job.ID <$> [demo_job; demo_job2].
Proof.
  eexists _, _. split; [vm_compute; reflexivity|]. split; [vm_compute; reflexivity|].
  eapply (queue_is_fifo mem0 [demo_job; demo_job2]); vm_compute; reflexivity.
Defined.

Lemma finish_sets_ttl_witness :
  ttls (view (fst (Finish demo_queue demo_mem "job-1" StatusDone "" "" None))) !! jobKey "job-1"
  = Some (300 * Second).
Proof.
  rewrite (finish_sets_ttl demo_queue demo_mem "job-1" StatusDone "" "" None
    (fst (Finish demo_queue demo_mem "job-1" StatusDone "" "" None)));
    vm_compute; reflexivity.
Defined.
