(* ===== verification/Worker.v ===== *)
(** worker/worker.go: taking jobs from the queue and running them through an
    [Executor], with one retry.  The [Executor] interface of the code is a
    typeclass; [process] threads the Redis client and the executor. *)
From S2P Require Import Prelude GoInt Utf8 JsonText Json Codec Agent Jobs Langs Config Redis Queue.

(** [type Executor interface]: the executor's own state is threaded; a call
    gives a response or an error (a transport or VM failure). *)
Class Executor (E : Type) :=
  Execute : E -> string -> ExecRequest -> E * result ExecResponse.

(** [func pickPositive(v, fallback int) int] *)
Definition pickPositive (v fallback : Z) : Z := if 0 <? v then v else fallback.

(** The request [process] builds for a job in a language. *)
Definition build_request (cfg : Config) (lang : Language.t) (job : Job.t) : ExecRequest := {|
  SourceFile := Language.SourceFile lang;
  Source := Job.Source job;
  CompileCmd := Language.CompileCmd lang;
  RunCmd := Language.RunCmd lang;
  Stdins := Job.Stdins job;
  TimeLimitMs := pickPositive (Job.TimeLimitMs job) (int_div (DefaultTimeLimit cfg) Millisecond);
  MemoryLimitMb := pickPositive (Job.MemoryLimitMb job) (DefaultMemoryLimit cfg);
  OutputLimitBytes := OutputLimit cfg
|}.

Definition maxAttempts : nat := 2.

Section worker.
Context `{Redis R} `{Executor E}.
Context (cfg : Config) (q : Queue) (reg : Registry).

(** The attempt loop: the first response, or the last error. *)
Fixpoint attempts (n : nat) (lastErr : option error) (e : E) (langID : string)
    (req : ExecRequest) : E * (ExecResponse + option error) :=
  match n with
  | O => (e, inr lastErr)
  | S n =>
      match Execute e langID req with
      | (e, Ok resp) => (e, inl resp)
      | (e, Err err) => attempts n (Some err) e langID req
      end
  end.

(** Storing the outcome; the error of [Finish] itself is dropped ([_ =]). *)
Definition finish (r : R) (id : string) (s : Status) (ce es : string) (rs : slice CaseResult) : R :=
  fst (Finish q r id s ce es rs).

Definition conclude (r : R) (id : string) (out : ExecResponse + option error) : R :=
  match out with
  | inl resp =>
      if negb (String.eqb (AgentError resp) "")
      then finish r id StatusFailed "" ("agent: " +:+ AgentError resp) None
      else finish r id StatusDone (CompileError resp) "" (Results resp)
  | inr lastErr =>
      finish r id StatusFailed "" (from_option error_text "" lastErr) None
  end.

(** [func (w *Worker) process(ctx, jobID)] *)
Definition process (w : R * E) (jobID : string) : R * E :=
  let '(r, e) := w in
  match Load r jobID with
  | (r, Err _) => (r, e)
  | (r, Ok job) =>
      match SetRunning r jobID with
      | (r, Some _) => (r, e)
      | (r, None) =>
          match Get reg (Job.Language job) with
          | None =>
              (finish r jobID StatusFailed "" ("unknown language " +:+ fmt_q (Job.Language job)) None, e)
          | Some lang =>
              let req := build_request cfg lang job in
              let '(e, out) := attempts maxAttempts None e (Language.ID lang) req in
              (conclude r jobID out, e)
          end
      end
  end.

(** One turn of [loop] after the context check. *)
Definition turn (w : R * E) : R * E :=
  let '(r, e) := w in
  match Dequeue r with
  | (r, Err _) => (r, e)
  | (r, Ok id) => if String.eqb id "" then (r, e) else process (r, e) id
  end.

(** [loop]: the list says, turn by turn, whether [ctx.Err()] is non-nil. *)
Fixpoint loop (cancelled : list bool) (w : R * E) : R * E :=
  match cancelled with
  | [] => w
  | true :: _ => w
  | false :: cs => loop cs (turn w)
  end.
End worker.

(** ** Calls *)

(** An executor that records the calls it forwards. *)
Definition call : Type := string * ExecRequest.
#[export] Instance recording `{Executor E} : Executor (E * list call) := fun s langID req =>
  let '(e, res) := Execute (s.1) langID req in ((e, s.2 ++ [(langID, req)]), res).

Lemma recording_execute `{Executor E} (e : E) log langID req :
  Execute (e, log) langID req =
  (((Execute e langID req).1, log ++ [(langID, req)]), (Execute e langID req).2).
Proof.
  unfold Execute at 1, recording. cbn [fst snd].
  by destruct (Execute e langID req).
Qed.

(** What the attempt loop comes to, from the executor alone. *)
Definition two_tries `{Executor E} (e : E) (langID : string) (req : ExecRequest) :
    E * (ExecResponse + option error) :=
  match Execute e langID req with
  | (e1, Ok resp) => (e1, inl resp)
  | (e1, Err _) =>
      match Execute e1 langID req with
      | (e2, Ok resp) => (e2, inl resp)
      | (e2, Err err) => (e2, inr (Some err))
      end
  end.

Lemma attempts_two `{Executor E} e langID req :
  attempts maxAttempts None e langID req = two_tries e langID req.
Proof.
  unfold two_tries. cbn. destruct (Execute e langID req) as [e1 [resp|err]]; [done|].
  by destruct (Execute e1 langID req) as [e2 [resp|err']].
Qed.

Lemma pickPositive_pos v f : 0 < f -> 0 < pickPositive v f.
Proof. unfold pickPositive. destruct (Z.ltb_spec 0 v); lia. Qed.

(** ** The verdict of a job *)

(** The status, compile error, error and results the outcome is stored as. *)
Definition verdict (out : ExecResponse + option error) : Status * string * string * slice CaseResult :=
  match out with
  | inl resp =>
      if String.eqb (AgentError resp) ""
      then (StatusDone, CompileError resp, "", Results resp)
      else (StatusFailed, "", "agent: " +:+ AgentError resp, None)
  | inr lastErr => (StatusFailed, "", from_option error_text "" lastErr, None)
  end.

Definition verdict_wf (out : ExecResponse + option error) : Prop :=
  match out with inl resp => response_wf resp | inr _ => True end.

(** The abstract effect of a verdict on a stored job. *)
Definition settled (out : ExecResponse + option error) (j : Job.t) : Job.t :=
  let '(s, ce, es, rs) := verdict out in with_outcome s ce es (j_canon rs) (with_status StatusRunning j).

Lemma conclude_verdict `{Redis R} q (r : R) id out :
  conclude q r id out =
  let '(s, ce, es, rs) := verdict out in fst (Finish q r id s ce es rs).
Proof.
  destruct out as [resp|err]; [|done]. cbn. unfold finish.
  by destruct (String.eqb (AgentError resp) "").
Qed.

Lemma verdict_terminal out : Terminal (verdict out).1.1.1 = true.
Proof. destruct out as [resp|err]; [|done]. cbn. by destruct (String.eqb _ _). Qed.

Lemma verdict_results_wf out : verdict_wf out -> Forall case_wf (elems (verdict out).2).
Proof.
  destruct out as [resp|err]; cbn; [|constructor].
  destruct (String.eqb _ _); cbn; [done|constructor].
Qed.

(** What [process] will run for a job, if anything: its verdict. *)
Definition job_outcome `{Executor E} (cfg : Config) (reg : Registry) (e : E) (job : Job.t) :
    E * (ExecResponse + option error) :=
  match Get reg (Job.Language job) with
  | None => (e, inr (Some (ENew ("unknown language " +:+ fmt_q (Job.Language job)))))
  | Some lang => two_tries e (Language.ID lang) (build_request cfg lang job)
  end.

(** The store after a job has been taken up, and after its verdict. *)
Definition running_store (st : store) (id : string) : store :=
  {| jobs := alter (with_status StatusRunning) id (jobs st);
     pending := pending st; expiring := expiring st |}.

Definition settled_store (q : Queue) (st : store) (id : string) (job : Job.t)
    (out : ExecResponse + option error) : store :=
  {| jobs := <[id := settled out job]> (jobs st);
     pending := pending st;
     expiring := if 0 <? resultTTL q then <[id := resultTTL q]> (expiring st) else expiring st |}.

Section processing.
Context `{RedisOk R} `{Executor E} (cfg : Config) (q : Queue) (reg : Registry).

(** [process] is: load, mark running, run, store the verdict. *)
Lemma process_steps r e id r1 job r2 :
  Load r id = (r1, Ok job) -> SetRunning r1 id = (r2, None) ->
  process cfg q reg (r, e) id =
  (conclude q r2 id (job_outcome cfg reg e job).2, (job_outcome cfg reg e job).1).
Proof.
  intros Hl Hs. unfold process, job_outcome. rewrite Hl, Hs.
  destruct (Get reg (Job.Language job)) as [lang|]; [|done].
  rewrite attempts_two. by destruct (two_tries _ _ _).
Qed.

Lemma load_ok_job r st id r1 job :
  represents (view r) st -> Load r id = (r1, Ok job) ->
  view r1 = view r /\ jobs st !! id = Some job.
Proof.
  intros Hr Hl. destruct (Load_represents _ _ _ _ _ Hr Hl) as [Hv [(e & [=] & _)|Hj]].
  split; [done|]. destruct (jobs st !! id); by invc Hj.
Qed.

Lemma SetRunning_represents r st id r' :
  represents (view r) st -> is_Some (jobs st !! id) -> SetRunning r id = (r', None) ->
  represents (view r') (running_store st id).
Proof.
  intros Hr Hj Hs. apply (do_ok r) in Hs. rewrite Hs.
  by apply (op_effect_represents q (view r) st (OpSetRunning id)).
Qed.

(** Storing a verdict on a running job. *)
Lemma Finish_represents r st id job out :
  represents (view r) (running_store st id) -> jobs st !! id = Some job -> verdict_wf out ->
  let '(s, ce, es, rs) := verdict out in
  let '(r', oe) := Finish q r id s ce es rs in
  represents (view r') (settled_store q st id job out) \/
  (oe <> None /\ represents (view r') (running_store st id)).
Proof.
  intros Hr Hj Hw. pose proof (verdict_terminal out) as Ht.
  pose proof (verdict_results_wf out Hw) as Hrs.
  destruct (verdict out) as [[[s ce] es] rs] eqn:Ev. cbn in Ht, Hrs.
  destruct (Finish q r id s ce es rs) as [r' oe] eqn:Ef.
  assert (Hst : spec_op q (running_store st id) (OpFinish id s ce es rs) = settled_store q st id job out).
  { unfold settled_store, settled. cbn. rewrite Ev, Ht. cbn [andb]. f_equal.
    rewrite (alter_insert _ _ _ (with_status StatusRunning job))
      by (by rewrite lookup_alter_eq, Hj).
    rewrite (alter_insert (jobs st) _ _ job) by done. apply insert_insert_eq. }
  destruct (run_op_view q r (OpFinish id s ce es rs) r' oe Ef) as [Hv|[Hne Hv]].
  - left. rewrite Hv, <- Hst. apply op_effect_represents; [done|]. split; [|done].
    cbn. rewrite lookup_alter_eq, Hj. eauto.
  - right. by rewrite Hv.
Qed.
End processing.

(** * Properties *)

Section properties.
Context `{RedisOk R} `{Executor E} (cfg : Config) (q : Queue) (reg : Registry).

(** C2. A job that can be loaded and marked running is settled: the executor
    ends where the two tries leave it, and unless storing the outcome fails
    the job becomes terminal with its verdict - done with the results and
    compile error of the response, failed with the agent's message, with the
    second attempt's error, or with an unknown language - and every other
    job and the pending list are untouched. *)
Theorem process_settles_job r e st id r1 job r2 :
  represents (view r) st ->
  Load r id = (r1, Ok job) -> SetRunning r1 id = (r2, None) ->
  verdict_wf (job_outcome cfg reg e job).2 ->
  let '(r', e') := process cfg q reg (r, e) id in
  e' = (job_outcome cfg reg e job).1 /\
  (represents (view r') (settled_store q st id job (job_outcome cfg reg e job).2) \/
   represents (view r') (running_store st id)) /\
  (let '(s, ce, es, rs) := verdict (job_outcome cfg reg e job).2 in
   (Finish q r2 id s ce es rs).2 = None ->
   represents (view r') (settled_store q st id job (job_outcome cfg reg e job).2)).
Proof.
  intros Hr Hl Hs Hw. rewrite (process_steps cfg q reg r e id r1 job r2) by done.
  destruct (load_ok_job _ _ _ _ _ Hr Hl) as [Hv Hj].
  assert (Hrun : represents (view r2) (running_store st id)).
  { eapply (SetRunning_represents q r1); [by rewrite Hv|eauto|done]. }
  pose proof (Finish_represents q r2 st id job _ Hrun Hj Hw) as Hf.
  rewrite conclude_verdict.
  destruct (verdict _) as [[[s ce] es] rs].
  destruct (Finish q r2 id s ce es rs) as [r' oe]. cbn [fst snd].
  split; [done|]. destruct Hf as [Hf|[Hne Hf]]; (split; [tauto|congruence || tauto]).
Qed.

(** The calls [process] makes to the executor: none unless the job is
    loaded, marked running and in a known language; then one, and a second
    with the same language and request exactly when the first returned an
    error. *)
Theorem at_most_one_retry (r : R) (e : E) id :
  (process cfg q reg (r, (e, [])) id).2.2 =
  match Load r id with
  | (r1, Ok job) =>
      match SetRunning r1 id, Get reg (Job.Language job) with
      | (_, None), Some lang =>
          let c := (Language.ID lang, build_request cfg lang job) in
          if is_ok (Execute e c.1 c.2).2 then [c] else [c; c]
      | _, _ => []
      end
  | _ => []
  end.
Proof.
  destruct (Load r id) as [r1 [job|x]] eqn:El; [|cbn; by rewrite El].
  destruct (SetRunning r1 id) as [r2 [x|]] eqn:Es; [unfold process; by rewrite El, Es|].
  rewrite (process_steps cfg q reg r _ id r1 job r2) by done. cbn [snd].
  unfold job_outcome. destruct (Get reg (Job.Language job)) as [lang|]; [|done].
  unfold two_tries. rewrite recording_execute. cbn [fst snd].
  destruct (Execute e (Language.ID lang) _) as [e1 [resp|err]]; [done|].
  cbn [fst snd is_ok]. rewrite recording_execute. cbn [fst snd].
  by destruct (Execute e1 (Language.ID lang) _) as [e2 [resp|err']].
Qed.

(** A job whose hash cannot be read after it was taken from the queue is
    not taken again: the id is gone from the pending list, the job stays as
    it was and the executor never sees it. *)
Theorem load_failure_loses_job r e st rest id r1 r2 x :
  represents (view r) st -> pending st = rest ++ [id] -> id <> "" ->
  Dequeue r = (r1, Ok id) -> redis_hgetall r1 (jobKey id) = (r2, Err x) ->
  turn cfg q reg (r, e) = (r2, e) /\
  represents (view r2) {| jobs := jobs st; pending := rest; expiring := expiring st |}.
Proof.
  intros Hr Hp Hid Hd Hg. split.
  - unfold turn. rewrite Hd. apply String.eqb_neq in Hid as ->.
    unfold process, Load. by rewrite Hg.
  - apply hgetall_err in Hg. rewrite Hg.
    destruct (Dequeue_list _ _ _ Hd Hid) as (rest' & Hl & _).
    rewrite (rep_pending _ _ Hr), Hp in Hl. apply app_inj_tail in Hl as [<- _].
    unfold Dequeue in Hd. destruct (redis_brpop r queueKey popTimeout) as [r3 [l|e3]] eqn:Eb.
    + apply brpop_ok in Eb as (rest' & v & Hl & -> & Hv). invc Hd.
      rewrite (rep_pending _ _ Hr), Hp in Hl. apply app_inj_tail in Hl as [<- _].
      rewrite Hv. split; cbn; [apply (rep_job _ _ Hr)|apply list_at_set|apply (rep_ttl _ _ Hr)].
    + destruct (_ || _); [|done]. by invc Hd.
Qed.

(** The limits of every request the worker sends are positive when the
    configured defaults are: a job's own limit when it is positive, the
    default otherwise. *)
Theorem request_limits_positive lang job :
  Millisecond <= DefaultTimeLimit cfg <= max_int64 -> 0 < DefaultMemoryLimit cfg ->
  let req := build_request cfg lang job in
  0 < TimeLimitMs req /\ 0 < MemoryLimitMb req /\
  (0 < Job.TimeLimitMs job -> TimeLimitMs req = Job.TimeLimitMs job) /\
  (Job.TimeLimitMs job <= 0 -> TimeLimitMs req = DefaultTimeLimit cfg / Millisecond).
Proof.
  intros Ht Hm. cbn -[Millisecond].
  assert (Hd : int_div (DefaultTimeLimit cfg) Millisecond = DefaultTimeLimit cfg / Millisecond).
  { unfold int_div. rewrite Z.quot_div_nonneg by (unfold Millisecond in *; lia).
    apply wrap64_id. unfold int64, min_int64, max_int64, Millisecond in *.
    split; [|apply Z.div_le_upper_bound; lia].
    transitivity 0; [lia|apply Z.div_pos; lia]. }
  assert (0 < DefaultTimeLimit cfg / Millisecond).
  { unfold Millisecond in *. apply Z.div_str_pos. lia. }
  rewrite Hd. unfold pickPositive.
  destruct (Z.ltb_spec 0 (Job.TimeLimitMs job)), (Z.ltb_spec 0 (Job.MemoryLimitMb job)); lia.
Qed.
End properties.

(** ** The properties at concrete inputs *)

(** An executor that answers from a script. *)
Record scripted := { answers : list (result ExecResponse) }.
#[export] Instance scripted_executor : Executor scripted := fun s _ _ =>
  match answers s with
  | [] => (s, Err (ENew "script exhausted"))
  | x :: xs => ({| answers := xs |}, x)
  end.

Definition shell : Language.t :=
  Language.Build_t "shell" "Shell" "test" "fake.ext4" "main.sh" "" "sh main.sh".
Definition demo_registry : Registry := catalogue "/var/lib/dredd/rootfs" [shell].
Definition demo_env : environ :=
  {[ "DREDD_LANGUAGES_FILE" := "/l.json"; "DREDD_KERNEL_PATH" := "/vmlinux" ]}.
Definition demo_cfg : Config := clamp (read_env demo_env).

Definition demo_response : ExecResponse :=
  Build_ExecResponse "" (Some [Build_CaseResult "hi" "" 0 0 0 false]) "".
(** The first attempt fails, the second answers. *)
Definition flaky_once : scripted :=
  {| answers := [Err (ENew "simulated VM failure"); Ok demo_response] |}.

Lemma process_settles_job_witness :
  let '(r', e') := process demo_cfg demo_queue demo_registry (demo_mem, flaky_once) "job-1" in
  e' = {| answers := [] |} /\
  represents (view r') (settled_store demo_queue demo_store "job-1" (submitted demo_job) (inl demo_response)).
Proof.
  pose proof (process_settles_job demo_cfg demo_queue demo_registry demo_mem flaky_once demo_store
    "job-1" (fst (Load demo_mem "job-1")) (submitted demo_job)
    (fst (SetRunning demo_mem "job-1")) demo_represents) as H.
  specialize (H ltac:(vm_compute; reflexivity) ltac:(vm_compute; reflexivity)).
  assert (Ho : job_outcome demo_cfg demo_registry flaky_once (submitted demo_job)
    = ({| answers := [] |}, inl demo_response)) by (vm_compute; reflexivity).
  rewrite Ho in H. specialize (H ltac:(repeat constructor; vm_compute; discriminate)).
  destruct (process _ _ _ _ _) as [r' e'] eqn:Ep. destruct H as (He & _ & H).
  split; [exact He|]. apply H. vm_compute. reflexivity.
Defined.

(** The same store, with the next HGETALL failing. *)
Definition demo_mem_flaky : mem :=
  {| ks := ks demo_mem;
     script := [None; Some {| f_err := ENew "connection reset"; f_applied := false |}] |}.

Lemma load_failure_loses_job_witness :
  turn demo_cfg demo_queue demo_registry (demo_mem_flaky, flaky_once) =
    (fst (Load (fst (Dequeue demo_mem_flaky)) "job-1"), flaky_once) /\
  represents (view (fst (Load (fst (Dequeue demo_mem_flaky)) "job-1")))
    {| jobs := jobs demo_store; pending := []; expiring := expiring demo_store |}.
Proof.
  apply (load_failure_loses_job demo_cfg demo_queue demo_registry demo_mem_flaky flaky_once
    demo_store [] "job-1" (fst (Dequeue demo_mem_flaky))
    (fst (Load (fst (Dequeue demo_mem_flaky)) "job-1")) (ENew "connection reset")).
  - apply demo_represents.
  - vm_compute. reflexivity.
  - discriminate.
  - vm_compute. reflexivity.
  - vm_compute. reflexivity.
Defined.

Lemma request_limits_positive_witness :
  TimeLimitMs (build_request demo_cfg shell demo_job) = 1500 /\
  0 < MemoryLimitMb (build_request demo_cfg shell demo_job).
Proof.
  destruct (request_limits_positive demo_cfg shell demo_job) as (_ & Hm & Ht & _).
  - split; vm_compute; discriminate.
  - vm_compute. reflexivity.
  - split; [apply Ht; vm_compute; reflexivity|exact Hm].
Defined.
