(* ===== verification/Api.v ===== *)
(** api/: the HTTP handlers.  A handler is a function from the request and the
    Redis client to the response it writes; the body of a request is the bytes
    sent, the new job id is what the ULID library returned. *)
From S2P Require Import Prelude GoInt Utf8 JsonText Json Codec Agent Jobs Langs Config Redis Queue.

(** ** Responses *)
Record response := { code : Z; content_type : option string; body : bytes }.

Definition StatusOK : Z := 200.
Definition StatusAccepted : Z := 202.
Definition StatusBadRequest : Z := 400.
Definition StatusNotFound : Z := 404.
Definition StatusRequestEntityTooLarge : Z := 413.
Definition StatusInternalServerError : Z := 500.

(** [json.NewEncoder(w).Encode(v)]: the text and a newline. *)
Definition encode_line (v : json) : bytes := print v ++ [byte_of 10].

Definition json_response (c : Z) (v : json) : response :=
  {| code := c; content_type := Some "application/json"; body := encode_line v |}.

(** [func writeErr(w, code, msg)] *)
Definition writeErr (c : Z) (msg : string) : response :=
  json_response c (JObj [("error", JStr msg)]).

(** ** POST /exec *)
Module execRequest.
Record t := {
  Language : string;
  Source : string;
  Stdins : slice string;
  TimeLimitMs : Z;
  MemoryLimitMb : Z
}.
Definition fields : list (field t) := [
  mk_field "language" Language (fun x r => Build_t x (Source r) (Stdins r) (TimeLimitMs r) (MemoryLimitMb r));
  mk_field "source" Source (fun x r => Build_t (Language r) x (Stdins r) (TimeLimitMs r) (MemoryLimitMb r));
  mk_field "stdins" Stdins (fun x r => Build_t (Language r) (Source r) x (TimeLimitMs r) (MemoryLimitMb r));
  mk_field "time_limit_ms" TimeLimitMs (fun x r => Build_t (Language r) (Source r) (Stdins r) x (MemoryLimitMb r));
  mk_field "memory_limit_mb" MemoryLimitMb (fun x r => Build_t (Language r) (Source r) (Stdins r) (TimeLimitMs r) x)
].
End execRequest.

(** Unknown fields are refused: [dec.DisallowUnknownFields()]. *)
#[export] Instance execRequest_codec : JsonCodec execRequest.t := {
  j_zero := execRequest.Build_t "" "" None 0 0;
  j_enc := struct_enc execRequest.fields;
  j_dec := struct_dec true execRequest.fields
}.

(** [dec.Decode(&req)] over the capped body. *)
Definition decode_request (limit : Z) (b : bytes) : result execRequest.t :=
  v ← decode_stream limit b;
  match j_dec j_zero v with
  | Some req => Ok req
  | None => Err json_type_error
  end.

(** [func validate(r execRequest) error] *)
Definition validate (r : execRequest.t) : option error :=
  if String.eqb (execRequest.Language r) "" then Some (ENew "language is required")
  else if String.eqb (execRequest.Source r) "" then Some (ENew "source is required")
  else if slice_len (execRequest.Stdins r) =? 0
  then Some (ENew "stdins must contain at least one entry")
  else None.

Definition new_job (id : string) (req : execRequest.t) : Job.t := {|
  Job.ID := id;
  Job.Language := execRequest.Language req;
  Job.Source := execRequest.Source req;
  Job.Stdins := execRequest.Stdins req;
  Job.TimeLimitMs := execRequest.TimeLimitMs req;
  Job.MemoryLimitMb := execRequest.MemoryLimitMb req;
  Job.Status := StatusQueued;
  Job.Error := ""; Job.CompileError := ""; Job.Results := None
|}.

(** The response to a body that does not decode. *)
Definition decode_failure (e : error) : response :=
  match error_root e with
  | Some (MaxBytesError limit) =>
      writeErr StatusRequestEntityTooLarge ("request body exceeds " +:+ fmt_d limit +:+ " bytes")
  | _ => writeErr StatusBadRequest ("invalid json: " +:+ error_text e)
  end.

(** [type execResponse struct] *)
Module execResponse.
Record t := { ID : string }.
Definition fields : list (field t) := [mk_field "id" ID (fun x _ => Build_t x)].
End execResponse.

#[export] Instance execResponse_codec : JsonCodec execResponse.t := {
  j_zero := execResponse.Build_t "";
  j_enc := struct_enc execResponse.fields;
  j_dec := struct_dec false execResponse.fields
}.

(** ** GET /status/{id} *)
Module statusResponse.
Record t := {
  ID : string;
  Language : string;
  Status : string;
  CompileError : string;
  Error : string;
  Results : slice CaseResult
}.
Definition fields : list (field t) := [
  mk_field "id" ID (fun x r => Build_t x (Language r) (Status r) (CompileError r) (Error r) (Results r));
  mk_field "language" Language (fun x r => Build_t (ID r) x (Status r) (CompileError r) (Error r) (Results r));
  mk_field "status" Status (fun x r => Build_t (ID r) (Language r) x (CompileError r) (Error r) (Results r));
  omitempty (fun r => empty_string (CompileError r))
    (mk_field "compile_error" CompileError (fun x r => Build_t (ID r) (Language r) (Status r) x (Error r) (Results r)));
  omitempty (fun r => empty_string (Error r))
    (mk_field "error" Error (fun x r => Build_t (ID r) (Language r) (Status r) (CompileError r) x (Results r)));
  mk_field "results" Results (fun x r => Build_t (ID r) (Language r) (Status r) (CompileError r) (Error r) x)
].
End statusResponse.

#[export] Instance statusResponse_codec : JsonCodec statusResponse.t := {
  j_zero := statusResponse.Build_t "" "" "" "" "" None;
  j_enc := struct_enc statusResponse.fields;
  j_dec := struct_dec false statusResponse.fields
}.

(** The view of a job: [Results] is never nil, so it is never [null]. *)
Definition status_view (job : Job.t) : statusResponse.t := {|
  statusResponse.ID := Job.ID job;
  statusResponse.Language := Job.Language job;
  statusResponse.Status := Job.Status job;
  statusResponse.CompileError := Job.CompileError job;
  statusResponse.Error := Job.Error job;
  statusResponse.Results := match Job.Results job with None => Some [] | rs => rs end
|}.

(** [type Server struct]; the queue is the Redis client threaded below. *)
Section server.
Context `{Redis R} (cfg : Config) (reg : Registry).

(** [func (s *Server) exec]: [new_id] is what [ulid.New] returned. *)
Definition exec (r : R) (b : bytes) (new_id : result string) : R * response :=
  match decode_request (MaxRequestBytes cfg) b with
  | Err e => (r, decode_failure e)
  | Ok req =>
      match validate req with
      | Some e => (r, writeErr StatusBadRequest (error_text e))
      | None =>
          match Get reg (execRequest.Language req) with
          | None => (r, writeErr StatusBadRequest ("unknown language: " +:+ execRequest.Language req))
          | Some _ =>
              match new_id with
              | Err e => (r, writeErr StatusInternalServerError ("id: " +:+ error_text e))
              | Ok id =>
                  let job := new_job id req in
                  match Enqueue r job with
                  | (r, Some e) => (r, writeErr StatusInternalServerError ("enqueue: " +:+ error_text e))
                  | (r, None) => (r, json_response StatusAccepted (j_enc (execResponse.Build_t (Job.ID job))))
                  end
              end
          end
      end
  end.

(** [func (s *Server) status] *)
Definition status (r : R) (id : string) : R * response :=
  if String.eqb id "" then (r, writeErr StatusBadRequest "missing id")
  else match Load r id with
  | (r, Err e) =>
      if errors_is e ErrNotFound then (r, writeErr StatusNotFound "job not found")
      else (r, writeErr StatusInternalServerError (error_text e))
  | (r, Ok job) => (r, json_response StatusOK (j_enc (status_view job)))
  end.

(** [func (s *Server) languages] *)
Definition languages : response :=
  json_response StatusOK (JArr (j_enc <$> PublicAll reg)).

(** [func (s *Server) health] *)
Definition health : response :=
  {| code := StatusOK; content_type := None;
     body := print (JObj [("status", JStr "ok")]) |}.

(** The routes [Router] registers, and the handler each reaches. *)
Inductive request :=
  | GetHealthz
  | GetLanguages
  | PostExec (b : bytes) (new_id : result string)
  | GetStatus (id : string).

Definition Router (r : R) (req : request) : R * response :=
  match req with
  | GetHealthz => (r, health)
  | GetLanguages => (r, languages)
  | PostExec b new_id => exec r b new_id
  | GetStatus id => status r id
  end.
End server.

(** ** The request codec *)

Definition request_wf (r : execRequest.t) : Prop :=
  int64 (execRequest.TimeLimitMs r) /\ int64 (execRequest.MemoryLimitMb r).

Definition canon_request (r : execRequest.t) : execRequest.t :=
  execRequest.Build_t (clean_string (execRequest.Language r)) (clean_string (execRequest.Source r))
    (j_canon (execRequest.Stdins r)) (execRequest.TimeLimitMs r) (execRequest.MemoryLimitMb r).

#[export] Instance execRequest_codec_ok : JsonCodecOk execRequest.t.
Proof.
  refine {| j_wf := request_wf; j_canon := canon_request; j_height := 2 |};
    [struct_law|struct_law|].
  intros r (Ht & Hm). by struct_fields execRequest.fields.
Defined.

Lemma struct_fits {A} `{JsonCodecOk A} (a : A) :
  Z.of_nat j_height <= max_nesting -> fits 0 (j_enc a).
Proof. intros Hh. unfold fits. pose proof (j_depth a). lia. Qed.

(** ** Decoding failures *)

Lemma decode_failure_code e :
  code (decode_failure e) = StatusRequestEntityTooLarge \/ code (decode_failure e) = StatusBadRequest.
Proof.
  unfold decode_failure. destruct (error_root e) as [[]|]; cbn; auto.
Qed.

(** The 413 answer: exactly the bodies whose first [limit] bytes are a proper
    prefix of a JSON value, with more to come. *)
Lemma decode_too_large limit b :
  (exists e, decode_request limit b = Err e /\
     code (decode_failure e) = StatusRequestEntityTooLarge) <->
  0 < limit < blen b /\ exists st, dec_scan (BeginValue []) (take (Z.to_nat limit) b) = More st.
Proof.
  unfold decode_request, mbind, result_bind. split.
  - intros (e & Hd & Hc). destruct (decode_stream limit b) as [v|e'] eqn:Es.
    { destruct (j_dec j_zero v); invc Hd. by cbn in Hc. }
    invc Hd. unfold decode_stream in Es. unfold capped, over_cap in Es.
    destruct (dec_scan _ _) as [v| |st] eqn:Ed; [done|invc Es; by cbn in Hc|].
    destruct (Z.ltb_spec 0 limit) as [Hl|Hl]; cbn [andb] in Es.
    + destruct (Z.ltb_spec limit (blen b)); [eauto|].
      destruct (at_eof st); [done|]. destruct (forallb is_space b); invc Es; by cbn in Hc.
    + destruct (at_eof st); [done|]. destruct (forallb is_space b); invc Es; by cbn in Hc.
  - intros ([Hl Hb] & st & Hd). pose proof (decode_stream_cap limit b Hl) as Hs.
    rewrite Hd in Hs. rewrite Hs by done. eauto.
Qed.

(** * Properties *)

Section properties.
Context `{RedisOk R} (cfg : Config) (reg : Registry).

(** The request [req] in the body is accepted under [id]: it decodes and
    validates, its language is known, an id was generated, and the queue takes
    the job. *)
Definition acceptable (r : R) (b : bytes) (new_id : result string) (req : execRequest.t) (id : string) (r' : R) : Prop :=
  decode_request (MaxRequestBytes cfg) b = Ok req /\ validate req = None /\
  is_Some (Get reg (execRequest.Language req)) /\ new_id = Ok id /\
  Enqueue r (new_job id req) = (r', None).

(** C38. [POST /exec] answers 202 exactly when the body decodes to a request
    that validates, its language is known, an id was generated and the queue
    took the job; and whenever that is so the answer carries the id, and what
    was done to the queue is to enqueue the request under that id. *)
Theorem exec_accepts_iff (r : R) b new_id :
  (code (exec cfg reg r b new_id).2 = StatusAccepted <->
   exists req id r', acceptable r b new_id req id r') /\
  (forall req id r', acceptable r b new_id req id r' ->
     exec cfg reg r b new_id = (r', json_response StatusAccepted (j_enc (execResponse.Build_t id)))).
Proof.
  assert (Hexec : forall req id r', acceptable r b new_id req id r' ->
    exec cfg reg r b new_id = (r', json_response StatusAccepted (j_enc (execResponse.Build_t id)))).
  { intros req id r' (Hd & Hv & [l Hg] & -> & Hq). unfold exec. by rewrite Hd, Hv, Hg, Hq. }
  split; [|exact Hexec]. split; [|by intros (req & id & r' & ->%Hexec)].
  unfold acceptable, exec. destruct (decode_request _ b) as [req|e] eqn:Ed; cbn [snd].
  2:{ destruct (decode_failure_code e) as [-> | ->]; done. }
  destruct (validate req) eqn:Ev; [done|].
  destruct (Get reg _) eqn:Eg; [|done]. destruct new_id as [id|]; [|done].
  destruct (Enqueue r (new_job id req)) as [r' [e|]] eqn:Eq; [done|]. intros _.
  exists req, id, r'. rewrite Eg. eauto 8.
Qed.

(** A submission that is refused (any answer below 500) leaves Redis
    untouched, and only a failed enqueue or id generation answers 500. *)
Theorem exec_refusal_has_no_effect (r : R) b new_id r' resp :
  exec cfg reg r b new_id = (r', resp) -> code resp <> StatusAccepted ->
  (r' = r /\ (code resp < StatusInternalServerError \/ exists e, new_id = Err e)) \/
  (code resp = StatusInternalServerError /\ exists job e, Enqueue r job = (r', Some e)).
Proof.
  unfold exec. destruct (decode_request _ b) as [req|e] eqn:Ed.
  2:{ intros [= <- <-] _. left. split; [done|left].
      destruct (decode_failure_code e) as [-> | ->]; done. }
  destruct (validate req); [intros [= <- <-] _; left; split; [done|by left]|].
  destruct (Get reg _); [|intros [= <- <-] _; left; split; [done|by left]].
  destruct new_id as [id|e]; [|intros [= <- <-] _; left; eauto].
  destruct (Enqueue r (new_job id req)) as [r1 [e|]] eqn:Eq; intros [= <- <-] Hc; [|done].
  right. eauto.
Qed.

(** The size cap answers 413 only for a body longer than the cap whose
    first cap bytes do not already hold a complete JSON value or a syntax
    error: anything after a complete value is ignored, whatever its size. *)
Theorem exec_413_iff (r : R) b new_id :
  code (exec cfg reg r b new_id).2 = StatusRequestEntityTooLarge <->
  0 < MaxRequestBytes cfg < blen b /\
  exists st, dec_scan (BeginValue []) (take (Z.to_nat (MaxRequestBytes cfg)) b) = More st.
Proof.
  rewrite <- decode_too_large. unfold exec. split.
  - destruct (decode_request _ b) as [req|e]; [|by eauto].
    destruct (validate req); [done|]. destruct (Get reg _); [|done].
    destruct new_id as [id|]; [|done].
    by destruct (Enqueue r (new_job id req)) as [r1 [e|]].
  - intros (e & -> & Hc). done.
Qed.

(** C39. A client's marshalled request, with limits in the range of an int, is
    decoded as sent (text with invalid UTF-8 replaced) whenever it fits the cap
    by itself or the cap is off, whatever bytes follow it: they may take the
    body over the cap, and the answer is still not 413 - unlike the README,
    which promises 413 for every body over the cap. *)
Theorem exec_decodes_submission (r : R) req trailing new_id :
  request_wf req -> MaxRequestBytes cfg <= 0 \/ blen (marshal req) <= MaxRequestBytes cfg ->
  decode_request (MaxRequestBytes cfg) (marshal req ++ trailing) = Ok (canon_request req) /\
  code (exec cfg reg r (marshal req ++ trailing) new_id).2 <> StatusRequestEntityTooLarge.
Proof.
  intros Hw Hl.
  assert (Hd : decode_request (MaxRequestBytes cfg) (marshal req ++ trailing) = Ok (canon_request req)).
  { unfold decode_request, marshal in *.
    rewrite (decode_stream_prefix _ _ trailing (jclean (j_enc req))); [|apply dec_scan_print|done].
    - unfold mbind, result_bind. by rewrite j_round.
    - change (json_ok (j_enc req) = true). apply j_ok.
    - change (fits 0 (j_enc req)). apply struct_fits. by vm_compute. }
  split; [exact Hd|]. unfold exec. rewrite Hd.
  destruct (validate _); [done|]. destruct (Get reg _); [|done].
  destruct new_id as [id|]; [|done]. by destruct (Enqueue _ _) as [r' [e|]].
Qed.

(** [GET /status/{id}] on a represented store answers 404 exactly when
    the job is unknown and 200 with the view of the stored job otherwise
    (a Redis error apart, which answers 500), changes nothing, and never
    reports null results. *)
Theorem status_reports_job (r : R) st id r' resp :
  represents (view r) st -> id <> "" -> status r id = (r', resp) ->
  view r' = view r /\
  (resp = match jobs st !! id with
          | Some job => json_response StatusOK (j_enc (status_view job))
          | None => writeErr StatusNotFound "job not found"
          end \/
   exists e, redis_hgetall r (jobKey id) = (r', Err e)) /\
  (forall job, statusResponse.Results (status_view job) <> None).
Proof.
  intros Hr Hid. unfold status. apply String.eqb_neq in Hid as ->.
  destruct (Load r id) as [r1 res] eqn:El.
  destruct (Load_represents _ _ _ _ _ Hr El) as [Hv Hres]. intros Hs.
  assert (r1 = r') as <- by (destruct res; [by invc Hs|case_match; by invc Hs]).
  split_and!; [done| |intros job; cbn; by destruct (Job.Results job)].
  destruct Hres as [(e & -> & e' & Hg)| ->].
  - right. eexists. unfold Load in El. rewrite Hg in El. invc El. exact Hg.
  - left. destruct (jobs st !! id); by invc Hs.
Qed.
End properties.

Section end_to_end.
Context `{RedisOk R} (cfg : Config) (reg : Registry).

(** An accepted submission was enqueued. *)
Lemma accepted_enqueues (r : R) b id r1 resp1 req :
  decode_request (MaxRequestBytes cfg) b = Ok req ->
  exec cfg reg r b (Ok id) = (r1, resp1) -> code resp1 = StatusAccepted ->
  Enqueue r (new_job id req) = (r1, None).
Proof.
  intros Hd He Hc. unfold exec in He. rewrite Hd in He. destruct (validate req); [by invc He|].
  destruct (Get reg _); [|by invc He]. cbn zeta in He.
  destruct (Enqueue r (new_job id req)) as [r' [e|]]; by invc He.
Qed.

(** C22. Submitting and then polling: after an accepted [POST /exec] under a
    fresh non-empty id with limits in range, [GET /status/{id}] answers 200
    with the job queued, its language, and empty results (unless reading
    Redis fails). *)
Theorem submit_then_status (r : R) b id r1 resp1 r2 resp2 req :
  decode_request (MaxRequestBytes cfg) b = Ok req -> request_wf req -> id <> "" ->
  hashes (view r) !! jobKey id = None ->
  exec cfg reg r b (Ok id) = (r1, resp1) -> code resp1 = StatusAccepted ->
  status r1 id = (r2, resp2) ->
  resp2 = json_response StatusOK (j_enc (statusResponse.Build_t id
            (execRequest.Language req) StatusQueued "" "" (Some []))) \/
  exists e, redis_hgetall r1 (jobKey id) = (r2, Err e).
Proof.
  intros Hd [Ht Hm] Hid Hf He Hc Hs.
  pose proof (accepted_enqueues _ _ _ _ _ _ Hd He Hc) as Hq.
  unfold status in Hs. apply String.eqb_neq in Hid as Hid'. rewrite Hid' in Hs.
  destruct (Load r1 id) as [r3 res] eqn:El.
  destruct (enqueue_load r (new_job id req) r1 r3 res Hf Ht Hm Hq El)
    as [->|(e & Hg & ->)].
  - left. invc Hs. done.
  - right. exists e. case_match; by invc Hs.
Qed.
End end_to_end.

(** ** The properties at concrete inputs *)

Definition demo_registry : Registry := catalogue "/rootfs" demo_languages.
Definition demo_request : execRequest.t :=
  execRequest.Build_t "shell" "echo hi" (Some ["a"; "b"]) 0 0.
Definition demo_body : bytes := marshal demo_request.
Definition api_cfg : Config := clamp (read_env (sample_env "60")).
Definition accepted : mem := fst (exec api_cfg demo_registry mem0 demo_body (Ok "job-1")).

Lemma exec_refusal_has_no_effect_witness :
  exec api_cfg demo_registry mem0 (b#"{") (Ok "job-1") =
    (mem0, snd (exec api_cfg demo_registry mem0 (b#"{") (Ok "job-1"))).
Proof.
  destruct (exec_refusal_has_no_effect api_cfg demo_registry mem0 (b#"{") (Ok "job-1")
    (fst (exec api_cfg demo_registry mem0 (b#"{") (Ok "job-1")))
    (snd (exec api_cfg demo_registry mem0 (b#"{") (Ok "job-1")))) as [[Hr _]|[Hc _]].
  - vm_compute. reflexivity.
  - vm_compute. discriminate.
  - vm_compute. reflexivity.
  - vm_compute in Hc. discriminate.
Defined.

(** A submission that fits the cap, followed by garbage that does not: the
    request is decoded all the same, and accepted. *)
Definition small_cfg : Config := clamp (read_env
  (<["DREDD_MAX_REQUEST_BYTES" := "200"]> (sample_env "60"))).
Definition long_body : bytes := demo_body ++ replicate 500 "x"%char.
Lemma exec_decodes_submission_witness :
  blen long_body > MaxRequestBytes small_cfg /\
  decode_request (MaxRequestBytes small_cfg) long_body = Ok demo_request /\
  code (exec small_cfg demo_registry mem0 long_body (Ok "job-1")).2 <> StatusRequestEntityTooLarge.
Proof.
  split; [vm_compute; reflexivity|].
  destruct (exec_decodes_submission small_cfg demo_registry mem0 demo_request
    (replicate 500 "x"%char) (Ok "job-1")) as [Hd Hc].
  - split; split; vm_compute; discriminate.
  - right. vm_compute. discriminate.
  - split; [|exact Hc]. etransitivity; [exact Hd|]. vm_compute. reflexivity.
Defined.

Lemma status_reports_job_witness :
  snd (status demo_mem "job-1") = json_response StatusOK (j_enc (status_view (submitted demo_job))).
Proof.
  destruct (status_reports_job demo_mem demo_store "job-1" (fst (status demo_mem "job-1"))
    (snd (status demo_mem "job-1")) demo_represents) as (_ & [H|[e H]] & _).
  - discriminate.
  - vm_compute. reflexivity.
  - exact H.
  - vm_compute in H. discriminate.
Defined.

Lemma submit_then_status_witness :
  snd (status accepted "job-1") = json_response StatusOK (j_enc (statusResponse.Build_t "job-1"
    "shell" StatusQueued "" "" (Some []))).
Proof.
  destruct (submit_then_status api_cfg demo_registry mem0 demo_body "job-1" accepted
    (snd (exec api_cfg demo_registry mem0 demo_body (Ok "job-1")))
    (fst (status accepted "job-1")) (snd (status accepted "job-1")) demo_request) as [H|[e H]];
    try (vm_compute; reflexivity).
  - split; split; vm_compute; discriminate.
  - discriminate.
Defined.
