(* ===== verification/Clock.v ===== *)
(** Clocks and polling loops.  A loop that retries until a deadline reads the
    clock once per iteration; the readings and the outcomes of its attempts are
    functions of the iteration number, and the loop runs on fuel with a bound
    that is enough.  Used by the vsock dial and the wait for the API socket. *)
From S2P Require Import Prelude GoInt.

Section poll.
Context {A : Type}.
(** Iteration [k]: what the attempt returned, the clock at the deadline check,
    and the error of a context found cancelled before the pause ends. *)
Context (attempt : nat -> result A) (now : nat -> Z) (interrupted : nat -> option error).
(** The error reported once the deadline has passed, from the attempt's own. *)
Context (late : error -> error) (deadline : Z).

(** [for { if attempt ok { return }; if time.Now().After(deadline) { return
    late }; select { ctx.Done, time.After } }]: [None] when out of fuel. *)
Fixpoint poll (fuel : nat) (k : nat) : option (result A) :=
  match fuel with
  | O => None
  | S fuel =>
      match attempt k with
      | Ok a => Some (Ok a)
      | Err e =>
          if deadline <? now k then Some (Err (late e))
          else match interrupted k with
               | Some e => Some (Err e)
               | None => poll fuel (S k)
               end
      end
  end.

(** The clock moves by at least [interval] from one check to the next. *)
Definition ticks (interval : Z) : Prop := forall k, now k + interval <= now (S k).

Lemma ticks_from interval k n : ticks interval -> now k + interval * Z.of_nat n <= now (k + n)%nat.
Proof.
  intros Ht. induction n as [|n IH]; [rewrite Nat.add_0_r; lia|].
  specialize (Ht (k + n)%nat). rewrite Nat.add_succ_r. lia.
Qed.

(** Enough fuel to reach an iteration whose check is past the deadline. *)
Lemma poll_some n k : deadline < now (k + n)%nat -> is_Some (poll (S n) k).
Proof.
  revert k. induction n as [|n IH]; intros k Hd; cbn [poll].
  all: destruct (attempt k); [by eauto|].
  - rewrite Nat.add_0_r in Hd. apply Z.ltb_lt in Hd as ->. by eauto.
  - case_match; [by eauto|]. case_match; [by eauto|].
    apply IH. by rewrite Nat.add_succ_l, <- Nat.add_succ_r.
Qed.

(** The fuel that is enough for a budget of [d] from iteration 0. *)
Definition poll_fuel (interval d : Z) : nat := S (S (Z.to_nat (Z.max 0 d / interval))).

Lemma poll_terminates interval d :
  0 < interval -> ticks interval -> deadline <= now 0%nat + d ->
  is_Some (poll (poll_fuel interval d) 0).
Proof.
  intros Hi Ht Hd. apply poll_some. cbn [Nat.add].
  pose proof (ticks_from interval 0 (S (Z.to_nat (Z.max 0 d / interval))) Ht) as Hk.
  cbn [Nat.add] in Hk. rewrite Nat2Z.inj_succ, Z2Nat.id in Hk by (apply Z.div_pos; lia).
  pose proof (Z.mul_succ_div_gt (Z.max 0 d) interval Hi). lia.
Qed.

(** The first attempt that succeeds wins, if every check before it passed. *)
Lemma poll_ok_inv fuel k a :
  poll fuel k = Some (Ok a) ->
  exists n, attempt (k + n)%nat = Ok a /\
    forall i, (i < n)%nat -> is_ok (attempt (k + i)%nat) = false /\
      now (k + i)%nat <= deadline /\ interrupted (k + i)%nat = None.
Proof.
  revert k. induction fuel as [|fuel IH]; intros k; cbn [poll]; [done|].
  destruct (attempt k) as [b|e] eqn:Ea.
  - intros [= ->]. exists 0%nat. rewrite Nat.add_0_r. split; [done|lia].
  - destruct (Z.ltb_spec deadline (now k)); [done|].
    destruct (interrupted k) eqn:Ei; [done|]. intros (n & Hn & Hb)%IH.
    exists (S n). rewrite Nat.add_succ_r. split; [done|].
    intros [|i] Hlt; [by rewrite Nat.add_0_r, Ea|].
    rewrite Nat.add_succ_r. apply Hb. lia.
Qed.
End poll.
