(* ===== verification/Wire.v ===== *)
(** firecracker/vsock.go and the framing half of guest/dreddagent/main.go:
    length-prefixed JSON frames over a byte stream, seen from both ends, and
    the CONNECT handshake that precedes them on the host. *)
From S2P Require Import Prelude GoInt Utf8 JsonText Json Codec Agent Clock.

(** * Stream connections

    [net.Conn] as the program uses it: the bytes still to be read and the error
    that reading meets after them ([EOF], or a deadline), the bytes written,
    and the faults of the writes and deadline settings to come - each may fail
    after writing part of its bytes. *)
Record conn := {
  inbox : bytes;
  in_end : error;
  outbox : bytes;
  faults : list (option (nat * error));
  closed : bool
}.

(** A computation that uses one connection. *)
Notation io := (M conn).

(** Close the connection when [m] fails. *)
Definition close (c : conn) : conn :=
  {| inbox := inbox c; in_end := in_end c; outbox := outbox c; faults := faults c; closed := true |}.
Definition closing {A} : io A -> io A := on_error close.

Definition take_fault (c : conn) : conn * option (nat * error) :=
  ({| inbox := inbox c; in_end := in_end c; outbox := outbox c;
      faults := tail (faults c); closed := closed c |}, default None (head (faults c))).

Definition send (b : bytes) (c : conn) : conn :=
  {| inbox := inbox c; in_end := in_end c; outbox := outbox c ++ b; faults := faults c; closed := closed c |}.
Definition receive (rest : bytes) (c : conn) : conn :=
  {| inbox := rest; in_end := in_end c; outbox := outbox c; faults := faults c; closed := closed c |}.

(** [conn.SetDeadline] *)
Definition SetDeadline : io unit := fun c =>
  match take_fault c with
  | (c, Some (_, e)) => (c, Err e)
  | (c, None) => (c, Ok tt)
  end.

(** [conn.Write] *)
Definition Write (b : bytes) : io unit := fun c =>
  match take_fault c with
  | (c, Some (n, e)) => (send (take n b) c, Err e)
  | (c, None) => (send b c, Ok tt)
  end.

(** [io.ReadFull] into a buffer of [n] bytes. *)
Definition ReadFull (n : nat) : io bytes := fun c =>
  if (n <=? length (inbox c))%nat then (receive (drop n (inbox c)) c, Ok (take n (inbox c)))
  else (receive [] c,
        Err (match inbox c with
             | [] => in_end c
             | _ => if decide (in_end c = ESentinel EOF) then ESentinel UnexpectedEOF else in_end c
             end)).

(** * The host's end *)

(** [func Exchange(conn, req, timeout)]; [json.Marshal] cannot fail on a
    request, which holds strings, integers and a slice. *)
Definition Exchange (req : ExecRequest) : io ExecResponse :=
  SetDeadline ≫= fun _ =>
  let payload := marshal req in
  if MaxFrameBytes <? blen payload
  then fail (ENew ("request frame too large: " +:+ fmt_d (blen payload)))
  else
  ctx "write header: " (Write (put_uint32 (uwrap32 (blen payload)))) ≫= fun _ =>
  ctx "write payload: " (Write payload) ≫= fun _ =>
  ctx "read header: " (ReadFull 4) ≫= fun hdr =>
  let n := uint32 hdr in
  if (n =? 0) || (MaxFrameBytes <? n)
  then fail (ENew ("invalid response frame size: " +:+ fmt_d n))
  else
  ctx "read payload: " (ReadFull (Z.to_nat n)) ≫= fun buf =>
  ctx "decode response: " (lift (unmarshal buf)).

(** * The guest's end *)

Definition readFrame : io ExecRequest :=
  ReadFull 4 ≫= fun hdr =>
  let n := uint32 hdr in
  if (n =? 0) || (MaxFrameBytes <? n)
  then fail (ENew ("invalid frame size " +:+ fmt_d n))
  else
  ReadFull (Z.to_nat n) ≫= fun buf =>
  lift (unmarshal buf).

Definition writeFrame (resp : ExecResponse) : io unit :=
  let b := marshal resp in
  Write (put_uint32 (uwrap32 (blen b))) ≫= fun _ =>
  Write b.

(** * The handshake *)

Definition newline : ascii := byte_of 10.

(** The loop that reads the reply one byte at a time into [buf]. *)
Fixpoint read_reply (e : error) (buf inb : bytes) : bytes * result bytes :=
  match inb with
  | [] => ([], Err (EWrap "vsock handshake read: " e))
  | b :: inb =>
      let buf := buf ++ [b] in
      if Ascii.eqb b newline then (inb, Ok buf)
      else if 64 <? blen buf then (inb, Err (ENew "vsock handshake reply too long"))
      else read_reply e buf inb
  end.

Definition ReadReply : io bytes := fun c =>
  let '(rest, r) := read_reply (in_end c) [] (inbox c) in (receive rest c, r).

(** [_ = conn.SetDeadline(time.Time{})] *)
Definition ClearDeadline : io unit := fun c => let '(c, _) := SetDeadline c in (c, Ok tt).

(** [VsockHostDial] once connected; the last [SetDeadline] ignores its error. *)
Definition handshake (port : Z) : io unit :=
  closing (
    SetDeadline ≫= fun _ =>
    Write (to_bytes ("CONNECT " +:+ fmt_d port) ++ [newline]) ≫= fun _ =>
    ReadReply ≫= fun buf =>
    if (blen buf <? 3) || negb (String.eqb (of_bytes (take 2 buf)) "OK")
    then fail (ENew ("vsock handshake rejected: " +:+ fmt_q (of_bytes buf)))
    else mret tt) ≫= fun _ => ClearDeadline.

(** [func VsockHostDial]: [dial k] is the outcome of the [k]th connection
    attempt and [now k] the clock at the check after it; 50ms between two. *)
Definition dialInterval : Z := 50 * Millisecond.
Definition VsockHostDial (fuel : nat) (dial : nat -> result conn) (now : nat -> Z) (start : Z)
    (socketPath : string) (port timeout : Z) : option (result conn) :=
  match poll dial now (fun _ => None) (EWrap ("vsock dial " +:+ socketPath +:+ ": "))
          (start + timeout) fuel 0 with
  | None => None
  | Some (Err e) => Some (Err e)
  | Some (Ok c) =>
      match handshake port c with
      | (c, Ok _) => Some (Ok c)
      | (_, Err e) => Some (Err e)
      end
  end.

(** * Reading and writing *)

(** A connection whose writes and deadline settings all succeed. *)
Definition healthy (c : conn) : Prop := faults c = [].

Definition frame (b : bytes) : bytes := put_uint32 (uwrap32 (blen b)) ++ b.

Lemma set_deadline_ok c c' u :
  SetDeadline c = (c', Ok u) -> inbox c' = inbox c /\ outbox c' = outbox c.
Proof. unfold SetDeadline, take_fault. destruct (default None _) as [[n e]|]; by intros [= <-]. Qed.

Lemma write_ok b c c' u :
  Write b c = (c', Ok u) -> inbox c' = inbox c /\ outbox c' = outbox c ++ b.
Proof. unfold Write, take_fault. destruct (default None _) as [[n e]|]; by intros [= <-]. Qed.

Lemma read_full_ok n c c' b :
  ReadFull n c = (c', Ok b) -> inbox c = b ++ inbox c' /\ length b = n /\ outbox c' = outbox c.
Proof.
  unfold ReadFull. destruct (Nat.leb_spec n (length (inbox c))); [|done].
  intros [= <- <-]. cbn. by rewrite take_drop, length_take_le.
Qed.

Lemma read_full_exact b rest c :
  inbox c = b ++ rest -> ReadFull (length b) c = (receive rest c, Ok b).
Proof.
  intros Hi. unfold ReadFull. rewrite Hi, length_app, drop_app_length, take_app_length.
  by rewrite (proj2 (Nat.leb_le _ _)) by lia.
Qed.

Lemma uint32_frame b : blen b < 2 ^ 32 -> uint32 (put_uint32 (uwrap32 (blen b))) = blen b.
Proof.
  intros Hb. rewrite uint32_put. unfold uwrap32. rewrite Z.mod_mod by lia.
  apply Z.mod_small. pose proof (blen_nonneg b). lia.
Qed.

Lemma frame_header h b : length h = 4%nat -> uint32 h = blen b -> h = put_uint32 (uwrap32 (blen b)).
Proof.
  intros Hl <-. rewrite <- (put_uint32_uint32 h Hl) at 1. f_equal.
  unfold uwrap32. pose proof (uint32_range h). by rewrite Z.mod_small by lia.
Qed.

Lemma bad_size_false n : (n =? 0) || (MaxFrameBytes <? n) = false <-> n <> 0 /\ n <= MaxFrameBytes.
Proof. by rewrite orb_false_iff, Z.eqb_neq, Z.ltb_ge. Qed.

Lemma marshal_pos `{JsonCodecOk A} (a : A) : 0 < blen (marshal a).
Proof.
  unfold marshal. destruct (print_head _ (j_ok a)) as (c & r & -> & _).
  unfold blen. cbn [length]. lia.
Qed.

Lemma healthy_deadline c : healthy c -> SetDeadline c = (c, Ok tt).
Proof. destruct c; unfold healthy; cbn. by intros ->. Qed.

Lemma healthy_write b c : healthy c -> Write b c = (send b c, Ok tt).
Proof. destruct c; unfold healthy; cbn. by intros ->. Qed.

Lemma send_send a b c : send b (send a c) = send (a ++ b) c.
Proof. unfold send. cbn [outbox inbox in_end faults closed]. by rewrite app_assoc. Qed.

Lemma frame_app b rest : frame b ++ rest = put_uint32 (uwrap32 (blen b)) ++ (b ++ rest).
Proof. unfold frame. by rewrite <- app_assoc. Qed.

(** A frame of acceptable size at the head of the inbox is read whole, and
    nothing beyond it. *)
Lemma read_header b rest c : inbox c = frame b ++ rest ->
  ReadFull 4 c = (receive (b ++ rest) c, Ok (put_uint32 (uwrap32 (blen b)))).
Proof.
  intros Hi. rewrite <- (read_full_exact (put_uint32 (uwrap32 (blen b)))); [done|].
  by rewrite Hi, frame_app.
Qed.

Lemma read_body b rest c :
  inbox c = b ++ rest -> ReadFull (Z.to_nat (blen b)) c = (receive rest c, Ok b).
Proof. intros Hi. unfold blen. rewrite Nat2Z.id. by apply read_full_exact. Qed.

Lemma size_ok b : 0 < blen b <= MaxFrameBytes ->
  uint32 (put_uint32 (uwrap32 (blen b))) = blen b /\
  (blen b =? 0) || (MaxFrameBytes <? blen b) = false.
Proof.
  intros Hb. rewrite bad_size_false, uint32_frame; [split; [done|lia]|].
  unfold MaxFrameBytes in Hb. lia.
Qed.

Lemma readFrame_frame b rest c :
  inbox c = frame b ++ rest -> 0 < blen b <= MaxFrameBytes ->
  readFrame c = (receive rest c, unmarshal b).
Proof.
  intros Hi Hb. unfold readFrame. erewrite bind_step by by apply read_header.
  destruct (size_ok b Hb) as [-> Hs]. rewrite Hs.
  erewrite bind_step by by apply read_body. by destruct c.
Qed.

(** What a healthy [Exchange] does: its frame is sent, then a frame is read. *)
Lemma exchange_healthy c req :
  healthy c -> blen (marshal req) <= MaxFrameBytes ->
  Exchange req c =
  (ctx "read header: " (ReadFull 4) ≫= fun hdr =>
   if (uint32 hdr =? 0) || (MaxFrameBytes <? uint32 hdr)
   then fail (ENew ("invalid response frame size: " +:+ fmt_d (uint32 hdr)))
   else ctx "read payload: " (ReadFull (Z.to_nat (uint32 hdr))) ≫= fun buf =>
        ctx "decode response: " (lift (unmarshal buf))) (send (frame (marshal req)) c).
Proof.
  intros Hc Hm. unfold Exchange. erewrite bind_step by by apply healthy_deadline.
  cbn zeta. rewrite (proj2 (Z.ltb_ge _ _)) by done.
  erewrite bind_step by by erewrite ctx_step by by apply healthy_write.
  erewrite bind_step by by erewrite ctx_step by by apply healthy_write.
  by rewrite send_send.
Qed.

Lemma exchange_frame c req b rest :
  healthy c -> blen (marshal req) <= MaxFrameBytes ->
  inbox c = frame b ++ rest -> 0 < blen b <= MaxFrameBytes ->
  Exchange req c =
  (receive rest (send (frame (marshal req)) c), wrap_err "decode response: " (unmarshal b)).
Proof.
  intros Hc Hm Hi Hb. rewrite exchange_healthy by done.
  erewrite bind_step by by erewrite ctx_step by by apply read_header.
  destruct (size_ok b Hb) as [-> Hs]. rewrite Hs.
  by erewrite bind_step by by erewrite ctx_step by by apply read_body.
Qed.

Lemma writeFrame_healthy c resp :
  healthy c -> writeFrame resp c = (send (frame (marshal resp)) c, Ok tt).
Proof.
  intros Hc. unfold writeFrame. erewrite bind_step by by apply healthy_write.
  by rewrite healthy_write, send_send by done.
Qed.

(** * Properties *)

(** C34. An exchange that returns a response sent exactly one frame holding the
    request, no larger than the limit, and consumed exactly one frame, of a
    size between 1 and the limit, whose body decodes to that response; it reads
    nothing past it.  This holds whatever faults the connection has. *)
Theorem exchange_sound c req c' resp :
  Exchange req c = (c', Ok resp) ->
  exists body, inbox c = frame body ++ inbox c' /\ 0 < blen body <= MaxFrameBytes /\
    unmarshal body = Ok resp /\
    outbox c' = outbox c ++ frame (marshal req) /\ blen (marshal req) <= MaxFrameBytes.
Proof.
  unfold Exchange. intros (c1 & u1 & H1 & H)%bind_ok. apply set_deadline_ok in H1 as [Hi1 Ho1].
  cbn zeta in H. destruct (Z.ltb_spec MaxFrameBytes (blen (marshal req))); [done|].
  apply bind_ok in H as (c2 & u2 & H2%ctx_ok%write_ok & H).
  apply bind_ok in H as (c3 & u3 & H3%ctx_ok%write_ok & H).
  apply bind_ok in H as (c4 & hdr & H4%ctx_ok%read_full_ok & H).
  destruct ((_ =? 0) || _) eqn:Hn; [done|]. apply bad_size_false in Hn as [Hn0 Hn].
  apply bind_ok in H as (c5 & body & H5%ctx_ok%read_full_ok & H%ctx_ok).
  invc H. destruct H2 as [Hi2 Ho2], H3 as [Hi3 Ho3], H4 as (Hi4 & Hl4 & Ho4), H5 as (Hi5 & Hl5 & Ho5).
  pose proof (uint32_range hdr). assert (Hb : uint32 hdr = blen body) by (unfold blen; lia).
  exists body. rewrite frame_app, <- (frame_header hdr body), <- Hi5, <- Hi4 by done.
  split_and!; [congruence|lia|lia|done| |lia].
  by rewrite Ho5, Ho4, Ho3, Ho2, Ho1, <- app_assoc.
Qed.

(** C12. A whole conversation: the guest reads the host's request frame as the
    request (text with invalid UTF-8 replaced), and the host reads the guest's
    response frame as the response; both leave whatever follows in the stream
    unread, for any two messages within the size limit. *)
Theorem wire_roundtrip host guest req resp hrest grest :
  request_wf req -> response_wf resp -> healthy host -> healthy guest ->
  blen (marshal req) <= MaxFrameBytes -> blen (marshal resp) <= MaxFrameBytes ->
  inbox guest = frame (marshal req) ++ grest -> inbox host = frame (marshal resp) ++ hrest ->
  exists host' guest' guest'',
    Exchange req host = (host', Ok (canon_response resp)) /\
    inbox host' = hrest /\ outbox host' = outbox host ++ frame (marshal req) /\
    readFrame guest = (guest', Ok (canon_request req)) /\ inbox guest' = grest /\
    writeFrame resp guest' = (guest'', Ok tt) /\
    outbox guest'' = outbox guest ++ frame (marshal resp).
Proof.
  intros Hq Hp Hh Hg Hmq Hmp Hgi Hhi.
  pose proof (marshal_pos req). pose proof (marshal_pos resp).
  exists (receive hrest (send (frame (marshal req)) host)), (receive grest guest),
    (send (frame (marshal resp)) (receive grest guest)).
  split_and!; try done.
  - rewrite (exchange_frame host req (marshal resp) hrest) by done.
    by rewrite (unmarshal_marshal resp); [|exact Hp|vm_compute].
  - rewrite (readFrame_frame (marshal req) grest) by done.
    by rewrite (unmarshal_marshal req); [|exact Hq|vm_compute].
  - by apply writeFrame_healthy.
Qed.

(** The guest does not check the size of its response: one larger than the
    limit is written without error, and the host refuses it, having read only
    its header. *)
Theorem oversized_response_refused host guest req resp rest :
  healthy host -> healthy guest -> blen (marshal req) <= MaxFrameBytes ->
  MaxFrameBytes < blen (marshal resp) < 2 ^ 32 ->
  inbox host = frame (marshal resp) ++ rest ->
  writeFrame resp guest = (send (frame (marshal resp)) guest, Ok tt) /\
  Exchange req host =
    (receive (marshal resp ++ rest) (send (frame (marshal req)) host),
     Err (ENew ("invalid response frame size: " +:+ fmt_d (blen (marshal resp))))).
Proof.
  intros Hh Hg Hm Hr Hi. split; [by apply writeFrame_healthy|].
  rewrite exchange_healthy by done.
  erewrite bind_step by by erewrite ctx_step by by apply read_header.
  rewrite uint32_frame by lia. rewrite (proj2 (Z.ltb_lt _ _)) by lia.
  by rewrite orb_true_r.
Qed.

(** ** The handshake *)

Lemma read_reply_line e line : forall buf rest,
  ~ In newline line -> blen buf + blen line <= 64 ->
  read_reply e buf (line ++ newline :: rest) = (rest, Ok (buf ++ line ++ [newline])).
Proof.
  induction line as [|b line IH]; intros buf rest Hn Hl; cbn [app read_reply].
  - by rewrite Ascii.eqb_refl.
  - destruct (Ascii.eqb_spec b newline) as [->|Hb]; [by destruct Hn; left|].
    change (b :: line) with ([b] ++ line) in *. rewrite blen_app in Hl.
    pose proof (blen_nonneg line).
    rewrite (proj2 (Z.ltb_ge _ _)) by (rewrite blen_app; lia).
    rewrite IH; [by rewrite <- !app_assoc|intros ?; apply Hn; by right|rewrite blen_app; lia].
Qed.

Lemma read_reply_ok e inb : forall buf rest r,
  read_reply e buf inb = (rest, Ok r) ->
  exists line, inb = line ++ newline :: rest /\ r = buf ++ line ++ [newline] /\
    ~ In newline line /\ (line <> [] -> blen buf + blen line <= 64).
Proof.
  induction inb as [|b inb IH]; intros buf rest r; cbn [read_reply]; [done|].
  destruct (Ascii.eqb_spec b newline) as [->|Hb].
  - intros [= <- <-]. exists []. naive_solver.
  - destruct (Z.ltb_spec 64 (blen (buf ++ [b]))) as [|Hlt]; [done|].
    intros (line & -> & -> & Hn & Hl)%IH. exists (b :: line).
    rewrite <- !app_assoc. split_and!; [done..| |].
    + intros [?|?]; by auto.
    + intros _. change (b :: line) with ([b] ++ line). rewrite blen_app in *.
      destruct line; [change (blen []) with 0; lia|]. specialize (Hl ltac:(done)). lia.
Qed.

(** What the host accepts as the reply to CONNECT. *)
Definition good_reply (line : bytes) : Prop :=
  ~ In newline line /\ blen line <= 64 /\ take 2 line = b#"OK".

Lemma good_reply_check line :
  ~ In newline line ->
  (blen (line ++ [newline]) <? 3) || negb (String.eqb (of_bytes (take 2 (line ++ [newline]))) "OK") = false
  <-> take 2 line = b#"OK".
Proof.
  intros Hn. destruct line as [|a [|b line]]; cbn [app take].
  - done.
  - rewrite (proj2 (Z.ltb_lt _ _)) by (unfold blen; cbn; lia). done.
  - rewrite (proj2 (Z.ltb_ge _ _)) by (unfold blen; cbn [length app]; rewrite length_app; cbn; lia).
    cbn [orb]. rewrite negb_false_iff, String.eqb_eq, !firstn_O.
    split; [|by intros [= -> ->]].
    intros H%(f_equal to_bytes). by rewrite to_of_bytes in H.
Qed.

(** On a connection whose writes succeed, the handshake succeeds exactly
    when the peer's reply is a line of at most 64 bytes that starts with OK;
    it then has sent the CONNECT line and consumed exactly the reply, so the
    first frame is read from its first byte.  When it fails the connection is
    closed. *)
Theorem handshake_accepts_iff c port :
  healthy c ->
  (forall line rest, inbox c = line ++ newline :: rest -> good_reply line ->
     handshake port c =
       (receive rest (send (to_bytes ("CONNECT " +:+ fmt_d port) ++ [newline]) c), Ok tt)) /\
  (forall c', handshake port c = (c', Ok tt) ->
     exists line rest, inbox c = line ++ newline :: rest /\ good_reply line) /\
  (forall c' e, handshake port c = (c', Err e) -> closed c' = true).
Proof.
  intros Hc. set (hello := to_bytes _ ++ _).
  assert (Hh : handshake port c =
    (closing (ReadReply ≫= fun buf =>
       if (blen buf <? 3) || negb (String.eqb (of_bytes (take 2 buf)) "OK")
       then fail (ENew ("vsock handshake rejected: " +:+ fmt_q (of_bytes buf)))
       else mret tt) ≫= fun _ => ClearDeadline) (send hello c)).
  { unfold handshake, closing, on_error, mbind, M_bind at 1 2 3. rewrite healthy_deadline by done.
    by rewrite healthy_write by done. }
  rewrite Hh. unfold closing, on_error, mbind, M_bind, ReadReply.
  split_and!.
  - intros line rest Hi (Hn & Hl & Ht). cbn [inbox send]. rewrite Hi.
    rewrite read_reply_line by done. cbn [app]. apply good_reply_check in Ht as ->; [|done].
    unfold ClearDeadline. cbn [mret M_ret]. by rewrite healthy_deadline.
  - intros c'. destruct (read_reply _ _ _) as [rest [buf|e]] eqn:Er; [|done].
    apply read_reply_ok in Er as (line & Hi & -> & Hn & Hl). cbn [app].
    destruct (_ || _) eqn:Hk; [done|]. intros _. exists line, rest.
    apply good_reply_check in Hk; [|done]. split; [done|]. split_and!; [done| |done].
    apply Hl. by intros ->.
  - intros c' e. destruct (read_reply _ _ _) as [rest [buf|e']]; [|by intros [= <- <-]].
    destruct (_ || _); [by intros [= <- <-]|]. cbn. unfold ClearDeadline.
    by destruct (SetDeadline _) as [c1 []].
Qed.

(** Dialling always ends: with a clock that advances by the pause between
    attempts, the fuel for the timeout is enough for a connection or an error. *)
Theorem VsockHostDial_terminates dial now start path port timeout :
  ticks now dialInterval -> start <= now 0%nat ->
  is_Some (VsockHostDial (poll_fuel dialInterval timeout) dial now start path port timeout).
Proof.
  intros Ht Hs. unfold VsockHostDial.
  destruct (poll_terminates dial now (fun _ => None) (EWrap ("vsock dial " +:+ path +:+ ": "))
    (start + timeout) dialInterval timeout) as [r ->]; [done|done|lia|].
  destruct r as [c|e]; [|by eauto]. destruct (handshake port c) as [? []]; by eauto.
Qed.

(** ** The properties at concrete inputs *)

Definition sample_request : ExecRequest :=
  Build_ExecRequest "main.sh" "cat" "" "sh main.sh" (Some ["a"; "b"]) 2000 256 1024.
Definition sample_response : ExecResponse :=
  Build_ExecResponse "" (Some [Build_CaseResult "a" "" 0 0 0 false; Build_CaseResult "b" "" 3 0 0 true]) "".
Definition stream (b : bytes) : conn :=
  {| inbox := b; in_end := ESentinel EOF; outbox := []; faults := []; closed := false |}.

Lemma wire_roundtrip_witness :
  (Exchange sample_request (stream (frame (marshal sample_response) ++ b#"tail"))).2 = Ok sample_response.
Proof.
  destruct (wire_roundtrip (stream (frame (marshal sample_response) ++ b#"tail"))
    (stream (frame (marshal sample_request))) sample_request sample_response (b#"tail") [])
    as (h & g & g2 & -> & _).
  - split_and!; split; vm_compute; discriminate.
  - constructor; [|constructor; [|constructor]]; split_and!; split; vm_compute; discriminate.
  - reflexivity.
  - reflexivity.
  - vm_compute. discriminate.
  - vm_compute. discriminate.
  - by rewrite app_nil_r.
  - reflexivity.
  - vm_compute. reflexivity.
Defined.

Lemma exchange_sound_witness :
  exists body, inbox (stream (frame (marshal sample_response))) = frame body ++ [] /\
    unmarshal body = Ok sample_response.
Proof.
  destruct (exchange_sound (stream (frame (marshal sample_response))) sample_request
    (Exchange sample_request (stream (frame (marshal sample_response)))).1 sample_response)
    as (body & Hi & _ & Hu & _).
  - vm_compute. reflexivity.
  - exists body. split; [exact Hi|exact Hu].
Defined.

(** A response of more than [n] bytes, for any [n]. *)
Definition noisy (n : nat) : ExecResponse :=
  Build_ExecResponse (of_bytes (replicate n "x"%char)) None "".

Lemma quote_plain n s : forallb ascii1 s = true -> forallb html_safe s = true -> length s = n ->
  blen (quote s) = Z.of_nat n + 2.
Proof.
  intros Ha Hh <-. unfold quote, escape, blen.
  pose proof (units_chars s [] Ha) as Hu. rewrite app_nil_r in Hu. rewrite Hu, app_nil_r.
  cbn [length]. rewrite length_app. cbn [length].
  assert (Hf : flat_map escape_unit (UChar <$> s) = s).
  { clear Ha Hu. induction s as [|c s IH]; [done|]. cbn [forallb] in Hh.
    apply andb_prop in Hh as [Hc Hs]. cbn [flat_map fmap list_fmap escape_unit app].
    unfold escape_char. rewrite Hc. cbn [app]. by rewrite IH. }
  rewrite Hf. lia.
Qed.

Lemma forallb_replicate {A} (p : A -> bool) n x : p x = true -> forallb p (replicate n x) = true.
Proof. intros H. induction n; cbn; by rewrite ?H. Qed.

Lemma noisy_length n : blen (marshal (noisy (S n))) = Z.of_nat n + 21.
Proof.
  unfold marshal. cbn [j_enc ExecResponse_codec].
  assert (Hp : print (struct_enc response_fields (noisy (S n))) =
    "{"%char :: (quote (b#"compile_error") ++ [":"%char]) ++ quote (replicate (S n) "x"%char) ++ ["}"%char]).
  { assert (He : String.eqb (of_bytes (replicate (S n) "x"%char)) "" = false) by reflexivity.
    cbn -[quote replicate of_bytes to_bytes]. rewrite He.
    unfold empty_slice, slice_len. cbn -[quote replicate of_bytes to_bytes].
    unfold print_string. by rewrite to_of_bytes, <- !app_assoc. }
  rewrite Hp. pose proof (quote_plain (S n) (replicate (S n) "x"%char)) as Hq.
  rewrite length_replicate, !forallb_replicate in Hq by reflexivity.
  specialize (Hq eq_refl eq_refl eq_refl).
  change (blen (?a :: ?l)) with (blen ([a] ++ l)). rewrite !blen_app, Hq.
  replace (blen (quote b#"compile_error")) with 15 by (vm_compute; reflexivity).
  change (blen ["{"%char]) with 1. change (blen [":"%char]) with 1. change (blen ["}"%char]) with 1. lia.
Qed.

(** A response just over the limit ([S (2 ^ 25)] bytes of standard output). *)
Lemma oversized_response_refused_witness :
  exists n, (Exchange sample_request (stream (frame (marshal (noisy n))))).2 =
    Err (ENew ("invalid response frame size: " +:+ fmt_d (blen (marshal (noisy n))))).
Proof.
  exists (S (Z.to_nat (2 ^ 25))).
  destruct (oversized_response_refused (stream (frame (marshal (noisy (S (Z.to_nat (2 ^ 25)))))))
    (stream []) sample_request (noisy (S (Z.to_nat (2 ^ 25)))) []) as [_ ->].
  - reflexivity.
  - reflexivity.
  - vm_compute. discriminate.
  - rewrite noisy_length, Z2Nat.id by discriminate. unfold MaxFrameBytes. lia.
  - by rewrite app_nil_r.
  - reflexivity.
Defined.

Lemma handshake_accepts_iff_witness :
  handshake VsockPort (stream (b#"OK 1073741824" ++ newline :: b#"data")) =
    (receive (b#"data") (send (b#"CONNECT 52000" ++ [newline])
       (stream (b#"OK 1073741824" ++ newline :: b#"data"))), Ok tt).
Proof.
  destruct (handshake_accepts_iff (stream (b#"OK 1073741824" ++ newline :: b#"data")) VsockPort)
    as [H _]; [reflexivity|].
  rewrite (H (b#"OK 1073741824") (b#"data")); [reflexivity|reflexivity|].
  split_and!; [|vm_compute; discriminate|reflexivity].
  vm_compute. intros HIn. repeat destruct HIn as [HIn|HIn]; discriminate || destruct HIn.
Defined.

(** A guest that never listens: dialling gives up. *)
Lemma VsockHostDial_terminates_witness :
  is_Some (VsockHostDial (poll_fuel dialInterval (2 * Second)) (fun _ => Err (ENew "refused"))
    (fun k => dialInterval * Z.of_nat k) 0 "/tmp/vm/vsock.sock" VsockPort (2 * Second)).
Proof.
  apply VsockHostDial_terminates.
  - intros k. lia.
  - reflexivity || discriminate.
Defined.
