(* ===== verification/Typed.v ===== *)
(** Types across the boundaries: whatever bytes arrive - a frame, a Redis
    hash, a request body - the Go value that decoding stores lies in the range
    of its type.  The class [JsonTyped] is the type soundness of a codec, and
    the host, the guest, the queue and the API are clients of it. *)
From S2P Require Import Prelude GoInt Utf8 JsonText Json Codec Agent Langs Jobs Config Redis Queue Worker Api Wire.

(** Decoding into a well-typed variable leaves it well typed. *)
Class JsonTyped (A : Type) `{JsonCodecOk A} := {
  typed_zero : j_wf j_zero;
  typed_dec : forall cur v a, j_wf cur -> j_dec cur v = Some a -> j_wf a
}.

Lemma unmarshal_typed `{JsonTyped A} b (a : A) : unmarshal b = Ok a -> j_wf a.
Proof.
  unfold unmarshal. destruct (parse b) as [v|]; [|done].
  destruct (j_dec j_zero v) as [x|] eqn:E; intros [= <-].
  eapply typed_dec; [apply typed_zero|done].
Qed.

(** ** Basic types *)

#[export] Instance string_typed : JsonTyped string.
Proof. by split. Qed.
#[export] Instance bool_typed : JsonTyped bool.
Proof. by split. Qed.

#[export] Instance int_typed : JsonTyped Z.
Proof.
  split; [cbn; unfold int64, min_int64, max_int64; lia|].
  intros cur v a Hc. cbn -[atoi]. destruct v; intros Hd; simplify_eq; [done|].
  destruct (atoi _) eqn:E; simplify_eq. by eapply atoi_range.
Qed.

Lemma dec_elems_typed `{JsonTyped A} l : forall (prev out : list A),
  Forall j_wf prev -> dec_elems prev l = Some out -> Forall j_wf out.
Proof.
  induction l as [|v l IH]; intros prev out Hp; cbn [dec_elems]; [by intros [= <-]|].
  intros (a & Ha & (rest & Hr & [= <-])%bind_Some)%bind_Some. constructor.
  - eapply typed_dec; [|done]. destruct Hp; [apply typed_zero|by cbn].
  - eapply IH; [|done]. by destruct Hp.
Qed.

#[export] Instance slice_typed `{JsonTyped A} : JsonTyped (slice A).
Proof.
  split; [constructor|]. intros cur v a Hc. cbn. destruct v; intros Hd; simplify_eq; [constructor|].
  destruct (dec_elems _ _) as [l0|] eqn:E; [|done]. assert (a = Some l0) as -> by by cbn in Hd; simplify_eq.
  exact (dec_elems_typed _ _ _ Hc E).
Qed.

(** ** Structs *)

(** A field keeps a property of the struct. *)
Definition keeps {A} (P : A -> Prop) (f : field A) : Prop :=
  forall cur v a, P cur -> f_dec f cur v = Some a -> P a.

Lemma keeps_mk {A} `{JsonTyped T} (P : A -> Prop) name get set :
  (forall a, P a -> j_wf (get a)) -> (forall t a, j_wf t -> P a -> P (set t a)) ->
  keeps P (mk_field name get set).
Proof.
  intros Hg Hs cur v a Hc. cbn. destruct (j_dec (get cur) v) eqn:E; [|done]. intros [= <-].
  apply Hs; [|done]. eapply typed_dec; [by apply Hg|done].
Qed.

Lemma keeps_omitempty {A} (P : A -> Prop) p f : keeps P f -> keeps P (omitempty p f).
Proof. done. Qed.

Lemma find_field_in {A} (fs : list (field A)) k f : find_field fs k = Some f -> In f fs.
Proof.
  unfold find_field. destruct (List.find _ fs) eqn:E; intros Hf; simplify_eq;
    by eapply List.find_some.
Qed.

Lemma struct_typed {A} strict (fs : list (field A)) (P : A -> Prop) cur v a :
  Forall (keeps P) fs -> P cur -> struct_dec strict fs cur v = Some a -> P a.
Proof.
  intros Hfs. destruct v as [| | | | |l]; cbn; intros Hc Hd; simplify_eq; [done|].
  revert cur Hc Hd. induction l as [|[k v] l IH]; intros cur Hc; cbn; [by intros [= <-]|].
  destruct (find_field fs k) as [f|] eqn:Ef; [|destruct strict; [done|by apply IH]].
  destruct (f_dec f cur v) eqn:Ed; [|done]. apply IH.
  rewrite Forall_forall in Hfs. eapply Hfs; [|done|done].
  by apply find_field_in, list_elem_of_In in Ef.
Qed.

Ltac struct_typed_fields :=
  repeat (constructor; [try apply keeps_omitempty; apply keeps_mk; intros;
    first [apply strings_wf | cbn in *; tauto]|]); constructor.

#[export] Instance ExecRequest_typed : JsonTyped ExecRequest.
Proof.
  split; [cbn; unfold Agent.request_wf, int64, min_int64, max_int64; cbn; lia|].
  intros cur v a. apply struct_typed. cbn. unfold Agent.request_wf. struct_typed_fields.
Qed.

#[export] Instance CaseResult_typed : JsonTyped CaseResult.
Proof.
  split; [cbn; unfold case_wf, int64, min_int64, max_int64; cbn; lia|].
  intros cur v a. apply struct_typed. cbn. unfold case_wf. struct_typed_fields.
Qed.

#[export] Instance ExecResponse_typed : JsonTyped ExecResponse.
Proof.
  split; [constructor|].
  intros cur v a. apply struct_typed. cbn. unfold response_wf. struct_typed_fields.
Qed.

#[export] Instance execRequest_typed : JsonTyped execRequest.t.
Proof.
  split; [cbn; unfold request_wf, int64, min_int64, max_int64; cbn; lia|].
  intros cur v a. apply struct_typed. cbn. unfold request_wf. struct_typed_fields.
Qed.

(** ** The boundaries *)

(** A job in the types of its fields. *)
Definition job_typed (j : Job.t) : Prop :=
  int64 (Job.TimeLimitMs j) /\ int64 (Job.MemoryLimitMb j) /\ Forall case_wf (elems (Job.Results j)).

Lemma io_bind_ok {A B} (m : io A) (f : A -> io B) (P : B -> Prop) :
  (forall a c c' b, f a c = (c', Ok b) -> P b) -> forall c c' b, (m ≫= f) c = (c', Ok b) -> P b.
Proof. intros Hf c c' b (c1 & a & _ & Ha)%bind_ok. by eapply Hf. Qed.

Lemma lift_typed `{JsonTyped A} b (c c' : conn) (a : A) : lift (unmarshal b) c = (c', Ok a) -> j_wf a.
Proof. unfold lift. intros [= _ Hu]. by eapply unmarshal_typed. Qed.

Lemma exchange_typed req c c' resp : Exchange req c = (c', Ok resp) -> response_wf resp.
Proof.
  revert c c' resp. unfold Exchange. apply io_bind_ok. intros _.
  destruct (MaxFrameBytes <? _); [done|].
  do 2 (apply io_bind_ok; intros _). apply io_bind_ok. intros hdr.
  destruct (_ || _); [done|]. apply io_bind_ok. intros buf c c' resp Hr%ctx_ok.
  exact (lift_typed _ _ _ _ Hr).
Qed.

Lemma readFrame_typed c c' req : readFrame c = (c', Ok req) -> Agent.request_wf req.
Proof.
  revert c c' req. unfold readFrame. apply io_bind_ok. intros hdr.
  destruct (_ || _); [done|]. apply io_bind_ok. intros buf c c' req Hr.
  exact (lift_typed _ _ _ _ Hr).
Qed.

Lemma parse_opt_typed {A} (P : A -> Prop) zero parse pre id s a :
  P zero -> (forall b x, parse b = Ok x -> P x) -> parse_opt zero parse pre id s = Ok a -> P a.
Proof.
  intros Hz Hp. unfold parse_opt. destruct (String.eqb s ""); [by intros [= <-]|].
  destruct (parse (to_bytes s)) eqn:E; intros [= <-]. by eapply Hp.
Qed.

Lemma int64_0 : int64 0.
Proof. unfold int64, min_int64, max_int64. lia. Qed.

Lemma decode_job_typed id m j : decode_job id m = Ok j -> job_typed j.
Proof.
  intros (_ & Hr & Ht & Hm & _)%decode_job_inv. split_and!.
  - by eapply (parse_opt_typed int64); [apply int64_0|apply atoi_range|].
  - by eapply (parse_opt_typed int64); [apply int64_0|apply atoi_range|].
  - refine (parse_opt_typed (fun rs : slice CaseResult => Forall case_wf (elems rs)) None unmarshal
      _ _ _ _ _ _ Hr); [constructor|]. intros b x Hx. exact (unmarshal_typed b x Hx).
Qed.

Lemma decode_request_typed limit b req : decode_request limit b = Ok req -> request_wf req.
Proof.
  unfold decode_request, mbind, result_bind. destruct (decode_stream limit b) as [v|]; [|done].
  destruct (j_dec j_zero v) as [x|] eqn:E; intros [= <-].
  exact (typed_dec _ _ _ typed_zero E).
Qed.

Lemma new_job_typed id req : request_wf req -> job_typed (new_job id req).
Proof. intros [Ht Hm]. split_and!; [done|done|constructor]. Qed.

(** Every job of a represented store is typed. *)
Lemma represents_typed ks st id j : represents ks st -> jobs st !! id = Some j -> job_typed j.
Proof.
  intros Hr Hj. pose proof (rep_job _ _ Hr id) as Hd. rewrite Hj in Hd.
  destruct Hd as (m & _ & _ & Hd). by eapply decode_job_typed.
Qed.

Lemma pickPositive_typed v f : int64 v -> int64 f -> int64 (pickPositive v f).
Proof. intros. unfold pickPositive. by destruct (0 <? v). Qed.

(** What the worker sends for a job it loaded. *)
Lemma build_request_typed cfg lang job :
  config_wf cfg -> job_typed job -> Agent.request_wf (build_request cfg lang job).
Proof.
  intros Hc (Ht & Hm & _). destruct (cfg_range _ Hc) as (_ & _ & _ & _ & _ & _ & Ho & Hd).
  split_and!; cbn [TimeLimitMs MemoryLimitMb OutputLimitBytes build_request]; [..|done].
  - apply pickPositive_typed; [done|]. apply wrap64_range.
  - by apply pickPositive_typed.
Qed.
