(* ===== verification/Guest.v ===== *)
(** guest/dreddagent/main.go: the agent inside a VM - it reads one request,
    writes the source, compiles it once, runs it against every input and
    answers - and the [main] around it, which powers the VM off.  The framing
    is in Wire.v. *)
From S2P Require Import Prelude GoInt Utf8 JsonText Json Codec Agent Filepath Wire.

Definition workDir : string := "/work".

(** * The operating system of the guest *)

(** What [exec.Cmd] is given: argv, working directory, standard input, the
    timeout of its context, and whether it gets its own process group. *)
Record command := {
  argv : list string;
  cmd_dir : string;
  cmd_stdin : bytes;
  cmd_timeout : Z;
  setpgid : bool
}.

(** What [cmd.Run()] returns: an [*exec.ExitError] or any other error. *)
Inductive run_error := ExitError (exit_code : Z) | OtherError (e : error).

(** A finished command: the chunks it wrote to each output, the error, and
    whether the context's deadline has passed. *)
Record ran := {
  out_chunks : list bytes;
  err_chunks : list bytes;
  run_err : option run_error;
  expired : bool
}.

Class OS (W : Type) := {
  os_mkdir_all : W -> string -> W * option error;
  os_write_file : W -> string -> bytes -> W * option error;
  os_run : W -> command -> W * ran
}.

(** The system calls of [main]. *)
Class Kernel (W : Type) := {
  sys_mount : W -> string -> string -> string -> W * option error;
  sys_power_off : W -> W * option error
}.

(** os/exec: an [ExitError] is an unsuccessful exit, [-1] for a signal and the
    status byte otherwise. *)
Class OSOk (W : Type) `{OS W} := {
  exit_codes : forall w c w' r n, os_run w c = (w', r) -> run_err r = Some (ExitError n) ->
    -1 <= n <= 255 /\ n <> 0
}.

(** * Capped output *)
Record cappedBuffer := { cap : Z; buf : bytes }.

(** [func (c *cappedBuffer) Write(p []byte) (int, error)]: the error is always nil. *)
Definition cb_write (c : cappedBuffer) (p : bytes) : cappedBuffer * Z :=
  if (cap c <=? 0) || (cap c <=? blen (buf c)) then (c, blen p)
  else
    let room := cap c - blen (buf c) in
    if blen p <=? room then ({| cap := cap c; buf := buf c ++ p |}, blen p)
    else ({| cap := cap c; buf := buf c ++ take (Z.to_nat room) p |}, blen p).

Definition Bytes (c : cappedBuffer) : bytes := buf c.

(** The copying goroutine of os/exec: one [Write] per chunk. *)
Definition cb_writes (c : cappedBuffer) (ps : list bytes) : cappedBuffer :=
  foldl (fun c p => fst (cb_write c p)) c ps.

Section agent.
Context `{OS W}.

(** [func runOnce(shellCmd, stdin, timeoutMs, memMB, outCap)]: standard output,
    exit code, standard error, timed out, error; the memory limit is unused. *)
Definition runOnce (w : W) (shellCmd stdin : string) (timeoutMs memMB outCap : Z) :
    W * (bytes * Z * bytes * bool * option run_error) :=
  let '(w, r) := os_run w {|
    argv := ["/bin/sh"; "-c"; shellCmd];
    cmd_dir := workDir;
    cmd_stdin := to_bytes stdin;
    cmd_timeout := dur_mul timeoutMs Millisecond;
    setpgid := true |} in
  let stdout := cb_writes {| cap := outCap; buf := [] |} (out_chunks r) in
  let stderr := cb_writes {| cap := outCap; buf := [] |} (err_chunks r) in
  let code :=
    match run_err r with
    | None => 0
    | Some (ExitError n) => n
    | Some (OtherError _) => -1
    end in
  (w, (Bytes stdout, code, Bytes stderr, expired r, run_err r)).

(** The text of a run error, for the messages that quote it. *)
Definition run_error_text (e : run_error) : string :=
  match e with
  | ExitError n => "exit status " +:+ fmt_d n
  | OtherError e => error_text e
  end.

Definition agent_error (msg : string) : ExecResponse := Build_ExecResponse "" None msg.

(** [for _, in := range req.Stdins]: the results, or the agent error that ends
    the loop. *)
Fixpoint run_cases (w : W) (req : ExecRequest) (results : list CaseResult) (ins : list string) :
    W * ExecResponse :=
  match ins with
  | [] => (w, Build_ExecResponse "" (Some results) "")
  | stdin :: ins =>
      let '(w, (stdout, code, stderr, timedOut, err)) :=
        runOnce w (RunCmd req) stdin (TimeLimitMs req) (MemoryLimitMb req) (OutputLimitBytes req) in
      match err with
      | Some e =>
          if (code =? 0) && negb timedOut
          then (w, agent_error ("exec: " +:+ run_error_text e))
          else run_cases w req (results ++ [Build_CaseResult (of_bytes stdout) (of_bytes stderr) code 0 0 timedOut]) ins
      | None =>
          run_cases w req (results ++ [Build_CaseResult (of_bytes stdout) (of_bytes stderr) code 0 0 timedOut]) ins
      end
  end.

(** The compile step: [Some] response when it ends the request. *)
Definition compile (w : W) (req : ExecRequest) : W * option ExecResponse :=
  if String.eqb (CompileCmd req) "" then (w, None)
  else
    let '(w, (stdout, code, stderr, _, err)) :=
      runOnce w (CompileCmd req) "" (wrap64 (TimeLimitMs req * 4)) (MemoryLimitMb req) (OutputLimitBytes req) in
    match err with
    | Some e =>
        if code =? 0 then (w, Some (agent_error ("compile: " +:+ run_error_text e)))
        else
          let msg := of_bytes stderr in
          let msg := if String.eqb msg "" then of_bytes stdout else msg in
          (w, Some (Build_ExecResponse msg None ""))
    | None => (w, None)
    end.

(** [func handle(req *agent.ExecRequest) *agent.ExecResponse] *)
Definition handle (w : W) (req : ExecRequest) : W * ExecResponse :=
  let srcPath := Join workDir (SourceFile req) in
  match os_mkdir_all w (Dir srcPath) with
  | (w, Some e) => (w, agent_error ("mkdir: " +:+ error_text e))
  | (w, None) =>
      match os_write_file w srcPath (to_bytes (Source req)) with
      | (w, Some e) => (w, agent_error ("write source: " +:+ error_text e))
      | (w, None) =>
          match compile w req with
          | (w, Some resp) => (w, resp)
          | (w, None) => run_cases w req [] (elems (Stdins req))
          end
      end
  end.

(** [func serve() error], from what listening and accepting returned. *)
Definition serve (w : W) (listen : result unit) (accept : result conn) : W * option conn * option error :=
  match listen with
  | Err e => (w, None, Some (EWrap "vsock listen: " e))
  | Ok _ =>
      match accept with
      | Err e => (w, None, Some (EWrap "accept: " e))
      | Ok c =>
          match readFrame c with
          | (c, Err e) => (w, Some (close c), Some (EWrap "read request: " e))
          | (c, Ok req) =>
              let '(w, resp) := handle w req in
              match writeFrame resp c with
              | (c, Err e) => (w, Some (close c), Some (EWrap "write response: " e))
              | (c, Ok _) => (w, Some (close c), None)
              end
          end
      end
  end.

(** [func main()]: the machine and connection it leaves, what it logs and its
    exit code; the errors of the mounts and of the power off are dropped. *)
Definition main `{Kernel W} (w : W) (listen : result unit) (accept : result conn) :
    W * option conn * option string * Z :=
  let '(w, _) := sys_mount w "proc" "/proc" "proc" in
  let '(w, _) := sys_mount w "sysfs" "/sys" "sysfs" in
  let '(w, _) := sys_mount w "devtmpfs" "/dev" "devtmpfs" in
  let '(w, _) := os_mkdir_all w workDir in
  let '(w, c, err) := serve w listen accept in
  let '(w, _) := sys_power_off w in
  (w, c, (fun e => "dreddagent: " +:+ error_text e) <$> err, 0).
End agent.

(** ** Capped output *)

Lemma cb_write_spec c p :
  cb_write c p = ({| cap := cap c; buf := buf (fst (cb_write c p)) |}, blen p).
Proof. destruct c as [n b]. unfold cb_write. repeat case_match; done. Qed.

Definition limit (n : Z) (b : bytes) : bytes := take (Z.to_nat n) b.

Lemma limit_length n b : blen (limit n b) <= Z.max 0 n.
Proof. unfold limit, blen. rewrite length_take. lia. Qed.

(** A buffer that holds the first [cap] bytes of [b] holds the first [cap]
    bytes of [b ++ p] after [p] is written. *)
Lemma cb_write_limit n b p :
  fst (cb_write {| cap := n; buf := limit n b |} p) = {| cap := n; buf := limit n (b ++ p) |}.
Proof.
  unfold cb_write. cbn [cap buf].
  destruct (Z.leb_spec n 0); cbn [orb].
  { unfold limit. by replace (Z.to_nat n) with 0%nat by lia. }
  unfold limit, blen. rewrite length_take.
  destruct (Z.leb_spec n (Z.of_nat (Z.to_nat n `min` length b))).
  { rewrite take_app_le by lia. done. }
  rewrite (take_ge b) by lia.
  destruct (Z.leb_spec (Z.of_nat (length p)) (n - Z.of_nat (Z.to_nat n `min` length b))); cbn [fst].
  - rewrite (take_ge (b ++ p)) by (rewrite length_app; lia). done.
  - rewrite take_app_ge by lia. do 3 f_equal. lia.
Qed.

Lemma cb_writes_limit n ps : forall b,
  cb_writes {| cap := n; buf := limit n b |} ps = {| cap := n; buf := limit n (b ++ concat ps) |}.
Proof.
  unfold cb_writes. induction ps as [|p ps IH]; intros b; cbn [foldl concat].
  - by rewrite app_nil_r.
  - by rewrite cb_write_limit, IH, <- app_assoc.
Qed.

Lemma cb_writes_bytes n ps :
  Bytes (cb_writes {| cap := n; buf := [] |} ps) = take (Z.to_nat n) (concat ps).
Proof. replace [] with (limit n []) by apply take_nil. by rewrite cb_writes_limit. Qed.

(** Output capping: whatever chunks a command writes, the buffer ends up
    with exactly the first [cap] bytes of their concatenation (none when the
    cap is not positive), and every write claims to have taken all its bytes,
    so the command never sees a short write. *)
Theorem capped_output n ps :
  Bytes (cb_writes {| cap := n; buf := [] |} ps) = take (Z.to_nat n) (concat ps) /\
  (forall c p, (cb_write c p).2 = blen p).
Proof.
  split; [apply cb_writes_bytes|intros c p; by rewrite cb_write_spec].
Qed.

(** ** The agent's calls, in order *)
Inductive event :=
  | EMkdir (dir : string)
  | EWriteFile (path : string) (content : bytes)
  | ERun (c : command)
  | EMount (source target fstype : string)
  | EPowerOff.

(** Any operating system, with its calls recorded. *)
#[export] Instance traced `{OS W} : OS (W * list event) := {
  os_mkdir_all s d := let '(w, e) := os_mkdir_all s.1 d in ((w, s.2 ++ [EMkdir d]), e);
  os_write_file s p b := let '(w, e) := os_write_file s.1 p b in ((w, s.2 ++ [EWriteFile p b]), e);
  os_run s c := let '(w, r) := os_run s.1 c in ((w, s.2 ++ [ERun c]), r)
}.

#[export] Instance traced_kernel `{Kernel W} : Kernel (W * list event) := {
  sys_mount s a b c := let '(w, e) := sys_mount s.1 a b c in ((w, s.2 ++ [EMount a b c]), e);
  sys_power_off s := let '(w, e) := sys_power_off s.1 in ((w, s.2 ++ [EPowerOff]), e)
}.

#[export] Instance traced_ok `{OSOk W} : OSOk (W * list event).
Proof.
  split. intros [w l] c w' r n. cbn. destruct (os_run w c) as [w1 r1] eqn:E.
  intros [= <- <-]. eauto using exit_codes.
Qed.

Definition sh (shellCmd stdin : string) (timeoutMs : Z) : command := {|
  argv := ["/bin/sh"; "-c"; shellCmd]; cmd_dir := workDir; cmd_stdin := to_bytes stdin;
  cmd_timeout := dur_mul timeoutMs Millisecond; setpgid := true |}.

Definition prepare (req : ExecRequest) : list event :=
  [EMkdir (Dir (Join workDir (SourceFile req)));
   EWriteFile (Join workDir (SourceFile req)) (to_bytes (Source req))].
Definition compile_events (req : ExecRequest) : list event :=
  if String.eqb (CompileCmd req) "" then []
  else [ERun (sh (CompileCmd req) "" (wrap64 (TimeLimitMs req * 4)))].
Definition run_event (req : ExecRequest) (stdin : string) : event :=
  ERun (sh (RunCmd req) stdin (TimeLimitMs req)).

(** A result within the limits of its request: capped outputs, an exit status
    that exists, and nothing measured. *)
Record case_within (req : ExecRequest) (r : CaseResult) : Prop := {
  within_stdout : slen (Stdout r) <= Z.max 0 (OutputLimitBytes req);
  within_stderr : slen (Stderr r) <= Z.max 0 (OutputLimitBytes req);
  within_code : -1 <= ExitCode r <= 255;
  within_time : TimeMs r = 0;
  within_memory : MemoryKb r = 0
}.

(** What the agent promises: one of four outcomes, each with the calls that
    lead to it. *)
Inductive outcome (req : ExecRequest) : list event -> ExecResponse -> Prop :=
  | MkdirFailed e :
      outcome req (take 1 (prepare req)) (agent_error ("mkdir: " +:+ error_text e))
  | WriteFailed e :
      outcome req (prepare req) (agent_error ("write source: " +:+ error_text e))
  | CompileFailed msg :
      CompileCmd req <> "" -> slen msg <= Z.max 0 (OutputLimitBytes req) ->
      outcome req (prepare req ++ compile_events req) (Build_ExecResponse msg None "")
  | Ran results :
      length results = length (elems (Stdins req)) -> Forall (case_within req) results ->
      outcome req (prepare req ++ compile_events req ++ (run_event req <$> elems (Stdins req)))
        (Build_ExecResponse "" (Some results) "").

Section contract.
Context `{OSOk W}.

Lemma runOnce_spec (s : W * list event) shellCmd stdin ms mem outCap s' out code err expd e :
  runOnce s shellCmd stdin ms mem outCap = (s', (out, code, err, expd, e)) ->
  s'.2 = s.2 ++ [ERun (sh shellCmd stdin ms)] /\
  blen out <= Z.max 0 outCap /\ blen err <= Z.max 0 outCap /\
  -1 <= code <= 255 /\ (e = None <-> code = 0).
Proof.
  unfold runOnce. change (Build_command _ _ _ _ _) with (sh shellCmd stdin ms).
  destruct (os_run s (sh shellCmd stdin ms)) as [s1 r] eqn:Er.
  intros [= <- <- <- <- <- <-]. rewrite !cb_writes_bytes.
  assert (Hc : forall n, run_err r = Some (ExitError n) -> -1 <= n <= 255 /\ n <> 0)
    by (intros n; by apply (exit_codes _ _ _ _ _ Er)).
  split; [|split; [apply limit_length|split; [apply limit_length|]]].
  - destruct s as [w l]. cbn in Er. destruct (os_run w _). by invc Er.
  - destruct (run_err r) as [[n|x]|]; [destruct (Hc n eq_refl)| |];
      (split; [lia|split; [done|lia]]) || (split; [lia|done]).
Qed.

Lemma run_cases_spec (req : ExecRequest) ins : forall (s : W * list event) results,
  Forall (case_within req) results ->
  exists more, (run_cases s req results ins).2 = Build_ExecResponse "" (Some (results ++ more)) "" /\
    length more = length ins /\ Forall (case_within req) more /\
    (run_cases s req results ins).1.2 = s.2 ++ (run_event req <$> ins).
Proof.
  induction ins as [|i ins IH]; intros s results Hr; cbn [run_cases].
  - exists []. by rewrite !app_nil_r.
  - destruct (runOnce s _ i _ _ _) as [s1 [[[[out code] err] expd] e]] eqn:Eo.
    apply runOnce_spec in Eo as (Hs & Hout & Herr & Hcode & He).
    set (case := Build_CaseResult _ _ _ _ _ _).
    assert (Hcase : case_within req case)
      by (split; cbn; unfold slen; rewrite ?to_of_bytes; done).
    replace (match e with Some _ => _ | None => _ end)
      with (run_cases s1 req (results ++ [case]) ins)
      by (destruct e; [|done]; destruct (Z.eqb_spec code 0); [by destruct He; subst; intuition|done]).
    destruct (IH s1 (results ++ [case])) as (more & -> & Hl & Hm & Ht);
      [by apply Forall_app; auto|].
    exists (case :: more). rewrite <- app_assoc. cbn [length app fmap list_fmap].
    rewrite Ht, Hs, <- app_assoc. split_and!; auto.
Qed.
End contract.

(** * Properties *)
Section properties.
Context `{OSOk W}.

Lemma handle_spec (s : W * list event) req :
  exists tr, (handle s req).1.2 = s.2 ++ tr /\ outcome req tr (handle s req).2.
Proof.
  unfold handle. cbn [os_mkdir_all os_write_file traced].
  destruct (os_mkdir_all s.1 _) as [w1 [e|]]; [by exists (take 1 (prepare req)); split; [done|constructor]|].
  cbn [fst snd]. destruct (os_write_file w1 _ _) as [w2 [e|]]; cbn [fst snd].
  { exists (prepare req). rewrite <- app_assoc. split; [done|constructor]. }
  rewrite <- app_assoc. change ([EMkdir ?a] ++ [EWriteFile ?b ?c]) with (prepare req).
  set (s2 := (w2, s.2 ++ prepare req)).
  assert (Hrun : forall s3, s3.2 = s.2 ++ prepare req ++ compile_events req ->
    exists tr, (run_cases s3 req [] (elems (Stdins req))).1.2 = s.2 ++ tr /\
      outcome req tr (run_cases s3 req [] (elems (Stdins req))).2).
  { intros s3 Hs. destruct (run_cases_spec req (elems (Stdins req)) s3 []) as (m & -> & Hl & Hm & ->);
      [constructor|].
    exists (prepare req ++ compile_events req ++ (run_event req <$> elems (Stdins req))).
    rewrite Hs, <- !app_assoc. split; [done|]. by constructor. }
  unfold compile. unfold compile_events in Hrun.
  destruct (String.eqb_spec (CompileCmd req) "") as [|Hc]; [by apply Hrun; rewrite app_nil_r|].
  destruct (runOnce s2 _ _ _ _ _) as [s3 [[[[out code] err] expd] e]] eqn:Eo.
  apply runOnce_spec in Eo as (Hs & Hout & Herr & Hcode & He).
  change s2.2 with (s.2 ++ prepare req) in Hs. rewrite <- app_assoc in Hs.
  destruct e as [e|]; [|by apply Hrun].
  destruct (Z.eqb_spec code 0) as [|Hne]; [by destruct He as [_ He]; specialize (He ltac:(done))|].
  exists (prepare req ++ [ERun (sh (CompileCmd req) "" (wrap64 (TimeLimitMs req * 4)))]).
  cbn [fst snd]. rewrite Hs. split; [done|].
  replace [ERun _] with (compile_events req) by (unfold compile_events; by apply String.eqb_neq in Hc as ->).
  apply CompileFailed; [done|]. unfold slen. case_match; by rewrite to_of_bytes.
Qed.

(** C32. A compile command that fails without output - a compiler that is
    killed by its timeout, or one that could not be started - gives the zero
    response: no compile error, no results, no agent error, although the
    protocol promises one of the three. *)
Theorem silent_compile_failure (w : W) req w1 w2 w3 r :
  CompileCmd req <> "" ->
  os_mkdir_all w (Dir (Join workDir (SourceFile req))) = (w1, None) ->
  os_write_file w1 (Join workDir (SourceFile req)) (to_bytes (Source req)) = (w2, None) ->
  os_run w2 (sh (CompileCmd req) "" (wrap64 (TimeLimitMs req * 4))) = (w3, r) ->
  concat (out_chunks r) = [] -> concat (err_chunks r) = [] -> run_err r <> None ->
  handle w req = (w3, zero_response).
Proof.
  intros Hc Hm Hw Hr Ho He Hf. unfold handle. rewrite Hm, Hw. unfold compile, runOnce.
  apply String.eqb_neq in Hc as ->. change (Build_command _ _ _ _ _)
    with (sh (CompileCmd req) "" (wrap64 (TimeLimitMs req * 4))).
  rewrite Hr.
  rewrite !cb_writes_bytes, Ho, He, !take_nil. destruct (run_err r) as [[n|x]|] eqn:E; [|done|done].
  destruct (exit_codes _ _ _ _ _ Hr E) as [_ Hn]. by apply Z.eqb_neq in Hn as ->.
Qed.

Lemma outcome_wf req tr resp : outcome req tr resp -> response_wf resp.
Proof.
  intros []; unfold response_wf; cbn; try constructor.
  eapply Forall_impl; [done|]. intros r [_ _ Hc Ht Hm].
  unfold case_wf, int64, min_int64, max_int64. lia.
Qed.

(** Recording the calls changes nothing. *)
Lemma runOnce_untraced (s : W * list event) c i t m o :
  (runOnce s c i t m o).2 = (runOnce s.1 c i t m o).2 /\
  (runOnce s c i t m o).1.1 = (runOnce s.1 c i t m o).1.
Proof. destruct s as [w l]. unfold runOnce. cbn. by destruct (os_run w _). Qed.

Lemma run_cases_untraced req ins : forall (s : W * list event) results,
  (run_cases s req results ins).2 = (run_cases s.1 req results ins).2.
Proof.
  induction ins as [|i ins IH]; intros s results; cbn [run_cases]; [done|].
  pose proof (runOnce_untraced s (RunCmd req) i (TimeLimitMs req) (MemoryLimitMb req)
    (OutputLimitBytes req)) as [H1 H2].
  destruct (runOnce s _ _ _ _ _) as [s1 [[[[out code] err] expd] e]], (runOnce s.1 _ _ _ _ _) as [w1 x].
  cbn [fst snd] in *. subst. repeat case_match; by rewrite ?IH.
Qed.

Lemma handle_untraced (s : W * list event) req : (handle s req).2 = (handle s.1 req).2.
Proof.
  unfold handle. cbn [os_mkdir_all os_write_file traced].
  destruct (os_mkdir_all s.1 _) as [w1 [e|]]; [done|].
  cbn [fst snd]. destruct (os_write_file w1 _ _) as [w2 [e|]]; [done|].
  unfold compile. destruct (String.eqb _ _); [by apply run_cases_untraced|].
  set (s2 := (w2, _)).
  pose proof (runOnce_untraced s2 (CompileCmd req) "" (wrap64 (TimeLimitMs req * 4))
    (MemoryLimitMb req) (OutputLimitBytes req)) as [H1 H2].
  change s2.1 with w2 in *.
  destruct (runOnce s2 _ _ _ _ _) as [s3 [[[[out code] err] expd] e]], (runOnce w2 _ _ _ _ _) as [w3 x].
  cbn [fst snd] in *. subst. destruct e; [by destruct (code =? 0)|]. apply run_cases_untraced.
Qed.

Lemma handle_wf (w : W) req : response_wf (handle w req).2.
Proof.
  change w with ((w, [] : list event).1). rewrite <- handle_untraced.
  destruct (handle_spec (w, []) req) as (tr & _ & Ho). by eapply outcome_wf.
Qed.

(** C11. Whatever the guest's system does, [handle] has one of four outcomes:
    making the directory or writing the source fails (agent error), the
    compile command fails (compile error, nothing is run), or every input is
    run, sequentially, in order and each exactly once, and there is one result
    per input within the limits.  The agent errors of the compile and exec
    steps never occur, and times and memory are never reported. *)
Theorem handle_contract (s : W * list event) req :
  exists tr, (handle s req).1.2 = s.2 ++ tr /\ outcome req tr (handle s req).2.
Proof. apply handle_spec. Qed.

(** C18. One job across the wire: the agent serves the single request it reads
    and closes the connection, and the host that sent it gets back the agent's
    own response to that request (text with invalid UTF-8 replaced both
    ways), as long as both messages fit a frame. *)
Theorem serve_answers (w : W) req host guest :
  request_wf req -> healthy host -> healthy guest ->
  blen (marshal req) <= MaxFrameBytes ->
  inbox guest = frame (marshal req) ->
  let '(w', resp) := handle w (canon_request req) in
  blen (marshal resp) <= MaxFrameBytes ->
  inbox host = frame (marshal resp) ->
  exists guest', serve w (Ok tt) (Ok guest) = (w', Some guest', None) /\
    closed guest' = true /\ outbox guest' = outbox guest ++ frame (marshal resp) /\
    (Exchange req host).2 = Ok (canon_response resp).
Proof.
  intros Hq Hh Hg Hm Hi. destruct (handle w (canon_request req)) as [w' resp] eqn:Eh.
  intros Hr Hhi. pose proof (handle_wf w (canon_request req)) as Hw. rewrite Eh in Hw.
  pose proof (marshal_pos req). pose proof (marshal_pos resp).
  unfold serve. rewrite (readFrame_frame (marshal req) []); [|by rewrite app_nil_r|lia].
  rewrite (unmarshal_marshal req); [|exact Hq|vm_compute; discriminate].
  change (j_canon req) with (canon_request req). rewrite Eh, writeFrame_healthy by done. eexists. split_and!; [done..|].
  rewrite (exchange_frame host req (marshal resp) []); [|done|done|by rewrite app_nil_r|lia].
  by rewrite (unmarshal_marshal resp); [|exact Hw|vm_compute].
Qed.

(** The agent's life, from what listening and accepting came to: the calls it
    makes, the connection it leaves (closed) and what it logs. *)
Definition life (listen : result unit) (accept : result conn) (tr : list event) (c : option conn)
    (logged : option string) : Prop :=
  match listen, accept with
  | Err e, _ => tr = [] /\ c = None /\ logged = Some ("dreddagent: vsock listen: " +:+ error_text e)
  | Ok _, Err e => tr = [] /\ c = None /\ logged = Some ("dreddagent: accept: " +:+ error_text e)
  | Ok _, Ok c0 =>
      match readFrame c0 with
      | (c1, Err e) =>
          tr = [] /\ c = Some (close c1) /\ logged = Some ("dreddagent: read request: " +:+ error_text e)
      | (c1, Ok req) => exists resp, outcome req tr resp /\
          match writeFrame resp c1 with
          | (c2, Err e) =>
              c = Some (close c2) /\ logged = Some ("dreddagent: write response: " +:+ error_text e)
          | (c2, Ok _) => c = Some (close c2) /\ logged = None
          end
      end
  end.

(** Nothing is done before a request is read, and then it is handled. *)
Lemma serve_life (s : W * list event) listen accept s' c err :
  serve s listen accept = (s', c, err) ->
  exists tr, s'.2 = s.2 ++ tr /\
    life listen accept tr c ((fun e => "dreddagent: " +:+ error_text e) <$> err).
Proof.
  unfold serve, life. destruct listen as [u|e]; [destruct accept as [c0|e]|].
  2, 3: intros [= <- <- <-]; exists []; by rewrite app_nil_r.
  destruct (readFrame c0) as [c1 [req|e]] eqn:Er; [|intros [= <- <- <-]; exists []; by rewrite app_nil_r].
  destruct (handle_spec s req) as (tr & Htr & Ho).
  destruct (handle s req) as [s1 resp]. cbn [fst snd] in *.
  destruct (writeFrame resp c1) as [c2 [u'|e]] eqn:Ew; intros [= <- <- <-]; exists tr; (split; [done|]);
    exists resp; rewrite Ew; by split.
Qed.

(** What [main] does before it serves. *)
Definition main_setup : list event :=
  [EMount "proc" "/proc" "proc"; EMount "sysfs" "/sys" "sysfs"; EMount "devtmpfs" "/dev" "devtmpfs"; EMkdir workDir].

(** C19. A VM serves one request and powers itself off: whatever fails - the
    mounts, the listener, the frame, the request, the answer - [main] mounts
    its file systems, handles the request it read, if any, and none besides,
    answers it on the connection and closes that, and its last act is to power
    the machine off; it exits with 0.  It logs exactly the error it met - of
    listening, accepting, reading the request or writing the response, with
    that error's own text - and nothing when the response was written. *)
Theorem agent_powers_off `{Kernel W} (s : W * list event) listen accept s' c logged exit :
  main s listen accept = (s', c, logged, exit) ->
  exit = 0 /\
  exists tr, s'.2 = s.2 ++ main_setup ++ tr ++ [EPowerOff] /\ life listen accept tr c logged.
Proof.
  unfold main. cbn [sys_mount sys_power_off traced_kernel os_mkdir_all traced].
  do 4 (destruct (_ : W * option error) as [? ?]; cbn [fst snd]).
  match goal with |- context [serve ?x _ _] => set (s1 := x) end.
  assert (Hs1 : s1.2 = s.2 ++ main_setup) by (subst s1; cbn [snd]; by rewrite <- !app_assoc).
  destruct (serve s1 listen accept) as [[s2 c2] err] eqn:Es.
  apply serve_life in Es as (tr & Htr & Hlife).
  destruct (sys_power_off s2.1) as [w3 e3]. intros [= <- <- <- <-]. split; [done|].
  exists tr. cbn [snd]. by rewrite Htr, Hs1, <- !app_assoc.
Qed.
End properties.

(** ** The properties at concrete inputs *)

(** A system whose only commands are [false], which fails in silence, and
    anything else, which copies its input to its output. *)
#[export] Instance echo_os : OS unit := {
  os_mkdir_all w _ := (w, None);
  os_write_file w _ _ := (w, None);
  os_run w c := (w, if decide (argv c = ["/bin/sh"; "-c"; "false"])
    then {| out_chunks := []; err_chunks := []; run_err := Some (ExitError 1); expired := false |}
    else {| out_chunks := [cmd_stdin c]; err_chunks := []; run_err := None; expired := false |})
}.

#[export] Instance echo_os_ok : OSOk unit.
Proof.
  split. intros w c w' r n. cbn. case_decide; intros [= <- <-]; cbn; [|done].
  intros [= <-]. lia.
Qed.

Definition broken_compile : ExecRequest :=
  Build_ExecRequest "main.c" "int main;" "false" "./a.out" (Some ["1"]) 2000 256 1024.

Lemma silent_compile_failure_witness : handle tt broken_compile = (tt, zero_response).
Proof.
  apply (silent_compile_failure tt broken_compile tt tt tt
    {| out_chunks := []; err_chunks := []; run_err := Some (ExitError 1); expired := false |});
    (discriminate || reflexivity).
Defined.

Definition cat_response : ExecResponse :=
  Build_ExecResponse "" (Some [Build_CaseResult "a" "" 0 0 0 false; Build_CaseResult "b" "" 0 0 0 false]) "".

Lemma serve_answers_witness :
  (Exchange sample_request (stream (frame (marshal cat_response)))).2 = Ok cat_response.
Proof.
  assert (Hs := serve_answers tt sample_request (stream (frame (marshal cat_response)))
    (stream (frame (marshal sample_request)))).
  destruct Hs as (g & _ & _ & _ & ->).
  - split_and!; split; vm_compute; discriminate.
  - reflexivity.
  - reflexivity.
  - vm_compute. discriminate.
  - reflexivity.
  - vm_compute. discriminate.
  - vm_compute. reflexivity.
  - vm_compute. reflexivity.
Defined.

Lemma handle_contract_witness :
  exists tr, outcome sample_request tr (handle (tt, [] : list event) sample_request).2.
Proof.
  destruct (handle_contract (tt, [] : list event) sample_request) as (tr & _ & Ho).
  exists tr. exact Ho.
Defined.

(** A kernel that mounts nothing. *)
#[export] Instance bare_kernel : Kernel unit := {
  sys_mount w _ _ _ := (w, Some (ENew "operation not permitted"));
  sys_power_off w := (w, None)
}.

Lemma agent_powers_off_witness :
  exists tr, (main (tt, [] : list event) (Ok tt) (Ok (stream (frame (marshal sample_request))))).1.1.1.2 =
      main_setup ++ tr ++ [EPowerOff] /\
    (main (tt, [] : list event) (Err (ENew "no device")) (Err (ENew "none"))).1.2 =
      Some "dreddagent: vsock listen: no device".
Proof.
  destruct (main (tt, [] : list event) (Ok tt) (Ok (stream (frame (marshal sample_request)))))
    as [[[s' c] logged] exit] eqn:E.
  destruct (agent_powers_off (tt, []) (Ok tt) (Ok (stream (frame (marshal sample_request)))) s' c logged exit E)
    as (_ & tr & Ht & _).
  exists tr. split; [exact Ht|].
  destruct (main (tt, [] : list event) (Err (ENew "no device")) (Err (ENew "none")))
    as [[[s2 c2] logged2] exit2] eqn:E2.
  destruct (agent_powers_off (tt, []) (Err (ENew "no device")) (Err (ENew "none")) s2 c2 logged2 exit2 E2)
    as (_ & tr2 & _ & _ & _ & Hl).
  exact Hl.
Defined.
