(* ===== verification/Driver.v ===== *)
(** firecracker/driver.go: booting and killing a MicroVM.  The host's system
    (files, processes, the Firecracker API behind its socket, the clock) is the
    class [Host]; the boot is a computation over it that may fail. *)
From S2P Require Import Prelude GoInt Utf8 JsonText Json Codec Filepath Clock.

(** [type VM struct]; [Proc] is the process of [cmd]. *)
Record VM := {
  ID : string;
  LanguageID : string;
  WorkDir : string;
  APISocket : string;
  VsockUDS : string;
  Proc : Z
}.

Record BootOptions := {
  FirecrackerBin : string;
  KernelPath : string;
  RootfsPath : string;
  opt_WorkDir : string;
  Vcpus : Z;
  MemMB : Z;
  opt_LanguageID : string
}.

(** [type Driver struct]: the binary and the sequence counter (a uint64). *)
Record Driver := { bin : string; seq : Z }.
Definition NewDriver (firecrackerBin : string) : Driver := {| bin := firecrackerBin; seq := 0 |}.

(** [type apiClient struct]: the socket it dials and its request timeout. *)
Record apiClient := { sock : string; hc_Timeout : Z }.

(** [func newAPI(sock string) *apiClient] *)
Definition newAPI (sock : string) : apiClient := {| sock := sock; hc_Timeout := 5 * Second |}.

(** * The host's system *)
Class Host (W : Type) := {
  getpid : Z;
  mkdir_all : string -> W -> W * option error;
  remove : string -> W -> W;
  remove_all : string -> W -> W;
  start_process : list string -> W -> W * result Z;
  kill_wait : Z -> W -> W;
  (** [os.Stat] at the [k]th poll, the clock then, and the context's error
      when it is done before the pause ends. *)
  stat : string -> nat -> W -> result unit;
  clock : nat -> W -> Z;
  ctx_done : nat -> W -> option error;
  start_clock : W -> Z;
  (** The client's HTTP PUT, over its socket whatever the host of the URL and
      within its timeout: the status code and line, or an error. *)
  http_put : apiClient -> string -> json -> W -> W * result (Z * string);
  run_cp : list string -> W -> W * option error;
  open_read : string -> W -> W * option error;
  open_write : string -> W -> W * option error;
  io_copy : string -> string -> W -> W * option error;
  sync : string -> W -> W * option error;
  (** Whether the context of the boot is cancelled. *)
  cancelled : W -> bool
}.

(** Documented behaviour: the clock advances over a pause; a request under a
    cancelled context fails; nothing done here un-cancels a context. *)
Definition socketPoll : Z := 25 * Millisecond.
Class HostOk (W : Type) `{Host W} := {
  clock_ticks : forall w, ticks (fun k => clock k w) socketPoll;
  clock_start : forall w, start_clock w <= clock 0 w;
  put_live : forall s p b w w' r, http_put s p b w = (w', Ok r) -> cancelled w = false;
  mkdir_keeps : forall d w w' r, mkdir_all d w = (w', r) -> cancelled w = true -> cancelled w' = true;
  remove_keeps : forall p w, cancelled w = true -> cancelled (remove p w) = true;
  start_keeps : forall a w w' r, start_process a w = (w', r) -> cancelled w = true -> cancelled w' = true
}.

Section driver.
Context `{Host W}.

(** [func (vm *VM) Kill()]; [None] is the nil pointer. *)
Definition Kill (vm : option VM) (w : W) : W :=
  match vm with
  | None => w
  | Some vm =>
      let w := kill_wait (Proc vm) w in
      if String.eqb (WorkDir vm) "" then w else remove_all (WorkDir vm) w
  end.

(** The loop of [waitForSocket], on enough fuel for the timeout. *)
Definition socketWait (path : string) (timeout : Z) (w : W) : option (result unit) :=
  poll (fun k => stat path k w) (fun k => clock k w) (fun k => ctx_done k w)
    (fun _ => ENew "timed out waiting for firecracker api socket")
    (start_clock w + timeout) (poll_fuel socketPoll timeout) 0.

(** [func waitForSocket(ctx, path, timeout)]; the fuel never runs out. *)
Definition waitForSocket (path : string) (timeout : Z) : M W unit := fun w =>
  (w, default (Err (ENew "out of fuel")) (socketWait path timeout w)).

(** [func (c *apiClient) put(ctx, path, body)] *)
Definition put (c : apiClient) (path : string) (body : json) : M W unit := fun w =>
  match http_put c path body w with
  | (w, Err e) => (w, Err e)
  | (w, Ok (status, line)) =>
      if 300 <=? status
      then (w, Err (ENew ("firecracker API " +:+ path +:+ " -> " +:+ line)))
      else (w, Ok tt)
  end.

(** [func cloneFile(src, dst string) error] *)
Definition cloneFile (src dst : string) : M W unit := fun w =>
  match run_cp ["cp"; "--reflink=auto"; "--sparse=always"; src; dst] w with
  | (w, None) => (w, Ok tt)
  | (w, Some _) =>
      (act (open_read src) ≫= fun _ =>
       act (open_write dst) ≫= fun _ =>
       act (io_copy dst src) ≫= fun _ =>
       act (sync dst)) w
  end.

(** [func (d *Driver) nextID() string] *)
Definition nextID (d : Driver) : Driver * string :=
  let n := (seq d + 1) mod 2 ^ 64 in
  ({| bin := bin d; seq := n |}, "vm-" +:+ fmt_d getpid +:+ "-" +:+ fmt_d n).

Definition num (z : Z) : json := JNum (of_bytes (itoa z)).

(** The bodies of the API calls; [json.Marshal] sorts the keys of a map. *)
Definition machine_config (opt : BootOptions) : json :=
  JObj [("mem_size_mib", num (MemMB opt)); ("vcpu_count", num (Vcpus opt))].
Definition boot_source (opt : BootOptions) : json :=
  JObj [("boot_args", JStr "console=ttyS0 reboot=k panic=1 pci=off init=/sbin/dreddagent-init");
        ("kernel_image_path", JStr (KernelPath opt))].
Definition rootfs_drive (path : string) : json :=
  JObj [("drive_id", JStr "rootfs"); ("is_read_only", JBool false);
        ("is_root_device", JBool true); ("path_on_host", JStr path)].
Definition vsock_device (uds : string) : json :=
  JObj [("guest_cid", num 3); ("uds_path", JStr uds)].
Definition instance_start : json := JObj [("action_type", JStr "InstanceStart")].

(** The configuration of a started VM: any failure kills it. *)
Definition configure (opt : BootOptions) (vm : VM) : M W unit :=
  on_error (Kill (Some vm)) (
    waitForSocket (APISocket vm) (5 * Second) ≫= fun _ =>
    let api := newAPI (APISocket vm) in
    ctx "machine-config: " (put api "/machine-config" (machine_config opt)) ≫= fun _ =>
    ctx "boot-source: " (put api "/boot-source" (boot_source opt)) ≫= fun _ =>
    let perVMRootfs := Join (opt_WorkDir opt) "rootfs.ext4" in
    ctx "clone rootfs: " (cloneFile (RootfsPath opt) perVMRootfs) ≫= fun _ =>
    ctx "drives: " (put api "/drives/rootfs" (rootfs_drive perVMRootfs)) ≫= fun _ =>
    ctx "vsock: " (put api "/vsock" (vsock_device (VsockUDS vm))) ≫= fun _ =>
    ctx "InstanceStart: " (put api "/actions" instance_start)).

(** The options with the default binary filled in. *)
Definition with_bin (d : Driver) (opt : BootOptions) : BootOptions :=
  if String.eqb (FirecrackerBin opt) ""
  then Build_BootOptions (bin d) (KernelPath opt) (RootfsPath opt) (opt_WorkDir opt)
         (Vcpus opt) (MemMB opt) (opt_LanguageID opt)
  else opt.

(** [func (d *Driver) Boot(ctx, opt)]: the driver's counter moves
    on as soon as the work directory exists. *)
Definition Boot (d : Driver) (opt : BootOptions) (w : W) : Driver * W * result VM :=
  let opt := with_bin d opt in
  match mkdir_all (opt_WorkDir opt) w with
  | (w, Some e) => (d, w, Err e)
  | (w, None) =>
      let '(d, id) := nextID d in
      let apiSocket := Join (opt_WorkDir opt) "fc.sock" in
      let vsockUDS := Join (opt_WorkDir opt) "vsock.sock" in
      let w := remove vsockUDS (remove apiSocket w) in
      match start_process [FirecrackerBin opt; "--api-sock"; apiSocket; "--id"; id] w with
      | (w, Err e) => (d, w, Err (EWrap "start firecracker: " e))
      | (w, Ok p) =>
          let vm := Build_VM id (opt_LanguageID opt) (opt_WorkDir opt) apiSocket vsockUDS p in
          match configure opt vm w with
          | (w, Err e) => (d, w, Err e)
          | (w, Ok _) => (d, w, Ok vm)
          end
      end
  end.
End driver.

(** ** The calls of a boot, in order

    Each with what came of it: whether it succeeded, the process started, the
    status a PUT was answered with (none when it failed). *)
Inductive event :=
  | EMkdir (d : string) (ok : bool)
  | ERemove (p : string)
  | EStart (argv : list string) (p : option Z)
  | EPut (sock path : string) (body : json) (status : option Z)
  | ECp (argv : list string) (ok : bool)
  | EOpen (src : string) (ok : bool)
  | ECreate (dst : string) (ok : bool)
  | ECopy (dst src : string) (ok : bool)
  | ESync (dst : string) (ok : bool)
  | EKill (p : Z)
  | ERemoveAll (d : string).

Definition no_error (r : option error) : bool := bool_decide (r = None).
Definition value {A} (r : result A) : option A := match r with Ok a => Some a | Err _ => None end.

(** A host with its calls recorded. *)
#[export] Instance traced `{Host W} : Host (W * list event) := {
  getpid := getpid;
  mkdir_all d s := let '(w, r) := mkdir_all d s.1 in ((w, s.2 ++ [EMkdir d (no_error r)]), r);
  remove p s := (remove p s.1, s.2 ++ [ERemove p]);
  remove_all d s := (remove_all d s.1, s.2 ++ [ERemoveAll d]);
  start_process a s := let '(w, r) := start_process a s.1 in ((w, s.2 ++ [EStart a (value r)]), r);
  kill_wait p s := (kill_wait p s.1, s.2 ++ [EKill p]);
  stat p k s := stat p k s.1;
  clock k s := clock k s.1;
  ctx_done k s := ctx_done k s.1;
  start_clock s := start_clock s.1;
  http_put a p b s := let '(w, r) := http_put a p b s.1 in
    ((w, s.2 ++ [EPut (sock a) p b (fst <$> value r)]), r);
  run_cp a s := let '(w, r) := run_cp a s.1 in ((w, s.2 ++ [ECp a (no_error r)]), r);
  open_read p s := let '(w, r) := open_read p s.1 in ((w, s.2 ++ [EOpen p (no_error r)]), r);
  open_write p s := let '(w, r) := open_write p s.1 in ((w, s.2 ++ [ECreate p (no_error r)]), r);
  io_copy a b s := let '(w, r) := io_copy a b s.1 in ((w, s.2 ++ [ECopy a b (no_error r)]), r);
  sync p s := let '(w, r) := sync p s.1 in ((w, s.2 ++ [ESync p (no_error r)]), r);
  cancelled s := cancelled s.1
}.

(** A PUT is accepted when it was answered with a status below 300. *)
Definition put_course (sock path : string) (body : json) : course event := fun ok tr =>
  exists st, tr = [EPut sock path body st] /\ ok = from_option (fun st => st <? 300) false st.

(** The copy by cp, or else by hand. *)
Definition clone_course (src dst : string) : course event :=
  or_else (attempt (ECp ["cp"; "--reflink=auto"; "--sparse=always"; src; dst]))
    (and_then (attempt (EOpen src)) (and_then (attempt (ECreate dst))
      (and_then (attempt (ECopy dst src)) (attempt (ESync dst))))).

(** The calls that configure and start a VM once its socket is there: its drive
    is the VM's own copy of the root file system. *)
Definition config_course (opt : BootOptions) (vm : VM) : course event :=
  let own := Join (opt_WorkDir opt) "rootfs.ext4" in
  let put := put_course (APISocket vm) in
  and_then (put "/machine-config" (machine_config opt))
  (and_then (put "/boot-source" (boot_source opt))
  (and_then (clone_course (RootfsPath opt) own)
  (and_then (put "/drives/rootfs" (rootfs_drive own))
  (and_then (put "/vsock" (vsock_device (VsockUDS vm)))
            (put "/actions" instance_start))))).

Definition kill_events (vm : VM) : list event :=
  EKill (Proc vm) :: (if String.eqb (WorkDir vm) "" then [] else [ERemoveAll (WorkDir vm)]).

(** The VM of a boot whose process is [p]. *)
Definition boot_vm (opt : BootOptions) (id : string) (p : Z) : VM :=
  Build_VM id (opt_LanguageID opt) (opt_WorkDir opt)
    (Join (opt_WorkDir opt) "fc.sock") (Join (opt_WorkDir opt) "vsock.sock") p.

(** A boot, [proc] being what became of the process and [up] whether the wait
    for its API socket succeeded: everything in order up to the first failure,
    which, once the process runs, is followed by killing it and removing the
    work directory. *)
Definition boot_course (opt : BootOptions) (id : string) (proc : option Z) (up : bool) : course event :=
  let api := Join (opt_WorkDir opt) "fc.sock" in
  and_then (attempt (EMkdir (opt_WorkDir opt)))
  (and_then (mention (ERemove api))
  (and_then (mention (ERemove (Join (opt_WorkDir opt) "vsock.sock")))
  (and_then (fun ok tr => ok = bool_decide (is_Some proc) /\
               tr = [EStart [FirecrackerBin opt; "--api-sock"; api; "--id"; id] proc])
            (from_option (fun p => let vm := boot_vm opt id p in
               undoing (kill_events vm) (and_then (outcome up) (config_course opt vm)))
             (outcome false) proc)))).

(** The host when the process was started, with what became of it, and whether
    the wait for the socket then succeeds. *)
Definition started `{Host W} (opt : BootOptions) (id : string) (w : W) : W * result Z :=
  let api := Join (opt_WorkDir opt) "fc.sock" in
  start_process [FirecrackerBin opt; "--api-sock"; api; "--id"; id]
    (remove (Join (opt_WorkDir opt) "vsock.sock") (remove api (mkdir_all (opt_WorkDir opt) w).1)).
Definition socket_up `{Host W} (opt : BootOptions) (w : W) : bool :=
  match socketWait (Join (opt_WorkDir opt) "fc.sock") (5 * Second) w with Some (Ok _) => true | _ => false end.

Section calls.
Context `{Host W}.
Notation log := (snd : W * list event -> list event).

Lemma follows_put c path body : follows log (put c path body) (put_course (sock c) path body).
Proof.
  intros s s' r. unfold put. cbn. destruct (http_put c path body s.1) as [w [[st line]|e]]; cbn.
  - destruct (300 <=? st) eqn:E; intros [= <- <-]; eexists; (split; [done|]); exists (Some st); cbn;
      (split; [done|]); [symmetry; apply Z.ltb_ge|symmetry; apply Z.ltb_lt]; zlia.
  - intros [= <- <-]. eexists. split; [done|]. by exists None.
Qed.

Lemma follows_clone src dst : follows log (cloneFile src dst) (clone_course src dst).
Proof.
  assert (Hrest : follows log (act (open_read src) ≫= fun _ => act (open_write dst) ≫= fun _ =>
      act (io_copy dst src) ≫= fun _ => act (sync dst))
    (and_then (attempt (EOpen src)) (and_then (attempt (ECreate dst))
      (and_then (attempt (ECopy dst src)) (attempt (ESync dst)))))).
  { repeat (apply follows_bind; [|intros _]); apply follows_act; intros s; cbn;
      [by destruct (open_read _ _)|by destruct (open_write _ _)|by destruct (io_copy _ _ _)|by destruct (sync _ _)]. }
  intros s s' r. unfold cloneFile. cbn. destruct (run_cp _ s.1) as [w [e|]].
  - intros (tr & Hs & HQ)%Hrest. cbn in Hs. eexists. rewrite Hs, <- app_assoc. split; [done|].
    right. eexists _, tr. split; [done|]. by split.
  - intros [= <- <-]. eexists. split; [done|]. by left.
Qed.

Lemma kill_calls (s : W * list event) vm : (Kill (Some vm) s).2 = s.2 ++ kill_events vm.
Proof.
  unfold Kill, kill_events. cbn. destruct (String.eqb (WorkDir vm) ""); [done|].
  cbn. by rewrite <- app_assoc.
Qed.

Lemma wait_outcome opt (s : W * list event) :
  is_ok (waitForSocket (Join (opt_WorkDir opt) "fc.sock") (5 * Second) s).2 = socket_up opt s.1.
Proof.
  unfold waitForSocket, socket_up. generalize (Join (opt_WorkDir opt) "fc.sock") (5 * Second). intros path t.
  change (socketWait path t s) with (socketWait path t s.1). cbn [snd].
  by destruct (socketWait path t s.1) as [[|]|].
Qed.

Lemma configure_calls opt vm (s : W * list event) :
  APISocket vm = Join (opt_WorkDir opt) "fc.sock" ->
  follows_at log (configure opt vm) s
    (undoing (kill_events vm) (and_then (outcome (socket_up opt s.1)) (config_course opt vm))).
Proof.
  intros Ha. apply follows_on_error; [intros s1; apply kill_calls|].
  rewrite <- wait_outcome, <- Ha. apply follows_known; [done|intros _].
  repeat (apply follows_bind; [apply follows_ctx; first [apply follows_put|apply follows_clone]|intros _]).
  apply follows_ctx, follows_put.
Qed.

Lemma with_bin_same d opt :
  opt_WorkDir (with_bin d opt) = opt_WorkDir opt /\ opt_LanguageID (with_bin d opt) = opt_LanguageID opt.
Proof. unfold with_bin. by destruct (String.eqb (FirecrackerBin opt) ""). Qed.

End calls.

(** * Properties *)

(** C25. Whatever fails, a boot makes its calls in order - work directory, stale
    sockets, process, machine, kernel, a private copy of the root file system
    (by cp, or else by hand), drive, vsock, start - and stops at the first one
    that fails, a PUT answered with a status of 300 or more included; it
    succeeds exactly when all succeeded, with the VM of the process it started;
    and once the process runs a failure, that of the wait for its socket
    included, is followed by killing it and removing its work directory.  A
    failure before that leaves the work directory behind. *)
Theorem boot_all_or_killed `{Host W} d opt (s : W * list event) d' s' r :
  Boot d opt s = (d', s', r) ->
  let o := with_bin d opt in let id := (nextID d).2 in
  let '(w, p) := started o id s.1 in
  (exists tr, s'.2 = s.2 ++ tr /\ boot_course o id (value p) (socket_up o w) (is_ok r) tr) /\
  forall vm, r = Ok vm -> exists pid, p = Ok pid /\ vm = boot_vm o id pid.
Proof.
  cbn zeta. unfold Boot, started, boot_course. set (o := with_bin d opt).
  change ((nextID (W := W * list event) d)) with (nextID (W := W) d).
  destruct (nextID d) as [d1 id]. cbn [mkdir_all remove start_process traced].
  destruct (mkdir_all (opt_WorkDir o) s.1) as [w1 [e|]]; cbn [fst snd].
  { intros [= <- <- <-]. destruct (start_process _ _) as [w2 p]. split; [|done].
    eexists. split; [done|]. by left. }
  destruct (start_process _ _) as [w2 [p|e]]; cbn [fst snd value].
  2:{ intros [= <- <- <-]. split; [|done]. eexists. rewrite <- !app_assoc. split; [done|].
      right. eexists [_], [_; _; _]. do 2 (split; [done|]).
      right. eexists [_], [_; _]. do 2 (split; [done|]).
      right. eexists [_], [_]. do 2 (split; [done|]). left. by split. }
  destruct (configure o _ _) as [s3 r3] eqn:Ec.
  apply configure_calls in Ec as (tr & Hs & HQ); [|done]. cbn [fst snd] in Hs, HQ.
  intros Hr. assert (Hs' : s' = s3) by (destruct r3; congruence).
  assert (Hok : is_ok r3 = is_ok r) by (destruct r3; invc Hr; done). rewrite Hok in HQ.
  split; [|intros vm ->; exists p; split; [done|]; by destruct r3; invc Hr].
  eexists. rewrite Hs', Hs, <- !app_assoc. split; [done|].
  right. eexists [_], (_ :: _ :: _ :: tr). do 2 (split; [done|]).
  right. eexists [_], (_ :: _ :: tr). do 2 (split; [done|]).
  right. eexists [_], (_ :: tr). do 2 (split; [done|]).
  right. eexists [_], tr. do 2 (split; [done|]). exact HQ.
Qed.

Section live.
Context `{HostOk W}.

Lemma put_ok_live c path body w w' u :
  put c path body w = (w', Ok u) ->
  cancelled w = false /\ exists r, http_put c path body w = (w', Ok r).
Proof.
  unfold put. destruct (http_put c path body w) as [w1 [[st line]|e]] eqn:E; [|done].
  destruct (300 <=? st); [done|]. intros [= <- <-]. split; [by eapply put_live|by eauto].
Qed.

Lemma wait_same path t w w' u : waitForSocket path t w = (w', Ok u) -> w' = w.
Proof. unfold waitForSocket. by intros [= <-]. Qed.

Lemma configure_live opt vm w w' u :
  configure opt vm w = (w', Ok u) ->
  cancelled w = false /\
  exists w1 r, cancelled w1 = false /\ http_put (newAPI (APISocket vm)) "/actions" instance_start w1 = (w', Ok r).
Proof.
  unfold configure. intros Hc%on_error_ok.
  apply bind_ok in Hc as (w1 & [] & ->%wait_same & Hc).
  apply bind_ok in Hc as (w2 & [] & [Hl _]%ctx_ok%put_ok_live & Hc). split; [done|].
  do 4 (apply bind_ok in Hc as (? & [] & _ & Hc)).
  apply ctx_ok, put_ok_live in Hc as [? [r ?]]. by eauto.
Qed.

(** C35. A boot succeeds only under a context that was still live when it began
    and when the VM was started, so no VM appears after the pool has cancelled
    its context; and the wait for the API socket always ends. *)
Theorem boot_ok_live d opt w d' w' vm :
  Boot d opt w = (d', w', Ok vm) ->
  cancelled w = false /\
  (exists w1 r, cancelled w1 = false /\
     http_put (newAPI (APISocket vm)) "/actions" instance_start w1 = (w', Ok r)) /\
  (forall path timeout w0, is_Some (socketWait path timeout w0)).
Proof.
  unfold Boot. set (o := with_bin d opt). intros Hb.
  assert (Hwait : forall path timeout w0, is_Some (socketWait path timeout w0)).
  { intros path timeout w0. unfold socketWait.
    apply poll_terminates; [done|apply clock_ticks|].
    pose proof (clock_start w0). lia. }
  destruct (mkdir_all _ w) as [w1 [e|]] eqn:Em; [done|].
  destruct (nextID d) as [d1 id].
  destruct (start_process _ _) as [w2 [p|e]] eqn:Es; [|done].
  destruct (configure o _ w2) as [w3 [u|e]] eqn:Ec; invc Hb.
  apply configure_live in Ec as [Hl Ha]. split_and!; [|done|done].
  apply not_true_iff_false. intros Hw. eapply mkdir_keeps in Em; [|done].
  eapply start_keeps in Es; [congruence|]. by do 2 apply remove_keeps.
Qed.

End live.

(** ** The properties at a concrete host *)

(** A host where everything works except the API paths in [broken]; [done]
    says whether the context is cancelled. *)
Record toy := { broken : list string; is_done : bool }.
#[export] Instance toy_host : Host toy := {
  getpid := 7;
  mkdir_all _ w := (w, None);
  remove _ w := w;
  remove_all _ w := w;
  start_process _ w := (w, Ok 4242);
  kill_wait _ w := w;
  stat _ k w := if (k <? 3)%nat then Err (ENew "no such file") else Ok tt;
  clock k w := socketPoll * Z.of_nat k;
  ctx_done _ w := if is_done w then Some (ESentinel Canceled) else None;
  start_clock _ := 0;
  http_put _ p _ w :=
    (w, if is_done w then Err (ESentinel Canceled)
        else Ok (if bool_decide (p ∈ broken w) then (400, "400 Bad Request") else (204, "204 No Content")));
  run_cp _ w := (w, None);
  open_read _ w := (w, None);
  open_write _ w := (w, None);
  io_copy _ _ w := (w, None);
  sync _ w := (w, None);
  cancelled := is_done
}.

#[export] Instance toy_host_ok : HostOk toy.
Proof.
  split; cbn; try done; try (by intros; simplify_eq).
  - intros w k. unfold socketPoll. cbn [clock toy_host]. lia.
  - intros s p b [bs []] w' r; by intros [= <-].
Qed.

Definition demo_opt : BootOptions :=
  Build_BootOptions "" "/boot/vmlinux" "/rootfs/shell.ext4" "/tmp/dredd-shell-1" 1 256 "shell".

(** The vsock call fails: the VM is killed and its directory removed. *)
Definition demo_boot : Driver * (toy * list event) * result VM :=
  Boot (NewDriver "firecracker") demo_opt ({| broken := ["/vsock"]; is_done := false |}, []).

Lemma boot_all_or_killed_witness :
  boot_course (with_bin (NewDriver "firecracker") demo_opt) "vm-7-1" (Some 4242) true false
    demo_boot.1.2.2.
Proof.
  destruct (boot_all_or_killed (NewDriver "firecracker") demo_opt
    ({| broken := ["/vsock"]; is_done := false |}, []) demo_boot.1.1 demo_boot.1.2 demo_boot.2)
    as [(tr & Ht & Hc) _].
  - vm_compute. reflexivity.
  - rewrite Ht. exact Hc.
Defined.

Lemma boot_ok_live_witness :
  cancelled {| broken := []; is_done := false |} = false.
Proof.
  destruct (boot_ok_live (NewDriver "firecracker") demo_opt {| broken := []; is_done := false |}
    (Boot (NewDriver "firecracker") demo_opt {| broken := []; is_done := false |}).1.1
    (Boot (NewDriver "firecracker") demo_opt {| broken := []; is_done := false |}).1.2
    (Build_VM "vm-7-1" "shell" "/tmp/dredd-shell-1" "/tmp/dredd-shell-1/fc.sock"
       "/tmp/dredd-shell-1/vsock.sock" 4242)) as [H _].
  - vm_compute. reflexivity.
  - exact H.
Defined.
