(* ===== verification/Pool.v ===== *)
(** pool/pool.go and the three strategies of pool/prewarmed_lang.go,
    pool/prewarmed_generic.go and pool/ondemand_spare.go, as one transition
    system: refill goroutines, callers of Acquire and the closer share the
    channels, the boot semaphore, the context and the wait group, and take
    their steps in any order. *)
From S2P Require Import Prelude GoInt Utf8 JsonText Json Codec Langs Config.

(** * Strategies *)

(** What distinguishes the strategies: the channels the constructor makes, the
    one [Acquire] uses for a language, their buffer size (also the number of
    refills started for each), whether an empty channel makes [Acquire] boot a
    VM itself, and the slots of the boot semaphore. *)
Record strategy := {
  keys : list string;
  slot : string -> result string;
  capacity : nat;
  on_demand : bool;
  boots : nat
}.

(** [func newBootSemaphore(n int)] *)
Definition newBootSemaphore (n : Z) : nat := Z.to_nat (if n <? 1 then 1 else n).

Definition language_ids (reg : Registry) : list string := Language.ID <$> All reg.

Definition newPrewarmedPerLang (cfg : Config) (reg : Registry) : strategy := {|
  keys := language_ids reg;
  slot id := if decide (id ∈ language_ids reg) then Ok id
             else Err (ENew ("no pool for language " +:+ fmt_q id));
  capacity := Z.to_nat (PoolSize cfg);
  on_demand := false;
  boots := newBootSemaphore (BootConcurrency cfg) |}.

Definition newPrewarmedGeneric (cfg : Config) : strategy := {|
  keys := [""];
  slot _ := Ok "";
  capacity := Z.to_nat (PoolSize cfg);
  on_demand := false;
  boots := newBootSemaphore (BootConcurrency cfg) |}.

Definition newOnDemandSpare (cfg : Config) (reg : Registry) : strategy := {|
  keys := language_ids reg;
  slot id := match Get reg id with
             | Some _ => Ok id
             | None => Err (ENew ("unknown language " +:+ fmt_q id))
             end;
  capacity := 1;
  on_demand := true;
  boots := newBootSemaphore (BootConcurrency cfg) |}.

(** [func New(cfg, drv, reg)] *)
Definition New (cfg : Config) (reg : Registry) : result strategy :=
  if String.eqb (Strategy cfg) PoolPrewarmedPerLang then Ok (newPrewarmedPerLang cfg reg)
  else if String.eqb (Strategy cfg) PoolOnDemandSpare then Ok (newOnDemandSpare cfg reg)
  else if String.eqb (Strategy cfg) PoolPrewarmedGeneric then Ok (newPrewarmedGeneric cfg)
  else Err (ENew ("unknown pool strategy " +:+ fmt_q (Strategy cfg))).

(** * The shared state *)

(** VMs are numbered in the order they boot; [alive] are those not killed.  The
    sync.WaitGroup is its two halves, the counter [wg] and the number of
    [waiters]; [panicked] records a send on a closed channel, [crashed] a panic
    of the WaitGroup.  (A Go panic ends the process; nothing is proved of what
    would follow, and the steps go on only because no step looks.) *)
Record shared := {
  chans : gmap string (list nat);
  shut : gset string;
  sem : nat;
  cancelled : bool;
  closed : bool;
  wg : nat;
  waiters : nat;
  alive : gset nat;
  fresh : nat;
  panicked : bool;
  crashed : bool
}.

Definition set_chan (k : string) (l : list nat) (s : shared) : shared :=
  {| chans := <[k := l]> (chans s); shut := shut s; sem := sem s; cancelled := cancelled s;
     closed := closed s; wg := wg s; waiters := waiters s; alive := alive s; fresh := fresh s;
     panicked := panicked s; crashed := crashed s |}.
Definition set_shut (k : string) (s : shared) : shared :=
  {| chans := chans s; shut := {[k]} ∪ shut s; sem := sem s; cancelled := cancelled s;
     closed := closed s; wg := wg s; waiters := waiters s; alive := alive s; fresh := fresh s;
     panicked := panicked s; crashed := crashed s |}.
Definition set_sem (n : nat) (s : shared) : shared :=
  {| chans := chans s; shut := shut s; sem := n; cancelled := cancelled s; closed := closed s;
     wg := wg s; waiters := waiters s; alive := alive s; fresh := fresh s;
     panicked := panicked s; crashed := crashed s |}.
Definition set_wg (n : nat) (s : shared) : shared :=
  {| chans := chans s; shut := shut s; sem := sem s; cancelled := cancelled s;
     closed := closed s; wg := n; waiters := waiters s; alive := alive s; fresh := fresh s;
     panicked := panicked s; crashed := crashed s |}.
Definition set_waiters (n : nat) (s : shared) : shared :=
  {| chans := chans s; shut := shut s; sem := sem s; cancelled := cancelled s;
     closed := closed s; wg := wg s; waiters := n; alive := alive s; fresh := fresh s;
     panicked := panicked s; crashed := crashed s |}.
Definition set_closed (s : shared) : shared :=
  {| chans := chans s; shut := shut s; sem := sem s; cancelled := cancelled s; closed := true;
     wg := wg s; waiters := waiters s; alive := alive s; fresh := fresh s;
     panicked := panicked s; crashed := crashed s |}.
Definition cancel (s : shared) : shared :=
  {| chans := chans s; shut := shut s; sem := sem s; cancelled := true; closed := closed s;
     wg := wg s; waiters := waiters s; alive := alive s; fresh := fresh s;
     panicked := panicked s; crashed := crashed s |}.
Definition panic (s : shared) : shared :=
  {| chans := chans s; shut := shut s; sem := sem s; cancelled := cancelled s;
     closed := closed s; wg := wg s; waiters := waiters s; alive := alive s; fresh := fresh s;
     panicked := true; crashed := crashed s |}.
Definition crash (s : shared) : shared :=
  {| chans := chans s; shut := shut s; sem := sem s; cancelled := cancelled s;
     closed := closed s; wg := wg s; waiters := waiters s; alive := alive s; fresh := fresh s;
     panicked := panicked s; crashed := true |}.
(** A VM comes up: [fresh s]. *)
Definition boot (s : shared) : shared :=
  {| chans := chans s; shut := shut s; sem := sem s; cancelled := cancelled s;
     closed := closed s; wg := wg s; waiters := waiters s; alive := {[fresh s]} ∪ alive s;
     fresh := S (fresh s); panicked := panicked s; crashed := crashed s |}.
Definition kill (v : nat) (s : shared) : shared :=
  {| chans := chans s; shut := shut s; sem := sem s; cancelled := cancelled s;
     closed := closed s; wg := wg s; waiters := waiters s; alive := alive s ∖ {[v]};
     fresh := fresh s; panicked := panicked s; crashed := crashed s |}.

(** [wg.Add(1)] panics when it finds the counter at zero with a waiter: Wait
    was to be released by the Done that brought it there. *)
Definition add_panics (s : shared) : Prop := wg s = 0%nat /\ waiters s <> 0%nat.

(** * The boot semaphore: a channel with [slots] places, [n] of them taken *)

(** [func (b bootSemaphore) acquire(ctx) bool]: one of the ready cases of its
    select, so either when both are; it waits while none is. *)
Inductive acquire (slots : nat) (done : bool) (n : nat) : bool -> nat -> Prop :=
  | acquire_slot : (n < slots)%nat -> acquire slots done n true (S n)
  | acquire_done : done = true -> acquire slots done n false n.

(** [func (b bootSemaphore) release()]: it waits while no place is taken. *)
Definition release (n m : nat) : Prop := (0 < n)%nat /\ m = pred n.

Lemma acquire_true slots done n m : acquire slots done n true m <-> (n < slots)%nat /\ m = S n.
Proof. split; [by inversion 1|]. intros [? ->]. by constructor. Qed.

Lemma acquire_false slots done n m : acquire slots done n false m <-> done = true /\ m = n.
Proof. split; [by inversion 1|]. intros [? ->]. by constructor. Qed.

Lemma release_slot n : (0 < n)%nat -> release n (pred n).
Proof. by split. Qed.

(** * Refill goroutines *)

(** Where a refill stands: waiting for a boot slot, booting, with the outcome
    of the boot but still holding the slot, sending its VM, or at the deferred
    wg.Done. *)
Inductive refill_pc := RWait | RBooting | RBooted (vm : option nat) | RSend (vm : nat) | REnding.
Record refill := Refill { r_key : string; r_pc : refill_pc }.

(** One step of [refill] (of [refillSpare], whose [bootFor] holds the slot
    itself), [None] when the goroutine ends.  A boot succeeds only while the
    pool's context is live. *)
Inductive refill_step (st : strategy) (s : shared) : refill -> shared -> option refill -> Prop :=
  | refill_slot k n : acquire (boots st) (cancelled s) (sem s) true n ->
      refill_step st s (Refill k RWait) (set_sem n s) (Some (Refill k RBooting))
  | refill_gives_up k : acquire (boots st) (cancelled s) (sem s) false (sem s) ->
      refill_step st s (Refill k RWait) s (Some (Refill k REnding))
  | refill_boots k : cancelled s = false ->
      refill_step st s (Refill k RBooting) (boot s) (Some (Refill k (RBooted (Some (fresh s)))))
  | refill_boot_fails k :
      refill_step st s (Refill k RBooting) s (Some (Refill k (RBooted None)))
  | refill_releases k v n : release (sem s) n ->
      refill_step st s (Refill k (RBooted (Some v))) (set_sem n s) (Some (Refill k (RSend v)))
  | refill_fails k n : release (sem s) n ->
      refill_step st s (Refill k (RBooted None)) (set_sem n s) (Some (Refill k REnding))
  | refill_sends k v l : chans s !! k = Some l -> k ∉ shut s -> (length l < capacity st)%nat ->
      refill_step st s (Refill k (RSend v)) (set_chan k (l ++ [v]) s) (Some (Refill k REnding))
  | refill_send_panics k v : k ∈ shut s ->
      refill_step st s (Refill k (RSend v)) (panic s) (Some (Refill k REnding))
  | refill_abandons k v : cancelled s = true ->
      refill_step st s (Refill k (RSend v)) (kill v s) (Some (Refill k REnding))
  | refill_ends k :
      refill_step st s (Refill k REnding) (set_wg (pred (wg s)) s) None.

(** * Callers of Acquire *)

(** Where a caller stands: about to read the closed flag, at the select, with
    what it received from the channel (nil from a closed one), about to start
    a refill, at the stages of a boot of its own, and returned. *)
Inductive caller_pc :=
  | CStart
  | CSelect (k : string)
  | CTook (k : string) (vm : option nat)
  | CSpawn (k : string) (vm : option nat)
  | CBootWait
  | CBooting
  | CBooted (vm : option nat)
  | CReturned (vm : option nat)
  | CFailed (e : error)
  | CFinished.
Record caller := Caller { c_lang : string; c_pc : caller_pc }.

(** One step of [Acquire], and of the [Release] or [Discard] that follows it;
    the list is the refills it starts.  The caller's own context may be done
    at any moment. *)
Inductive caller_step (st : strategy) (s : shared) : caller -> shared -> caller -> list refill -> Prop :=
  | call_closed id : closed s = true ->
      caller_step st s (Caller id CStart) s (Caller id (CFailed (ESentinel ErrPoolClosed))) []
  | call_unknown id e : closed s = false -> slot st id = Err e ->
      caller_step st s (Caller id CStart) s (Caller id (CFailed e)) []
  | call_open id k : closed s = false -> slot st id = Ok k ->
      caller_step st s (Caller id CStart) s (Caller id (CSelect k)) []
  | call_receives id k v l : chans s !! k = Some (v :: l) ->
      caller_step st s (Caller id (CSelect k)) (set_chan k l s) (Caller id (CTook k (Some v))) []
  | call_receives_nil id k : chans s !! k = Some [] -> k ∈ shut s ->
      caller_step st s (Caller id (CSelect k)) s (Caller id (CTook k None)) []
  | call_done id k e : on_demand st = false ->
      caller_step st s (Caller id (CSelect k)) s (Caller id (CFailed e)) []
  | call_default id k : on_demand st = true -> k ∉ shut s -> default [] (chans s !! k) = [] ->
      caller_step st s (Caller id (CSelect k)) s (Caller id CBootWait) []
  | call_no_refill id k vm : closed s = true ->
      caller_step st s (Caller id (CTook k vm)) s (Caller id (CReturned vm)) []
  | call_refill id k vm : closed s = false ->
      caller_step st s (Caller id (CTook k vm)) s (Caller id (CSpawn k vm)) []
  | call_spawn id k vm : ~ add_panics s ->
      caller_step st s (Caller id (CSpawn k vm)) (set_wg (S (wg s)) s) (Caller id (CReturned vm))
        [Refill k RWait]
  | call_spawn_panics id k vm : add_panics s ->
      caller_step st s (Caller id (CSpawn k vm)) (crash s) (Caller id (CSpawn k vm)) []
  | call_slot id done n : acquire (boots st) done (sem s) true n ->
      caller_step st s (Caller id CBootWait) (set_sem n s) (Caller id CBooting) []
  | call_no_slot id e : acquire (boots st) true (sem s) false (sem s) ->
      caller_step st s (Caller id CBootWait) s (Caller id (CFailed e)) []
  | call_boots id :
      caller_step st s (Caller id CBooting) (boot s) (Caller id (CBooted (Some (fresh s)))) []
  | call_boot_fails id :
      caller_step st s (Caller id CBooting) s (Caller id (CBooted None)) []
  | call_booted id v n : release (sem s) n ->
      caller_step st s (Caller id (CBooted (Some v))) (set_sem n s)
        (Caller id (CReturned (Some v))) []
  | call_boot_error id e n : release (sem s) n ->
      caller_step st s (Caller id (CBooted None)) (set_sem n s) (Caller id (CFailed e)) []
  | call_kills id v :
      caller_step st s (Caller id (CReturned (Some v))) (kill v s) (Caller id CFinished) [].

(** * Close *)

(** Where [Close] stands: before it, after closed.Store, at wg.Wait, asleep in
    Wait, released by the last Done but not yet back from Wait, panicked there,
    closing and draining; the channels still to close come in any order (the
    iteration over a map). *)
Inductive close_pc :=
  | Open
  | Flagged
  | Waiting
  | Blocked
  | Woken
  | Panicked
  | Closing (rest : list string)
  | Draining (k : string) (rest : list string)
  | Closed.

(** One step of [Close].  Wait returns at once from a counter at zero, and
    otherwise sleeps as a waiter; the Done that brings the counter to zero
    resets the waiters and releases it ([close_wakes], a step of that Done);
    and it panics (WaitGroup is reused before previous Wait has returned) when
    it then finds the counter above zero again. *)
Inductive close_step (st : strategy) (s : shared) : close_pc -> shared -> close_pc -> Prop :=
  | close_flags : close_step st s Open (set_closed s) Flagged
  | close_cancels : close_step st s Flagged (cancel s) Waiting
  | close_waits ks : wg s = 0%nat -> ks ≡ₚ keys st -> close_step st s Waiting s (Closing ks)
  | close_sleeps : wg s <> 0%nat -> close_step st s Waiting (set_waiters 1 s) Blocked
  | close_wakes : wg s = 0%nat -> close_step st s Blocked (set_waiters 0 s) Woken
  | close_woken ks : wg s = 0%nat -> ks ≡ₚ keys st -> close_step st s Woken s (Closing ks)
  | close_reused : wg s <> 0%nat -> close_step st s Woken (crash s) Panicked
  | close_closes k ks : close_step st s (Closing (k :: ks)) (set_shut k s) (Draining k ks)
  | close_kills k ks v l : chans s !! k = Some (v :: l) ->
      close_step st s (Draining k ks) (kill v (set_chan k l s)) (Draining k ks)
  | close_next k ks : chans s !! k = Some [] -> close_step st s (Draining k ks) s (Closing ks)
  | close_ends : close_step st s (Closing []) s Closed.

(** * The system *)
Record pool := {
  sh : shared;
  refills : list refill;
  callers : list caller;
  closing : close_pc
}.

(** The constructors: empty channels, and [capacity] refills for each. *)
Definition initial (st : strategy) : pool :=
  let rs := flat_map (fun k => replicate (capacity st) (Refill k RWait)) (keys st) in
  {| sh := {| chans := list_to_map ((fun k => (k, [])) <$> keys st); shut := ∅; sem := 0;
              cancelled := false; closed := false; wg := length rs; waiters := 0;
              alive := ∅; fresh := 0; panicked := false; crashed := false |};
     refills := rs; callers := []; closing := Open |}.

Inductive step (st : strategy) (p : pool) : pool -> Prop :=
  | step_arrive id :
      step st p {| sh := sh p; refills := refills p;
                   callers := callers p ++ [Caller id CStart]; closing := closing p |}
  | step_refill l1 r l2 s' o : refills p = l1 ++ r :: l2 -> refill_step st (sh p) r s' o ->
      step st p {| sh := s'; refills := l1 ++ option_list o ++ l2;
                   callers := callers p; closing := closing p |}
  | step_caller l1 c l2 s' c' rs : callers p = l1 ++ c :: l2 -> caller_step st (sh p) c s' c' rs ->
      step st p {| sh := s'; refills := rs ++ refills p;
                   callers := l1 ++ c' :: l2; closing := closing p |}
  | step_close s' c' : close_step st (sh p) (closing p) s' c' ->
      step st p {| sh := s'; refills := refills p; callers := callers p; closing := c' |}.

(** Each strategy's own system: its refill, Acquire, Release, Discard and
    Close, on the state its constructor makes. *)
Definition prewarmedPerLang_step (cfg : Config) (reg : Registry) : pool -> pool -> Prop :=
  step (newPrewarmedPerLang cfg reg).
Definition prewarmedGeneric_step (cfg : Config) : pool -> pool -> Prop := step (newPrewarmedGeneric cfg).
Definition onDemandSpare_step (cfg : Config) (reg : Registry) : pool -> pool -> Prop :=
  step (newOnDemandSpare cfg reg).

Definition reaches (st : strategy) : pool -> Prop := reachable (fun p => p = initial st) (step st).

(** * Counting *)

Fixpoint total {A} (f : A -> nat) (l : list A) : nat :=
  match l with [] => 0 | a :: l => f a + total f l end%nat.

Lemma total_app {A} (f : A -> nat) l1 l2 : total f (l1 ++ l2) = (total f l1 + total f l2)%nat.
Proof. induction l1 as [|a l1 IH]; cbn; lia. Qed.

Lemma total_in {A} (f : A -> nat) l : total f l <> 0%nat -> exists a, a ∈ l /\ f a <> 0%nat.
Proof.
  induction l as [|a l IH]; cbn; [done|]. intros Hn. destruct (decide (f a = 0%nat)) as [Ha|Ha].
  - destruct IH as (b & Hb & ?); [lia|]. exists b. split; [by right|done].
  - exists a. split; [by left|done].
Qed.

Lemma total_le {A} (f : A -> nat) a l : a ∈ l -> (f a <= total f l)%nat.
Proof. induction 1; cbn; lia. Qed.

Definition occ (v : nat) (l : list nat) : nat := count_occ Nat.eq_dec l v.

Lemma occ_app v l1 l2 : occ v (l1 ++ l2) = (occ v l1 + occ v l2)%nat.
Proof. apply count_occ_app. Qed.

(** Every VM of a channel. *)
Definition queued (m : gmap string (list nat)) : list nat := concat (snd <$> map_to_list m).

Lemma queued_insert v m k l l' :
  m !! k = Some l ->
  (occ v (queued (<[k := l']> m)) + occ v l = occ v (queued m) + occ v l')%nat.
Proof.
  assert (Hq : forall m l, m !! k = Some l -> occ v (queued m) = (occ v l + occ v (queued (delete k m)))%nat).
  { clear. intros m l Hl. unfold queued.
    rewrite <- occ_app.
    transitivity (occ v (concat (snd <$> (k, l) :: map_to_list (delete k m)))); [|done].
    unfold occ. by apply Permutation_count_occ; rewrite map_to_list_delete. }
  intros Hm. rewrite (Hq m l) by done. rewrite (Hq _ l') by apply lookup_insert_eq.
  rewrite delete_insert_eq. lia.
Qed.

Definition r_vms (r : refill) : list nat :=
  match r_pc r with RBooted (Some v) | RSend v => [v] | _ => [] end.
Definition c_vms (c : caller) : list nat :=
  match c_pc c with
  | CTook _ (Some v) | CSpawn _ (Some v) | CBooted (Some v) | CReturned (Some v) => [v]
  | _ => []
  end.

(** How many hold VM [v]: channels, refills and callers. *)
Definition owners (v : nat) (p : pool) : nat :=
  (occ v (queued (chans (sh p))) + total (fun r => occ v (r_vms r)) (refills p)
   + total (fun c => occ v (c_vms c)) (callers p))%nat.

(** What channel [k] holds or has coming: a refill that has sent its VM, or has
    none to send, is not coming any more. *)
Definition keyed (k : string) (r : refill) : nat :=
  match r_pc r with REnding => 0 | _ => if decide (r_key r = k) then 1 else 0 end%nat.
Definition owed (k : string) (c : caller) : nat :=
  match c_pc c with
  | CTook k' (Some _) | CSpawn k' (Some _) => if decide (k' = k) then 1 else 0
  | _ => 0
  end%nat.
Definition load (k : string) (p : pool) : nat :=
  (length (default [] (chans (sh p) !! k))
   + total (keyed k) (refills p)
   + total (owed k) (callers p))%nat.

Definition r_boot (r : refill) : nat := match r_pc r with RBooting | RBooted _ => 1 | _ => 0 end%nat.
Definition c_boot (c : caller) : nat := match c_pc c with CBooting | CBooted _ => 1 | _ => 0 end%nat.
(** The boots in flight. *)
Definition booting (p : pool) : nat := (total r_boot (refills p) + total c_boot (callers p))%nat.

(** * VMs are conserved

    A VM is alive exactly as long as one place holds it: every step moves VMs
    about, brings a fresh one up where it is born, or kills one where it is
    held. *)
Definition live (v : nat) (s : shared) : nat := if decide (v ∈ alive s) then 1%nat else 0%nat.

Lemma occ_one v w : occ v [w] = if decide (v = w) then 1%nat else 0%nat.
Proof. unfold occ. cbn. destruct (Nat.eq_dec w v), (decide (v = w)); congruence. Qed.

Lemma live_boot v s : fresh s ∉ alive s -> live v (boot s) = (live v s + occ v [fresh s])%nat.
Proof.
  intros Hf. rewrite occ_one. unfold live. cbn [alive boot].
  destruct (decide (v = fresh s)) as [->|Hn].
  - rewrite decide_True by set_solver. by rewrite decide_False.
  - destruct (decide (v ∈ alive s)); [by rewrite decide_True by set_solver|].
    by rewrite decide_False by set_solver.
Qed.

Lemma live_kill v w s : w ∈ alive s -> (live v (kill w s) + occ v [w])%nat = live v s.
Proof.
  intros Hw. rewrite occ_one. unfold live. cbn [alive kill].
  destruct (decide (v = w)) as [->|Hn].
  - rewrite decide_False by set_solver. by rewrite decide_True.
  - destruct (decide (v ∈ alive s)); [by rewrite decide_True by set_solver|].
    by rewrite decide_False by set_solver.
Qed.

Lemma live_wg v n s : live v (set_wg n s) = live v s. Proof. done. Qed.
Lemma live_sem v n s : live v (set_sem n s) = live v s. Proof. done. Qed.
Lemma live_chan v k l s : live v (set_chan k l s) = live v s. Proof. done. Qed.
Lemma live_panic v s : live v (panic s) = live v s. Proof. done. Qed.
Lemma live_crash v s : live v (crash s) = live v s. Proof. done. Qed.
Lemma live_waiters v n s : live v (set_waiters n s) = live v s. Proof. done. Qed.
Lemma occ_nil v : occ v [] = 0%nat. Proof. done. Qed.
Lemma occ_cons v w l : occ v (w :: l) = (occ v [w] + occ v l)%nat.
Proof. apply (occ_app v [w] l). Qed.
Create HintDb pool.
#[export] Hint Rewrite live_wg live_sem live_chan live_panic live_crash live_waiters occ_nil @total_app @length_app : pool.

(** Projections of an updated state. *)
Ltac pool_simpl :=
  cbn [chans shut sem cancelled closed wg waiters alive fresh panicked crashed set_chan set_shut
       set_sem set_wg set_waiters set_closed cancel panic crash boot kill option_list option_rect total r_vms r_pc r_key c_vms c_pc
       c_lang sh refills callers closing r_boot c_boot owed app length default] in *;
  autorewrite with pool in *.

Section conservation.
Context (st : strategy) (s : shared).
Hypothesis fresh_dead : fresh s ∉ alive s.

Lemma refill_conserves r s' o v :
  (forall w, w ∈ r_vms r -> w ∈ alive s) -> refill_step st s r s' o -> panicked s' = false ->
  (occ v (queued (chans s')) + total (fun r => occ v (r_vms r)) (option_list o) + live v s =
   occ v (queued (chans s)) + occ v (r_vms r) + live v s')%nat.
Proof.
  intros Hr Hs. revert Hr. destruct Hs; intros Hr Hp; pool_simpl; rewrite ?live_boot by done; try done; try lia.
  - pose proof (queued_insert v _ _ _ (l ++ [v0]) ltac:(done)). rewrite occ_app in *. lia.
  - pose proof (live_kill v v0 s (Hr v0 ltac:(by left))). pool_simpl. lia.
Qed.

Lemma caller_conserves c s' c' rs v :
  (forall w, w ∈ c_vms c -> w ∈ alive s) -> caller_step st s c s' c' rs ->
  (occ v (queued (chans s')) + occ v (c_vms c') + total (fun r => occ v (r_vms r)) rs + live v s =
   occ v (queued (chans s)) + occ v (c_vms c) + live v s')%nat.
Proof.
  intros Hc Hs. revert Hc. destruct Hs; intros Hc; pool_simpl; rewrite ?live_boot by done; try lia.
  - pose proof (queued_insert v _ _ _ l ltac:(done)). rewrite (occ_cons v v0 l) in *. lia.
  - pose proof (live_kill v v0 s (Hc v0 ltac:(by left))). pool_simpl. lia.
Qed.

Lemma close_conserves c s' c' v :
  (forall w, w ∈ queued (chans s) -> w ∈ alive s) -> close_step st s c s' c' ->
  (occ v (queued (chans s')) + live v s = occ v (queued (chans s)) + live v s')%nat.
Proof.
  intros Hq []; pool_simpl; try done.
  pose proof (queued_insert v _ _ _ l ltac:(done)) as Ho. rewrite (occ_cons v v0 l) in Ho.
  assert (Hin : v0 ∈ queued (chans s)).
  { pose proof (queued_insert v0 _ _ _ l ltac:(done)) as Hv.
    rewrite (occ_cons v0 v0 l), (occ_one v0 v0), decide_True in Hv by done.
    apply list_elem_of_In, (count_occ_In Nat.eq_dec). unfold occ in Hv. lia. }
  pose proof (live_kill v v0 (set_chan k l s) (Hq v0 Hin)) as Hk. pool_simpl. lia.
Qed.
End conservation.

(** * Invariants *)

Definition late (c : close_pc) : bool :=
  match c with Closing _ | Draining _ _ | Closed => true | _ => false end.
Definition after_cancel (c : close_pc) : bool := match c with Open | Flagged => false | _ => true end.
Definition undrained (c : close_pc) : list string :=
  match c with Closing ks => ks | Draining k ks => k :: ks | _ => [] end.

Lemma late_after_cancel c : late c = true -> after_cancel c = true.
Proof. by destruct c. Qed.
#[local] Hint Resolve late_after_cancel : core.

(** Shutting down: the wait group counts the refills; channels are closed only
    after the wait, when the context is cancelled and no refill holds a VM, so
    no refill can come to send one; a channel closed and drained stays empty. *)
Record phases (st : strategy) (p : pool) : Prop := {
  ph_wg : wg (sh p) = length (refills p);
  ph_dom : forall k, is_Some (chans (sh p) !! k) <-> k ∈ keys st;
  ph_keys : forall r, r ∈ refills p -> r_key r ∈ keys st;
  ph_calls : forall c k vm, c ∈ callers p -> c_pc c = CTook k vm \/ c_pc c = CSpawn k vm -> k ∈ keys st;
  ph_cancelled : after_cancel (closing p) = true -> cancelled (sh p) = true;
  ph_early : late (closing p) = false -> shut (sh p) = ∅;
  ph_late : late (closing p) = true -> forall r, r ∈ refills p -> r_vms r = [];
  ph_drained : late (closing p) = true ->
    forall k l, chans (sh p) !! k = Some l -> l = [] \/ k ∈ undrained (closing p);
  ph_panic : panicked (sh p) = false
}.

Lemma is_Some_set (m : gmap string (list nat)) k k' l l' :
  m !! k = Some l -> is_Some (<[k := l']> m !! k') <-> is_Some (m !! k').
Proof.
  intros Hk. destruct (decide (k = k')) as [->|Hn].
  - rewrite lookup_insert_eq, Hk. by split; eauto.
  - by rewrite lookup_insert_ne.
Qed.

Lemma elem_middle {A} (x : A) l1 y l2 : x ∈ l1 ++ y :: l2 <-> x = y \/ x ∈ l1 ++ l2.
Proof. set_solver. Qed.

(** What a refill leaves alone: the context, the closed channels, its own key;
    and what it can only change while it holds a VM. *)
Lemma refill_frame st s r s' o :
  refill_step st s r s' o ->
  (cancelled s' = cancelled s /\ shut s' = shut s) /\
  wg s' = (wg s + length (option_list o) - 1)%nat /\
  (forall r', o = Some r' -> r_key r' = r_key r /\ (cancelled s = true -> r_vms r = [] -> r_vms r' = [])) /\
  (panicked s' = panicked s \/ exists v k, r_vms r = [v] /\ k ∈ shut s) /\
  (chans s' = chans s \/
   exists v l l', r_vms r = [v] /\ chans s !! r_key r = Some l /\ chans s' = <[r_key r := l']> (chans s)).
Proof.
  intros Hs; destruct Hs; (split; [done|split; [pool_simpl; lia|split; [|split]]]).
  all: try (intros r' [= <-]; split; [done|]; cbn; congruence).
  all: try (by left). all: try (intros r'; discriminate).
  all: right; cbn; eauto 10.
Qed.

Lemma phases_refill st p l1 r l2 s' o :
  phases st p -> refills p = l1 ++ r :: l2 -> refill_step st (sh p) r s' o ->
  phases st {| sh := s'; refills := l1 ++ option_list o ++ l2; callers := callers p; closing := closing p |}.
Proof.
  intros [Hwg Hdom Hkeys Hcalls Hcan Hsh Hlate Hdr Hpan] Hl Hs.
  apply refill_frame in Hs as ([Hc Hu] & Hw & Ho & Hpn & Hch).
  rewrite Hl in Hwg, Hkeys, Hlate.
  assert (Hr : r ∈ l1 ++ r :: l2) by set_solver.
  assert (Hearly : forall v, r_vms r = [v] -> late (closing p) = false).
  { intros v Hv. apply not_true_iff_false. intros Ht. specialize (Hlate Ht r Hr). congruence. }
  assert (Hin : forall r', r' ∈ l1 ++ option_list o ++ l2 -> o = Some r' \/ r' ∈ l1 ++ r :: l2)
    by (destruct o; cbn; set_solver).
  split; cbn [sh refills callers closing]; rewrite ?Hc, ?Hu; auto.
  - rewrite Hw, Hwg, !length_app. cbn. lia.
  - destruct Hch as [->|(v & l & l' & _ & Hk & ->)]; [done|]. intros k.
    by rewrite (is_Some_set _ _ _ l).
  - intros r' [Hr'|Hr']%Hin; [|by auto]. destruct (Ho _ Hr') as [-> _]. by auto.
  - intros Ht r' [Hr'|Hr']%Hin; [|by auto]. destruct (Ho _ Hr') as [_ Hv]. by auto.
  - intros Ht k l Hk. destruct Hch as [Hch|(v & ? & ? & Hv & _)]; [rewrite Hch in Hk; by auto|].
    by rewrite (Hearly _ Hv) in Ht.
  - destruct Hpn as [->|(v & k & Hv & Hk)]; [done|].
    rewrite Hsh in Hk by eauto. by apply not_elem_of_empty in Hk.
Qed.

(** What a caller leaves alone. *)
Lemma caller_frame st s c s' c' rs :
  caller_step st s c s' c' rs ->
  (cancelled s' = cancelled s /\ shut s' = shut s /\ panicked s' = panicked s) /\
  wg s' = (length rs + wg s)%nat /\
  (forall r, r ∈ rs -> r_vms r = [] /\ exists vm, c_pc c = CSpawn (r_key r) vm) /\
  (forall k vm, c_pc c' = CTook k vm \/ c_pc c' = CSpawn k vm ->
     is_Some (chans s !! k) \/ c_pc c = CTook k vm \/ c_pc c = CSpawn k vm) /\
  (chans s' = chans s \/
   exists k v l, chans s !! k = Some (v :: l) /\ chans s' = <[k := l]> (chans s)).
Proof.
  intros Hs; destruct Hs; (split; [done|split; [done|split; [|split]]]); cbn.
  all: try (by left). all: try set_solver.
  all: try (intros k' vm' [[=]|[=]]; subst; eauto).
Qed.

Lemma phases_caller st p l1 c l2 s' c' rs :
  phases st p -> callers p = l1 ++ c :: l2 -> caller_step st (sh p) c s' c' rs ->
  phases st {| sh := s'; refills := rs ++ refills p; callers := l1 ++ c' :: l2; closing := closing p |}.
Proof.
  intros [Hwg Hdom Hkeys Hcalls Hcan Hsh Hlate Hdr Hpan] Hl Hs.
  apply caller_frame in Hs as ((Hc & Hu & Hpn) & Hw & Hrs & Ht & Hch).
  rewrite Hl in Hcalls. assert (Hin : c ∈ l1 ++ c :: l2) by set_solver.
  split; cbn [sh refills callers closing]; rewrite ?Hc, ?Hu, ?Hpn; auto.
  - by rewrite Hw, Hwg, length_app.
  - destruct Hch as [->|(k & v & l & Hk & ->)]; [done|]. intros k'. by rewrite (is_Some_set _ _ _ (v :: l)).
  - intros r [Hr|Hr]%elem_of_app; [|by auto]. apply Hrs in Hr as (_ & vm & Hr). eauto.
  - intros c0 k vm [->|Hc0]%elem_middle Hpc; [|eapply Hcalls; [|done]; set_solver].
    apply Ht in Hpc as [Hk|Hk]; [by apply Hdom|by eauto].
  - intros Hlt r [Hr|Hr]%elem_of_app; [|by auto]. by apply Hrs in Hr as [].
  - intros Hlt k l Hk. destruct Hch as [Hch|(k' & v & l' & Hk' & Hch)]; rewrite Hch in Hk; [by auto|].
    destruct (decide (k' = k)) as [->|Hn].
    + destruct (Hdr Hlt k _ Hk'); [done|by right].
    + rewrite lookup_insert_ne in Hk by done. by auto.
Qed.

Lemma phases_close st p s' c' :
  phases st p -> close_step st (sh p) (closing p) s' c' ->
  phases st {| sh := s'; refills := refills p; callers := callers p; closing := c' |}.
Proof.
  intros [Hwg Hdom Hkeys Hcalls Hcan Hsh Hlate Hdr Hpan] Hs.
  remember (closing p) as c eqn:Ec.
  assert (Hnone : wg (sh p) = 0%nat -> forall r, r ∈ refills p -> r_vms r = []).
  { rewrite Hwg. destruct (refills p); [set_solver|done]. }
  assert (Hall : forall ks k l, ks ≡ₚ keys st -> chans (sh p) !! k = Some l -> l = [] \/ k ∈ ks).
  { intros ks k l Hks Hk. right. rewrite Hks. apply Hdom. eauto. }
  destruct Hs as [| |ks Hw Hks|Hw|Hw|ks Hw Hks|Hw|k ks|k ks v l Hk|k ks Hk|]; split; pool_simpl;
    cbn [late undrained after_cancel] in *; eauto; try discriminate.
  - intros k'. by rewrite (is_Some_set _ _ _ (v :: l)).
  - intros _ k' l'. destruct (decide (k = k')) as [->|Hn]; [right; by left|].
    rewrite lookup_insert_ne by done. by apply Hdr.
  - intros _ k' l' Hk'. destruct (Hdr eq_refl k' l' Hk') as [|[->|]%elem_of_cons]; [by left| |by right].
    left. congruence.
Qed.

Lemma initial_chan st k l :
  chans (sh (initial st)) !! k = Some l -> l = [].
Proof.
  cbn. intros Hk%elem_of_list_to_map_2. apply list_elem_of_fmap in Hk as (k' & [= -> ->] & _). done.
Qed.

Lemma initial_refills st r :
  r ∈ refills (initial st) -> r_key r ∈ keys st /\ r_pc r = RWait.
Proof.
  cbn. intros Hr%list_elem_of_In. apply in_flat_map in Hr as (k & Hk & Hr).
  apply list_elem_of_In, elem_of_replicate in Hr as [-> _]. cbn. split; [by apply list_elem_of_In|done].
Qed.

Lemma phases_initial st : phases st (initial st).
Proof.
  split; try done.
  - intros k. cbn. induction (keys st) as [|k' ks IH]; cbn.
    + split; [by intros [? ?]|by intros ?%not_elem_of_nil].
    + rewrite lookup_insert_is_Some', elem_of_cons, IH. naive_solver.
  - intros r [? _]%initial_refills. done.
  - intros c k vm Hc. by apply not_elem_of_nil in Hc.
Qed.

Lemma phases_step st p p' : phases st p -> step st p p' -> phases st p'.
Proof.
  intros Hp [id|l1 r l2 s' o Hl Hs|l1 c l2 s' c' rs Hl Hs|s' c' Hs].
  - destruct Hp as [Hwg Hdom Hkeys Hcalls Hcan Hsh Hlate Hdr Hpan].
    split; cbn [sh refills callers closing]; auto.
    intros c k vm [Hc| ->%list_elem_of_singleton]%elem_of_app; [by eauto|]. intros [|]; discriminate.
  - by eapply phases_refill.
  - by eapply phases_caller.
  - by eapply phases_close.
Qed.

Lemma reach_phases st p : reaches st p -> phases st p.
Proof.
  apply invariant_reachable; [intros ? ->; apply phases_initial|apply phases_step].
Qed.

(** ** Ownership *)
Record owned (p : pool) : Prop := {
  own_live : forall v, owners v p = live v (sh p);
  own_fresh : forall v, v ∈ alive (sh p) -> (v < fresh (sh p))%nat
}.

Lemma own_alive p v : owned p -> owners v p <> 0%nat -> v ∈ alive (sh p).
Proof. intros Ho. rewrite (own_live _ Ho). unfold live. by case_decide. Qed.

Lemma fresh_not_alive p : owned p -> fresh (sh p) ∉ alive (sh p).
Proof. intros Ho Hf%(own_fresh _ Ho). lia. Qed.

Lemma occ_in v l : v ∈ l -> (1 <= occ v l)%nat.
Proof. intros Hv%list_elem_of_In%(count_occ_In Nat.eq_dec). unfold occ. lia. Qed.

(** Numbers only grow, and only a boot makes a VM alive. *)
Definition grows (s s' : shared) : Prop :=
  (fresh s <= fresh s')%nat /\ forall v, v ∈ alive s' -> v ∈ alive s \/ (v < fresh s')%nat.

Lemma step_grows st p p' : step st p p' -> grows (sh p) (sh p').
Proof.
  intros [id|l1 r l2 s' o Hl Hs|l1 c l2 s' c' rs Hl Hs|s' c' Hs]; cbn [sh].
  1: by split; auto.
  all: destruct Hs; split; pool_simpl; try lia; try set_solver.
  all: intros v; rewrite elem_of_union, elem_of_singleton; intros [->|]; [right; lia|by left].
Qed.

Lemma owned_step st p p' : phases st p -> owned p -> step st p p' -> owned p'.
Proof.
  intros Hp Ho Hs. pose proof (phases_step _ _ _ Hp Hs) as Hp'.
  pose proof (fresh_not_alive _ Ho) as Hf.
  split.
  2:{ intros v. destruct (step_grows _ _ _ Hs) as [Hle Hg]. intros [Ha|]%Hg; [|done].
      apply (own_fresh _ Ho) in Ha. lia. }
  intros v. pose proof (own_live _ Ho v) as Hv. unfold owners in *.
  destruct Hs as [id|l1 r l2 s' o Hl Hs|l1 c l2 s' c' rs Hl Hs|s' c' Hs]; cbn [sh refills callers] in *.
  - rewrite total_app. cbn. lia.
  - eapply (refill_conserves _ _ Hf r s' o v) in Hs; [|intros w Hw|apply (ph_panic _ _ Hp')].
    + rewrite Hl in Hv. rewrite !total_app in *. cbn [total] in Hv. lia.
    + apply (own_alive _ w Ho). unfold owners. rewrite Hl, total_app. cbn.
      apply occ_in in Hw. lia.
  - eapply (caller_conserves _ _ Hf c s' c' rs v) in Hs; [|intros w Hw].
    + rewrite Hl in Hv. rewrite !total_app in *. cbn [total] in *. lia.
    + apply (own_alive _ w Ho). unfold owners. rewrite Hl, total_app. cbn.
      apply occ_in in Hw. lia.
  - eapply (close_conserves _ _ _ s' c' v) in Hs; [|intros w Hw]; [lia|].
    apply (own_alive _ w Ho). unfold owners. apply occ_in in Hw. lia.
Qed.

Lemma elem_queued v m : v ∈ queued m -> exists k l, m !! k = Some l /\ v ∈ l.
Proof.
  unfold queued. intros Hv%list_elem_of_In. apply in_concat in Hv as (l & Hl & Hv).
  apply list_elem_of_In, list_elem_of_fmap in Hl as ([k l'] & -> & Hk).
  apply elem_of_map_to_list in Hk. exists k, l'. split; [done|by apply list_elem_of_In].
Qed.

Lemma total_zero {A} (f : A -> nat) l : (forall a, a ∈ l -> f a = 0%nat) -> total f l = 0%nat.
Proof. induction l as [|a l IH]; intros Hf; cbn; [done|]. rewrite (Hf a), IH; set_solver. Qed.

Lemma owned_initial st : owned (initial st).
Proof.
  split; [|intros v Hv; by apply elem_of_empty in Hv].
  intros v. unfold owners. rewrite (total_zero _ (refills _)), (total_zero _ (callers _)).
  - assert (Hq : occ v (queued (chans (sh (initial st)))) = 0%nat).
    { apply count_occ_not_In. intros Hv%list_elem_of_In.
      apply elem_queued in Hv as (k & l & ->%initial_chan & Hv). by apply not_elem_of_nil in Hv. }
    rewrite Hq. unfold live. by rewrite decide_False by set_solver.
  - intros c Hc. by apply not_elem_of_nil in Hc.
  - intros r [_ Hr]%initial_refills. unfold r_vms. by rewrite Hr.
Qed.

Lemma reach_owned st p : reaches st p -> phases st p /\ owned p.
Proof.
  apply (invariant_reachable _ _ (fun p => phases st p /\ owned p)); [intros ? ->; split; [apply phases_initial|apply owned_initial]|].
  intros p1 p2 [Hp Ho] Hs. split; [by eapply phases_step|by eapply owned_step].
Qed.

(** ** Nil from a closed channel

    A caller that received nil finds the pool closed and starts no refill. *)
Definition nil_pc (cl : bool) (pc : caller_pc) : Prop :=
  match pc with CTook _ None => cl = true | CSpawn _ None => False | _ => True end.
Record nils (p : pool) : Prop := {
  nil_flag : closing p <> Open -> closed (sh p) = true;
  nil_calls : forall c, c ∈ callers p -> nil_pc (closed (sh p)) (c_pc c)
}.

Lemma nil_pc_closed pc b : nil_pc b pc -> nil_pc true pc.
Proof. by destruct pc as [|?|? []|? []| | |? | | |]. Qed.

Lemma nils_step st p p' : phases st p -> nils p -> step st p p' -> nils p'.
Proof.
  intros Hp [Hf Hc] [id|l1 r l2 s' o Hl Hs|l1 c l2 s' c' rs Hl Hs|s' c' Hs];
    split; cbn [sh callers closing]; auto.
  - intros c [Hin| ->%list_elem_of_singleton]%elem_of_app; [by auto|done].
  - intros Hn. specialize (Hf Hn). by destruct Hs.
  - intros c Hin. specialize (Hc c Hin). by destruct Hs.
  - intros Hn. specialize (Hf Hn). by destruct Hs.
  - assert (Hsh : shut (sh p) <> ∅ -> closed (sh p) = true).
    { intros Hne. apply Hf. intros Ho. apply Hne, (ph_early _ _ Hp). by rewrite Ho. }
    rewrite Hl in Hc. assert (Hclosed : closed s' = closed (sh p)) by (by destruct Hs).
    rewrite Hclosed. intros c0 [->|Hin]%elem_middle; [|apply Hc; set_solver].
    specialize (Hc c ltac:(set_solver)).
    destruct Hs; cbn in *; try done; try (destruct vm; done).
    + apply Hsh. set_solver.
    + destruct vm; [done|cbn in Hc; congruence].
  - intros Hn. destruct Hs; cbn; try done; apply Hf; congruence.
  - intros c Hin. specialize (Hc c Hin). destruct Hs; cbn; eauto using nil_pc_closed.
Qed.

Lemma reach_nils st p : reaches st p -> phases st p /\ nils p.
Proof.
  apply (invariant_reachable _ _ (fun p => phases st p /\ nils p)).
  - intros ? ->. split; [apply phases_initial|]. split; [done|].
    intros c Hc. by apply not_elem_of_nil in Hc.
  - intros p1 p2 [Hp Hn] Hs. split; [by eapply phases_step|by eapply nils_step].
Qed.

(** ** Capacity *)
Lemma chan_insert k k' l (m : gmap string (list nat)) :
  length (default [] (<[k' := l]> m !! k)) =
  if decide (k' = k) then length l else length (default [] (m !! k)).
Proof.
  destruct (decide (k' = k)) as [->|]; [by rewrite lookup_insert_eq|by rewrite lookup_insert_ne].
Qed.

Lemma load_step st k p p' : nils p -> step st p p' -> (load k p' <= load k p)%nat.
Proof.
  unfold load.
  intros Hn [id|l1 r l2 s' o Hl Hs|l1 c l2 s' c' rs Hl Hs|s' c' Hs]; cbn [sh refills callers];
    rewrite ?total_app; try (rewrite Hl, !total_app; cbn [total]).
  - cbn. lia.
  - destruct Hs; pool_simpl; unfold keyed; cbn [r_key r_pc]; try lia.
    rewrite chan_insert, length_app. cbn [length].
    case_decide as Hk; subst; [|lia]. rewrite H. cbn. lia.
  - assert (Hc : nil_pc (closed (sh p)) (c_pc c)) by (apply (nil_calls _ Hn); rewrite Hl; set_solver).
    destruct Hs; pool_simpl; unfold keyed; cbn [r_key r_pc]; try lia; try (by destruct vm; cbn in *; lia).
    rewrite chan_insert. case_decide as Hk; subst; [|lia]. rewrite H. cbn. lia.
  - destruct Hs; pool_simpl; try lia.
    rewrite chan_insert. case_decide as Hk; subst; [|lia]. rewrite H. cbn. lia.
Qed.

Lemma load_steps st k p p' : reaches st p -> rtc (step st) p p' -> (load k p' <= load k p)%nat.
Proof.
  intros Hp Hr. induction Hr as [p|p1 p2 p3 Hs Hr IH]; [done|].
  transitivity (load k p2); [by apply IH; eapply reachable_step|].
  eapply load_step; [by apply (reach_nils st)|done].
Qed.

Lemma reaches_initial st : reaches st (initial st).
Proof. by exists (initial st). Qed.

Lemma total_flat_map {A B} (f : B -> nat) (g : A -> list B) l :
  total f (flat_map g l) = total (fun a => total f (g a)) l.
Proof. induction l as [|a l IH]; cbn; [done|]. by rewrite total_app, IH. Qed.

Lemma load_initial st k : NoDup (keys st) -> (load k (initial st) <= capacity st)%nat.
Proof.
  intros Hd. unfold load.
  assert (Hc : default [] (chans (sh (initial st)) !! k) = []).
  { destruct (chans _ !! k) eqn:E; [|done]. by apply initial_chan in E. }
  rewrite Hc. cbn [initial refills callers total length]. rewrite total_flat_map.
  assert (Hr : forall k', total (keyed k) (replicate (capacity st) (Refill k' RWait)) =
    (if decide (k' = k) then capacity st else 0)%nat).
  { intros k'. unfold keyed. induction (capacity st) as [|n IH]; cbn; [by case_decide|].
    rewrite IH. by case_decide. }
  induction Hd as [|k' ks Hn Hd IH]; cbn; [lia|]. rewrite Hr. case_decide as Hk; [|lia].
  subst. rewrite total_zero; [lia|]. intros k' Hk'. rewrite Hr. rewrite decide_False; [done|].
  by intros ->.
Qed.

Lemma reach_load st k p : NoDup (keys st) -> reaches st p -> (load k p <= capacity st)%nat.
Proof.
  intros Hd (p0 & -> & Hr). transitivity (load k (initial st)); [|by apply load_initial].
  apply (load_steps st); [apply reaches_initial|done].
Qed.

(** ** Boots *)
Lemma booting_step st p p' :
  sem (sh p) = booting p /\ (booting p <= boots st)%nat -> step st p p' ->
  sem (sh p') = booting p' /\ (booting p' <= boots st)%nat.
Proof.
  unfold booting. intros [Hs Hb].
  intros [id|l1 r l2 s' o Hl Hst|l1 c l2 s' c' rs Hl Hst|s' c' Hst]; cbn [sh refills callers];
    rewrite ?total_app in *; try (rewrite Hl, !total_app in *; cbn [total] in *);
    [cbn; lia|..]; destruct Hst; unfold release in *; rewrite ?acquire_true in *; pool_simpl; lia.
Qed.

Lemma reach_booting st p : reaches st p -> sem (sh p) = booting p /\ (booting p <= boots st)%nat.
Proof.
  apply (invariant_reachable _ _ (fun p => sem (sh p) = booting p /\ (booting p <= boots st)%nat));
    [|intros ? ?; apply booting_step].
  intros ? ->. unfold booting. rewrite (total_zero r_boot), (total_zero c_boot).
  - cbn. lia.
  - intros c Hc. by apply not_elem_of_nil in Hc.
  - intros r [_ Hr]%initial_refills. unfold r_boot. by rewrite Hr.
Qed.

(** * Properties *)
Section properties.
Context (st : strategy).

(** C7. VMs are single-use and never shared: in every reachable state a VM is
    alive exactly when one place - a channel, a refill or a caller - holds it,
    so two callers never hold the same VM, none is handed out after it was
    killed, and none is forgotten. *)
Theorem vm_has_one_holder p :
  reaches st p ->
  (forall v, owners v p = if decide (v ∈ alive (sh p)) then 1%nat else 0%nat) /\
  (forall l1 c1 l2 c2 l3 v, callers p = l1 ++ c1 :: l2 ++ c2 :: l3 ->
     v ∈ c_vms c1 -> v ∉ c_vms c2).
Proof.
  intros Hr. destruct (reach_owned _ _ Hr) as [_ Ho]. split; [apply (own_live _ Ho)|].
  intros l1 c1 l2 c2 l3 v Hc H1%occ_in H2%occ_in.
  pose proof (own_live _ Ho v) as Hv. unfold owners in Hv.
  rewrite Hc, total_app in Hv. cbn [total] in Hv. rewrite total_app in Hv. cbn [total] in Hv.
  unfold live in Hv. case_decide; lia.
Qed.

(** C24. The pool never overfills: what a channel holds and has coming stays
    within its size, so a refill that has its VM always finds room; and never
    more than the configured number of boots are in flight. *)
Theorem pool_within_bounds p :
  NoDup (keys st) -> reaches st p ->
  (forall k, (load k p <= capacity st)%nat) /\ (booting p <= boots st)%nat /\
  (forall r v l, r ∈ refills p -> r_pc r = RSend v -> chans (sh p) !! r_key r = Some l ->
     (length l < capacity st)%nat).
Proof.
  intros Hd Hr. split_and!; [by intros k; apply reach_load|by apply reach_booting|].
  intros r v l Hin Hpc Hl. pose proof (reach_load _ (r_key r) _ Hd Hr) as Hb.
  unfold load in Hb. rewrite Hl in Hb. cbn [default] in Hb.
  apply (total_le (keyed (r_key r))) in Hin. unfold keyed in Hin at 1.
  rewrite Hpc, decide_True in Hin by done.
  unfold id in *. lia.
Qed.

(** C23. Nothing is ever sent on a closed channel, whatever the interleaving of
    Close with refills and callers - also when a caller starts a refill after
    Close has finished waiting. *)
Theorem no_send_on_closed_channel p :
  reaches st p ->
  panicked (sh p) = false /\
  (forall r k v, r ∈ refills p -> r_pc r = RSend v -> k ∉ shut (sh p)).
Proof.
  intros Hr%reach_phases. split; [apply (ph_panic _ _ Hr)|].
  intros r k v Hin Hpc. destruct (late (closing p)) eqn:Hl.
  - apply (ph_late _ _ Hr) in Hin; [|done]. unfold r_vms in Hin. by rewrite Hpc in Hin.
  - rewrite (ph_early _ _ Hr Hl). apply not_elem_of_empty.
Qed.

(** C8. When Close has returned, every channel is closed or empty, no refill
    holds a VM, and each VM still alive is in the hands of a caller. *)
Theorem close_leaves_no_vm p :
  reaches st p -> closing p = Closed ->
  (forall k l, chans (sh p) !! k = Some l -> l = []) /\
  (forall r, r ∈ refills p -> r_vms r = []) /\
  (forall v, v ∈ alive (sh p) -> exists c, c ∈ callers p /\ v ∈ c_vms c).
Proof.
  intros Hr Hc. destruct (reach_owned _ _ Hr) as [Hp Ho].
  assert (Hl : late (closing p) = true) by by rewrite Hc.
  assert (Hch : forall k l, chans (sh p) !! k = Some l -> l = []).
  { intros k l Hk. destruct (ph_drained _ _ Hp Hl k l Hk) as [|Hu]; [done|].
    rewrite Hc in Hu. by apply not_elem_of_nil in Hu. }
  split_and!; [done|by apply (ph_late _ _ Hp)|].
  intros v Hv. pose proof (own_live _ Ho v) as Hn. unfold live in Hn.
  rewrite decide_True in Hn by done. unfold owners in Hn.
  replace (occ v (queued _)) with 0%nat in Hn.
  2:{ symmetry. apply count_occ_not_In. intros (k & l & ->%Hch & Hq)%list_elem_of_In%elem_queued.
      by apply not_elem_of_nil in Hq. }
  rewrite (total_zero _ (refills p)) in Hn by (intros r Hr'; by rewrite (ph_late _ _ Hp Hl r Hr')).
  destruct (total_in (fun c => occ v (c_vms c)) (callers p)) as (c & Hin & Hc'); [lia|].
  exists c. split; [done|]. apply list_elem_of_In, (count_occ_In Nat.eq_dec). unfold occ in Hc'. lia.
Qed.

(** How far a refill is from its end. *)
Definition remaining (r : refill) : nat :=
  match r_pc r with RWait => 5 | RBooting => 4 | RBooted _ => 3 | RSend _ => 2 | REnding => 1 end%nat.

(** Close never waits for ever on the refills: once the context is
    cancelled, each of them can take a step that brings it nearer its end,
    without waiting for anyone else. *)
Theorem cancelled_refills_finish p r :
  reaches st p -> cancelled (sh p) = true -> r ∈ refills p ->
  exists s' o, refill_step st (sh p) r s' o /\ (total remaining (option_list o) < remaining r)%nat.
Proof.
  intros Hr Hc Hin. destruct (reach_booting _ _ Hr) as [Hs _].
  assert (Hb : r_boot r <> 0%nat -> (0 < sem (sh p))%nat).
  { intros Hb. rewrite Hs. unfold booting. apply (total_le r_boot) in Hin. lia. }
  destruct r as [k [| |[v|]|v|]].
  - eexists _, (Some _). split; [by apply refill_gives_up, acquire_done|]. cbn. lia.
  - eexists _, (Some _). split; [by apply refill_boot_fails|]. cbn. lia.
  - eexists _, (Some _). split; [by apply refill_releases, release_slot; apply Hb|]. cbn. lia.
  - eexists _, (Some _). split; [by apply refill_fails, release_slot; apply Hb|]. cbn. lia.
  - eexists _, (Some _). split; [by apply refill_abandons|]. cbn. lia.
  - eexists _, None. split; [by apply refill_ends|]. cbn. lia.
Qed.

(** C29. A failed boot is for ever: nothing but a caller that took a VM starts a
    refill, so once a channel has nothing and nothing coming it stays that
    way, and a caller waiting on it never receives a VM. *)
Theorem failed_boots_drain_pool p p' k :
  reaches st p -> load k p = 0%nat -> rtc (step st) p p' ->
  load k p' = 0%nat /\
  forall id s' c' rs, caller_step st (sh p') (Caller id (CSelect k)) s' c' rs -> c_vms c' = [].
Proof.
  intros Hr Hk Hs. pose proof (load_steps _ k _ _ Hr Hs) as Hl. rewrite Hk in Hl. split; [lia|].
  intros id s' c' rs Hc. inversion Hc as [| | |? ? v l Hch| | | | | | | | | | | | | |]; subst; try done.
  unfold load in Hl. rewrite Hch in Hl. cbn in Hl. lia.
Qed.
End properties.

(** ** Channels and languages *)

(** The constructors make a channel for every language [Acquire] accepts. *)
Definition strategy_wf (st : strategy) : Prop :=
  NoDup (keys st) /\ (forall id k, slot st id = Ok k -> k ∈ keys st) /\ (0 < boots st)%nat.

Lemma language_ids_order reg : registry_wf reg -> language_ids reg = order reg.
Proof.
  intros Hw. unfold language_ids, All. rewrite <- list_fmap_compose.
  transitivity (id <$> order reg); [|apply list_fmap_id].
  apply list_fmap_ext. intros i x Hx%list_elem_of_lookup_2. cbn. unfold index.
  apply (wf_dom _ Hw) in Hx as [l Hl]. rewrite Hl. by apply (wf_entry _ Hw) in Hl as [].
Qed.

Lemma boot_slots n : (0 < newBootSemaphore n)%nat.
Proof. unfold newBootSemaphore. destruct (Z.ltb_spec n 1); lia. Qed.

(** For a well-formed registry, every strategy [New] selects has distinct
    channels, one for each language that its Acquire accepts, and at least one
    boot slot; and the strategies FromEnv accepts are exactly those New knows. *)
Theorem New_strategy_wf cfg reg :
  registry_wf reg ->
  (forall st, New cfg reg = Ok st -> strategy_wf st) /\
  (is_ok (New cfg reg) = known_strategy (Strategy cfg)).
Proof.
  intros Hw. pose proof (language_ids_order reg Hw) as Hids. split.
  - intros st. unfold New. repeat case_match; intros [= <-]; split_and!; try apply boot_slots; cbn.
    + rewrite Hids. apply Hw.
    + intros id k. case_decide; by intros [= <-].
    + rewrite Hids. apply Hw.
    + intros id k. destruct (Get reg id) eqn:Hg; [|done]. intros [= <-].
      rewrite Hids. apply (wf_dom _ Hw). by eexists.
    + apply NoDup_singleton.
    + intros id k [= <-]. by left.
  - unfold New, known_strategy.
    by destruct (String.eqb _ PoolPrewarmedPerLang), (String.eqb _ PoolOnDemandSpare),
      (String.eqb _ PoolPrewarmedGeneric).
Qed.

(** ** Executions *)

Lemma go_refill st p l1 r l2 s' o :
  reaches st p -> refills p = l1 ++ r :: l2 -> refill_step st (sh p) r s' o ->
  reaches st {| sh := s'; refills := l1 ++ option_list o ++ l2; callers := callers p; closing := closing p |}.
Proof. intros Hr Hl Hs. eapply reachable_step; [done|by eapply step_refill]. Qed.

Lemma go_caller st p l1 c l2 s' c' rs :
  reaches st p -> callers p = l1 ++ c :: l2 -> caller_step st (sh p) c s' c' rs ->
  reaches st {| sh := s'; refills := rs ++ refills p; callers := l1 ++ c' :: l2; closing := closing p |}.
Proof. intros Hr Hl Hs. eapply reachable_step; [done|by eapply step_caller]. Qed.

Lemma go_close st p s' c' :
  reaches st p -> close_step st (sh p) (closing p) s' c' ->
  reaches st {| sh := s'; refills := refills p; callers := callers p; closing := c' |}.
Proof. intros Hr Hs. eapply reachable_step; [done|by eapply step_close]. Qed.

Lemma go_arrive st p id :
  reaches st p ->
  reaches st {| sh := sh p; refills := refills p; callers := callers p ++ [Caller id CStart]; closing := closing p |}.
Proof. intros Hr. eapply reachable_step; [done|by constructor]. Qed.

(** Refills that have not begun give up when the context is cancelled, and
    those that are done end. *)
Lemma all_give_up st rs : forall s cs c,
  (forall r, r ∈ rs -> r_pc r = RWait \/ r_pc r = REnding) -> cancelled s = true -> wg s = length rs ->
  reaches st {| sh := s; refills := rs; callers := cs; closing := c |} ->
  reaches st {| sh := set_wg 0 s; refills := []; callers := cs; closing := c |}.
Proof.
  induction rs as [|r rs IH]; intros s cs c Hw Hc Hl Hr.
  - replace (set_wg 0 s) with s; [done|]. destruct s. cbn in *. by subst.
  - assert (He : reaches st {| sh := s; refills := Refill (r_key r) REnding :: rs; callers := cs; closing := c |}).
    { destruct (Hw r ltac:(by left)) as [Hp|Hp]; destruct r as [k pc]; cbn in Hp; subst; [|done].
      apply (go_refill st _ [] (Refill k RWait) rs s (Some (Refill k REnding))) in Hr; [done|done|].
      by apply refill_gives_up, acquire_done. }
    apply (go_refill st _ [] (Refill (r_key r) REnding) rs (set_wg (pred (wg s)) s) None) in He; [|done|by apply refill_ends].
    apply (IH (set_wg (pred (wg s)) s)) in He; [done|set_solver|done|cbn; by rewrite Hl].
Qed.

(** C30. A caller that is waiting for a VM when the pool is closed may be handed
    nil without an error: Acquire receives from the closed channel and does not
    look at the second result. *)
Theorem acquire_can_return_nil st id k :
  slot st id = Ok k -> k ∈ keys st ->
  exists p, reaches st p /\ Caller id (CReturned None) ∈ callers p.
Proof.
  intros Hs Hk. set (s0 := sh (initial st)).
  pose proof (go_arrive st _ id (reaches_initial st)) as Hr.
  apply (go_caller st _ [] (Caller id CStart) [] s0 (Caller id (CSelect k)) []) in Hr;
    [|done|by constructor].
  apply (go_close st _ (set_closed s0) Flagged) in Hr; [|by constructor].
  apply (go_close st _ (cancel (set_closed s0)) Waiting) in Hr; [|by constructor].
  apply all_give_up in Hr; [|by intros r [_ ?]%initial_refills; left|done|done].
  destruct (proj1 (elem_of_Permutation _ _) Hk) as [ks Hks].
  set (s1 := set_wg 0 (cancel (set_closed s0))) in Hr.
  apply (go_close st _ s1 (Closing (k :: ks))) in Hr; [|by constructor].
  apply (go_close st _ (set_shut k s1) (Draining k ks)) in Hr; [|by constructor].
  assert (Hch : chans s0 !! k = Some []).
  { destruct (proj2 (ph_dom _ _ (phases_initial st) k) Hk) as [l Hl].
    pose proof (initial_chan _ _ _ Hl) as ->. done. }
  apply (go_caller st _ [] (Caller id (CSelect k)) [] (set_shut k s1) (Caller id (CTook k None)) []) in Hr;
    [|done|constructor; [done|cbn; set_solver]].
  apply (go_caller st _ [] (Caller id (CTook k None)) [] (set_shut k s1) (Caller id (CReturned None)) []) in Hr;
    [|done|by constructor].
  eexists. split; [exact Hr|]. by left.
Qed.

(** ** The properties at concrete executions *)

(** One channel of size 1. *)
Definition demo_cfg : Config := clamp (read_env (sample_env "60")).
Definition demo : strategy := newPrewarmedGeneric demo_cfg.

(** The only boot fails. *)
Definition drained_pool : pool :=
  {| sh := set_wg 0 (set_sem 0 (set_sem 1 (sh (initial demo)))); refills := []; callers := []; closing := Open |}.

Lemma drained_reached : reaches demo drained_pool.
Proof.
  pose proof (reaches_initial demo) as Hr.
  eapply (go_refill demo _ [] _ []) in Hr; [|reflexivity|apply refill_slot, acquire_slot; vm_compute; lia].
  eapply (go_refill demo _ [] _ []) in Hr; [|reflexivity|apply refill_boot_fails].
  eapply (go_refill demo _ [] _ []) in Hr; [|reflexivity|apply refill_fails, release_slot; vm_compute; lia].
  eapply (go_refill demo _ [] _ []) in Hr; [|reflexivity|apply refill_ends].
  exact Hr.
Qed.

Lemma failed_boots_drain_pool_witness : load "" drained_pool = 0%nat.
Proof.
  apply (failed_boots_drain_pool demo drained_pool drained_pool "").
  - exact drained_reached.
  - vm_compute. reflexivity.
  - constructor.
Defined.

(** VM 0 boots and is handed to a caller, whose refill waits for a slot. *)
Definition served : pool :=
  {| sh := set_wg 1 (set_chan "" [] (set_wg 0 (set_chan "" [0%nat]
             (set_sem 0 (boot (set_sem 1 (sh (initial demo))))))));
     refills := [Refill "" RWait]; callers := [Caller "go" (CReturned (Some 0%nat))]; closing := Open |}.

Lemma served_reached : reaches demo served.
Proof.
  pose proof (reaches_initial demo) as Hr.
  eapply (go_refill demo _ [] _ []) in Hr; [|reflexivity|apply refill_slot, acquire_slot; vm_compute; lia].
  eapply (go_refill demo _ [] _ []) in Hr; [|reflexivity|apply refill_boots; reflexivity].
  eapply (go_refill demo _ [] _ []) in Hr; [|reflexivity|apply refill_releases, release_slot; vm_compute; lia].
  eapply (go_refill demo _ [] _ []) in Hr; [|reflexivity|].
  2:{ apply (refill_sends _ _ _ _ []); [reflexivity|apply not_elem_of_empty|vm_compute; lia]. }
  eapply (go_refill demo _ [] _ []) in Hr; [|reflexivity|apply refill_ends].
  apply (go_arrive demo _ "go") in Hr.
  eapply (go_caller demo _ [] _ []) in Hr; [|reflexivity|apply (call_open _ _ "go" ""); reflexivity].
  eapply (go_caller demo _ [] _ []) in Hr; [|reflexivity|apply (call_receives _ _ "go" "" 0%nat []); reflexivity].
  eapply (go_caller demo _ [] _ []) in Hr; [|reflexivity|apply call_refill; reflexivity].
  eapply (go_caller demo _ [] _ []) in Hr; [|reflexivity|apply call_spawn; by intros [_ []]].
  exact Hr.
Qed.

(** The pool is then closed, with that VM still in use. *)
Definition closed_down : pool :=
  {| sh := set_shut "" (set_wg 0 (cancel (set_closed (sh served))));
     refills := []; callers := callers served; closing := Closed |}.
Definition cancelled_pool : pool :=
  {| sh := cancel (set_closed (sh served)); refills := refills served;
     callers := callers served; closing := Waiting |}.

Lemma cancelled_reached : reaches demo cancelled_pool.
Proof.
  pose proof served_reached as Hr.
  eapply go_close in Hr; [|apply close_flags]. eapply go_close in Hr; [|apply close_cancels].
  exact Hr.
Qed.

Lemma closed_reached : reaches demo closed_down.
Proof.
  pose proof cancelled_reached as Hr.
  eapply (go_refill demo _ [] _ []) in Hr; [|reflexivity|apply refill_gives_up, acquire_done; reflexivity].
  eapply (go_refill demo _ [] _ []) in Hr; [|reflexivity|apply refill_ends].
  eapply go_close in Hr; [|apply (close_waits _ _ [""]); reflexivity].
  eapply go_close in Hr; [|apply close_closes].
  eapply go_close in Hr; [|apply close_next; reflexivity].
  eapply go_close in Hr; [|apply close_ends].
  exact Hr.
Qed.

Lemma vm_has_one_holder_witness : owners 0 served = 1%nat.
Proof. destruct (vm_has_one_holder demo served served_reached) as [-> _]. reflexivity. Defined.

Lemma pool_within_bounds_witness : (load "" served <= 1)%nat.
Proof.
  destruct (pool_within_bounds demo served) as [H _].
  - apply NoDup_singleton.
  - exact served_reached.
  - exact (H "").
Defined.

Lemma no_send_on_closed_channel_witness : panicked (sh closed_down) = false.
Proof. exact (proj1 (no_send_on_closed_channel demo closed_down closed_reached)). Defined.

Lemma close_leaves_no_vm_witness : exists c, c ∈ callers closed_down /\ 0%nat ∈ c_vms c.
Proof.
  apply (close_leaves_no_vm demo closed_down closed_reached eq_refl). vm_compute. reflexivity.
Defined.

Lemma cancelled_refills_finish_witness :
  exists s' o, refill_step demo (sh cancelled_pool) (Refill "" RWait) s' o.
Proof.
  destruct (cancelled_refills_finish demo cancelled_pool (Refill "" RWait)) as (s' & o & H & _).
  - exact cancelled_reached.
  - reflexivity.
  - left.
  - exists s', o. exact H.
Defined.

Lemma New_strategy_wf_witness :
  is_ok (New demo_cfg (catalogue "/rootfs" demo_languages)) = true.
Proof.
  destruct (New_strategy_wf demo_cfg (catalogue "/rootfs" demo_languages)) as [_ ->].
  - apply catalogue_wf. by apply (bool_decide_unpack _); vm_compute.
  - reflexivity.
Defined.

Lemma acquire_can_return_nil_witness :
  exists p, reaches demo p /\ Caller "go" (CReturned None) ∈ callers p.
Proof. apply (acquire_can_return_nil demo "go" ""); [reflexivity|left]. Defined.
