(* ===== verification/Closing.v ===== *)
(** How Close ends: once it was called, the steps of the pool's refills and of
    Close itself are bounded in any execution, and until Close has returned or
    the WaitGroup has panicked one of them is possible or Close waits for boots.
    The panic is a real outcome: an Acquire that read the closed flag before
    Close raised it adds to the WaitGroup that Close waits on. *)
From S2P Require Import Prelude GoInt Utf8 JsonText Json Codec Langs Config Pool.

(** * The work of closing down *)

(** The steps a refill can still take, and the VM it can leave in a channel. *)
Definition refill_work (r : refill) : nat :=
  match r_pc r with RWait => 6 | RBooting => 5 | RBooted _ => 4 | RSend _ => 3 | REnding => 1 end%nat.

(** A caller about to start a refill. *)
Definition spawn_work (c : caller) : nat := match c_pc c with CSpawn _ _ => 7 | _ => 0 end%nat.

Definition close_work (st : strategy) (c : close_pc) : nat :=
  match c with
  | Open => 2 * length (keys st) + 6
  | Flagged => 2 * length (keys st) + 5
  | Waiting => 2 * length (keys st) + 4
  | Blocked => 2 * length (keys st) + 3
  | Woken => 2 * length (keys st) + 2
  | Panicked => 0
  | Closing ks => 2 * length ks + 1
  | Draining _ ks => 2 * length ks + 2
  | Closed => 0
  end%nat.

(** All that is left: VMs in the channels to drain, refills to end, refills to
    come, and the steps of Close. *)
Definition shutdown_work (st : strategy) (p : pool) : nat :=
  (length (queued (chans (sh p))) + total refill_work (refills p) + total spawn_work (callers p)
   + close_work st (closing p))%nat.

Lemma queued_length m k l l' :
  m !! k = Some l -> (length (queued (<[k := l']> m)) + length l = length (queued m) + length l')%nat.
Proof.
  assert (Hq : forall m l, m !! k = Some l -> length (queued m) = (length l + length (queued (delete k m)))%nat).
  { clear. intros m l Hl. unfold queued. rewrite <- length_app.
    transitivity (length (concat (snd <$> (k, l) :: map_to_list (delete k m)))); [|done].
    apply Permutation_length. by rewrite map_to_list_delete. }
  intros Hm. rewrite (Hq m l) by done. rewrite (Hq _ l') by apply lookup_insert_eq.
  rewrite delete_insert_eq. lia.
Qed.

Lemma refill_works st s r s' o :
  refill_step st s r s' o ->
  (length (queued (chans s')) + total refill_work (option_list o) < length (queued (chans s)) + refill_work r)%nat /\
  closed s' = closed s.
Proof.
  intros Hs. destruct Hs as [| | | | | |k v l Hk Hu Hl| | |]; (split; [|done]); cbn; try lia.
  pose proof (queued_length (chans s) k l (l ++ [v]) Hk) as Hq. rewrite length_app in Hq. cbn in Hq. lia.
Qed.

Lemma caller_works st s c s' c' rs :
  closed s = true -> caller_step st s c s' c' rs ->
  (length (queued (chans s')) + total refill_work rs + spawn_work c' <= length (queued (chans s)) + spawn_work c)%nat /\
  closed s' = true.
Proof.
  intros Hc Hs. destruct Hs as [| | |? k v l Hk| | | | | | | | | | | | | | ]; (split; [|done]); cbn; try lia; [|congruence].
  pose proof (queued_length (chans s) k (v :: l) l Hk) as Hq. cbn in Hq. lia.
Qed.

Lemma close_works st s c s' c' :
  close_step st s c s' c' ->
  (length (queued (chans s')) + close_work st c' < length (queued (chans s)) + close_work st c)%nat /\
  (closed s' = true \/ closed s' = closed s) /\ (c = Open -> closed s' = true).
Proof.
  intros Hs. destruct Hs as [| |ks Hw Hks|Hw|Hw|ks Hw Hks|Hw|k ks|k ks v l Hk|k ks Hk|];
    (split; [|split; [by auto|done]]); cbn; try lia.
  - rewrite Hks. lia.
  - rewrite Hks. lia.
  - pose proof (queued_length (chans s) k (v :: l) l Hk) as Hq. cbn in Hq. lia.
Qed.

(** * What Close relies on *)

(** The flag is up once Close was called, and the channels still to close or
    drain exist. *)
Record shutting (st : strategy) (p : pool) : Prop := {
  sd_closed : closing p <> Open -> closed (sh p) = true;
  sd_keys : forall k, k ∈ undrained (closing p) -> k ∈ keys st
}.

Lemma shutting_step st p p' : shutting st p -> step st p p' -> shutting st p'.
Proof.
  intros [Hc Hk] [id|l1 r l2 s' o Hl Hs|l1 c l2 s' c' rs Hl Hs|s' c' Hs]; split; cbn [sh closing]; auto.
  - intros Ho. apply refill_works in Hs as [_ ->]. by auto.
  - intros Ho. by eapply caller_works in Hs as [_ ?]; [|by auto].
  - intros _. apply close_works in Hs as (_ & [?|Hsame] & Hopen); [done|].
    destruct (closing p); [by auto|..]; rewrite Hsame; by apply Hc.
  - revert Hk. destruct Hs as [| |ks Hw Hks|Hw|Hw|ks Hw Hks|Hw|k ks|k ks v l Hch|k ks Hch|]; cbn;
      try set_solver; intros _ k; by rewrite Hks.
Qed.

Lemma reach_shutting st p : reaches st p -> shutting st p.
Proof.
  apply invariant_reachable; [|apply shutting_step].
  intros ? ->. split; [done|]. cbn. set_solver.
Qed.

(** * Closing down *)

(** A step of a refill or of Close. *)
Inductive own_step (st : strategy) (p : pool) : pool -> Prop :=
  | own_refill l1 r l2 s' o : refills p = l1 ++ r :: l2 -> refill_step st (sh p) r s' o ->
      own_step st p {| sh := s'; refills := l1 ++ option_list o ++ l2; callers := callers p; closing := closing p |}
  | own_close s' c' : close_step st (sh p) (closing p) s' c' ->
      own_step st p {| sh := s'; refills := refills p; callers := callers p; closing := c' |}.

Lemma own_step_step st p p' : own_step st p p' -> step st p p'.
Proof. intros [l1 r l2 s' o Hl Hs|s' c' Hs]; [by eapply step_refill|by apply step_close]. Qed.

(** An execution with [n] such steps, in any company of callers that arrive and
    go about their business. *)
Inductive execution (st : strategy) : nat -> pool -> pool -> Prop :=
  | ex_done p : execution st 0 p p
  | ex_own n p p2 p' : own_step st p p2 -> execution st n p2 p' -> execution st (S n) p p'
  | ex_other n p p2 p' : step st p p2 -> execution st n p2 p' -> execution st n p p'.

Lemma own_works st p p' : own_step st p p' -> (shutdown_work st p' < shutdown_work st p)%nat.
Proof.
  unfold shutdown_work. intros [l1 r l2 s' o Hl Hs|s' c' Hs]; cbn [sh refills callers closing].
  - apply refill_works in Hs as [Hw _]. rewrite Hl, !total_app. cbn [total]. lia.
  - apply close_works in Hs as [Hw _]. lia.
Qed.

Lemma step_works st p p' : closed (sh p) = true -> step st p p' -> (shutdown_work st p' <= shutdown_work st p)%nat.
Proof.
  intros Hc [id|l1 r l2 s' o Hl Hs|l1 c l2 s' c' rs Hl Hs|s' c' Hs].
  - unfold shutdown_work. cbn [sh refills callers closing]. rewrite total_app. cbn. lia.
  - apply Nat.lt_le_incl, own_works. by eapply own_refill.
  - unfold shutdown_work. cbn [sh refills callers closing]. apply caller_works in Hs as [Hw _]; [|done].
    rewrite Hl, !total_app. cbn [total]. lia.
  - apply Nat.lt_le_incl, own_works. by apply own_close.
Qed.

Lemma step_stays_closing st p p' : step st p p' -> closing p <> Open -> closing p' <> Open.
Proof. intros [id|l1 r l2 s' o Hl Hs|l1 c l2 s' c' rs Hl Hs|s' c' Hs]; cbn [closing]; [done..|]. by destruct Hs. Qed.

Lemma execution_bounded st n p p' :
  reaches st p -> closing p <> Open -> execution st n p p' ->
  (n + shutdown_work st p' <= shutdown_work st p)%nat.
Proof.
  intros Hr Ho Hx. induction Hx as [p|n p p2 p' Hs _ IH|n p p2 p' Hs _ IH]; [lia|..].
  - pose proof (own_works _ _ _ Hs). apply own_step_step in Hs.
    specialize (IH (reachable_step _ _ _ _ Hr Hs) (step_stays_closing _ _ _ Hs Ho)). lia.
  - pose proof (step_works st p p2 (sd_closed _ _ (reach_shutting _ _ Hr) Ho) Hs).
    specialize (IH (reachable_step _ _ _ _ Hr Hs) (step_stays_closing _ _ _ Hs Ho)). lia.
Qed.

Lemma execution_steps st n p p' :
  reaches st p -> closing p <> Open -> execution st n p p' -> reaches st p' /\ closing p' <> Open.
Proof.
  intros Hr Ho Hx. induction Hx as [p|n p p2 p' Hs _ IH|n p p2 p' Hs _ IH]; [done|..].
  - apply own_step_step in Hs. apply IH; [by eapply reachable_step|by eapply step_stays_closing].
  - apply IH; [by eapply reachable_step|by eapply step_stays_closing].
Qed.

(** ** Progress *)

(** A step of the pool's own that is not the outcome of a boot: how long a boot
    takes is not the pool's to say. *)
Inductive prompt_step (st : strategy) (p : pool) : pool -> Prop :=
  | prompt_refill l1 r l2 s' o : refills p = l1 ++ r :: l2 -> r_pc r <> RBooting ->
      refill_step st (sh p) r s' o ->
      prompt_step st p {| sh := s'; refills := l1 ++ option_list o ++ l2; callers := callers p; closing := closing p |}
  | prompt_close s' c' : c' <> Panicked -> close_step st (sh p) (closing p) s' c' ->
      prompt_step st p {| sh := s'; refills := refills p; callers := callers p; closing := c' |}.

Lemma prompt_own st p p' : prompt_step st p p' -> own_step st p p'.
Proof. intros [l1 r l2 s' o Hl _ Hs|s' c' _ Hs]; [by eapply own_refill|by apply own_close]. Qed.

Definition is_booting (r : refill) : bool := match r_pc r with RBooting => true | _ => false end.

(** Close is in wg.Wait, and every refill it waits for is booting. *)
Record waits_for_boots (p : pool) : Prop := {
  wb_close : closing p = Blocked \/ closing p = Woken;
  wb_some : refills p <> [];
  wb_boots : Forall is_booting (refills p)
}.

Lemma find_refill rs : Forall is_booting rs \/ exists l1 r l2, rs = l1 ++ r :: l2 /\ r_pc r <> RBooting.
Proof.
  induction rs as [|r rs [IH|(l1 & r' & l2 & -> & Hr)]]; [by left| |right; by exists (r :: l1), r', l2].
  destruct (is_booting r) eqn:E; [left; constructor; [by rewrite E|done]|right].
  exists [], r, rs. split; [done|]. intros Hp. unfold is_booting in E. by rewrite Hp in E.
Qed.

(** Refills that have been cancelled get on, unless all of them are booting. *)
Lemma refills_move st p :
  reaches st p -> cancelled (sh p) = true ->
  Forall is_booting (refills p) \/ exists p', prompt_step st p p' /\ closing p' = closing p.
Proof.
  intros Hr Hc. destruct (find_refill (refills p)) as [|(l1 & r & l2 & Hl & Hp)]; [by left|right].
  destruct (cancelled_refills_finish st p r Hr) as (s' & o & Hs & _); [done|rewrite Hl; set_solver|].
  eexists. split; [by apply (prompt_refill st p l1 r l2 s' o)|done].
Qed.

(** Until Close has returned or panicked, the pool gets on or is booting. *)
Lemma closing_moves st p :
  reaches st p -> closing p <> Open -> closing p <> Panicked ->
  closing p = Closed \/ waits_for_boots p \/ exists p', prompt_step st p p' /\ closing p' <> Panicked.
Proof.
  intros Hr Ho Hn. pose proof (reach_phases _ _ Hr) as Hp. destruct (reach_shutting _ _ Hr) as [_ Hk].
  assert (Hgo : forall s' c', close_step st (sh p) (closing p) s' c' -> c' <> Panicked ->
    exists p', prompt_step st p p' /\ closing p' <> Panicked).
  { intros s' c' Hs Hc. eexists. split; [by apply (prompt_close st p s' c')|done]. }
  assert (Hwait : closing p = Blocked \/ closing p = Woken -> wg (sh p) <> 0%nat ->
    waits_for_boots p \/ exists p', prompt_step st p p' /\ closing p' <> Panicked).
  { intros Hc Hw. rewrite (ph_wg _ _ Hp) in Hw.
    destruct (refills_move st p Hr) as [|(p' & Hs & He)].
    - apply (ph_cancelled _ _ Hp). by destruct Hc as [-> | ->].
    - left. split; [done|by intros E; rewrite E in Hw|done].
    - right. exists p'. split; [done|by rewrite He]. }
  destruct (closing p) as [| | | | | |[|k ks]|k ks|] eqn:Ec; try done; [..|by left]; right.
  - right. by eapply Hgo; [apply close_cancels|].
  - right. destruct (decide (wg (sh p) = 0%nat)).
    + by eapply Hgo; [by apply (close_waits _ _ (keys st))|].
    + by eapply Hgo; [by apply close_sleeps|].
  - destruct (decide (wg (sh p) = 0%nat)); [right|apply Hwait; auto]. by eapply Hgo; [by apply close_wakes|].
  - destruct (decide (wg (sh p) = 0%nat)); [right|apply Hwait; auto]. by eapply Hgo; [by apply (close_woken _ _ (keys st))|].
  - right. by eapply Hgo; [apply close_ends|].
  - right. by eapply Hgo; [apply close_closes|].
  - right. destruct (proj2 (ph_dom _ _ Hp k)) as [[|v l] Hl]; [apply Hk; by left|..].
    + by eapply Hgo; [by apply close_next|].
    + by eapply Hgo; [by eapply close_kills|].
Qed.

(** The boots may end. *)
Lemma boot_ends st p : waits_for_boots p -> exists p', own_step st p p' /\ closing p' = closing p.
Proof.
  intros [_ Hne Hb]. destruct (refills p) as [|[k pc] rs] eqn:Hl; [done|]. inversion_clear Hb as [|? ? Hpc _].
  destruct pc; try done. eexists.
  split; [by apply (own_refill st p [] (Refill k RBooting) rs _ _ Hl (refill_boot_fails _ _ _))|done].
Qed.

(** So Close may return, as long as it has not panicked. *)
Lemma can_return st p :
  reaches st p -> closing p <> Open -> closing p <> Panicked ->
  exists n p', execution st n p p' /\ closing p' = Closed.
Proof.
  remember (shutdown_work st p) as m eqn:Hm. revert p Hm.
  induction m as [m IH] using lt_wf_ind. intros p -> Hr Ho Hn.
  assert (Hgo : forall p2, own_step st p p2 -> closing p2 <> Panicked ->
    exists n p', execution st n p p' /\ closing p' = Closed).
  { intros p2 Hs Hn2. pose proof (own_works _ _ _ Hs) as Hlt. pose proof (own_step_step _ _ _ Hs) as Hs'.
    destruct (IH _ Hlt p2 eq_refl) as (n & p' & Hx & Hc); [by eapply reachable_step| |done|].
    - by eapply step_stays_closing.
    - exists (S n), p'. split; [by eapply ex_own|done]. }
  destruct (closing_moves st p Hr Ho Hn) as [Hc|[Hb|(p2 & Hs & Hn2)]].
  - exists 0%nat, p. split; [constructor|done].
  - destruct (boot_ends st p Hb) as (p2 & Hs & He). eapply Hgo; [done|by rewrite He].
  - by eapply Hgo; [apply prompt_own|].
Qed.

(** ** The panic *)

(** No caller is about to add to the WaitGroup, and it has not been reused. *)
Record undisturbed (p : pool) : Prop := {
  un_calls : total spawn_work (callers p) = 0%nat;
  un_woken : closing p = Woken -> wg (sh p) = 0%nat;
  un_close : closing p <> Panicked;
  un_ok : crashed (sh p) = false
}.

(** A caller that is not about to start a refill starts none, and once the flag
    is up it will not be. *)
Lemma caller_quiet st s c s' c' rs :
  closed s = true -> spawn_work c = 0%nat -> caller_step st s c s' c' rs ->
  spawn_work c' = 0%nat /\ wg s' = wg s /\ crashed s' = crashed s.
Proof. intros Hc Hw Hs. revert Hc Hw. destruct Hs; cbn; intros; try done; congruence. Qed.

Lemma undisturbed_step st p p' :
  reaches st p -> closing p <> Open -> undisturbed p -> step st p p' -> undisturbed p'.
Proof.
  intros Hr Ho [Hc Hw Hp Hok] Hs. pose proof (sd_closed _ _ (reach_shutting _ _ Hr) Ho) as Hcl.
  destruct Hs as [id|l1 r l2 s' o Hl Hs|l1 c l2 s' c' rs Hl Hs|s' c' Hs].
  - split; cbn; [rewrite total_app, Hc|..]; done.
  - pose proof (refill_frame _ _ _ _ _ Hs) as (_ & Hwg & _).
    split; cbn [sh callers closing]; [done| |done|by destruct Hs].
    intros Hk. exfalso. pose proof (ph_wg _ _ (reach_phases _ _ Hr)) as Hn.
    rewrite Hw, Hl, length_app in Hn by done. cbn in Hn. lia.
  - rewrite Hl, total_app in Hc. cbn [total] in Hc.
    destruct (caller_quiet _ _ _ _ _ _ Hcl (ltac:(lia) : spawn_work c = 0%nat) Hs) as (Hq & Hwg & Hcr).
    split; cbn [sh callers closing]; rewrite ?total_app, ?Hwg, ?Hcr; cbn [total]; auto; lia.
  - split; cbn [sh callers closing]; [done|..]; revert Hw; destruct Hs; cbn; intros Hw'; try done;
      by rewrite Hw' in *.
Qed.

Lemma undisturbed_execution st n p p' :
  reaches st p -> closing p <> Open -> undisturbed p -> execution st n p p' -> undisturbed p'.
Proof.
  intros Hr Ho Hu Hx. induction Hx as [p|n p p2 p' Hs _ IH|n p p2 p' Hs _ IH]; [done|..].
  - apply own_step_step in Hs. apply IH; [by eapply reachable_step|by eapply step_stays_closing|].
    by eapply undisturbed_step.
  - apply IH; [by eapply reachable_step|by eapply step_stays_closing|]. by eapply undisturbed_step.
Qed.

(** A refill that sends the first VM of its channel, and a caller that takes it
    and is about to start another. *)
Lemma race_taken st id k s l1 l2 :
  slot st id = Ok k -> (0 < boots st)%nat -> (0 < capacity st)%nat ->
  sem s = 0%nat -> chans s !! k = Some [] -> shut s = ∅ -> cancelled s = false -> closed s = false ->
  reaches st {| sh := s; refills := l1 ++ Refill k RWait :: l2; callers := []; closing := Open |} ->
  exists s' vm, wg s' = wg s /\
    reaches st {| sh := s'; refills := l1 ++ Refill k REnding :: l2;
                  callers := [Caller id (CSpawn k vm)]; closing := Open |}.
Proof.
  intros Hs Hb Hcap Hsem Hch Hsh Hca Hcl Hr.
  eapply (go_refill st _ l1 _ l2) in Hr; [|done|apply refill_slot, acquire_slot; cbn; lia].
  eapply (go_refill st _ l1 _ l2) in Hr; [|done|by apply refill_boots].
  eapply (go_refill st _ l1 _ l2) in Hr; [|done|apply refill_releases, release_slot; cbn; lia].
  eapply (go_refill st _ l1 _ l2) in Hr; [|done|].
  2:{ apply (refill_sends _ _ _ _ []); [exact Hch|cbn; rewrite Hsh; set_solver|done]. }
  apply (go_arrive st _ id) in Hr.
  eapply (go_caller st _ [] _ []) in Hr; [|done|by apply (call_open _ _ id k)].
  eapply (go_caller st _ [] _ []) in Hr; [|done|].
  2:{ apply (call_receives _ _ id k (fresh s) []). cbn. apply lookup_insert_eq. }
  eapply (go_caller st _ [] _ []) in Hr; [|done|by apply call_refill].
  eexists _, _. split; [|exact Hr]. done.
Qed.

(** Then Close begins and sleeps in Wait until the refills have ended. *)
Lemma race_blocked st s rs cs :
  reaches st {| sh := s; refills := rs; callers := cs; closing := Open |} ->
  (forall r, r ∈ rs -> r_pc r = RWait \/ r_pc r = REnding) -> wg s = length rs -> rs <> [] ->
  exists s', waiters s' <> 0%nat /\
    reaches st {| sh := set_wg 0 s'; refills := []; callers := cs; closing := Blocked |}.
Proof.
  intros Hr Hrs Hw Hne.
  eapply go_close in Hr; [|apply close_flags]. eapply go_close in Hr; [|apply close_cancels].
  eapply go_close in Hr; [|apply close_sleeps; cbn; rewrite Hw; by destruct rs].
  apply all_give_up in Hr; [|done..]. eexists. split; [|exact Hr]. done.
Qed.

Lemma race_reached st id k :
  slot st id = Ok k -> k ∈ keys st -> (0 < boots st)%nat -> (0 < capacity st)%nat ->
  exists s vm, waiters s <> 0%nat /\
    reaches st {| sh := set_wg 0 s; refills := []; callers := [Caller id (CSpawn k vm)]; closing := Blocked |}.
Proof.
  intros Hs Hk Hb Hcap. pose proof (reaches_initial st) as Hr. pose proof (phases_initial st) as Hp.
  assert (Hin : Refill k RWait ∈ refills (initial st)).
  { apply list_elem_of_In, in_flat_map. exists k. split; [by apply list_elem_of_In|].
    apply list_elem_of_In, elem_of_replicate. split; [done|lia]. }
  pose proof (initial_refills st) as Hall. apply list_elem_of_split in Hin as (l1 & l2 & Hl).
  destruct (proj2 (ph_dom _ _ Hp k) Hk) as [l Hch]. pose proof (initial_chan _ _ _ Hch) as ->.
  pose proof (ph_wg _ _ Hp) as Hwg. rewrite Hl in Hwg, Hall.
  change (initial st) with {| sh := sh (initial st); refills := refills (initial st); callers := [];
    closing := Open |} in Hr. rewrite Hl in Hr.
  destruct (race_taken st id k (sh (initial st)) l1 l2) as (s' & vm & Hw & Hr'); [done..|].
  destruct (race_blocked st s' _ _ Hr') as (s2 & Hw2 & Hr2); [| |by destruct l1|].
  - intros r Hr0. assert (Hx : r = Refill k REnding \/ r ∈ l1 ++ l2) by set_solver.
    destruct Hx as [->|Hx]; [by right|left]. apply Hall. set_solver.
  - rewrite Hw, Hwg, !length_app. done.
  - exists s2, vm. by split.
Qed.

(** * Properties *)

(** C9. How Close ends.  Once it was called, and however callers of Acquire,
    Release and Discard interleave: the refills and Close take a bounded number
    of steps; until Close has returned or panicked, one of them is possible,
    without waiting for any caller and without the outcome of a boot, unless
    Close waits for refills that are all booting; as long as it has not
    panicked it can return; and it cannot panic, nor can an Acquire,
    if no caller was between its look at the closed flag and its wg.Add when
    Close began. *)
Theorem close_returns st p :
  reaches st p -> closing p <> Open ->
  (forall n p', execution st n p p' -> (n + shutdown_work st p' <= shutdown_work st p)%nat) /\
  (forall n p', execution st n p p' ->
     closing p' = Closed \/ closing p' = Panicked \/ waits_for_boots p' \/ exists p2, prompt_step st p' p2) /\
  (closing p <> Panicked -> exists n p', execution st n p p' /\ closing p' = Closed) /\
  (undisturbed p -> forall n p', execution st n p p' -> closing p' <> Panicked /\ crashed (sh p') = false).
Proof.
  intros Hr Ho. split_and!.
  - intros n p'. by apply execution_bounded.
  - intros n p' Hx. destruct (execution_steps _ _ _ _ Hr Ho Hx) as [Hr' Ho'].
    destruct (closing p') eqn:Ec; try (by auto); right; right;
      (destruct (closing_moves st p' Hr') as [?|[?|(p2 & ? & _)]]; [congruence..|by left|right; by exists p2]).
  - intros Hn. by apply can_return.
  - intros Hu n p' Hx. destruct (undisturbed_execution _ _ _ _ Hr Ho Hu Hx). done.
Qed.

(** C31. Closing the pool can panic, under every strategy: an Acquire that has
    taken a VM and found the closed flag down calls wg.Add after the last
    refill has ended.  If Close is asleep in wg.Wait and not yet released, the
    Add panics (Add called concurrently with Wait); if it is released but not
    yet back, Wait panics (WaitGroup is reused before previous Wait has
    returned). *)
Theorem close_can_panic st id k :
  slot st id = Ok k -> k ∈ keys st -> (0 < boots st)%nat -> (0 < capacity st)%nat ->
  (exists p, reaches st p /\ closing p = Blocked /\ crashed (sh p) = true) /\
  (exists p, reaches st p /\ closing p = Panicked /\ crashed (sh p) = true).
Proof.
  intros Hs Hk Hb Hcap. destruct (race_reached st id k Hs Hk Hb Hcap) as (s & vm & Hw & Hr). split.
  - apply (go_caller st _ [] (Caller id (CSpawn k vm)) [] (crash (set_wg 0 s)) (Caller id (CSpawn k vm)) []) in Hr;
      [eexists; split; [exact Hr|done]|done|by apply call_spawn_panics].
  - apply (go_close st _ (set_waiters 0 (set_wg 0 s)) Woken) in Hr; [|by apply close_wakes].
    eapply (go_caller st _ [] (Caller id (CSpawn k vm)) []) in Hr; [|done|by apply call_spawn; intros [_ []]].
    eapply go_close in Hr; [|by apply close_reused].
    eexists. split; [exact Hr|done].
Qed.

(** ** The properties at a concrete pool *)

Lemma cancelled_undisturbed : undisturbed cancelled_pool.
Proof. by split. Qed.

Lemma close_returns_witness :
  (exists n p', execution demo n cancelled_pool p' /\ closing p' = Closed) /\
  (forall n p', execution demo n cancelled_pool p' -> closing p' <> Panicked /\ crashed (sh p') = false).
Proof.
  destruct (close_returns demo cancelled_pool) as (_ & _ & Hc & Hu).
  - exact cancelled_reached.
  - discriminate.
  - split; [apply Hc; discriminate|apply Hu, cancelled_undisturbed].
Defined.

Lemma close_can_panic_witness : exists p, reaches demo p /\ closing p = Panicked /\ crashed (sh p) = true.
Proof.
  destruct (close_can_panic demo "go" "") as [_ H].
  - reflexivity.
  - left.
  - vm_compute. lia.
  - vm_compute. lia.
  - exact H.
Defined.
