(* ===== verification/Boots.v ===== *)
(** How the pool boots a VM: [vmWorkDir] of pool/pool.go and the three
    [bootFor] of the strategies, over the driver; and the VMs that are alive
    after any sequence of boots and kills. *)
From S2P Require Import Prelude GoInt Utf8 JsonText Json Codec Filepath Langs Config Clock Driver.

(** [os.MkdirTemp("", pattern)]. *)
Class TempDirs (W : Type) := {
  mkdir_temp : string -> W -> W * result string
}.

(** * Boots *)
Section boots.
Context `{Host W} `{TempDirs W}.

(** [func vmWorkDir(prefix string) (string, error)] *)
Definition vmWorkDir (prefix : string) (w : W) : W * result string :=
  match mkdir_temp ("dredd-" +:+ prefix +:+ "-") w with
  | (w, Err e) => (w, Err e)
  | (w, Ok dir) => (w, Ok (Clean dir))
  end.

(** The options of a VM that is specialised to a language, and of a generic one. *)
Definition language_options (cfg : Config) (l : Language.t) (dir : string) : BootOptions := {|
  Driver.FirecrackerBin := Config.FirecrackerBin cfg;
  Driver.KernelPath := Config.KernelPath cfg;
  RootfsPath := Language.Rootfs l;
  opt_WorkDir := dir;
  Vcpus := VMVcpus cfg;
  MemMB := VMMemMB cfg;
  opt_LanguageID := Language.ID l |}.
Definition generic_options (cfg : Config) (dir : string) : BootOptions := {|
  Driver.FirecrackerBin := Config.FirecrackerBin cfg;
  Driver.KernelPath := Config.KernelPath cfg;
  RootfsPath := GenericRootfs cfg;
  opt_WorkDir := dir;
  Vcpus := VMVcpus cfg;
  MemMB := VMMemMB cfg;
  opt_LanguageID := "" |}.

(** Boot in a fresh work directory. *)
Definition boot_in (d : Driver) (prefix : string) (opt : string -> BootOptions) (w : W) :
    Driver * W * result VM :=
  match vmWorkDir prefix w with
  | (w, Err e) => (d, w, Err e)
  | (w, Ok dir) => Boot d (opt dir) w
  end.

(** [func (p *prewarmedPerLang) bootFor(l)] *)
Definition perLang_bootFor (cfg : Config) (d : Driver) (l : Language.t) : W -> Driver * W * result VM :=
  boot_in d (Language.ID l) (language_options cfg l).

(** [func (p *prewarmedGeneric) boot()] *)
Definition generic_boot (cfg : Config) (d : Driver) : W -> Driver * W * result VM :=
  boot_in d "generic" (generic_options cfg).

(** [func (p *onDemandSpare) bootFor(ctx, l)]: [slot] is what acquiring the
    semaphore came to, the context's error when it gave up. *)
Definition spare_bootFor (cfg : Config) (d : Driver) (slot : result unit) (l : Language.t) (w : W) :
    Driver * W * result VM :=
  match slot with
  | Err e => (d, w, Err e)
  | Ok _ => boot_in d (Language.ID l) (language_options cfg l) w
  end.

(** The boots a pool does, and for which language. *)
Inductive boots (cfg : Config) (d : Driver) (w : W) : string -> Driver * W * result VM -> Prop :=
  | boots_perLang l : boots cfg d w (Language.ID l) (perLang_bootFor cfg d l w)
  | boots_generic : boots cfg d w "" (generic_boot cfg d w)
  | boots_spare slot l : boots cfg d w (Language.ID l) (spare_bootFor cfg d slot l w).
End boots.

(** ** The host's work directories

    Documented behaviour: [MkdirTemp] makes a directory that did not exist, and
    refuses a pattern with a path separator; [RemoveAll] removes the directory
    it is given; nothing else here makes or removes a work directory. *)
Class TempDirsOk (W : Type) `{Host W} `{TempDirs W} := {
  dirs : W -> gset string;
  temp_separator : forall p w, no_slash (to_bytes p) = false -> exists e, mkdir_temp p w = (w, Err e);
  temp_fresh : forall p w w' d, mkdir_temp p w = (w', Ok d) ->
    Clean d ∉ dirs w /\ dirs w' = {[Clean d]} ∪ dirs w;
  temp_fails : forall p w w' e, mkdir_temp p w = (w', Err e) -> dirs w' = dirs w;
  remove_all_dirs : forall d w, dirs (remove_all d w) = dirs w ∖ {[d]};
  mkdir_dirs : forall d w, dirs (mkdir_all d w).1 = dirs w;
  remove_dirs : forall p w, dirs (remove p w) = dirs w;
  start_dirs : forall a w, dirs (start_process a w).1 = dirs w;
  kill_dirs : forall p w, dirs (kill_wait p w) = dirs w;
  put_dirs : forall s p b w, dirs (http_put s p b w).1 = dirs w;
  cp_dirs : forall a w, dirs (run_cp a w).1 = dirs w;
  open_read_dirs : forall p w, dirs (open_read p w).1 = dirs w;
  open_write_dirs : forall p w, dirs (open_write p w).1 = dirs w;
  io_copy_dirs : forall a b w, dirs (io_copy a b w).1 = dirs w;
  sync_dirs : forall p w, dirs (sync p w).1 = dirs w
}.

Section dirs.
Context `{TempDirsOk W}.

Lemma put_keeps c path body : keeping dirs (put c path body).
Proof.
  intros w w' r. unfold put. pose proof (put_dirs c path body w) as Hd.
  destruct (http_put c path body w) as [w1 [[st line]|e]]; [|by intros [= <- _]].
  destruct (300 <=? st); by intros [= <- _].
Qed.

Lemma clone_keeps src dst : keeping dirs (cloneFile src dst).
Proof.
  intros w w' r. unfold cloneFile.
  pose proof (cp_dirs ["cp"; "--reflink=auto"; "--sparse=always"; src; dst] w) as Hd.
  destruct (run_cp _ w) as [w1 [e|]]; [|by intros [= <- _]]. cbn [fst] in Hd. rewrite <- Hd.
  set (m := act (open_read src) ≫= _). assert (Hm : keeping dirs m); [|apply Hm].
  repeat (apply keeping_bind; [|intros _]); apply keeping_act;
    auto using open_read_dirs, open_write_dirs, io_copy_dirs, sync_dirs.
Qed.

Lemma wait_keeps path t : keeping dirs (waitForSocket path t).
Proof. intros w w' r. unfold waitForSocket. by intros [= <- _]. Qed.

Lemma Kill_dirs vm w : dirs (Kill (Some vm) w) = if String.eqb (WorkDir vm) "" then dirs w else dirs w ∖ {[WorkDir vm]}.
Proof. unfold Kill. destruct (String.eqb (WorkDir vm) ""); by rewrite ?remove_all_dirs, kill_dirs. Qed.

(** A boot makes no directory, and removes at most its own. *)
Lemma Boot_dirs d opt w d' w' r :
  Boot d opt w = (d', w', r) ->
  match r with
  | Ok _ => dirs w' = dirs w
  | Err _ => dirs w' = dirs w \/ dirs w' = dirs w ∖ {[opt_WorkDir opt]}
  end.
Proof.
  unfold Boot. set (o := with_bin d opt).
  assert (opt_WorkDir o = opt_WorkDir opt) as Ho by (by destruct (with_bin_same d opt)).
  pose proof (mkdir_dirs (opt_WorkDir o) w) as Hm.
  destruct (mkdir_all (opt_WorkDir o) w) as [w1 [e|]]; cbn [fst] in Hm; [intros [= <- <- <-]; by left|].
  destruct (nextID d) as [d1 id].
  set (w2 := remove _ (remove _ w1)).
  assert (H2 : dirs w2 = dirs w) by (subst w2; by rewrite !remove_dirs, Hm).
  pose proof (start_dirs [Driver.FirecrackerBin o; "--api-sock"; Join (opt_WorkDir o) "fc.sock"; "--id"; id] w2) as Hs.
  destruct (start_process _ w2) as [w3 [p|e]]; cbn [fst] in Hs; [|intros [= <- <- <-]; left; congruence].
  unfold configure, on_error.
  set (m := waitForSocket _ _ ≫= _). set (vm := Build_VM _ _ _ _ _ _).
  assert (Hk : keeping dirs m).
  { subst m. repeat first [apply keeping_bind; [|intros _] | apply keeping_ctx | apply put_keeps
      | apply clone_keeps | apply wait_keeps]. }
  destruct (m w3) as [w4 [u|e]] eqn:Em; apply Hk in Em; [intros [= <- <- <-]; congruence|].
  pose proof (Kill_dirs vm w4) as Hkill. revert Hkill. generalize (Kill (Some vm) w4).
  intros w5 Hw5 [= <- <- <-]. rewrite Hw5, Em, Hs, H2, <- Ho. cbn [WorkDir vm].
  destruct (String.eqb (opt_WorkDir o) ""); auto.
Qed.
End dirs.

(** * The fleet

    The driver of a pool and the VMs it has running: each boot adds the VM it
    returns, each kill takes one down. *)
Record fleet (W : Type) := Fleet { host : W; drv : Driver; running : list VM }.
Arguments Fleet {W} host drv running.
Arguments host {W} f.
Arguments drv {W} f.
Arguments running {W} f.

Inductive fleet_step `{Host W} `{TempDirs W} (cfg : Config) (f : fleet W) : fleet W -> Prop :=
  | fleet_boots id d w r : boots cfg (drv f) (host f) id (d, w, r) ->
      fleet_step cfg f (Fleet w d (match r with Ok vm => vm :: running f | Err _ => running f end))
  | fleet_kills l1 vm l2 : running f = l1 ++ vm :: l2 ->
      fleet_step cfg f (Fleet (Kill (Some vm) (host f)) (drv f) (l1 ++ l2)).

(** The id of the [n]th boot. *)
Definition vm_id `{Host W} (n : Z) : string := "vm-" +:+ fmt_d getpid +:+ "-" +:+ fmt_d n.

Lemma itoa_inj m n : 0 <= m -> 0 <= n -> itoa m = itoa n -> m = n.
Proof.
  intros Hm Hn. unfold itoa. rewrite !(proj2 (Z.ltb_ge _ _)) by done. intros He.
  pose proof (digits_value_to_uint (Z.to_N m)) as H1. pose proof (digits_value_to_uint (Z.to_N n)) as H2.
  rewrite He, H2 in H1. injection H1 as H1. lia.
Qed.

Lemma vm_id_inj `{Host W} m n : 0 <= m -> 0 <= n -> vm_id m = vm_id n -> m = n.
Proof.
  intros Hm Hn He. unfold vm_id in He. do 3 (apply (inj (String.append _)) in He).
  apply (f_equal to_bytes) in He. unfold fmt_d in He. rewrite !to_of_bytes in He. by apply itoa_inj.
Qed.

(** What a boot makes of the driver's counter and of its VM. *)
Lemma Boot_vm `{Host W} d opt w d' w' r :
  Boot d opt w = (d', w', r) ->
  (seq d' = seq d \/ seq d' = (seq d + 1) mod 2 ^ 64) /\
  forall vm, r = Ok vm -> seq d' = (seq d + 1) mod 2 ^ 64 /\ Driver.ID vm = vm_id (seq d') /\
    WorkDir vm = opt_WorkDir opt /\ LanguageID vm = opt_LanguageID opt.
Proof.
  unfold Boot. destruct (with_bin_same d opt) as [Ho Hl]. set (o := with_bin d opt) in *.
  destruct (mkdir_all _ w) as [w1 [e|]]; [intros [= <- <- <-]; split; [by left|done]|].
  cbn [nextID]. set (d1 := {| bin := bin d; seq := _ |}).
  destruct (start_process _ _) as [w2 [p|e]]; [|intros [= <- <- <-]; split; [by right|done]].
  destruct (configure o _ w2) as [w3 [u|e]]; intros [= <- <- <-]; (split; [by right|]); [|done].
  intros vm [= <-]. cbn [WorkDir LanguageID Driver.ID]. rewrite Ho, Hl. by split_and!.
Qed.

Section fleet.
Context `{TempDirsOk W} (cfg : Config).

(** What any of the pool's boots comes to. *)
Lemma boots_spec d w id d' w' r :
  boots cfg d w id (d', w', r) ->
  (seq d' = seq d \/ seq d' = (seq d + 1) mod 2 ^ 64) /\ dirs w ⊆ dirs w' /\
  forall vm, r = Ok vm -> seq d' = (seq d + 1) mod 2 ^ 64 /\ Driver.ID vm = vm_id (seq d') /\
    LanguageID vm = id /\ WorkDir vm ∉ dirs w /\ WorkDir vm ∈ dirs w'.
Proof.
  assert (Hin : forall prefix opt lang, (forall dir, opt_WorkDir (opt dir) = dir /\ opt_LanguageID (opt dir) = lang) ->
    boot_in d prefix opt w = (d', w', r) ->
    (seq d' = seq d \/ seq d' = (seq d + 1) mod 2 ^ 64) /\ dirs w ⊆ dirs w' /\
    forall vm, r = Ok vm -> seq d' = (seq d + 1) mod 2 ^ 64 /\ Driver.ID vm = vm_id (seq d') /\
      LanguageID vm = lang /\ WorkDir vm ∉ dirs w /\ WorkDir vm ∈ dirs w').
  { intros prefix opt lang Hopt. unfold boot_in, vmWorkDir.
    destruct (mkdir_temp _ w) as [w1 [dir|e]] eqn:Et.
    2:{ apply temp_fails in Et. intros [= <- <- <-]. rewrite Et. split_and!; [by left|done|done]. }
    apply temp_fresh in Et as [Hf Hd]. destruct (Hopt (Clean dir)) as [Hwd Hlang]. intros Hb.
    destruct (Boot_vm _ _ _ _ _ _ Hb) as [Hseq Hvm]. apply Boot_dirs in Hb. rewrite Hwd, Hd in Hb.
    split; [done|]. split; [destruct r; [rewrite Hb|destruct Hb as [-> | ->]]; set_solver|].
    intros vm ->. destruct (Hvm vm eq_refl) as (? & ? & Hw & Hl). rewrite Hwd in Hw. rewrite Hw, Hb, Hl, Hlang.
    split_and!; [done|done|done|done|set_solver]. }
  intros Hb. inversion Hb as [l Hid Hr|Hid Hr|[u|e] l Hid Hr]; subst.
  - eapply (Hin _ (language_options cfg l)); [done|exact Hr].
  - eapply (Hin _ (generic_options cfg)); [done|exact Hr].
  - eapply (Hin _ (language_options cfg l)); [done|exact Hr].
  - split_and!; [by left|done|done].
Qed.

(** The VMs of a fleet have ids and work directories of their own. *)
Record distinct (f : fleet W) : Prop := {
  ds_seq : 0 <= seq (drv f);
  ds_ids : Forall (fun vm => exists m, 1 <= m <= seq (drv f) /\ Driver.ID vm = vm_id m) (running f);
  ds_id : NoDup (Driver.ID <$> running f);
  ds_dir : NoDup (WorkDir <$> running f);
  ds_exists : Forall (fun vm => WorkDir vm ∈ dirs (host f)) (running f)
}.

Lemma distinct_boots f id d w r :
  distinct f -> seq (drv f) + 1 < 2 ^ 64 -> boots cfg (drv f) (host f) id (d, w, r) ->
  distinct (Fleet w d (match r with Ok vm => vm :: running f | Err _ => running f end)) /\
  seq d <= seq (drv f) + 1.
Proof.
  intros [Hs Hi Hni Hnd He] Hlt Hb. apply boots_spec in Hb as (Hseq & Hsub & Hvm).
  rewrite Z.mod_small in Hseq by lia.
  assert (Hle : seq (drv f) <= seq d) by lia.
  assert (Hi' : Forall (fun vm => exists m, 1 <= m <= seq d /\ Driver.ID vm = vm_id m) (running f)).
  { eapply Forall_impl; [exact Hi|]. intros vm (m & Hm & ->). exists m. split; [lia|done]. }
  assert (He' : Forall (fun vm => WorkDir vm ∈ dirs w) (running f))
    by (eapply Forall_impl; [exact He|]; cbn; set_solver).
  split; [|lia]. destruct r as [vm|e]; [|by split; cbn; [lia|..]].
  destruct (Hvm vm eq_refl) as (Hsd & Hid & _ & Hnew & Hw). rewrite Z.mod_small in Hsd by lia.
  split; cbn [drv host running]; rewrite ?fmap_cons; [lia|..].
  - constructor; [|done]. exists (seq d). split; [lia|done].
  - constructor; [|done]. intros (vm' & Heq & Hin)%list_elem_of_fmap.
    rewrite Forall_forall in Hi. destruct (Hi vm' Hin) as (m & Hm & Hm').
    rewrite Hid, Hm' in Heq. apply vm_id_inj in Heq; lia.
  - constructor; [|done]. intros (vm' & Heq & Hin)%list_elem_of_fmap.
    rewrite Forall_forall in He. apply Hnew. rewrite Heq. by apply He.
  - by constructor.
Qed.

Lemma distinct_kills f l1 vm l2 :
  distinct f -> running f = l1 ++ vm :: l2 -> distinct (Fleet (Kill (Some vm) (host f)) (drv f) (l1 ++ l2)).
Proof.
  intros [Hs Hi Hni Hnd He] Hr. rewrite Hr in *.
  assert (Hp : l1 ++ vm :: l2 ≡ₚ vm :: l1 ++ l2) by (symmetry; apply Permutation_middle).
  rewrite Hp in Hi, Hni, Hnd, He. rewrite fmap_cons in Hni, Hnd.
  apply NoDup_cons in Hni as [_ Hni]. apply NoDup_cons in Hnd as [Hn Hnd].
  apply Forall_cons in Hi as [_ Hi]. apply Forall_cons in He as [_ He].
  split; cbn [drv host running]; [done..|].
  rewrite Kill_dirs, Forall_forall in *. intros vm' Hin.
  assert (WorkDir vm' <> WorkDir vm).
  { intros Heq. apply Hn. rewrite <- Heq. apply list_elem_of_fmap. by exists vm'. }
  specialize (He vm' Hin). case_match; set_solver.
Qed.

Lemma fleet_distinct n : forall f f', nsteps (fleet_step cfg) n f f' ->
  distinct f -> seq (drv f) + Z.of_nat n < 2 ^ 64 -> distinct f'.
Proof.
  induction n as [|n IH]; intros f f' Hs Hd Hlt; inversion Hs as [|? ? f2 ? Hst Hrest]; subst; [done|].
  destruct Hst as [id d w r Hb|l1 vm l2 Hr].
  - destruct (distinct_boots f id d w r) as [Hd2 Hle]; [done|lia|done|].
    eapply IH; [exact Hrest|done|]. cbn [drv]. lia.
  - eapply IH; [exact Hrest|by apply distinct_kills|]. cbn [drv]. lia.
Qed.
End fleet.

(** * Properties *)

Section properties.
Context `{TempDirsOk W} (cfg : Config).

(** C17. The VMs of a pool never share an identity: after any sequence of boots
    (successful or failed, of any strategy and language) and kills on a fresh
    driver, the running VMs have pairwise different ids and work directories -
    hence API sockets, vsock sockets and root file systems of their own - and
    every work directory still exists: killing or failing one VM never removes
    another's.  The bound is the driver's 64-bit counter. *)
Theorem vms_are_distinct n bin w f :
  nsteps (fleet_step cfg) n (Fleet w (NewDriver bin) []) f -> Z.of_nat n < 2 ^ 64 ->
  NoDup (Driver.ID <$> running f) /\ NoDup (WorkDir <$> running f) /\
  Forall (fun vm => WorkDir vm ∈ dirs (host f)) (running f).
Proof.
  intros Hs Hn. assert (Hd : distinct f); [|split_and!; apply Hd].
  eapply fleet_distinct; [exact Hs| |by cbn [drv NewDriver seq]].
  split; cbn; [lia|constructor|apply NoDup_nil_2|apply NoDup_nil_2|constructor].
Qed.

(** Under the two strategies that boot VMs for a language, one whose id contains
    a slash never gets a VM: the id goes into the pattern of the work directory,
    which [MkdirTemp] refuses, so each of its boots fails before it does
    anything, although the registry accepts such an id.  (The generic strategy
    boots such a language's VMs like any other's.) *)
Theorem slash_id_never_boots d (l : Language.t) slot w :
  no_slash (to_bytes (Language.ID l)) = false ->
  exists e e', perLang_bootFor cfg d l w = (d, w, Err e) /\ spare_bootFor cfg d slot l w = (d, w, Err e').
Proof.
  intros Hs.
  destruct (temp_separator ("dredd-" +:+ Language.ID l +:+ "-") w) as [e He].
  { unfold no_slash in *. rewrite !to_bytes_append, !forallb_app, Hs. by rewrite andb_false_r. }
  exists e. unfold perLang_bootFor, spare_bootFor, boot_in, vmWorkDir. rewrite He.
  destruct slot as [u|e0]; eauto.
Qed.
End properties.

(** ** The properties at concrete inputs *)

(** A host that keeps the set of its work directories; everything works. *)
Record disk := { made : gset string; serial : Z }.
#[export] Instance disk_host : Host disk := {
  getpid := 7;
  mkdir_all _ w := (w, None);
  remove _ w := w;
  remove_all d w := {| made := made w ∖ {[d]}; serial := serial w |};
  start_process _ w := (w, Ok 4242);
  kill_wait _ w := w;
  stat _ _ _ := Ok tt;
  clock k _ := socketPoll * Z.of_nat k;
  ctx_done _ _ := None;
  start_clock _ := 0;
  http_put _ _ _ w := (w, Ok (204, "204 No Content"));
  run_cp _ w := (w, None);
  open_read _ w := (w, None);
  open_write _ w := (w, None);
  io_copy _ _ w := (w, None);
  sync _ w := (w, None);
  cancelled _ := false
}.

#[export] Instance disk_temp : TempDirs disk := {
  mkdir_temp p w :=
    let d := "/tmp/" +:+ p +:+ fmt_d (serial w) in
    if negb (no_slash (to_bytes p)) then (w, Err (ENew "pattern contains path separator"))
    else if decide (Clean d ∈ made w) then (w, Err (ENew "file exists"))
    else ({| made := {[Clean d]} ∪ made w; serial := serial w + 1 |}, Ok d)
}.

#[export] Instance disk_ok : TempDirsOk disk.
Proof.
  refine {| dirs := made |}; try done.
  - intros p w Hs. cbn -[Clean]. rewrite Hs. cbn. eauto.
  - intros p w w' d. cbn -[Clean]. destruct (negb _); [done|].
    destruct (decide _); [done|]. by intros [= <- <-].
  - intros p w w' e. cbn -[Clean]. destruct (negb _); [by intros [= <- _]|].
    destruct (decide _); [by intros [= <- _]|done].
Defined.

Definition boots_cfg : Config := clamp (read_env (sample_env "60")).
Definition boots_shell : Language.t :=
  Language.Build_t "shell" "Shell" "test" "/rootfs/shell.ext4" "main.sh" "" "sh main.sh".

(** Two boots of a language. *)
Definition disk_start : fleet disk := Fleet {| made := ∅; serial := 0 |} (NewDriver "firecracker") [].
Definition after_boot (f : fleet disk) : fleet disk :=
  let '(d, w, r) := perLang_bootFor boots_cfg (drv f) boots_shell (host f) in
  Fleet w d (match r with Ok vm => vm :: running f | Err _ => running f end).

Lemma after_boot_step f : fleet_step boots_cfg f (after_boot f).
Proof.
  unfold after_boot. destruct (perLang_bootFor boots_cfg (drv f) boots_shell (host f)) as [[d w] r] eqn:E.
  eapply fleet_boots. rewrite <- E. apply (boots_perLang boots_cfg (drv f) (host f) boots_shell).
Qed.

Lemma vms_are_distinct_witness :
  Driver.ID <$> running (after_boot (after_boot disk_start)) = ["vm-7-2"; "vm-7-1"] /\
  NoDup (WorkDir <$> running (after_boot (after_boot disk_start))).
Proof.
  split; [vm_compute; reflexivity|].
  apply (vms_are_distinct boots_cfg 2 "firecracker" {| made := ∅; serial := 0 |}
    (after_boot (after_boot disk_start))).
  - apply (nsteps_l _ _ _ (after_boot disk_start)); [apply after_boot_step|].
    apply nsteps_once, after_boot_step.
  - reflexivity.
Defined.

(** The registry takes the language all the same. *)
Definition cpp : Language.t :=
  Language.Build_t "c/c++" "C++" "17" "/rootfs/cpp.ext4" "main.cc" "c++ main.cc" "./a.out".

Lemma slash_id_never_boots_witness :
  is_ok (Load (Ok (marshal (Some [cpp]))) "/rootfs") = true /\
  exists e e', perLang_bootFor boots_cfg (NewDriver "firecracker") cpp (host disk_start) =
      (NewDriver "firecracker", host disk_start, Err e) /\
    spare_bootFor boots_cfg (NewDriver "firecracker") (Ok tt) cpp (host disk_start) =
      (NewDriver "firecracker", host disk_start, Err e').
Proof.
  split; [vm_compute; reflexivity|].
  apply (slash_id_never_boots boots_cfg (NewDriver "firecracker") cpp (Ok tt) (host disk_start)).
  reflexivity.
Defined.
