(* ===== verification/Execute.v ===== *)
(** pool/executor.go: running one request on one VM of the pool - acquire,
    dial, exchange, release or discard - and the time budget of the exchange
    against the timeouts the guest works with. *)
From S2P Require Import Prelude GoInt Utf8 JsonText Json Codec Agent Filepath Clock Wire Guest Driver.

(** [type VMPool interface]; [None] is the nil VM. *)
Class VMPool (P : Type) := {
  Acquire : P -> string -> P * result (option VM);
  Release : P -> option VM -> P;
  Discard : P -> option VM -> P
}.

(** The vsock of a VM: the outcome of each dial attempt, the clock at the check
    after it and at the start, and what a deadline makes of a connection. *)
Class Link := {
  attempt : string -> nat -> result conn;
  clock_at : nat -> Z;
  clock_0 : Z;
  with_deadline : Z -> conn -> conn
}.

(** Documented behaviour: the clock advances over a pause, and a deadline that
    is already past fails the first write. *)
Class LinkOk `{Link} := {
  link_ticks : ticks clock_at dialInterval;
  link_start : clock_0 <= clock_at 0;
  past_deadline : forall b c, b <= 0 ->
    exists n e, faults (with_deadline b c) = [None; Some (n, e)]
}.

(** [type Executor struct] without its pool, and [NewExecutor]. *)
Record Executor := { DialTimeout : Z; ExtraBudget : Z; Port : Z }.
Definition NewExecutor : Executor :=
  {| DialTimeout := 15 * Second; ExtraBudget := 30 * Second; Port := VsockPort |}.

(** The budget of an exchange, in int64 nanoseconds. *)
Definition budget (e : Executor) (req : ExecRequest) : Z :=
  dur_add (dur_mul (dur_mul (TimeLimitMs req) Millisecond) (wrap64 (slice_len (Stdins req) + 1)))
    (ExtraBudget e).

Section executor.
Context `{Link} (e : Executor).

(** Dialling a VM, on enough fuel: it always comes to something
    ([execute_returns_vm]). *)
Definition dial (vm : VM) : option (result conn) :=
  VsockHostDial (poll_fuel dialInterval (DialTimeout e)) (attempt (VsockUDS vm))
    clock_at clock_0 (VsockUDS vm) (Port e) (DialTimeout e).

(** [func (e *Executor) exchange(vm, req)]: the connection it leaves behind,
    if it dialled one, closed by the deferred Close, and what it returns.
    [None] is the panic of reading [vm.VsockUDS] through a nil pointer. *)
Definition exchange (vm : option VM) (req : ExecRequest) : option (option conn * result ExecResponse) :=
  match vm with
  | None => None
  | Some vm =>
      Some match dial vm with
           | None => (None, Err (ENew "out of fuel"))
           | Some (Err x) => (None, Err (EWrap "vsock dial: " x))
           | Some (Ok c) =>
               let '(c, r) := Exchange req (with_deadline (budget e req) c) in (Some (close c), r)
           end
  end.

(** [func (e *Executor) Execute(ctx, langID, req)]; [None] is a panic. *)
Definition Execute `{VMPool P} (p : P) (langID : string) (req : ExecRequest) :
    P * option (result ExecResponse) :=
  match Acquire p langID with
  | (p, Err x) => (p, Some (Err (EWrap "acquire: " x)))
  | (p, Ok vm) =>
      match exchange vm req with
      | None => (p, None)
      | Some (_, Err x) => (Discard p vm, Some (Err x))
      | Some (_, Ok resp) => (Release p vm, Some (Ok resp))
      end
  end.
End executor.

(** Any pool, with the VMs it hands out and takes back recorded. *)
Inductive pool_event := PAcquired (vm : option VM) | PReleased (vm : option VM) | PDiscarded (vm : option VM).
#[export] Instance traced_pool `{VMPool P} : VMPool (P * list pool_event) := {
  Acquire s l := let '(p, r) := Acquire s.1 l in
    ((p, s.2 ++ match r with Ok vm => [PAcquired vm] | Err _ => [] end), r);
  Release s vm := (Release s.1 vm, s.2 ++ [PReleased vm]);
  Discard s vm := (Discard s.1 vm, s.2 ++ [PDiscarded vm])
}.

(** The total time the guest may give its commands: the timeouts of the
    compilation and of each run. *)
Definition event_timeout (ev : Guest.event) : Z :=
  match ev with ERun c => cmd_timeout c | _ => 0 end.
Definition guest_time (req : ExecRequest) : Z :=
  foldr Z.add 0 (event_timeout <$> (compile_events req ++ (run_event req <$> elems (Stdins req)))).

Lemma run_times req ins :
  foldr Z.add 0 (event_timeout <$> (run_event req <$> ins)) =
  Z.of_nat (length ins) * dur_mul (TimeLimitMs req) Millisecond.
Proof. induction ins as [|i ins IH]; cbn -[dur_mul Z.of_nat]; [done|]. rewrite IH. lia. Qed.

Section properties.
Context `{LinkOk}.

Lemma dial_ends e vm : is_Some (dial e vm).
Proof. apply VsockHostDial_terminates; [apply link_ticks|apply link_start]. Qed.

Lemma exchange_closes e vm req c res :
  exchange e vm req = Some (Some c, res) -> closed c = true.
Proof.
  destruct vm as [vm|]; [|done]. cbn. destruct (dial e vm) as [[c0|x]|]; [|done..].
  destruct (Exchange _ _) as [c1 r]. by intros [= <- <-].
Qed.

(** C26. Every VM that is acquired is given back exactly once: released after a
    successful exchange, discarded after a failed one; a failed acquire takes
    none.  Only a nil VM is neither - the executor panics on it.  A connection
    that was dialled is closed, whatever the exchange came to, and dialling
    ends by itself. *)
Theorem execute_returns_vm `{VMPool P} e (s : P * list pool_event) langID req s' r :
  Execute e s langID req = (s', r) ->
  match (Acquire s.1 langID).2, r with
  | Err x, _ => r = Some (Err (EWrap "acquire: " x)) /\ s'.2 = s.2
  | Ok None, _ => r = None /\ s'.2 = s.2 ++ [PAcquired None]
  | Ok (Some vm), Some (Ok _) => s'.2 = s.2 ++ [PAcquired (Some vm); PReleased (Some vm)]
  | Ok (Some vm), Some (Err _) => s'.2 = s.2 ++ [PAcquired (Some vm); PDiscarded (Some vm)]
  | Ok (Some vm), None => False
  end /\
  forall vm, is_Some (dial e vm) /\
    forall c res, exchange e (Some vm) req = Some (Some c, res) -> closed c = true.
Proof.
  intros He. split; [|intros vm; split; [apply dial_ends|intros c res; apply exchange_closes]]. revert He.
  unfold Execute. cbn [Acquire Release Discard traced_pool].
  destruct (Acquire s.1 langID) as [p [[vm|]|x]]; cbn [fst snd].
  - destruct (exchange e (Some vm) req) as [[c [resp|x]]|] eqn:Ex; [..|done];
      intros [= <- <-]; cbn; by rewrite <- app_assoc.
  - by intros [= <- <-].
  - intros [= <- <-]. by rewrite app_nil_r.
Qed.

(** C33. The budget of the exchange is the time limit times one more than the
    number of inputs plus the grace, as long as that fits an int64 of
    nanoseconds; and it covers all the time the guest may give its commands
    exactly when nothing is compiled or three time limits (the compiler's
    extra allowance) fit in the grace. *)
Theorem budget_covers_guest e req :
  0 < TimeLimitMs req -> 0 <= ExtraBudget e ->
  TimeLimitMs req * Millisecond * (slice_len (Stdins req) + 4) + ExtraBudget e <= max_int64 ->
  budget e req = TimeLimitMs req * Millisecond * (slice_len (Stdins req) + 1) + ExtraBudget e /\
  (guest_time req <= budget e req <->
   CompileCmd req = "" \/ 3 * (TimeLimitMs req * Millisecond) <= ExtraBudget e).
Proof.
  intros Ht He Hm. unfold slice_len in *. set (n := length (elems (Stdins req))) in *.
  unfold Millisecond, max_int64 in Hm.
  assert (Hmul : forall z, 0 <= z <= 2 ^ 63 - 1 -> wrap64 z = z)
    by (intros z Hz; apply wrap64_id; unfold int64, min_int64, max_int64; lia).
  assert (Hrun : dur_mul (TimeLimitMs req) Millisecond = TimeLimitMs req * 1000000)
    by (unfold dur_mul, Millisecond; apply Hmul; nia).
  assert (Hb : budget e req = TimeLimitMs req * 1000000 * (Z.of_nat n + 1) + ExtraBudget e).
  { unfold budget, slice_len, dur_add. fold n. rewrite Hrun. unfold dur_mul.
    rewrite (Hmul (Z.of_nat n + 1)) by nia. rewrite (Hmul (_ * _)) by nia. apply Hmul. nia. }
  split; [done|]. rewrite Hb. unfold guest_time, Millisecond.
  rewrite fmap_app, foldr_app, run_times, Hrun. fold n. unfold compile_events.
  destruct (String.eqb_spec (CompileCmd req) "") as [->|Hc]; cbn -[Z.mul Z.add dur_mul].
  - split; [by left|]. nia.
  - rewrite (Hmul (TimeLimitMs req * 4)) by nia. unfold dur_mul, Millisecond. rewrite Hmul by nia.
    split; [intros; right; nia|]. intros [?|?]; [done|nia].
Qed.

(** A time limit whose budget wraps to zero or below makes every exchange
    fail: the deadline is past before the request is written, and the VM is
    discarded. *)
Theorem wrapped_budget_fails `{VMPool P} e (p : P) langID req p1 vm :
  budget e req <= 0 -> Acquire p langID = (p1, Ok (Some vm)) ->
  exists x, Execute e p langID req = (Discard p1 (Some vm), Some (Err x)).
Proof.
  intros Hb Ha. unfold Execute. rewrite Ha. unfold exchange.
  destruct (dial e vm) as [[c|x]|]; [|by eexists..].
  destruct (past_deadline _ c Hb) as (n & x & Hf).
  unfold Exchange, mbind, M_bind, SetDeadline, take_fault. rewrite Hf. cbn [head default tail].
  destruct (MaxFrameBytes <? _); [by eexists|]. by eexists.
Qed.
End properties.

(** ** The properties at a concrete pool *)

(** A VM that answers every request with [sample_response], over a link that
    connects at once. *)
#[export] Instance toy_link : Link := {
  attempt _ _ := Ok (stream (b#"OK 1" ++ newline :: frame (marshal sample_response)));
  clock_at k := dialInterval * Z.of_nat k;
  clock_0 := 0;
  with_deadline b c := if b <=? 0
    then {| inbox := inbox c; in_end := in_end c; outbox := outbox c;
            faults := [None; Some (0%nat, ESentinel DeadlineExceeded)]; closed := closed c |}
    else c
}.

#[export] Instance toy_link_ok : LinkOk.
Proof.
  split.
  - intros k. cbn [clock_at toy_link]. lia.
  - done.
  - intros b c Hb. cbn [with_deadline toy_link]. rewrite (proj2 (Z.leb_le _ _)) by done.
    cbn. by eauto.
Qed.

Definition toy_vm : VM := Build_VM "vm-7-1" "shell" "/tmp/vm" "/tmp/vm/fc.sock" "/tmp/vm/vsock.sock" 42.
#[export] Instance toy_pool : VMPool unit := {
  Acquire p _ := (p, Ok (Some toy_vm));
  Release p _ := p;
  Discard p _ := p
}.

Lemma execute_returns_vm_witness :
  (Execute NewExecutor (tt, [] : list pool_event) "shell" sample_request).1.2 =
    [PAcquired (Some toy_vm); PReleased (Some toy_vm)].
Proof.
  destruct (Execute NewExecutor (tt, [] : list pool_event) "shell" sample_request) as [s' r] eqn:E.
  pose proof (proj1 (execute_returns_vm NewExecutor (tt, []) "shell" sample_request s' r E)) as H.
  assert (Hr : r = Some (Ok sample_response)) by (apply (f_equal snd) in E; vm_compute in E; symmetry; exact E).
  subst r. cbn [Acquire traced_pool toy_pool fst snd app] in *. exact H.
Defined.

(** A compiled language with a limit of 11 s: the guest may use more time than
    the exchange allows. *)
Definition slow_request : ExecRequest :=
  Build_ExecRequest "main.c" "int main;" "gcc main.c" "./a.out" (Some ["1"]) 11000 256 1024.

Lemma budget_covers_guest_witness : budget NewExecutor slow_request < guest_time slow_request.
Proof.
  destruct (budget_covers_guest NewExecutor slow_request) as [_ Hc].
  - reflexivity.
  - discriminate.
  - vm_compute. discriminate.
  - destruct (Z.lt_ge_cases (budget NewExecutor slow_request) (guest_time slow_request)) as [H|H];
      [exact H|].
    apply Hc in H as [H|H]; [discriminate|]. vm_compute in H. destruct (H eq_refl).
Defined.

(** A limit of about 146 years, which a submission may ask for. *)
Definition patient_request : ExecRequest :=
  Build_ExecRequest "main.sh" "cat" "" "sh main.sh" (Some ["1"]) 4611686018428 256 1024.

Lemma wrapped_budget_fails_witness :
  exists x, Execute NewExecutor tt "shell" patient_request = (tt, Some (Err x)).
Proof.
  destruct (wrapped_budget_fails NewExecutor tt "shell" patient_request tt toy_vm) as [x Hx].
  - vm_compute. discriminate.
  - reflexivity.
  - exists x. exact Hx.
Defined.
