(* ===== verification/Build.v ===== *)
(** cmd/dredd-build/main.go: building a language's root file system and
    registering it in the languages file.  The host's tools (files, docker, dd,
    mkfs, mount, tar) are the class [Tools]. *)
From S2P Require Import Prelude GoInt Utf8 JsonText Json Codec Indent Filepath Langs.

Class Tools (W : Type) := {
  read_file : string -> W -> result bytes;
  write_file : string -> bytes -> W -> W * option error;
  mkdir_all : string -> W -> W * option error;
  mkdir_temp : string -> W -> W * result string;
  remove_all : string -> W -> W;
  (** [exec.Command(args...).Run()] *)
  run : list string -> W -> W * option error;
  create : string -> W -> W * option error;
  run_into : string -> list string -> W -> W * option error;
  open_read : string -> W -> W * option error;
  open_write : string -> W -> W * option error;
  io_copy : string -> string -> W -> W * option error
}.

(** A file that was written is read back. *)
Class ToolsOk (W : Type) `{Tools W} := {
  read_written : forall p b w w', write_file p b w = (w', None) -> read_file p w' = Ok b
}.

Definition firstNonEmpty (a b : string) : string := if String.eqb a "" then b else a.

(** The flags of [add]. *)
Module Flags.
Record t := {
  image : string; id : string; name : string; version : string; source : string;
  runCmd : string; compileCmd : string; sizeMB : Z; rootfsDir : string;
  agentBin : string; langsFile : string
}.
End Flags.
Import Flags.

Definition missing_flag (f : Flags.t) : bool :=
  existsb (fun s => String.eqb s "") [image f; Flags.id f; source f; runCmd f; agentBin f; langsFile f].

Definition rootfsPath (f : Flags.t) : string := Join (rootfsDir f) (Flags.id f +:+ ".ext4").

Definition language (f : Flags.t) : Language.t :=
  Language.Build_t (Flags.id f) (firstNonEmpty (name f) (Flags.id f)) (version f) (Base (rootfsPath f))
    (source f) (compileCmd f) (runCmd f).

Section build.
Context `{Tools W}.

(** [func runRedirect(outPath, name, args...)] *)
Definition runRedirect (outPath : string) (args : list string) : M W unit :=
  act (create outPath) ≫= fun _ => act (run_into outPath args).

(** [func copyFile(src, dst, mode)] *)
Definition copyFile (src dst : string) : M W unit :=
  act (open_read src) ≫= fun _ =>
  act (open_write dst) ≫= fun _ =>
  act (io_copy dst src).

(** [defer f()] around the rest of a function: it runs whatever [m] returns. *)
Definition deferred {A} (f : W -> W) (m : M W A) : M W A := fun w =>
  let '(w, r) := m w in (f w, r).
(** A deferred command, whose error is dropped. *)
Definition run_ (args : list string) (w : W) : W := fst (run args w).

(** [buildRootfs] once the image is mounted: unpack, install the agent. *)
Definition fillImage (agentBin tarPath mnt : string) : M W unit :=
  ctx "untar: " (act (run ["tar"; "-xf"; tarPath; "-C"; mnt])) ≫= fun _ =>
  act (mkdir_all (Join mnt "sbin")) ≫= fun _ =>
  ctx "install agent: " (copyFile agentBin (Join (Join mnt "sbin") "dreddagent-init")) ≫= fun _ =>
  act (mkdir_all (Join mnt "work")).

(** [buildRootfs] once the container exists: export it, make and mount the
    image, fill it. *)
Definition withContainer (agentBin outPath : string) (sizeMB : Z) (tmp cid : string) : M W unit :=
  deferred (run_ ["docker"; "rm"; "-f"; cid]) (
    let tarPath := Join tmp "rootfs.tar" in
    ctx "docker export: " (runRedirect tarPath ["docker"; "export"; cid]) ≫= fun _ =>
    ctx "dd: " (act (run ["dd"; "if=/dev/zero"; "of=" +:+ outPath; "bs=1M";
                           "count=" +:+ fmt_d sizeMB; "status=none"])) ≫= fun _ =>
    ctx "mkfs.ext4: " (act (run ["mkfs.ext4"; "-q"; "-F"; outPath])) ≫= fun _ =>
    let mnt := Join tmp "mnt" in
    act (mkdir_all mnt) ≫= fun _ =>
    ctx "mount: " (act (run ["mount"; "-o"; "loop"; outPath; mnt])) ≫= fun _ =>
    deferred (run_ ["umount"; mnt]) (fillImage agentBin tarPath mnt)).

(** [func buildRootfs(image, agentBin, outPath, sizeMB)] *)
Definition buildRootfs (image agentBin outPath : string) (sizeMB : Z) : M W unit := fun w =>
  match mkdir_temp "dredd-build-" w with
  | (w, Err e) => (w, Err e)
  | (w, Ok tmp) =>
      deferred (remove_all tmp) (
        let cidFile := Join tmp "cid" in
        ctx "docker create: " (act (run ["docker"; "create"; "--cidfile"; cidFile; image; "true"])) ≫= fun _ =>
        (fun w => lift (read_file cidFile w) w) ≫= fun cidBytes =>
        withContainer agentBin outPath sizeMB tmp (of_bytes cidBytes)) w
  end.

(** The loop of [appendLanguage]: replace the first entry with the same id,
    otherwise append. *)
Fixpoint upsert (l : Language.t) (entries : list Language.t) : list Language.t :=
  match entries with
  | [] => [l]
  | x :: xs => if String.eqb (Language.ID x) (Language.ID l) then l :: xs else x :: upsert l xs
  end.

(** The entries of the existing file: none when it cannot be read or is empty. *)
Definition existing (path : string) (w : W) : result (list Language.t) :=
  match read_file path w with
  | Ok [] | Err _ => Ok []
  | Ok b => match unmarshal (A := slice Language.t) b with
            | Ok entries => Ok (elems entries)
            | Err e => Err (EWrap ("parse existing " +:+ path +:+ ": ") e)
            end
  end.

(** [func appendLanguage(path, l)] *)
Definition appendLanguage (path : string) (l : Language.t) : M W unit :=
  (fun w => lift (existing path w) w) ≫= fun entries =>
  let out := marshal_indent (Some (upsert l entries)) in
  act (mkdir_all (Dir path)) ≫= fun _ =>
  act (write_file path (out ++ [byte_of 10])).

(** [func cmdAdd(args)] after parsing: the exit code, or the fatal error. *)
Definition cmdAdd (f : Flags.t) (w : W) : W * result Z :=
  if missing_flag f then (w, Ok 2)
  else (ctx "rootfs-dir: " (act (mkdir_all (rootfsDir f))) ≫= fun _ =>
        ctx "build rootfs: " (buildRootfs (image f) (agentBin f) (rootfsPath f) (sizeMB f)) ≫= fun _ =>
        ctx "update languages file: " (appendLanguage (langsFile f) (language f)) ≫= fun _ =>
        mret 0) w.
End build.

(** ** Paths *)

Lemma rev_last_char (b : bytes) c : c <> slash -> rev (strip_slashes (rev (b ++ [c]))) = b ++ [c].
Proof.
  intros Hc. rewrite rev_app_distr. cbn.
  destruct (Ascii.eqb_spec c slash); [done|]. cbn. by rewrite rev_involutive.
Qed.

Lemma split_last a p : no_slash p = true -> List.last (split_slash (a ++ slash :: p)) [] = p.
Proof. intros Hp. by rewrite split_app, (split_no_slash p), last_last. Qed.

Lemma Base_no_slash a p :
  no_slash p = true -> p <> [] -> Base (of_bytes (a ++ slash :: p)) = of_bytes p.
Proof.
  intros Hp Hne. destruct (exists_last Hne) as (q & c & ->).
  assert (Hc : c <> slash).
  { intros ->. unfold no_slash in Hp. rewrite forallb_app in Hp.
    apply andb_prop in Hp as [_ Hp]. cbn in Hp. discriminate. }
  unfold Base. rewrite to_of_bytes.
  replace (a ++ slash :: q ++ [c]) with ((a ++ slash :: q) ++ [c]) by (by rewrite <- app_assoc).
  destruct ((a ++ slash :: q) ++ [c]) eqn:E; [by destruct a|]. rewrite <- E, rev_last_char by done.
  destruct ((a ++ slash :: q) ++ [c]) eqn:E'; [by destruct a|]. rewrite <- E'.
  rewrite <- app_assoc. cbn [app]. by rewrite split_last.
Qed.

Lemma Base_plain p : no_slash p = true -> p <> [] -> Base (of_bytes p) = of_bytes p.
Proof.
  intros Hp Hne. destruct (exists_last Hne) as (q & c & ->).
  assert (Hc : c <> slash).
  { intros ->. unfold no_slash in Hp. rewrite forallb_app in Hp.
    apply andb_prop in Hp as [_ Hp]. cbn in Hp. discriminate. }
  unfold Base. rewrite to_of_bytes.
  destruct (q ++ [c]) eqn:E; [by destruct q|]. rewrite <- E in *. rewrite rev_last_char by done.
  destruct (q ++ [c]) eqn:E'; [by destruct q|]. rewrite <- E' in *. by rewrite split_no_slash.
Qed.

Lemma join_snoc ps p : ps <> [] -> join_slash (ps ++ [p]) = join_slash ps ++ slash :: p.
Proof.
  induction ps as [|q [|r ps] IH]; intros Hn; [done|done|].
  change (join_slash ((q :: r :: ps) ++ [p])) with (q ++ slash :: join_slash ((r :: ps) ++ [p])).
  rewrite IH by done. cbn [join_slash]. by rewrite <- app_assoc.
Qed.

Lemma plain_parts p : plain p = true -> no_slash (to_bytes p) = true /\ to_bytes p <> [].
Proof.
  unfold plain. intros Hp. apply andb_prop in Hp as [Hp _]. apply andb_prop in Hp as [Hp _].
  apply andb_prop in Hp as [Hs He]. split; [done|].
  by rewrite negb_true_iff, bool_decide_eq_false in He.
Qed.

Lemma rooted_app a b : a <> [] -> rooted (a ++ b) = rooted a.
Proof. by destruct a. Qed.

(** A plain name joined below a directory is its last element. *)
Lemma Base_Join d p : d <> "" -> plain p = true -> Base (Join d p) = p.
Proof.
  intros Hd Hp. destruct (plain_parts p Hp) as [Hs Hne].
  unfold Join. apply String.eqb_neq in Hd as Hd'. rewrite Hd'. unfold Clean, clean_bytes.
  rewrite to_of_bytes, clean_join_parts by done.
  set (ps := clean_parts _ _).
  destruct (decide (ps = [])) as [->|Hps]; cbn [app join_slash].
  - destruct (rooted _).
    + change (slash :: to_bytes p) with ([] ++ slash :: to_bytes p).
      rewrite Base_no_slash by done. apply of_to_bytes.
    + destruct (to_bytes p) eqn:E; [done|]. rewrite <- E, Base_plain by (rewrite ?E; done). apply of_to_bytes.
  - rewrite join_snoc by done. destruct (rooted _).
    + rewrite app_comm_cons, Base_no_slash by done. apply of_to_bytes.
    + destruct (join_slash ps ++ slash :: to_bytes p) eqn:E; [by destruct (join_slash ps)|].
      rewrite <- E, Base_no_slash by done. apply of_to_bytes.
Qed.

Lemma plain_not_abs p : plain p = true -> IsAbs p = false.
Proof.
  intros Hp. destruct (plain_parts p Hp) as [Hs Hne]. unfold IsAbs, rooted.
  destruct (to_bytes p) as [|c b]; [done|]. unfold no_slash in Hs. cbn [forallb] in Hs.
  apply andb_prop in Hs as [Hs _]. by apply negb_true_iff in Hs.
Qed.

(** ** Upserting *)

Lemma upsert_ids l xs :
  Language.ID <$> upsert l xs =
  if decide (Language.ID l ∈ Language.ID <$> xs) then Language.ID <$> xs
  else (Language.ID <$> xs) ++ [Language.ID l].
Proof.
  induction xs as [|x xs IH]; cbn [upsert]; [by rewrite decide_False by set_solver|].
  destruct (String.eqb_spec (Language.ID x) (Language.ID l)) as [He|Hn]; rewrite !fmap_cons.
  - by rewrite He, decide_True by set_solver.
  - rewrite IH. destruct (decide (Language.ID l ∈ Language.ID <$> xs)) as [Hi|Hi].
    + by rewrite decide_True by set_solver.
    + by rewrite decide_False by set_solver.
Qed.

Lemma upsert_forall (P : Language.t -> Prop) l xs : P l -> Forall P xs -> Forall P (upsert l xs).
Proof.
  intros Hl. induction 1 as [|x xs Hx Hxs IH]; cbn; [by constructor|].
  destruct (String.eqb _ _); by constructor.
Qed.

Lemma upsert_valid l xs : missing_fields l = false -> valid_list xs -> valid_list (upsert l xs).
Proof.
  intros Hl [Hf Hd]. split; [by apply upsert_forall|]. rewrite upsert_ids.
  case_decide as Hi; [done|]. apply NoDup_app. split_and!; [done| |apply NoDup_singleton].
  intros x Hx ->%list_elem_of_singleton. done.
Qed.

(** The entry with id [i] after an upsert. *)
Lemma upsert_lookup d l xs i :
  NoDup (Language.ID <$> xs) ->
  byID (catalogue d (upsert l xs)) !! i =
  if decide (i = Language.ID l) then Some (resolve d l) else byID (catalogue d xs) !! i.
Proof.
  intros Hd. cbn [byID catalogue]. induction xs as [|x xs IH]; cbn [upsert].
  - cbn. destruct (decide (i = Language.ID l)) as [->|]; [by rewrite lookup_insert_eq|].
    by rewrite lookup_insert_ne.
  - inversion_clear Hd as [|? ? Hx Hxs]. specialize (IH Hxs).
    destruct (String.eqb_spec (Language.ID x) (Language.ID l)) as [He|Hn]; cbn.
    + rewrite He. destruct (decide (i = Language.ID l)) as [->|].
      * by rewrite lookup_insert_eq.
      * by rewrite !lookup_insert_ne.
    + destruct (decide (i = Language.ID x)) as [->|].
      * by rewrite !lookup_insert_eq, decide_False.
      * by rewrite !lookup_insert_ne.
Qed.

(** ** The calls of a build, in order, each with whether it succeeded *)
Inductive event :=
  | BRun (args : list string) (ok : bool)
  | BMkdir (p : string) (ok : bool)
  | BCreate (p : string) (ok : bool)
  | BOpen (p : string) (ok : bool)
  | BOpenWrite (p : string) (ok : bool)
  | BCopy (dst src : string) (ok : bool)
  | BRemoveAll (p : string).

Definition no_error (r : option error) : bool := bool_decide (r = None).

(** Any tools, with their calls recorded (a command whose output goes to a file
    included). *)
#[export] Instance traced `{Tools W} : Tools (W * list event) := {
  read_file p s := read_file p s.1;
  write_file p b s := let '(w, r) := write_file p b s.1 in ((w, s.2), r);
  mkdir_all p s := let '(w, r) := mkdir_all p s.1 in ((w, s.2 ++ [BMkdir p (no_error r)]), r);
  mkdir_temp p s := let '(w, r) := mkdir_temp p s.1 in ((w, s.2), r);
  remove_all p s := (remove_all p s.1, s.2 ++ [BRemoveAll p]);
  run args s := let '(w, r) := run args s.1 in ((w, s.2 ++ [BRun args (no_error r)]), r);
  create p s := let '(w, r) := create p s.1 in ((w, s.2 ++ [BCreate p (no_error r)]), r);
  run_into p args s := let '(w, r) := run_into p args s.1 in ((w, s.2 ++ [BRun args (no_error r)]), r);
  open_read p s := let '(w, r) := open_read p s.1 in ((w, s.2 ++ [BOpen p (no_error r)]), r);
  open_write p s := let '(w, r) := open_write p s.1 in ((w, s.2 ++ [BOpenWrite p (no_error r)]), r);
  io_copy a b s := let '(w, r) := io_copy a b s.1 in ((w, s.2 ++ [BCopy a b (no_error r)]), r)
}.

Section commands.
Context (tmp image agentBin outPath : string) (sizeMB : Z).
Let mnt := Join tmp "mnt".
Let tarPath := Join tmp "rootfs.tar".

Definition docker_create : list string := ["docker"; "create"; "--cidfile"; Join tmp "cid"; image; "true"].

(** A deferred command: it runs at the end, whatever came of it. *)
Definition ending (args : list string) : course event -> course event :=
  finally (fun tr => exists ok, tr = [BRun args ok]).

(** Unpacking into the mounted image and installing the agent. *)
Definition fill_course : course event :=
  and_then (attempt (BRun ["tar"; "-xf"; tarPath; "-C"; mnt]))
  (and_then (attempt (BMkdir (Join mnt "sbin")))
  (and_then (and_then (attempt (BOpen agentBin))
    (and_then (attempt (BOpenWrite (Join (Join mnt "sbin") "dreddagent-init")))
              (attempt (BCopy (Join (Join mnt "sbin") "dreddagent-init") agentBin))))
            (attempt (BMkdir (Join mnt "work"))))).

(** With the container [cid]: the image is made, mounted and filled; it is
    unmounted if the mount succeeded, and the container is removed. *)
Definition container_course (cid : string) : course event :=
  ending ["docker"; "rm"; "-f"; cid] (
  and_then (and_then (attempt (BCreate tarPath)) (attempt (BRun ["docker"; "export"; cid])))
  (and_then (attempt (BRun ["dd"; "if=/dev/zero"; "of=" +:+ outPath; "bs=1M"; "count=" +:+ fmt_d sizeMB; "status=none"]))
  (and_then (attempt (BRun ["mkfs.ext4"; "-q"; "-F"; outPath]))
  (and_then (attempt (BMkdir mnt))
  (and_then (attempt (BRun ["mount"; "-o"; "loop"; outPath; mnt]))
    (ending ["umount"; mnt] fill_course)))))).

(** A build, [cid] being what the file with the container's id then holds: when
    it cannot be read the container is not known, and stays. *)
Definition build_course (cid : result bytes) : course event :=
  finally (eq [BRemoveAll tmp]) (
  and_then (attempt (BRun docker_create))
    match cid with Ok b => container_course (of_bytes b) | Err _ => outcome false end).
End commands.

(** The id file after docker create. *)
Definition cid_after `{Tools W} (tmp image : string) (w : W) : result bytes :=
  read_file (Join tmp "cid") (run (docker_create tmp image) w).1.

Section calls.
Context `{Tools W}.
Notation log := (snd : W * list event -> list event).

Lemma follows_run args : follows log (act (run args)) (attempt (BRun args)).
Proof. apply follows_act. intros s. cbn. by destruct (run args s.1). Qed.
Lemma follows_mkdir p : follows log (act (mkdir_all p)) (attempt (BMkdir p)).
Proof. apply follows_act. intros s. cbn. by destruct (mkdir_all p s.1). Qed.

Lemma run_logs args (s : W * list event) : exists ok, (run_ args s).2 = s.2 ++ [BRun args ok].
Proof. unfold run_. cbn. destruct (run args s.1). by eexists. Qed.

Lemma follows_deferred {A} (m : M (W * list event) A) f s (K : list event -> Prop) Q :
  (forall s, exists tr, (f s).2 = s.2 ++ tr /\ K tr) -> follows_at log m s Q ->
  follows_at log (deferred f m) s (finally K Q).
Proof.
  intros Hf Hm s' r. unfold deferred. destruct (m s) as [s1 r1] eqn:Em.
  apply Hm in Em as (tr & Hs & HQ). intros Hr.
  assert (s' = f s1 /\ r = r1) as [-> ->] by (split; congruence).
  destruct (Hf s1) as (tr2 & Hf1 & HK). exists (tr ++ tr2). rewrite Hf1, Hs, app_assoc.
  split; [done|]. by exists tr, tr2.
Qed.

Lemma follows_ending {A} args (m : M (W * list event) A) s Q :
  follows_at log m s Q -> follows_at log (deferred (run_ args) m) s (ending args Q).
Proof.
  apply follows_deferred. intros s1. destruct (run_logs args s1) as [ok Hok].
  eexists. split; [exact Hok|by eexists].
Qed.

Lemma follows_copy src dst : follows log (copyFile src dst)
  (and_then (attempt (BOpen src)) (and_then (attempt (BOpenWrite dst)) (attempt (BCopy dst src)))).
Proof.
  repeat (apply follows_bind; [|intros _]); apply follows_act; intros s; cbn;
    [by destruct (open_read _ _)|by destruct (open_write _ _)|by destruct (io_copy _ _ _)].
Qed.

Lemma follows_redirect path args : follows log (runRedirect path args)
  (and_then (attempt (BCreate path)) (attempt (BRun args))).
Proof.
  apply follows_bind; [|intros _]; apply follows_act; intros s; cbn;
    [by destruct (create _ _)|by destruct (run_into _ _ _)].
Qed.

Lemma follows_fill tmp agentBin :
  follows log (fillImage agentBin (Join tmp "rootfs.tar") (Join tmp "mnt")) (fill_course tmp agentBin).
Proof.
  repeat (apply follows_bind; [|intros _]);
    first [apply follows_ctx, follows_run | apply follows_mkdir | apply follows_ctx, follows_copy].
Qed.

Lemma follows_container agentBin outPath sizeMB tmp cid :
  follows log (withContainer agentBin outPath sizeMB tmp cid)
    (container_course tmp agentBin outPath sizeMB cid).
Proof.
  intros s. apply follows_ending. revert s. refine (_ : follows log _ _).
  repeat (apply follows_bind; [|intros _]);
    first [apply follows_ctx, follows_redirect | apply follows_ctx, follows_run | apply follows_mkdir
      | intros s; apply follows_ending, follows_fill].
Qed.

(** [buildRootfs] below its temporary directory. *)
Definition withImage (image agentBin outPath : string) (sizeMB : Z) (tmp : string) : M (W * list event) unit :=
  ctx "docker create: " (act (run (docker_create tmp image))) ≫= fun _ =>
  (fun w => lift (read_file (Join tmp "cid") w) w) ≫= fun cidBytes =>
  withContainer agentBin outPath sizeMB tmp (of_bytes cidBytes).

(** docker made a container whose id cannot be read. *)
Definition container_lost (tmp image : string) (w : W) : Prop :=
  no_error (run (docker_create tmp image) w).2 = true /\ is_ok (cid_after tmp image w) = false.

Lemma follows_image image agentBin outPath sizeMB tmp (s : W * list event) :
  let cid := cid_after tmp image s.1 in
  follows_at log (withImage image agentBin outPath sizeMB tmp) s (fun ok tr =>
    and_then (attempt (BRun (docker_create tmp image)))
      match cid with
      | Ok b => container_course tmp agentBin outPath sizeMB (of_bytes b) | Err _ => outcome false end ok tr /\
    (container_lost tmp image s.1 -> ok = false /\ tr = [BRun (docker_create tmp image) true])).
Proof.
  intros cid s2 r2. unfold withImage, mbind at 1, M_bind at 1, ctx at 1, act at 1, container_lost, cid_after.
  subst cid. unfold cid_after. cbn [run traced read_file].
  destruct (run (docker_create tmp image) s.1) as [w [e|]]; cbn [fst snd wrap_err].
  - intros [= <- <-]. eexists. split; [done|]. split; [by left|]. by intros [? _].
  - unfold mbind, M_bind, lift. cbn [fst]. destruct (read_file _ w) as [b|e].
    + intros (tr & Hs & HQ)%follows_container. cbn in Hs. eexists. rewrite Hs, <- app_assoc.
      split; [done|]. split; [|by intros [_ ?]]. right. by eexists [_], tr.
    + intros [= <- <-]. eexists. split; [done|]. split; [|done]. right. eexists [_], [].
      by rewrite app_nil_r.
Qed.

(** C40. What a build sets up it takes down in reverse, with one exception.  Its
    calls are made in order up to the first that fails, and it succeeds
    exactly when all succeeded; the image is unmounted if it was mounted, then
    the container is removed if its id could be read, then the temporary
    directory.  When docker created the container but the id file cannot be
    read, the build fails at once and the container is left behind.  The
    unmount is not checked, so the temporary directory is removed even if it
    failed. *)
Theorem build_takes_down image agentBin outPath sizeMB (s s' : W * list event) r tmp s1 :
  mkdir_temp "dredd-build-" s = (s1, Ok tmp) ->
  buildRootfs image agentBin outPath sizeMB s = (s', r) ->
  exists tr, s'.2 = s.2 ++ tr /\
    build_course tmp image agentBin outPath sizeMB (cid_after tmp image s1.1) (is_ok r) tr /\
    (container_lost tmp image s1.1 ->
       is_ok r = false /\ tr = [BRun (docker_create tmp image) true; BRemoveAll tmp]).
Proof.
  intros Ht. unfold buildRootfs. rewrite Ht.
  assert (Hs1 : s1.2 = s.2) by (cbn in Ht; destruct (mkdir_temp _ _); by invc Ht).
  rewrite <- Hs1. intros Hb.
  pose proof (follows_image image agentBin outPath sizeMB tmp s1) as Hm.
  apply (follows_deferred _ (remove_all tmp) _ (eq [BRemoveAll tmp]) _) in Hm;
    [|intros s2; by exists [BRemoveAll tmp]].
  destruct (Hm _ _ Hb) as (tr & Hs & tr1 & tr2 & -> & [HQ Hl] & <-). eexists. split; [done|].
  split; [by exists tr1, [BRemoveAll tmp]|]. by intros [-> ->]%Hl.
Qed.
End calls.

Section registering.
Context `{ToolsOk W}.

(** After [dredd-build] registered a language, the daemon's [Load] of the
    languages file succeeds, finds the new entry with its root file system
    resolved, and finds every other entry as it was before, for an existing
    file with valid entries in valid UTF-8 (or none, or an empty one). *)
Theorem append_then_load path l (w w' : W) d entries :
  existing path w = Ok entries -> valid_list entries -> missing_fields l = false ->
  Forall (fun x => Language.canon x = x) (l :: entries) ->
  appendLanguage path l w = (w', Ok tt) ->
  exists r, Load (read_file path w') d = Ok r /\ registry_wf r /\
    forall i, Get r i = if decide (i = Language.ID l) then Some (resolve d l)
                        else Get (catalogue d entries) i.
Proof.
  intros He Hv Hl Hc Ha. unfold appendLanguage in Ha.
  apply bind_ok in Ha as (w1 & xs & Hx & Ha). unfold lift in Hx. rewrite He in Hx. invc Hx.
  apply bind_ok in Ha as (w2 & [] & _ & Ha). apply act_ok, read_written in Ha. rewrite Ha.
  unfold Load. rewrite unmarshal_indent; [|done|by apply Forall_true|by vm_compute].
  pose proof (upsert_valid l xs Hl Hv) as Hu. inversion_clear Hc as [|? ? Hcl Hcx].
  assert (Hcan : Language.canon <$> upsert l xs = upsert l xs).
  { assert (Hf : Forall (fun x => Language.canon x = x) (upsert l xs)) by by apply upsert_forall.
    rewrite <- list_fmap_id. apply list_fmap_ext. intros i x Hx%list_elem_of_lookup_2.
    rewrite Forall_forall in Hf. by apply Hf. }
  match goal with |- context [load_list ?x d] => change x with (Some (Language.canon <$> upsert l xs)) end.
  rewrite Hcan, load_list_ok by done. eexists. split; [done|].
  split; [by apply catalogue_wf|]. intros i. unfold Get. apply upsert_lookup. apply Hv.
Qed.
End registering.

(** The entry [cmdAdd] registers leads the daemon back to the image it
    built: for an id that gives a plain file name, resolving the entry's root
    file system against the same directory is the path that was built. *)
Theorem registered_rootfs_is_built f :
  Flags.rootfsDir f <> "" -> plain (Flags.id f +:+ ".ext4") = true ->
  Language.Rootfs (resolve (Flags.rootfsDir f) (language f)) = rootfsPath f.
Proof.
  intros Hd Hp. unfold resolve, language, rootfsPath. cbn [Language.Rootfs].
  rewrite Base_Join, plain_not_abs by done. done.
Qed.


(** ** The properties at a concrete host *)

(** A map of files; commands whose first word is in [broken] fail. *)
Record toy := { files : gmap string bytes; broken : list string }.
#[export] Instance toy_tools : Tools toy := {
  read_file p w := match files w !! p with Some b => Ok b | None => Err (ENew "no such file") end;
  write_file p b w := ({| files := <[p := b]> (files w); broken := broken w |}, None);
  mkdir_all _ w := (w, None);
  mkdir_temp _ w := (w, Ok "/tmp/dredd-build-1");
  remove_all _ w := w;
  run args w := (w, if bool_decide (head args ∈ Some <$> broken w) then Some (ENew "exit status 1") else None);
  create _ w := (w, None);
  run_into _ _ w := (w, None);
  open_read _ w := (w, None);
  open_write _ w := (w, None);
  io_copy _ _ w := (w, None)
}.

#[export] Instance toy_tools_ok : ToolsOk toy.
Proof.
  split. intros p b w w'. cbn. intros [= <-]. cbn. by rewrite lookup_insert_eq.
Qed.

Definition demo_flags : Flags.t :=
  Flags.Build_t "ruby:3.3" "ruby-3.3" "" "3.3" "main.rb" "ruby main.rb" "" 1024
    "/var/lib/dredd/rootfs" "/usr/bin/dreddagent" "/etc/dredd/languages.json".

Definition demo_toy : toy :=
  {| files := {["/etc/dredd/languages.json" := marshal (Some demo_languages);
               "/tmp/dredd-build-1/cid" := b#"c0ffee"]};
     broken := ["tar"] |}.

(** Unpacking fails: the image is unmounted, the container removed. *)
Definition demo_build : (toy * list event) * result unit :=
  buildRootfs "ruby:3.3" "/usr/bin/dreddagent" "/r/ruby.ext4" 1024 (demo_toy, [] : list event).
Lemma build_takes_down_witness :
  build_course "/tmp/dredd-build-1" "ruby:3.3" "/usr/bin/dreddagent" "/r/ruby.ext4" 1024
    (Ok (b#"c0ffee")) false demo_build.1.2.
Proof.
  destruct (build_takes_down "ruby:3.3" "/usr/bin/dreddagent" "/r/ruby.ext4" 1024
    (demo_toy, [] : list event) demo_build.1 demo_build.2 "/tmp/dredd-build-1" (demo_toy, []))
    as (tr & Ht & Hc & _).
  - reflexivity.
  - vm_compute. reflexivity.
  - rewrite Ht. exact Hc.
Defined.

Lemma append_then_load_witness :
  exists r, Load (read_file (Flags.langsFile demo_flags)
      (fst (appendLanguage (Flags.langsFile demo_flags) (language demo_flags) demo_toy))) "/rootfs" = Ok r /\
    Get r "ruby-3.3" = Some (resolve "/rootfs" (language demo_flags)).
Proof.
  destruct (append_then_load (Flags.langsFile demo_flags) (language demo_flags) demo_toy
    (fst (appendLanguage (Flags.langsFile demo_flags) (language demo_flags) demo_toy)) "/rootfs"
    demo_languages) as (r & Hl & _ & Hg).
  - vm_compute. reflexivity.
  - by apply (bool_decide_unpack _); vm_compute.
  - reflexivity.
  - repeat constructor.
  - vm_compute. reflexivity.
  - exists r. split; [exact Hl|]. exact (Hg "ruby-3.3").
Defined.

Lemma registered_rootfs_is_built_witness :
  Language.Rootfs (resolve "/var/lib/dredd/rootfs" (language demo_flags)) =
    "/var/lib/dredd/rootfs/ruby-3.3.ext4".
Proof.
  transitivity (rootfsPath demo_flags); [|reflexivity].
  apply (registered_rootfs_is_built demo_flags); [discriminate|reflexivity].
Defined.
