(* ===== verification/Cli.v ===== *)
(** cmd/dredd-build/main.go, the command line: [main], [usage], the flags of
    [add] as the flag package parses them, and their defaults.  What [add] does
    with its flags is Build.v. *)
From S2P Require Import Prelude GoInt Utf8 JsonText Json Codec Indent Filepath Langs Config Build.
Import Flags.

(** [func envOr(key, def string) string] *)
Definition envOr (e : environ) (key def : string) : string :=
  match e !! key with
  | Some v => if String.eqb v "" then def else v
  | None => def
  end.

(** * strconv.ParseInt(s, 0, 64), which reads the int flag *)

(** The value of a digit, letters counting from ten. *)
Definition digit_value (c : ascii) : option Z :=
  let n := Z.of_nat (nat_of_ascii c) in
  if (48 <=? n) && (n <=? 57) then Some (n - 48)
  else if (97 <=? n) && (n <=? 122) then Some (n - 87)
  else if (65 <=? n) && (n <=? 90) then Some (n - 55)
  else None.

(** The digits of a number in base [base]: underscores are skipped. *)
Fixpoint base_value (base acc : Z) (b : bytes) : option Z :=
  match b with
  | [] => Some acc
  | c :: b =>
      if Ascii.eqb c "_" then base_value base acc b
      else match digit_value c with
           | Some d => if d <? base then base_value base (acc * base + d) b else None
           | None => None
           end
  end.

(** Every underscore stands between two digits; [saw] is whether a digit (or
    the base prefix) came just before. *)
Fixpoint underscores_ok (saw : bool) (b : bytes) : bool :=
  match b with
  | [] => true
  | c :: b =>
      if Ascii.eqb c "_" then
        saw && match b with [] => false | d :: _ => negb (Ascii.eqb d "_") end && underscores_ok false b
      else underscores_ok true b
  end.

(** The base a number is written in, whether it has a prefix that counts as a
    digit for the underscores, and its digits. *)
Definition number_base (b : bytes) : Z * bool * bytes :=
  match b with
  | c :: p :: ((_ :: _) as r) =>
      if Ascii.eqb c "0" then
        if Ascii.eqb p "b" || Ascii.eqb p "B" then (2, true, r)
        else if Ascii.eqb p "o" || Ascii.eqb p "O" then (8, true, r)
        else if Ascii.eqb p "x" || Ascii.eqb p "X" then (16, true, r)
        else (8, true, p :: r)
      else (10, false, b)
  | c :: r => if Ascii.eqb c "0" then (8, true, r) else (10, false, b)
  | [] => (10, false, b)
  end.

Definition parse_int0 (s : string) : result Z :=
  let b := to_bytes s in
  let '(neg, ds) :=
    match b with
    | c :: r => if Ascii.eqb c "-" then (true, r) else if Ascii.eqb c "+" then (false, r) else (false, b)
    | [] => (false, b)
    end in
  match ds with
  | [] => Err syntax_error
  | _ =>
      let '(base, prefixed, digits) := number_base ds in
      match base_value base 0 digits with
      | None => Err syntax_error
      | Some n =>
          if negb (underscores_ok prefixed digits) then Err syntax_error
          else let v := if neg : bool then - n else n in
               if decide (int64 v) then Ok v else Err range_error
      end
  end.

(** * The flag package, for string and int flags *)

(** What an argument is to the parser: the first that is no flag ends it, and
    so does [--]; a flag may carry its value after an equals sign. *)
Inductive token :=
  | NotFlag
  | Terminator
  | BadSyntax
  | AFlag (name : string) (value : option string).

(** The name up to the first equals sign, and what follows it. *)
Fixpoint cut_equals (b : bytes) : bytes * option bytes :=
  match b with
  | [] => ([], None)
  | c :: b => if Ascii.eqb c "=" then ([], Some b)
              else let '(n, v) := cut_equals b in (c :: n, v)
  end.

Definition named (b : bytes) : token :=
  match b with
  | [] => BadSyntax
  | c :: r =>
      if Ascii.eqb c "-" || Ascii.eqb c "=" then BadSyntax
      else let '(n, v) := cut_equals r in AFlag (of_bytes (c :: n)) (of_bytes <$> v)
  end.

Definition tokenize (s : string) : token :=
  match to_bytes s with
  | c :: d :: r =>
      if Ascii.eqb c "-" then
        if Ascii.eqb d "-" then match r with [] => Terminator | _ => named r end
        else named (d :: r)
      else NotFlag
  | _ => NotFlag
  end.

(** The flags [add] defines, and their [Set]: [None] for an unknown name. *)
Definition set_flag (name value : string) (f : Flags.t) : option (result Flags.t) :=
  let 'Build_t i d n v s r c z o a l := f in
  if String.eqb name "image" then Some (Ok (Build_t value d n v s r c z o a l))
  else if String.eqb name "id" then Some (Ok (Build_t i value n v s r c z o a l))
  else if String.eqb name "name" then Some (Ok (Build_t i d value v s r c z o a l))
  else if String.eqb name "version" then Some (Ok (Build_t i d n value s r c z o a l))
  else if String.eqb name "source" then Some (Ok (Build_t i d n v value r c z o a l))
  else if String.eqb name "run" then Some (Ok (Build_t i d n v s value c z o a l))
  else if String.eqb name "compile" then Some (Ok (Build_t i d n v s r value z o a l))
  else if String.eqb name "size-mb" then
    Some (match parse_int0 value with Ok k => Ok (Build_t i d n v s r c k o a l) | Err e => Err e end)
  else if String.eqb name "rootfs-dir" then Some (Ok (Build_t i d n v s r c z value a l))
  else if String.eqb name "agent" then Some (Ok (Build_t i d n v s r c z o value l))
  else if String.eqb name "languages-file" then Some (Ok (Build_t i d n v s r c z o a value))
  else None.

(** [fs.Parse]: the flags and the arguments left, a request for help, or a
    usage error. *)
Inductive parsed := Parsed (f : Flags.t) (rest : list string) | Help | BadUsage.

Fixpoint parse_flags (f : Flags.t) (args : list string) : parsed :=
  match args with
  | [] => Parsed f []
  | s :: rest =>
      match tokenize s with
      | NotFlag => Parsed f args
      | Terminator => Parsed f rest
      | BadSyntax => BadUsage
      | AFlag name (Some v) =>
          match set_flag name v f with
          | None => if String.eqb name "help" || String.eqb name "h" then Help else BadUsage
          | Some (Ok f) => parse_flags f rest
          | Some (Err _) => BadUsage
          end
      | AFlag name None =>
          match rest with
          | [] => match set_flag name "" f with
                  | None => if String.eqb name "help" || String.eqb name "h" then Help else BadUsage
                  | Some _ => BadUsage
                  end
          | v :: rest =>
              match set_flag name v f with
              | None => if String.eqb name "help" || String.eqb name "h" then Help else BadUsage
              | Some (Ok f) => parse_flags f rest
              | Some (Err _) => BadUsage
              end
          end
      end
  end.

(** The flags before parsing. *)
Definition default_flags (e : environ) : Flags.t :=
  Build_t "" "" "" "" "" "" "" 1024
    (envOr e "DREDD_ROOTFS_DIR" "/var/lib/dredd/rootfs")
    (envOr e "DREDD_AGENT_BINARY" "")
    (envOr e "DREDD_LANGUAGES_FILE" "").

(** * The command *)
Section command.
Context `{Tools W}.

(** [func usage()]: the exit code. *)
Definition usage : Z := 2.

(** [cmdAdd] from its arguments, under [flag.ExitOnError]. *)
Definition add (e : environ) (args : list string) (w : W) : W * result Z :=
  match parse_flags (default_flags e) args with
  | Help => (w, Ok 0)
  | BadUsage => (w, Ok 2)
  | Parsed f _ => cmdAdd f w
  end.

(** [func main()]: the exit code, and the error [log.Fatalf] reports. *)
Definition main (e : environ) (argv : list string) (w : W) : W * Z * option error :=
  match argv with
  | _ :: cmd :: args =>
      if String.eqb cmd "add" then
        match add e args w with
        | (w, Ok code) => (w, code, None)
        | (w, Err err) => (w, 1, Some err)
        end
      else (w, usage, None)
  | _ => (w, usage, None)
  end.
End command.

(** ** Spelling flags *)

Definition flag_names : list string :=
  ["image"; "id"; "name"; "version"; "source"; "run"; "compile"; "size-mb"; "rootfs-dir"; "agent"; "languages-file"].

(** The four spellings of a flag with its value. *)
Inductive spelled (name value : string) : list string -> Prop :=
  | spelled_one : spelled name value ["-" +:+ name; value]
  | spelled_two : spelled name value ["--" +:+ name; value]
  | spelled_one_equals : spelled name value ["-" +:+ name +:+ "=" +:+ value]
  | spelled_two_equals : spelled name value ["--" +:+ name +:+ "=" +:+ value].

Definition set_known (f : Flags.t) (kv : string * string) : result Flags.t :=
  default (Ok f) (set_flag kv.1 kv.2 f).

Lemma set_flag_known name value f : name ∈ flag_names -> set_flag name value f = Some (set_known f (name, value)).
Proof.
  intros Hn. unfold set_known. cbn [fst snd].
  assert (Hs : is_Some (set_flag name value f)); [|by destruct Hs as [x ->]].
  destruct f. unfold flag_names in Hn.
  repeat (apply elem_of_cons in Hn as [->|Hn]; [eexists; reflexivity|]). by apply elem_of_nil in Hn.
Qed.

Lemma parse_spelled name value ws f rest :
  name ∈ flag_names -> spelled name value ws ->
  parse_flags f (ws ++ rest) =
  match set_known f (name, value) with Ok f' => parse_flags f' rest | Err _ => BadUsage end.
Proof.
  intros Hn Hs. pose proof (set_flag_known name value f Hn) as Hset.
  assert (Htok : (ws = ["-" +:+ name; value] \/ ws = ["--" +:+ name; value]) /\
      tokenize (hd "" ws) = AFlag name None \/
    (exists w, ws = [w] /\ tokenize w = AFlag name (Some value))).
  { destruct Hs; [left|left|right; eexists|right; eexists]; (split; [by auto|]);
      unfold flag_names in Hn;
      (repeat (apply elem_of_cons in Hn as [->|Hn];
        [first [reflexivity | rewrite <- (of_to_bytes value) at 2; reflexivity]|]));
      by apply elem_of_nil in Hn. }
  destruct Htok as [[[-> | ->] Ht]|(w & -> & Ht)]; cbn [app hd] in *; cbn [parse_flags]; rewrite Ht, Hset;
    by destruct (set_known f (name, value)).
Qed.

(** * Properties *)

(** The arguments of [add] are read as written: flags given in any of the
    four spellings ([-f v], [--f v], [-f=v], [--f=v]), in any order and any
    number of times, set their values one after another over the defaults, so
    the last one counts, and a size that is no integer is a usage error. *)
Theorem flags_read_as_written (f : Flags.t) (kvs : list (string * string)) (wss : list (list string)) :
  Forall2 (fun kv ws => kv.1 ∈ flag_names /\ spelled kv.1 kv.2 ws) kvs wss ->
  parse_flags f (concat wss) =
  match foldM set_known f kvs with Ok f' => Parsed f' [] | Err _ => BadUsage end.
Proof.
  intros Hs. revert f. induction Hs as [|[k v] ws kvs wss [Hn Hw] _ IH]; intros f; [done|].
  cbn [concat foldM]. rewrite (parse_spelled k v) by done. by destruct (set_known f (k, v)).
Qed.

(** The steps of [cmdAdd] before the languages file. *)
Definition built `{Tools W} (f : Flags.t) : M W unit :=
  ctx "rootfs-dir: " (act (mkdir_all (rootfsDir f))) ≫= fun _ =>
  ctx "build rootfs: " (buildRootfs (image f) (agentBin f) (rootfsPath f) (sizeMB f)).

Lemma cmdAdd_ok `{Tools W} f (w w' : W) :
  missing_flag f = false -> cmdAdd f w = (w', Ok 0) ->
  exists w1, built f w = (w1, Ok tt) /\ appendLanguage (langsFile f) (language f) w1 = (w', Ok tt).
Proof.
  intros Hm. unfold cmdAdd, built. rewrite Hm. intros Hc.
  apply bind_ok in Hc as (w1 & [] & H1 & Hc). apply bind_ok in Hc as (w2 & [] & H2 & Hc).
  apply bind_ok in Hc as (w3 & [] & H3%ctx_ok & [= <-]).
  exists w2. split; [|done]. by rewrite (bind_step _ _ _ _ _ H1).
Qed.

Lemma language_complete f :
  missing_flag f = false -> rootfsDir f <> "" -> plain (Flags.id f +:+ ".ext4") = true ->
  missing_fields (language f) = false.
Proof.
  intros Hm Hd Hp. unfold missing_flag in Hm. cbn [existsb] in Hm.
  unfold missing_fields, language, rootfsPath.
  cbn [Language.ID Language.Rootfs Language.RunCmd Language.SourceFile].
  rewrite Base_Join by done. repeat (apply orb_false_iff in Hm as [? Hm]).
  repeat (apply orb_false_iff; split); try done. by destruct (Flags.id f).
Qed.

(** C21. [dredd-build add] and the daemon agree: when the command exits with 0
    after building (its flags complete, the id a plain file name, the languages
    file valid), the daemon's [Load] of that file finds the language with the
    commands that were given and the path of the image that was built, and
    every other language as it was. *)
Theorem add_registers `{ToolsOk W} e prog args (w w' : W) f rest entries :
  parse_flags (default_flags e) args = Parsed f rest -> missing_flag f = false ->
  rootfsDir f <> "" -> plain (Flags.id f +:+ ".ext4") = true ->
  (forall w1, built f w = (w1, Ok tt) -> existing (langsFile f) w1 = Ok entries) ->
  valid_list entries -> Forall (fun x => Language.canon x = x) (language f :: entries) ->
  main e (prog :: "add" :: args) w = (w', 0, None) ->
  exists r l, Load (read_file (langsFile f) w') (rootfsDir f) = Ok r /\ registry_wf r /\
    Get r (Flags.id f) = Some l /\ Language.Rootfs l = rootfsPath f /\
    Language.SourceFile l = source f /\ Language.CompileCmd l = compileCmd f /\ Language.RunCmd l = runCmd f /\
    forall i, i <> Flags.id f -> Get r i = Get (catalogue (rootfsDir f) entries) i.
Proof.
  intros Hp Hm Hd Hpl Hex Hv Hc. unfold main, add. cbn [String.eqb Ascii.eqb Bool.eqb]. rewrite Hp.
  destruct (cmdAdd f w) as [w2 [code|x]] eqn:Ea; [|done]. intros [= -> ->].
  destruct (cmdAdd_ok f w w' Hm Ea) as (w1 & Hb & Happ).
  destruct (append_then_load (langsFile f) (language f) w1 w' (rootfsDir f) entries) as (r & Hl & Hr & Hg);
    [by apply Hex|done|by apply language_complete|done|done|].
  exists r, (resolve (rootfsDir f) (language f)). split_and!; [done|done| | | | | |].
  - rewrite Hg, decide_True; done.
  - by apply registered_rootfs_is_built.
  - unfold resolve. by destruct (negb _).
  - unfold resolve. by destruct (negb _).
  - unfold resolve. by destruct (negb _).
  - intros i Hi. rewrite Hg, decide_False; done.
Qed.

(** Nothing is built, and nothing registered, unless the command is [add] with
    well-formed and complete flags; every other command line, a request for
    help included, ends with a code and no effect. *)
Theorem other_commands_do_nothing `{Tools W} e argv (w : W) :
  (forall prog args f rest, argv = prog :: "add" :: args ->
     parse_flags (default_flags e) args = Parsed f rest -> missing_flag f = true) ->
  exists code, main e argv w = (w, code, None) /\ (code = 0 \/ code = 2).
Proof.
  intros Hn. unfold main. destruct argv as [|prog [|cmd args]]; [by eexists; auto..|].
  destruct (String.eqb_spec cmd "add") as [->|]; [|by eexists; auto].
  unfold add. destruct (parse_flags (default_flags e) args) as [f rest| |] eqn:Ep; [|by eexists; auto..].
  unfold cmdAdd. rewrite (Hn prog args f rest eq_refl Ep). by eexists; auto.
Qed.

(** ** The properties at concrete command lines *)

Definition demo_args : list string :=
  ["--image"; "ruby:3.3"; "--id=ruby-3.3"; "-version"; "3.3"; "-source=main.rb"; "--run"; "ruby main.rb";
   "--size-mb"; "0x400"; "--agent"; "/usr/bin/dreddagent"].
Definition demo_env : environ := {["DREDD_LANGUAGES_FILE" := "/etc/dredd/languages.json"]}.

Lemma flags_read_as_written_witness :
  parse_flags (default_flags demo_env) demo_args = Parsed demo_flags [].
Proof.
  refine (eq_trans (flags_read_as_written (default_flags demo_env)
    [("image", "ruby:3.3"); ("id", "ruby-3.3"); ("version", "3.3"); ("source", "main.rb");
     ("run", "ruby main.rb"); ("size-mb", "0x400"); ("agent", "/usr/bin/dreddagent")]
    [["--image"; "ruby:3.3"]; ["--id=ruby-3.3"]; ["-version"; "3.3"]; ["-source=main.rb"];
     ["--run"; "ruby main.rb"]; ["--size-mb"; "0x400"]; ["--agent"; "/usr/bin/dreddagent"]]
    _) _).
  - repeat (constructor; [split; [unfold flag_names; set_solver|constructor]|]). constructor.
  - vm_compute. reflexivity.
Defined.

Definition working_toy : toy := {| files := files demo_toy; broken := [] |}.

Lemma add_registers_witness :
  exists r l, Load (read_file "/etc/dredd/languages.json"
      (main demo_env ("dredd-build" :: "add" :: demo_args) working_toy).1.1) "/var/lib/dredd/rootfs" = Ok r /\
    Get r "ruby-3.3" = Some l /\ Language.Rootfs l = "/var/lib/dredd/rootfs/ruby-3.3.ext4".
Proof.
  destruct (add_registers demo_env "dredd-build" demo_args working_toy
    (main demo_env ("dredd-build" :: "add" :: demo_args) working_toy).1.1 demo_flags [] demo_languages)
    as (r & l & Hl & _ & Hg & Hr & _).
  - vm_compute. reflexivity.
  - reflexivity.
  - discriminate.
  - reflexivity.
  - intros w1 Hb. apply (f_equal fst) in Hb. cbn [fst] in Hb. subst w1. vm_compute. reflexivity.
  - by apply (bool_decide_unpack _); vm_compute.
  - repeat constructor.
  - vm_compute. reflexivity.
  - exists r, l. split; [exact Hl|]. split; [exact Hg|exact Hr].
Defined.

Lemma other_commands_do_nothing_witness :
  main demo_env ["dredd-build"; "help"] working_toy = (working_toy, 2, None).
Proof.
  destruct (other_commands_do_nothing demo_env ["dredd-build"; "help"] working_toy) as (code & Hm & _).
  - discriminate.
  - rewrite Hm. apply (f_equal (fun x => x.1.2)) in Hm. cbn in Hm. by subst code.
Defined.
