(* ===== verification/System.v ===== *)
(** Several workers on one Redis ([Run] of worker/worker.go with the submissions
    of api/exec.go): the calls of [process] as the steps of each worker,
    interleaved in any order with each other and with submissions. *)
From S2P Require Import Prelude GoInt Utf8 JsonText Json Codec Agent Langs Jobs Config Redis Queue Worker.

(** Where a worker stands between two calls of [process]: the id it popped,
    the job it loaded, marked running, is trying with [n] attempts left, or has
    a verdict for.  [WBlocked] is a worker whose call of Execute does not come
    back: the pool's Acquire waits for a VM without a bound, and when every
    refill has given up there is none to come. *)
Inductive wpc :=
  | WIdle
  | WPopped (id : string)
  | WLoaded (id : string) (job : Job.t)
  | WTrying (id : string) (job : Job.t) (lastErr : option error) (n : nat)
  | WVerdict (id : string) (out : ExecResponse + option error)
  | WBlocked (id : string).

Definition holds (w : wpc) : list string :=
  match w with
  | WIdle => []
  | WPopped id | WLoaded id _ | WTrying id _ _ _ | WVerdict id _ | WBlocked id => [id]
  end.

(** The worker is in the middle of [process] and its next call returns. *)
Definition moving (w : wpc) : bool :=
  match w with WIdle | WBlocked _ => false | _ => true end.
Definition hung (w : wpc) : bool := match w with WBlocked _ => true | _ => false end.

Section system.
Context `{RedisOk R} (cfg : Config) (q : Queue) (reg : Registry).

(** One call of one worker.  What the executor does is not determined: any
    response a VM may give (with integers in range), any error, or no return. *)
Inductive worker_step (r : R) : wpc -> R -> wpc -> Prop :=
  | work_pops r' id : Dequeue r = (r', Ok id) -> id <> "" -> worker_step r WIdle r' (WPopped id)
  | work_idles r' : Dequeue r = (r', Ok "") -> worker_step r WIdle r' WIdle
  | work_dequeue_fails r' e : Dequeue r = (r', Err e) -> worker_step r WIdle r' WIdle
  | work_loads r' id job : Load r id = (r', Ok job) -> worker_step r (WPopped id) r' (WLoaded id job)
  | work_load_fails r' id e : Load r id = (r', Err e) -> worker_step r (WPopped id) r' WIdle
  | work_marks r' id job : SetRunning r id = (r', None) ->
      worker_step r (WLoaded id job) r' (WTrying id job None maxAttempts)
  | work_mark_fails r' id job e : SetRunning r id = (r', Some e) ->
      worker_step r (WLoaded id job) r' WIdle
  | work_unknown id job le n : Get reg (Job.Language job) = None ->
      worker_step r (WTrying id job le n) r
        (WVerdict id (inr (Some (ENew ("unknown language " +:+ fmt_q (Job.Language job))))))
  | work_answers id job le n lang resp : Get reg (Job.Language job) = Some lang -> response_wf resp ->
      worker_step r (WTrying id job le (S n)) r (WVerdict id (inl resp))
  | work_fails id job le n lang e : Get reg (Job.Language job) = Some lang ->
      worker_step r (WTrying id job le (S n)) r (WTrying id job (Some e) n)
  | work_blocks id job le n lang : Get reg (Job.Language job) = Some lang ->
      worker_step r (WTrying id job le (S n)) r (WBlocked id)
  | work_gives_up id job le lang : Get reg (Job.Language job) = Some lang ->
      worker_step r (WTrying id job le 0) r (WVerdict id (inr le))
  | work_concludes id out :
      worker_step r (WVerdict id out) (conclude q r id out) WIdle.

(** The server drops a key whose time to live has passed. *)
Definition expire (ks : keyspace) (key : string) : keyspace :=
  {| hashes := delete key (hashes ks); lists := lists ks; ttls := delete key (ttls ks) |}.

(** The client, the workers, and every id ever handed to a submission. *)
Record sys := { client : R; workers : list wpc; used : gset string }.

(** A submission (its id is a fresh ULID), a client reading a job, an expiry,
    or a call of one of the workers. *)
Inductive sys_step (s : sys) : sys -> Prop :=
  | sys_submits job r' oe : Job.ID job ∉ used s -> Job.ID job <> "" ->
      int64 (Job.TimeLimitMs job) -> int64 (Job.MemoryLimitMb job) ->
      Enqueue (client s) job = (r', oe) ->
      sys_step s {| client := r'; workers := workers s; used := {[Job.ID job]} ∪ used s |}
  | sys_reads r' id res : Load (client s) id = (r', res) ->
      sys_step s {| client := r'; workers := workers s; used := used s |}
  | sys_expires r' id : is_Some (ttls (view (client s)) !! jobKey id) ->
      view r' = expire (view (client s)) (jobKey id) ->
      sys_step s {| client := r'; workers := workers s; used := used s |}
  | sys_works l1 w l2 r' w' : workers s = l1 ++ w :: l2 -> worker_step (client s) w r' w' ->
      sys_step s {| client := r'; workers := l1 ++ w' :: l2; used := used s |}.

(** [Run]: [WorkerConcurrency] idle workers on an empty queue. *)
Definition sys_start (s : sys) : Prop :=
  represents (view (client s)) empty_store /\
  workers s = replicate (Z.to_nat (WorkerConcurrency cfg)) WIdle /\ used s = ∅.

(** ** The abstract effect of a step *)

Definition popped (st : store) (rest : list string) : store :=
  {| jobs := jobs st; pending := rest; expiring := expiring st |}.

Lemma run_op_represents r st o r' oe :
  represents (view r) st -> op_pre st o -> run_op q r o = (r', oe) ->
  represents (view r') (spec_op q st o) \/ represents (view r') st.
Proof.
  intros Hr Hp [Hv|[_ Hv]]%run_op_view; rewrite Hv; [|by right].
  left. by apply op_effect_represents.
Qed.

(** How far a job has come. *)
Definition rank (j : Job.t) : nat :=
  if String.eqb (Job.Status j) StatusQueued then 0%nat
  else if String.eqb (Job.Status j) StatusRunning then 1%nat
  else if Terminal (Job.Status j) then 2%nat else 3%nat.

Lemma rank_0 j : rank j = 0%nat -> Job.Status j = StatusQueued.
Proof.
  unfold rank. destruct (String.eqb_spec (Job.Status j) StatusQueued) as [|]; [done|].
  by repeat case_match.
Qed.

Lemma rank_below_2 j : (rank j < 2)%nat -> Job.Status j = StatusQueued \/ Job.Status j = StatusRunning.
Proof.
  unfold rank. destruct (String.eqb_spec (Job.Status j) StatusQueued) as [|]; [auto|].
  destruct (String.eqb_spec (Job.Status j) StatusRunning) as [|]; [auto|].
  destruct (Terminal _); lia.
Qed.

Lemma rank_1 j : rank j = 1%nat -> Job.Status j = StatusRunning.
Proof.
  unfold rank. destruct (String.eqb_spec (Job.Status j) StatusRunning) as [|]; [done|].
  by repeat case_match.
Qed.

Lemma rank_2 j : rank j = 2%nat <-> Terminal (Job.Status j) = true.
Proof.
  unfold rank. destruct (String.eqb_spec (Job.Status j) StatusQueued) as [->|]; [done|].
  destruct (String.eqb_spec (Job.Status j) StatusRunning) as [->|]; [done|].
  by destruct (Terminal _).
Qed.

(** The statuses in the store agree with what is pending and what the workers
    hold, and no id is in two places. *)
Definition at_rank (st : store) (n : nat) (id : string) : Prop :=
  exists j, jobs st !! id = Some j /\ rank j = n.
Definition pc_agrees (st : store) (w : wpc) : Prop :=
  match w with
  | WIdle => True
  | WPopped id => at_rank st 0 id
  | WLoaded id job => jobs st !! id = Some job /\ rank job = 0%nat
  | WTrying id job _ _ => jobs st !! id = Some (with_status StatusRunning job)
  | WVerdict id out => at_rank st 1 id /\ verdict_wf out
  | WBlocked id => at_rank st 1 id
  end.
Record agrees (st : store) (ws : list wpc) (us : gset string) : Prop := {
  ag_once : NoDup (pending st ++ (ws ≫= holds));
  ag_pending : forall id, id ∈ pending st -> at_rank st 0 id;
  ag_workers : forall w, w ∈ ws -> pc_agrees st w;
  ag_used : forall id, is_Some (jobs st !! id) -> id ∈ us;
  ag_named : "" ∉ us;
  ag_expiring : forall id, is_Some (expiring st !! id) -> at_rank st 2 id
}.

(** A change of the jobs that spares the ids of a worker. *)
Lemma pc_agrees_other st st' w :
  (forall id, id ∈ holds w -> jobs st' !! id = jobs st !! id) -> pc_agrees st w -> pc_agrees st' w.
Proof.
  intros Hj. destruct w as [|id|id job|id job le n|id out|id]; cbn in *; [done|..];
    unfold at_rank; rewrite Hj by (by left); done.
Qed.

(** What a worker holds is not finished. *)
Lemma pc_held st w id :
  pc_agrees st w -> id ∈ holds w -> exists j, jobs st !! id = Some j /\ (rank j < 2)%nat.
Proof.
  destruct w as [|i|i job|i job le n|i out|i]; cbn; [set_solver|..]; intros Ha ->%list_elem_of_singleton.
  - destruct Ha as (j & ? & Hn). exists j. rewrite Hn. auto.
  - destruct Ha as [? Hn]. exists job. rewrite Hn. auto.
  - eexists. split; [done|]. cbn. lia.
  - destruct Ha as [(j & ? & Hn) _]. exists j. rewrite Hn. auto.
  - destruct Ha as (j & ? & Hn). exists j. rewrite Hn. auto.
Qed.

(** How one job may change: its status only advances, a finished job does not
    change, and one that is gone does not come back. *)
Definition advance (oj oj' : option Job.t) : Prop :=
  match oj, oj' with
  | Some j, Some j' => (rank j <= rank j')%nat /\ (rank j = 2%nat -> j' = j)
  | _, None => True
  | None, Some _ => False
  end.
Definition advances (us : gset string) (st st' : store) : Prop :=
  forall id, id ∈ us -> advance (jobs st !! id) (jobs st' !! id).

#[export] Instance advance_preorder : PreOrder advance.
Proof.
  split; [by intros [j|]; cbn|]. intros [a|] [b|] [c|]; cbn; try done.
  intros [H1 H2] [H3 H4]. split; [lia|]. intros Ha.
  destruct (H2 Ha). by apply H4.
Qed.

Lemma advances_same us st st' : jobs st' = jobs st -> advances us st st'.
Proof. intros Hj id _. by rewrite Hj. Qed.

Lemma advances_alter us st f id st' :
  jobs st' = alter f id (jobs st) ->
  (forall j, jobs st !! id = Some j -> (rank j <= rank (f j))%nat /\ rank j <> 2%nat) -> advances us st st'.
Proof.
  intros Hj Hf i _. rewrite Hj. destruct (decide (id = i)) as [<-|Hn].
  - rewrite lookup_alter_eq. destruct (jobs st !! id) as [j|]; [|done]. cbn.
    destruct (Hf j eq_refl) as [Hle Hne]. by split.
  - by rewrite lookup_alter_ne.
Qed.

(** ** Preservation *)

Lemma elem_of_app_cons {A} (x : A) l1 y l2 : x ∈ l1 ++ y :: l2 -> x = y \/ x ∈ l1 ++ l2.
Proof. set_solver. Qed.

Lemma workers_held l1 w l2 : (l1 ++ w :: l2) ≫= holds = (l1 ≫= holds) ++ holds w ++ (l2 ≫= holds).
Proof. by rewrite bind_app, bind_cons. Qed.

Lemma holds_in (ws : list wpc) w id : w ∈ ws -> id ∈ holds w -> id ∈ ws ≫= holds.
Proof. intros Hw Hid. apply list_elem_of_bind. eauto. Qed.

(** One worker moves: it may change the jobs it holds, and what it holds comes
    from what it held and what was pending. *)
Lemma agrees_step st st' l1 w w' l2 us :
  agrees st (l1 ++ w :: l2) us ->
  (exists gone, pending st ++ holds w ≡ₚ gone ++ pending st' ++ holds w') ->
  pending st' ⊆ pending st ->
  (forall id, id ∉ holds w -> jobs st' !! id = jobs st !! id) ->
  (forall id, is_Some (jobs st' !! id) -> is_Some (jobs st !! id)) ->
  (forall id, is_Some (expiring st' !! id) -> is_Some (expiring st !! id) \/ at_rank st' 2 id) ->
  pc_agrees st' w' -> agrees st' (l1 ++ w' :: l2) us.
Proof.
  intros [Honce Hpend Hws Hused Hnamed Hexp] [gone Hperm] Hsub Hjobs Hdom Hexp' Hw'.
  rewrite workers_held in Honce.
  assert (Hp : pending st ++ (l1 ≫= holds) ++ holds w ++ (l2 ≫= holds) ≡ₚ
    gone ++ pending st' ++ (l1 ≫= holds) ++ holds w' ++ (l2 ≫= holds)).
  { transitivity ((pending st ++ holds w) ++ (l1 ≫= holds) ++ (l2 ≫= holds)).
    - rewrite <- !app_assoc. apply Permutation_app_head. rewrite !app_assoc.
      apply Permutation_app_tail, Permutation_app_comm.
    - rewrite Hperm, <- !app_assoc. do 2 apply Permutation_app_head. rewrite !app_assoc.
      apply Permutation_app_tail, Permutation_app_comm. }
  assert (Hdisj : forall id, id ∈ holds w -> id ∉ pending st /\ id ∉ (l1 ≫= holds) /\ id ∉ (l2 ≫= holds)).
  { apply NoDup_app in Honce as (_ & Hd1 & Honce). apply NoDup_app in Honce as (_ & Hd2 & Honce).
    apply NoDup_app in Honce as (_ & Hd3 & _). intros id Hid.
    split_and!; [intros Hx; apply (Hd1 id Hx)|intros Hx; apply (Hd2 id Hx)|by apply Hd3]; set_solver. }
  split.
  - rewrite workers_held. rewrite Hp in Honce. by apply NoDup_app in Honce as (_ & _ & ?).
  - intros id Hid%Hsub. destruct (Hpend id Hid) as (j & Hj & Hn). exists j. split; [|done].
    rewrite Hjobs; [done|]. by intros [? _]%Hdisj.
  - intros w2 [->|Hin]%elem_of_app_cons; [done|]. apply (pc_agrees_other st); [|apply Hws; set_solver].
    intros id Hid. apply Hjobs. intros (_ & H1 & H2)%Hdisj.
    apply elem_of_app in Hin as [Hin|Hin]; [apply H1|apply H2]; by eapply holds_in.
  - intros id Hid. by apply Hused, Hdom.
  - done.
  - intros id [Hid|Hid]%Hexp'; [|done]. destruct (Hexp id Hid) as (j & Hj & Hn).
    exists j. split; [|done]. rewrite Hjobs; [done|]. intros Hin.
    destruct (pc_held st w id) as (j' & Hj' & Hn'); [apply Hws; set_solver|done|].
    rewrite Hj in Hj'. invc Hj'. lia.
Qed.

(** What a step of the system keeps: the Redis contents represent a store that
    agrees with the workers. *)
Definition consistent (st : store) (s : sys) : Prop :=
  represents (view (client s)) st /\ agrees st (workers s) (used s).

Lemma Dequeue_popped r st r' id :
  represents (view r) st -> Dequeue r = (r', Ok id) -> id <> "" ->
  exists rest, pending st = rest ++ [id] /\ represents (view r') (popped st rest).
Proof.
  intros Hr Hd Hid. destruct (Dequeue_represents _ _ _ _ Hr Hd) as [Hs|(rest & x & Hp & Hx & Hs)].
  - exfalso. destruct (Dequeue_list _ _ _ Hd Hid) as (rest & H1 & H2).
    rewrite (rep_pending _ _ Hr) in H1. rewrite (rep_pending _ _ Hs), H1 in H2.
    apply (f_equal length) in H2. rewrite length_app in H2. cbn in H2. lia.
  - exists rest. destruct (Hx id eq_refl) as [<-|]; [by split|done].
Qed.

(** A worker that gives up what it holds, without a change. *)
Lemma agrees_drop st l1 w l2 us : agrees st (l1 ++ w :: l2) us -> agrees st (l1 ++ WIdle :: l2) us.
Proof.
  intros Ha. eapply agrees_step; [done| |done|done|done|by left|done].
  exists (holds w). by rewrite app_nil_r, Permutation_app_comm.
Qed.

(** A worker that moves on with the same id, without a change. *)
Lemma agrees_same st l1 w w' l2 us :
  agrees st (l1 ++ w :: l2) us -> holds w' = holds w -> pc_agrees st w' -> agrees st (l1 ++ w' :: l2) us.
Proof.
  intros Ha Hh Hp. eapply agrees_step; [done| |done|done|done|by left|done]. exists []. by rewrite Hh.
Qed.

(** The id at the tail of the pending list leaves it. *)
Lemma agrees_pop st rest id l1 w' l2 us :
  agrees st (l1 ++ WIdle :: l2) us -> pending st = rest ++ [id] -> holds w' = [] \/ w' = WPopped id ->
  agrees (popped st rest) (l1 ++ w' :: l2) us.
Proof.
  intros Ha Hp Hw. eapply agrees_step; [done| | |done|done|by left|]; cbn [popped pending].
  - rewrite Hp. cbn [holds]. rewrite app_nil_r. destruct Hw as [-> | ->].
    + exists [id]. by rewrite app_nil_r, Permutation_app_comm.
    + by exists [].
  - rewrite Hp. set_solver.
  - destruct Hw as [Hw| ->]; [by destruct w'|]. apply (ag_pending _ _ _ Ha). rewrite Hp. set_solver.
Qed.

(** The worker changes the job it holds. *)
Lemma agrees_alter st st' f id l1 w w' l2 us :
  agrees st (l1 ++ w :: l2) us -> holds w = [id] -> holds w' = [id] \/ holds w' = [] ->
  pending st' = pending st -> jobs st' = alter f id (jobs st) ->
  (forall i, is_Some (expiring st' !! i) -> is_Some (expiring st !! i) \/ at_rank st' 2 i) ->
  pc_agrees st' w' ->
  agrees st' (l1 ++ w' :: l2) us.
Proof.
  intros Ha Hw Hw' Hp Hj He Hpc. eapply agrees_step; [done| |by rewrite Hp| | |done|done].
  - rewrite Hw, Hp. destruct Hw' as [-> | ->]; [by exists []|]. exists [id].
    by rewrite app_nil_r, Permutation_app_comm.
  - intros i Hi. rewrite Hw in Hi. rewrite Hj, lookup_alter_ne; [done|set_solver].
  - intros i. rewrite Hj, lookup_alter_is_Some. done.
Qed.

Lemma rank_running j : rank (with_status StatusRunning j) = 1%nat.
Proof. done. Qed.

Lemma rank_terminal s ce es rs j : Terminal s = true -> rank (with_outcome s ce es rs j) = 2%nat.
Proof.
  unfold Terminal, rank. cbn. intros [->%String.eqb_eq| ->%String.eqb_eq]%orb_prop; done.
Qed.

Lemma advances_mark st id l1 job l2 us :
  agrees st (l1 ++ WLoaded id job :: l2) us -> advances us st (spec_op q st (OpSetRunning id)).
Proof.
  intros Ha. apply (advances_alter _ _ (with_status StatusRunning) id); [done|].
  intros j Hj. destruct (ag_workers _ _ _ Ha (WLoaded id job)) as [Hj' Hr]; [set_solver|].
  rewrite Hj in Hj'. invc Hj'. rewrite rank_running, Hr. lia.
Qed.

Lemma agrees_mark st id l1 job w' l2 us :
  agrees st (l1 ++ WLoaded id job :: l2) us ->
  holds w' = [id] \/ holds w' = [] -> (w' = WIdle \/ exists le n, w' = WTrying id job le n) ->
  agrees (running_store st id) (l1 ++ w' :: l2) us.
Proof.
  intros Ha Hh Hw. eapply (agrees_alter st _ (with_status StatusRunning) id); [done..|by left|].
  destruct Hw as [-> |(le & n & ->)]; [done|].
  destruct (ag_workers _ _ _ Ha (WLoaded id job)) as [Hj _]; [set_solver|].
  cbn. by rewrite lookup_alter_eq, Hj.
Qed.

(** Only a finished job gets a time to live. *)
Lemma finish_expires st id s ce es rs :
  Terminal s = true -> is_Some (jobs st !! id) -> forall i,
  let st' := spec_op q st (OpFinish id s ce es rs) in
  is_Some (expiring st' !! i) -> is_Some (expiring st !! i) \/ at_rank st' 2 i.
Proof.
  intros Ht [j Hj] i. cbn. destruct (_ && _); [|by left].
  destruct (decide (id = i)) as [<-|Hn]; [right|rewrite lookup_insert_ne by done; by left].
  exists (with_outcome s ce es (j_canon rs) j). cbn. rewrite lookup_alter_eq, Hj.
  by rewrite rank_terminal.
Qed.

(** ** The abstract effect of one call of a worker

    [lost] marks the effects by which the worker abandons a job that is not
    finished: the reply of a dequeue was lost, or Redis refused a call. *)

(** How much a worker has left to do before it is idle or hangs. *)
Definition effort (w : wpc) : nat :=
  match w with
  | WIdle | WBlocked _ => 0 | WPopped _ => 6 | WLoaded _ _ => 5 | WTrying _ _ _ n => 2 + n | WVerdict _ _ => 1
  end.

Definition concluded (st : store) (id : string) (out : ExecResponse + option error) : store :=
  let '(s, ce, es, rs) := verdict out in spec_op q st (OpFinish id s ce es rs).

Inductive effect (st : store) : wpc -> store -> wpc -> bool -> Prop :=
  | eff_poll : effect st WIdle st WIdle false
  | eff_pop rest id : pending st = rest ++ [id] -> effect st WIdle (popped st rest) (WPopped id) false
  | eff_lost_pop rest id : pending st = rest ++ [id] -> effect st WIdle (popped st rest) WIdle true
  | eff_move w w' : w <> WIdle -> holds w' = holds w -> pc_agrees st w' -> (effort w' < effort w)%nat ->
      effect st w st w' false
  | eff_mark id job : effect st (WLoaded id job) (running_store st id) (WTrying id job None maxAttempts) false
  | eff_half_mark id job : effect st (WLoaded id job) (running_store st id) WIdle true
  | eff_drop w : moving w = true -> effect st w st WIdle true
  | eff_settle id out : effect st (WVerdict id out) (concluded st id out) WIdle false.

(** The concluded job. *)
Lemma concluded_jobs st id out :
  let '(s, ce, es, rs) := verdict out in
  jobs (concluded st id out) = alter (with_outcome s ce es (j_canon rs)) id (jobs st).
Proof. unfold concluded. by destruct (verdict out) as [[[s ce] es] rs]. Qed.

Lemma concluded_pending st id out : pending (concluded st id out) = pending st.
Proof. unfold concluded. by destruct (verdict out) as [[[s ce] es] rs]. Qed.

Lemma concluded_rank st id out : is_Some (jobs st !! id) -> at_rank (concluded st id out) 2 id.
Proof.
  intros [j Hj]. pose proof (concluded_jobs st id out) as Hc. pose proof (verdict_terminal out) as Ht.
  destruct (verdict out) as [[[s ce] es] rs]. exists (with_outcome s ce es (j_canon rs) j).
  rewrite Hc, lookup_alter_eq, Hj. by rewrite rank_terminal.
Qed.

(** A dequeue without a delivery: nothing happened, or the reply was lost. *)
Lemma idle_effect r st r' res :
  represents (view r) st -> Dequeue r = (r', res) ->
  exists st' lost, represents (view r') st' /\ effect st WIdle st' WIdle lost.
Proof.
  intros Hr Hd. destruct (Dequeue_represents _ _ _ _ Hr Hd) as [Hs|(rest & x & Hp & _ & Hs)].
  - exists st, false. split; [done|constructor].
  - exists (popped st rest), true. split; [done|by econstructor].
Qed.

(** Every call has an abstract effect. *)
Lemma conclude_effect r st id out :
  represents (view r) st -> pc_agrees st (WVerdict id out) ->
  exists st' lost, represents (view (conclude q r id out)) st' /\ effect st (WVerdict id out) st' WIdle lost.
Proof.
  intros Hr [(j & Hj & Hrank) Hwf]. rewrite conclude_verdict.
  pose proof (verdict_results_wf out Hwf) as Hrs.
  assert (Hs : effect st (WVerdict id out) (concluded st id out) WIdle false) by constructor.
  unfold concluded in Hs. destruct (verdict out) as [[[s ce] es] rs]. cbn [fst snd] in Hrs.
  destruct (Finish q r id s ce es rs) as [r' oe] eqn:Ef. cbn [fst].
  destruct (run_op_represents r st (OpFinish id s ce es rs) r' oe Hr) as [Hv|Hv]; [by split|done| |].
  - by eexists _, _.
  - exists st, true. split; [done|by constructor].
Qed.

Lemma worker_step_effect st r w r' w' :
  represents (view r) st -> pc_agrees st w -> worker_step r w r' w' ->
  exists st' lost, represents (view r') st' /\ effect st w st' w' lost.
Proof.
  intros Hr Hpc Hs.
  destruct Hs as [r' id Hd Hid|r' Hd|r' e Hd|r' id job Hl|r' id e Hl|r' id job Hm|r' id job e Hm|
    id job le n Hg|id job le n lang resp Hg Hresp|id job le n lang e Hg|id job le n lang Hg|
    id job le lang Hg|id out].
  - destruct (Dequeue_popped _ _ _ _ Hr Hd Hid) as (rest & Hp & Hrep).
    exists (popped st rest), false. split; [done|by constructor].
  - by eapply idle_effect.
  - by eapply idle_effect.
  - destruct (load_ok_job _ _ _ _ _ Hr Hl) as [Hv Hj].
    exists st, false. rewrite Hv. split; [done|]. constructor; [done|done| |cbn; lia].
    destruct Hpc as (j & Hj' & Hn). rewrite Hj in Hj'. by invc Hj'.
  - apply (Load_represents _ _ _ _ _ Hr) in Hl as [Hv _].
    exists st, true. rewrite Hv. split; [done|by constructor].
  - exists (running_store st id), false. split; [|constructor].
    destruct Hpc as [Hj _]. apply (SetRunning_represents q r); [done| |done]. by exists job.
  - destruct (run_op_represents r st (OpSetRunning id) r' (Some e) Hr) as [Hv|Hv]; [|done| |].
    + destruct Hpc as [Hj _]. by exists job.
    + exists (running_store st id), true. split; [done|constructor].
    + exists st, true. split; [done|by constructor].
  - exists st, false. split; [done|]. constructor; [done|done|by split; [eexists|]|cbn; lia].
  - exists st, false. split; [done|]. constructor; [done|done|by split; [eexists|]|cbn; lia].
  - exists st, false. split; [done|]. constructor; [done|done|done|cbn; lia].
  - exists st, false. split; [done|]. constructor; [done|done|by eexists|cbn; lia].
  - exists st, false. split; [done|]. constructor; [done|done|by split; [eexists|]|cbn; lia].
  - by apply conclude_effect.
Qed.

(** What an effect keeps. *)
Lemma effect_agrees st w st' w' lost l1 l2 us :
  agrees st (l1 ++ w :: l2) us -> effect st w st' w' lost -> agrees st' (l1 ++ w' :: l2) us.
Proof.
  intros Ha He. destruct He as [|rest id Hp|rest id Hp|w w' Hw Hh Hpc _|id job|id job|w Hw|id out].
  - done.
  - by apply (agrees_pop _ _ id); [..|right].
  - by apply (agrees_pop _ _ id); [..|left].
  - by eapply agrees_same.
  - eapply agrees_mark; [done|by left|]. right. eauto.
  - eapply agrees_mark; [done|by right|by left].
  - by eapply agrees_drop.
  - destruct (ag_workers _ _ _ Ha (WVerdict id out)) as [(j & Hj & _) _]; [set_solver|].
    pose proof (concluded_jobs st id out) as Hc. pose proof (verdict_terminal out) as Ht.
    pose proof (concluded_pending st id out) as Hp. unfold concluded in *.
    destruct (verdict out) as [[[s ce] es] rs].
    eapply (agrees_alter st _ (with_outcome s ce es (j_canon rs)) id); [done|done|by right|done|done| |done].
    intros i. apply finish_expires; [done|]. by exists j.
Qed.

Lemma effect_advances st w st' w' lost l1 l2 us :
  agrees st (l1 ++ w :: l2) us -> effect st w st' w' lost -> advances us st st'.
Proof.
  intros Ha He. destruct He as [|rest id Hp|rest id Hp|w w' Hw Hh Hpc _|id job|id job|w Hw|id out];
    try (by apply advances_same); try (by eapply advances_mark).
  destruct (ag_workers _ _ _ Ha (WVerdict id out)) as [(j & Hj & Hrank) _]; [set_solver|].
  pose proof (concluded_jobs st id out) as Hc. pose proof (verdict_terminal out) as Ht.
  unfold concluded in *. destruct (verdict out) as [[[s ce] es] rs].
  apply (advances_alter _ _ (with_outcome s ce es (j_canon rs)) id); [done|].
  intros j' Hj'. rewrite Hj in Hj'. invc Hj'. rewrite rank_terminal by done. lia.
Qed.

(** A submission, under an id never used before. *)
Lemma submit_agrees st ws us job :
  agrees st ws us -> Job.ID job ∉ us -> Job.ID job <> "" ->
  agrees (spec_op q st (OpEnqueue job)) ws ({[Job.ID job]} ∪ us).
Proof.
  intros [Honce Hpend Hws Hused Hnamed Hexp] Hfresh Hne.
  assert (Hold : forall id j, jobs st !! id = Some j ->
    jobs (spec_op q st (OpEnqueue job)) !! id = Some j).
  { intros id j Hid. cbn. rewrite lookup_insert_ne; [done|]. intros <-. apply Hfresh, Hused. eauto. }
  assert (Hrank : forall n id, at_rank st n id -> at_rank (spec_op q st (OpEnqueue job)) n id).
  { intros n id (j & Hj & Hn). exists j. split; [by apply Hold|done]. }
  split.
  - change (NoDup (Job.ID job :: pending st ++ (ws ≫= holds))). apply NoDup_cons. split; [|done].
    intros [Hin|Hin]%elem_of_app; apply Hfresh, Hused.
    + destruct (Hpend _ Hin) as (j & Hj & _). eauto.
    + apply list_elem_of_bind in Hin as (w & Hid & Hw).
      destruct (pc_held st w _ (Hws w Hw) Hid) as (j & Hj & _). eauto.
  - intros id [->|Hin]%elem_of_cons; [|by apply Hrank, Hpend].
    exists (submitted job). cbn. by rewrite lookup_insert_eq.
  - intros w Hw. apply (pc_agrees_other st); [|by apply Hws].
    intros id Hid. destruct (pc_held st w id (Hws w Hw) Hid) as (j & Hj & _).
    rewrite Hj. by apply Hold.
  - intros id. cbn. rewrite lookup_insert_is_Some. intros [<-|[_ Hid]]; [set_solver|].
    apply elem_of_union_r, Hused, Hid.
  - set_solver.
  - intros id Hid. by apply Hrank, Hexp.
Qed.

Lemma agrees_used st ws us us' : us ⊆ us' -> "" ∉ us' -> agrees st ws us -> agrees st ws us'.
Proof.
  intros Hs Hn [H1 H2 H3 H4 H5 H6]. split; [done..| |done|done]. intros id Hid. by apply Hs, H4.
Qed.

Lemma submit_advances st us job :
  Job.ID job ∉ us -> advances us st (spec_op q st (OpEnqueue job)).
Proof. intros Hf id Hid. cbn. by rewrite lookup_insert_ne by set_solver. Qed.

(** An expiry. *)
Definition dropped (st : store) (id : string) : store :=
  {| jobs := delete id (jobs st); pending := pending st; expiring := delete id (expiring st) |}.

Lemma expire_represents ks st id :
  represents ks st -> represents (expire ks (jobKey id)) (dropped st id).
Proof.
  intros Hr. split; cbn.
  - intros i. destruct (decide (id = i)) as [<-|Hn]; [by rewrite !lookup_delete_eq|].
    rewrite !lookup_delete_ne by (try done; by intros ?%jobKey_inj). apply (rep_job _ _ Hr).
  - apply (rep_pending _ _ Hr).
  - intros i. destruct (decide (id = i)) as [<-|Hn]; [by rewrite !lookup_delete_eq|].
    rewrite !lookup_delete_ne by (try done; by intros ?%jobKey_inj). apply (rep_ttl _ _ Hr).
Qed.

Lemma expire_agrees st ws us id :
  agrees st ws us -> is_Some (expiring st !! id) -> agrees (dropped st id) ws us.
Proof.
  intros [Honce Hpend Hws Hused Hnamed Hexp] Hid. destruct (Hexp id Hid) as (j & Hj & Hn).
  assert (Hkeep : forall i j', jobs st !! i = Some j' -> (rank j' < 2)%nat ->
    jobs (dropped st id) !! i = Some j').
  { intros i j' Hi Hr. cbn. rewrite lookup_delete_ne; [done|]. intros <-.
    rewrite Hj in Hi. invc Hi. lia. }
  split; [done| | | |done|].
  - intros i Hi. destruct (Hpend i Hi) as (j' & Hj' & Hr). exists j'. split; [|done].
    apply Hkeep; [done|lia].
  - intros w Hw. apply (pc_agrees_other st); [|by apply Hws].
    intros i Hi. destruct (pc_held st w i (Hws w Hw) Hi) as (j' & Hj' & Hr).
    rewrite Hj'. by apply Hkeep.
  - intros i. cbn. intros [j' [_ Hj']%lookup_delete_Some]. apply Hused. eauto.
  - intros i. cbn. intros [d [Hne Hd]%lookup_delete_Some]. destruct (Hexp i) as (j' & Hj' & Hr); [eauto|].
    exists j'. cbn. by rewrite lookup_delete_ne.
Qed.

Lemma expire_advances us st id : advances us st (dropped st id).
Proof.
  intros i _. cbn. destruct (decide (id = i)) as [<-|Hn].
  - rewrite lookup_delete_eq. by destruct (jobs st !! id).
  - by rewrite lookup_delete_ne.
Qed.

(** ** Every step

    The abstract system: a store, the workers and the used ids. *)
Inductive sys_effect (st : store) (ws : list wpc) (us : gset string) :
    store -> list wpc -> gset string -> bool -> Prop :=
  | se_submit job : Job.ID job ∉ us -> Job.ID job <> "" ->
      sys_effect st ws us (spec_op q st (OpEnqueue job)) ws ({[Job.ID job]} ∪ us) false
  | se_refused id : id ∉ us -> id <> "" -> sys_effect st ws us st ws ({[id]} ∪ us) false
  | se_read : sys_effect st ws us st ws us false
  | se_expire id : is_Some (expiring st !! id) -> sys_effect st ws us (dropped st id) ws us false
  | se_work l1 w l2 st' w' lost : ws = l1 ++ w :: l2 -> effect st w st' w' lost ->
      sys_effect st ws us st' (l1 ++ w' :: l2) us lost.

Lemma sys_effect_agrees st ws us st' ws' us' lost :
  agrees st ws us -> sys_effect st ws us st' ws' us' lost -> agrees st' ws' us'.
Proof.
  intros Ha He. destruct He as [job Hf Hn|id Hf Hn| |id Hid|l1 w l2 st' w' lost -> He].
  - by apply submit_agrees.
  - eapply agrees_used; [| |done]; [set_solver|]. pose proof (ag_named _ _ _ Ha). set_solver.
  - done.
  - by apply expire_agrees.
  - by eapply effect_agrees.
Qed.

Lemma sys_effect_advances st ws us st' ws' us' lost :
  agrees st ws us -> sys_effect st ws us st' ws' us' lost -> advances us st st' /\ us ⊆ us'.
Proof.
  intros Ha He. destruct He as [job Hf Hn|id Hf Hn| |id Hid|l1 w l2 st' w' lost -> He].
  - split; [by apply submit_advances|set_solver].
  - split; [by apply advances_same|set_solver].
  - split; [by apply advances_same|done].
  - split; [by apply expire_advances|done].
  - split; [by eapply effect_advances|done].
Qed.

(** The system refines the abstract one. *)
Lemma sys_step_effect st s s' :
  consistent st s -> sys_step s s' ->
  exists st' lost, represents (view (client s')) st' /\
    sys_effect st (workers s) (used s) st' (workers s') (used s') lost.
Proof.
  intros [Hr Ha] [job r' oe Hf Hn Ht Hm He|r' id res Hl|r' id Ht He|l1 w l2 r' w' Hw Hs]; cbn [used client workers].
  - destruct (run_op_represents _ st (OpEnqueue job) r' oe Hr) as [Hv|Hv]; [|done| |].
    + split_and!; [|done|done]. destruct (jobs st !! Job.ID job) eqn:E; [|done].
      destruct Hf. eapply ag_used; [done|eauto].
    + eexists _, false. split; [done|by constructor].
    + eexists _, false. split; [done|by constructor].
  - destruct (Load_represents _ _ _ _ _ Hr Hl) as [Hv _].
    exists st, false. rewrite Hv. split; [done|constructor].
  - rewrite (rep_ttl _ _ Hr) in Ht. exists (dropped st id), false.
    split; [rewrite He; by apply expire_represents|by constructor].
  - destruct (worker_step_effect st (client s) w r' w') as (st' & lost & Hr' & He); [done| |done|].
    { apply (ag_workers _ _ _ Ha). rewrite Hw. set_solver. }
    exists st', lost. split; [done|by econstructor].
Qed.

Lemma sys_step_consistent st s s' :
  consistent st s -> sys_step s s' ->
  exists st' lost, consistent st' s' /\
    sys_effect st (workers s) (used s) st' (workers s') (used s') lost.
Proof.
  intros Hc Hs. destruct (sys_step_effect _ _ _ Hc Hs) as (st' & lost & Hr & He).
  exists st', lost. split; [|done]. split; [done|]. eapply sys_effect_agrees; [apply Hc|done].
Qed.

Lemma sys_steps_consistent st s s' :
  consistent st s -> rtc sys_step s s' ->
  exists st', consistent st' s' /\ advances (used s) st st'.
Proof.
  intros Hc Hs. revert st Hc. induction Hs as [s|s s2 s' H1 _ IH]; intros st Hc.
  - exists st. split; [done|]. by apply advances_same.
  - destruct (sys_step_consistent _ _ _ Hc H1) as (st2 & lost & Hc2 & He).
    destruct (sys_effect_advances _ _ _ _ _ _ _ (proj2 Hc) He) as [Ha2 Hu].
    destruct (IH _ Hc2) as (st' & Hc' & Ha'). exists st'. split; [done|].
    intros id Hid. etransitivity; [by apply Ha2|by apply Ha', Hu].
Qed.

Lemma idle_hold_nothing n : replicate n WIdle ≫= holds = [].
Proof. by induction n. Qed.

Lemma sys_start_consistent s : sys_start s -> consistent empty_store s.
Proof.
  intros (Hr & Hw & Hu). split; [done|]. rewrite Hw, Hu. split.
  - rewrite idle_hold_nothing. by apply NoDup_nil.
  - intros id. cbn. set_solver.
  - intros w [-> _]%elem_of_replicate. done.
  - intros id [j Hj]. done.
  - set_solver.
  - intros id [d Hd]. done.
Qed.

(** ** What a stored job can look like *)

(** The outcome fields a status allows: none before the job has finished, no
    error of the service when it is done, nothing but that error when it
    failed. *)
Definition job_shape (j : Job.t) : Prop :=
  (Job.Status j = StatusQueued \/ Job.Status j = StatusRunning) /\
    Job.Error j = "" /\ Job.CompileError j = "" /\ Job.Results j = None \/
  Job.Status j = StatusDone /\ Job.Error j = "" \/
  Job.Status j = StatusFailed /\ Job.CompileError j = "" /\ Job.Results j = None.
Definition shaped (st : store) : Prop :=
  forall id j, jobs st !! id = Some j -> Job.ID j = id /\ job_shape j.

Lemma shaped_same st st' : jobs st' = jobs st -> shaped st -> shaped st'.
Proof. intros Hj Hs id j. rewrite Hj. apply Hs. Qed.

Lemma shaped_alter st st' f id :
  jobs st' = alter f id (jobs st) -> (forall j, Job.ID (f j) = Job.ID j) ->
  (forall j, jobs st !! id = Some j -> job_shape j -> job_shape (f j)) -> shaped st -> shaped st'.
Proof.
  intros Hj Hid Hf Hs i j. rewrite Hj. destruct (decide (id = i)) as [<-|Hn].
  - rewrite lookup_alter_eq. intros (j0 & Hj0 & ->)%fmap_Some. destruct (Hs _ _ Hj0) as [Hi Hsh].
    rewrite Hid. split; [done|by apply Hf].
  - rewrite lookup_alter_ne by done. apply Hs.
Qed.

Lemma shape_running j : rank j = 0%nat -> job_shape j -> job_shape (with_status StatusRunning j).
Proof. intros Hr%rank_0. unfold job_shape. rewrite Hr. cbn. naive_solver. Qed.

Lemma shape_verdict out j :
  let '(s, ce, es, rs) := verdict out in job_shape (with_outcome s ce es (j_canon rs) j).
Proof.
  unfold job_shape. destruct out as [resp|e]; cbn; [|naive_solver].
  destruct (String.eqb _ _); cbn; naive_solver.
Qed.

Lemma effect_shaped st w st' w' lost :
  pc_agrees st w -> effect st w st' w' lost -> shaped st -> shaped st'.
Proof.
  intros Hpc He. destruct He as [|rest id Hp|rest id Hp|w w' Hw Hh Hpc' _|id job|id job|w Hw|id out];
    try done; try by apply shaped_same.
  1, 2: apply (shaped_alter _ _ (with_status StatusRunning) id); [done|done|];
    intros j Hj; apply shape_running; destruct Hpc as [Hj' Hr]; congruence.
  pose proof (concluded_jobs st id out) as Hc. pose proof (shape_verdict out) as Hv.
  destruct (verdict out) as [[[s ce] es] rs].
  apply (shaped_alter _ _ (with_outcome s ce es (j_canon rs)) id); [done|done|]. intros j _ _. apply Hv.
Qed.

Lemma sys_effect_shaped st ws us st' ws' us' lost :
  agrees st ws us -> sys_effect st ws us st' ws' us' lost -> shaped st -> shaped st'.
Proof.
  intros Ha He Hs. destruct He as [job Hf Hn|id Hf Hn| |id Hid|l1 w l2 st' w' lost -> He]; [|done..| |].
  - intros i j. cbn. intros [[<- <-]|[_ Hj]]%lookup_insert_Some; [|by apply Hs].
    split; [done|]. left. split; [by left|done].
  - intros i j. cbn. intros [_ Hj]%lookup_delete_Some. by apply Hs.
  - eapply effect_shaped; [|done|done]. apply (ag_workers _ _ _ Ha). set_solver.
Qed.

Lemma sys_steps_shaped st s s' :
  consistent st s -> shaped st -> rtc sys_step s s' -> exists st', consistent st' s' /\ shaped st'.
Proof.
  intros Hc Hsh Hs. revert st Hc Hsh. induction Hs as [s|s s2 s' H1 _ IH]; intros st Hc Hsh; [by exists st|].
  destruct (sys_step_consistent _ _ _ Hc H1) as (st2 & lost & Hc2 & He).
  eapply IH; [done|]. eapply sys_effect_shaped; [apply Hc|done|done].
Qed.

(** A worker's own steps are steps of the system. *)
Definition work (x y : R * wpc) : Prop := worker_step x.1 x.2 y.1 y.2.

Lemma work_lift r w r' w' l1 l2 us :
  rtc work (r, w) (r', w') ->
  rtc sys_step {| client := r; workers := l1 ++ w :: l2; used := us |}
               {| client := r'; workers := l1 ++ w' :: l2; used := us |}.
Proof.
  intros Hs. change r with (r, w).1. change w with (r, w).2 at 2.
  change r' with (r', w').1. change w' with (r', w').2 at 2.
  induction Hs as [x|x y z Hxy _ IH]; [done|]. eapply rtc_l; [|exact IH].
  eapply (sys_works {| client := x.1; workers := l1 ++ x.2 :: l2; used := us |}); [done|exact Hxy].
Qed.
End system.

(** ** A worker alone is [turn] *)

Section alone.
Context `{RedisOk R} `{Executor E} (cfg : Config) (q : Queue) (reg : Registry).
Hypothesis answers_wf : forall (e : E) langID req e' resp,
  Execute e langID req = (e', Ok resp) -> response_wf resp.

Lemma attempts_work r id job lang n : Get reg (Job.Language job) = Some lang -> forall le (e : E),
  rtc (work q reg) (r, WTrying id job le n)
    (r, WVerdict id (attempts n le e (Language.ID lang) (build_request cfg lang job)).2).
Proof.
  intros Hg. induction n as [|n IH]; intros le e; cbn [attempts].
  - eapply rtc_once, work_gives_up; done.
  - destruct (Execute e _ _) as [e1 [resp|err]] eqn:Ex.
    + eapply rtc_once, work_answers; [done|by eapply answers_wf].
    + apply (rtc_l _ _ (r, WTrying id job (Some err) n)); [by eapply work_fails|apply IH].
Qed.

Lemma process_work r (e : E) id :
  rtc (work q reg) (r, WPopped id) ((process cfg q reg (r, e) id).1, WIdle).
Proof.
  unfold process. destruct (Load r id) as [r1 [job|x]] eqn:El.
  2:{ by eapply rtc_once, work_load_fails. }
  apply (rtc_l _ _ (r1, WLoaded id job)); [by apply work_loads|].
  destruct (SetRunning r1 id) as [r2 [x|]] eqn:Es.
  { by eapply rtc_once, work_mark_fails. }
  apply (rtc_l _ _ (r2, WTrying id job None maxAttempts)); [by apply work_marks|].
  destruct (Get reg (Job.Language job)) as [lang|] eqn:Eg.
  - pose proof (attempts_work r2 id job lang maxAttempts Eg None e) as Hw.
    destruct (attempts _ _ _ _ _) as [e' out]. cbn [fst snd] in *.
    eapply rtc_r; [exact Hw|apply work_concludes].
  - eapply (rtc_l _ _ (r2, WVerdict id (inr (Some _)))); [by apply work_unknown|].
    apply rtc_once. exact (work_concludes q reg r2 id (inr (Some (ENew _)))).
Qed.

Lemma turn_work r (e : E) : rtc (work q reg) (r, WIdle) ((turn cfg q reg (r, e)).1, WIdle).
Proof.
  unfold turn. destruct (Dequeue r) as [r1 [id|x]] eqn:Ed.
  - destruct (String.eqb_spec id "") as [->|Hn].
    + by eapply rtc_once, work_idles.
    + apply (rtc_l _ _ (r1, WPopped id)); [by apply work_pops|apply process_work].
  - by eapply rtc_once, work_dequeue_fails.
Qed.

Lemma loop_work cs : forall r (e : E),
  rtc (work q reg) (r, WIdle) ((loop cfg q reg cs (r, e)).1, WIdle).
Proof.
  induction cs as [|[|] cs IH]; intros r e; cbn [loop]; [done|done|].
  etransitivity; [apply (turn_work r e)|]. destruct (turn cfg q reg (r, e)) as [r1 e1]. apply IH.
Qed.
End alone.

(** * Properties *)

Section properties.
Context `{RedisOk R} (cfg : Config) (q : Queue) (reg : Registry).

(** C5. A job is in one place at a time: however the workers' calls, submissions,
    reads and expiries interleave, and whatever calls fail, no id is twice in
    the pending list and the workers' hands together, pending jobs are queued,
    a held job is queued or running as far as its worker has got, and only
    finished jobs have a time to live. *)
Theorem job_in_one_place s0 s :
  sys_start cfg s0 -> rtc (sys_step q reg) s0 s ->
  exists st, represents (view (client s)) st /\
    NoDup (pending st ++ (workers s ≫= holds)) /\
    (forall id, id ∈ pending st -> exists j, jobs st !! id = Some j /\ Job.Status j = StatusQueued) /\
    (forall id, id ∈ (workers s ≫= holds) -> exists j, jobs st !! id = Some j /\
      (Job.Status j = StatusQueued \/ Job.Status j = StatusRunning)) /\
    (forall id, is_Some (expiring st !! id) -> exists j, jobs st !! id = Some j /\ Terminal (Job.Status j) = true).
Proof.
  intros Hs0 Hs. apply sys_start_consistent in Hs0.
  destruct (sys_steps_consistent q reg _ _ _ Hs0 Hs) as (st & [Hr Ha] & _). exists st.
  split_and!; [done|apply (ag_once _ _ _ Ha)|..].
  - intros id Hid. destruct (ag_pending _ _ _ Ha id Hid) as (j & Hj & Hn). exists j.
    split; [done|by apply rank_0].
  - intros id (w & Hid & Hw)%list_elem_of_bind.
    destruct (pc_held st w id (ag_workers _ _ _ Ha w Hw) Hid) as (j & Hj & Hn). exists j.
    split; [done|by apply rank_below_2].
  - intros id Hid. destruct (ag_expiring _ _ _ Ha id Hid) as (j & Hj & Hn). exists j.
    split; [done|by apply rank_2].
Qed.

(** C6. A finished job never changes, and no status goes back: of two successful
    loads of a job, with any interleaving of workers, submissions and faults
    between them, the later shows a status at least as advanced, and the same
    job once the first showed a terminal one. *)
Theorem finished_job_is_final s0 s s' id r1 j r2 j' :
  sys_start cfg s0 -> rtc (sys_step q reg) s0 s -> rtc (sys_step q reg) s s' ->
  Load (client s) id = (r1, Ok j) -> Load (client s') id = (r2, Ok j') ->
  (rank j <= rank j')%nat /\ (Terminal (Job.Status j) = true -> j' = j).
Proof.
  intros Hs0 Hs Hs' Hl Hl'. apply sys_start_consistent in Hs0.
  destruct (sys_steps_consistent q reg _ _ _ Hs0 Hs) as (st & Hc & _).
  destruct (sys_steps_consistent q reg _ _ _ Hc Hs') as (st' & [Hr' _] & Hadv).
  destruct Hc as [Hr Ha].
  destruct (load_ok_job _ _ _ _ _ Hr Hl) as [_ Hj]. destruct (load_ok_job _ _ _ _ _ Hr' Hl') as [_ Hj'].
  specialize (Hadv id). rewrite Hj, Hj' in Hadv.
  destruct Hadv as [Hle Hfin]; [apply (ag_used _ _ _ Ha); eauto|].
  split; [done|]. intros Ht. apply Hfin. by apply rank_2.
Qed.

(** C36. The step relation covers the code: whatever [loop] does with any executor
    whose calls return and whose answers are well formed, for any number of turns, is a sequence of
    the worker steps that are interleaved above, so what holds of every
    interleaving holds of the workers the program starts. *)
Theorem loop_is_worker_steps `{Executor E} cs r (e : E) l1 l2 us :
  (forall (e : E) langID req e' resp, Execute e langID req = (e', Ok resp) -> response_wf resp) ->
  rtc (sys_step q reg)
    {| client := r; workers := l1 ++ WIdle :: l2; used := us |}
    {| client := (loop cfg q reg cs (r, e)).1; workers := l1 ++ WIdle :: l2; used := us |}.
Proof. intros Hwf. by apply work_lift, loop_work. Qed.
(** C10. The system implements its specification: every step of the clients,
    the workers and the server, from any state the system reaches, is a step
    of the abstract job system - a submission taken or refused, a read, an
    expiry of a job that may expire, or one of the eight effects of a worker
    on the store - whatever Redis calls fail on the way. *)
Theorem system_refines_spec s0 s s' :
  sys_start cfg s0 -> rtc (sys_step q reg) s0 s -> sys_step q reg s s' ->
  exists st st' lost, represents (view (client s)) st /\ represents (view (client s')) st' /\
    sys_effect q st (workers s) (used s) st' (workers s') (used s') lost.
Proof.
  intros Hs0%sys_start_consistent Hs Hstep.
  destruct (sys_steps_consistent q reg _ _ _ Hs0 Hs) as (st & Hc & _).
  destruct (sys_step_consistent q reg _ _ _ Hc Hstep) as (st' & lost & Hc' & He).
  exists st, st', lost. split_and!; [apply Hc|apply Hc'|done].
Qed.

(** C15. Stored jobs are well formed: however workers, submissions, reads,
    expiries and failing Redis calls interleave, a job read back under an id
    carries that id, and its outcome fields are those its status allows - none
    while it is queued or running, no service error when it is done, no
    results and no compile error when it failed - and only a done or failed
    job has a time to live. *)
Theorem stored_jobs_typed s0 s id r' j :
  sys_start cfg s0 -> rtc (sys_step q reg) s0 s -> Load (client s) id = (r', Ok j) ->
  Job.ID j = id /\ job_shape j /\
  (is_Some (ttls (view (client s)) !! jobKey id) -> Terminal (Job.Status j) = true).
Proof.
  intros Hs0%sys_start_consistent Hs Hl.
  destruct (sys_steps_shaped q reg _ _ _ Hs0 ltac:(by intros ? ? [=]) Hs) as (st & [Hr Ha] & Hsh).
  destruct (load_ok_job _ _ _ _ _ Hr Hl) as [_ Hj]. destruct (Hsh _ _ Hj) as [Hid Hshape].
  split_and!; [done|done|]. rewrite (rep_ttl _ _ Hr). intros Ht.
  destruct (ag_expiring _ _ _ Ha id Ht) as (j' & Hj' & Hn). rewrite Hj in Hj'. invc Hj'. by apply rank_2.
Qed.
End properties.

(** ** The properties at concrete inputs *)

(** An executor that always gives the same answer. *)
Inductive steady := Steady.
#[export] Instance steady_executor : Executor steady := fun s _ _ => (s, Ok demo_response).

Lemma steady_answers (e : steady) langID req e' resp :
  Execute e langID req = (e', Ok resp) -> response_wf resp.
Proof.
  unfold Execute, steady_executor. intros Ha.
  assert (resp = demo_response) as -> by congruence.
  repeat constructor; vm_compute; discriminate.
Qed.

(** The configured workers on an empty Redis; then with [demo_job] submitted. *)
Definition crew : list wpc := replicate (Z.to_nat (WorkerConcurrency demo_cfg)) WIdle.
Definition demo_start : sys := {| client := mem0; workers := crew; used := ∅ |}.
Definition demo_submitted : sys :=
  {| client := demo_mem; workers := crew; used := {["job-1"]} ∪ ∅ |}.

Lemma demo_start_ok : sys_start demo_cfg demo_start.
Proof. split; [apply represents_empty|by split]. Qed.

Lemma demo_submits : sys_step demo_queue demo_registry demo_start demo_submitted.
Proof.
  eapply (sys_submits _ _ demo_start demo_job _ None); [|by vm_compute..].
  vm_compute. intros H. inversion H.
Qed.

(** One turn of the first worker. *)
Definition demo_turn (s : sys) : sys :=
  {| client := (loop demo_cfg demo_queue demo_registry [false] (client s, Steady)).1;
     workers := WIdle :: tail crew; used := used s |}.
Lemma demo_turns (s : sys) : workers s = crew ->
  rtc (sys_step demo_queue demo_registry) s (demo_turn s).
Proof.
  destruct s as [r ws us]. cbn [workers]. intros ->.
  apply (work_lift demo_queue demo_registry r WIdle _ WIdle [] (tail crew) us).
  apply loop_work. apply steady_answers.
Qed.

Lemma job_in_one_place_witness :
  exists st, represents (view (client (demo_turn demo_submitted))) st /\
    (forall id, is_Some (expiring st !! id) ->
      exists j, jobs st !! id = Some j /\ Terminal (Job.Status j) = true).
Proof.
  destruct (job_in_one_place demo_cfg demo_queue demo_registry demo_start (demo_turn demo_submitted))
    as (st & Hr & _ & _ & _ & Hf).
  - apply demo_start_ok.
  - eapply rtc_l; [apply demo_submits|by apply demo_turns].
  - exists st. split; [exact Hr|exact Hf].
Defined.

(** The job the worker finished. *)
Lemma stored_jobs_typed_witness :
  exists j, snd (Load (client (demo_turn demo_submitted)) "job-1") = Ok j /\
    Job.Status j = StatusDone /\ Job.ID j = "job-1" /\ job_shape j.
Proof.
  eexists. split; [vm_compute; reflexivity|]. split; [reflexivity|].
  destruct (stored_jobs_typed demo_cfg demo_queue demo_registry demo_start (demo_turn demo_submitted)
    "job-1" (fst (Load (client (demo_turn demo_submitted)) "job-1"))
    (match snd (Load (client (demo_turn demo_submitted)) "job-1") with Ok j => j | Err _ => demo_job end))
    as (Hid & Hsh & _).
  - apply demo_start_ok.
  - eapply rtc_l; [apply demo_submits|by apply demo_turns].
  - vm_compute. reflexivity.
  - split; [exact Hid|exact Hsh].
Defined.

Lemma finished_job_is_final_witness :
  exists j j', snd (Load (client (demo_turn demo_submitted)) "job-1") = Ok j /\
    snd (Load (client (demo_turn (demo_turn demo_submitted))) "job-1") = Ok j' /\
    Job.Status j = StatusDone /\ j' = j.
Proof.
  eexists _, _. split; [vm_compute; reflexivity|]. split; [vm_compute; reflexivity|].
  split; [reflexivity|].
  eapply (finished_job_is_final demo_cfg demo_queue demo_registry demo_start
    (demo_turn demo_submitted) (demo_turn (demo_turn demo_submitted)) "job-1").
  - apply demo_start_ok.
  - eapply rtc_l; [apply demo_submits|by apply demo_turns].
  - by apply demo_turns.
  - vm_compute. reflexivity.
  - vm_compute. reflexivity.
  - reflexivity.
Defined.

Lemma loop_is_worker_steps_witness :
  rtc (sys_step demo_queue demo_registry) demo_submitted (demo_turn demo_submitted).
Proof.
  exact (loop_is_worker_steps demo_cfg demo_queue demo_registry [false] demo_mem Steady []
    (tail crew) ({["job-1"]} ∪ ∅) steady_answers).
Defined.

Lemma system_refines_spec_witness :
  exists st st' lost, represents (view (client demo_start)) st /\
    represents (view (client demo_submitted)) st' /\
    sys_effect demo_queue st crew ∅ st' crew ({["job-1"]} ∪ ∅) lost.
Proof.
  apply (system_refines_spec demo_cfg demo_queue demo_registry demo_start demo_start demo_submitted).
  - apply demo_start_ok.
  - apply rtc_refl.
  - apply demo_submits.
Defined.
