(* ===== verification/Lifecycle.v ===== *)
(** What becomes of a job, over every interleaving of the workers: a job that a
    worker abandoned stays as it is, the work is bounded, and on a Redis that
    answers it stops only when every job has settled or is in the hands of a
    worker whose executor call does not return.  The arguments are on the
    abstract system of System.v. *)
From S2P Require Import Prelude GoInt Utf8 JsonText Json Codec Agent Langs Jobs Config Redis Queue Worker System.

Section lifecycle.
Context `{RedisOk R} (cfg : Config) (q : Queue) (reg : Registry).

(** ** Abandoned jobs *)

(** Everywhere an id can be. *)
Definition places (st : store) (ws : list wpc) : list string := pending st ++ (ws ≫= holds).

(** What an effect changes: it moves no new id into the worker's hands, and
    touches only the job the worker holds. *)
Lemma effect_places st w st' w' lost :
  effect q st w st' w' lost ->
  (forall id, id ∈ pending st' ++ holds w' -> id ∈ pending st ++ holds w) /\
  (forall id, id ∉ holds w -> jobs st' !! id = jobs st !! id).
Proof.
  intros He. destruct He as [|rest id Hp|rest id Hp|w w' Hw Hh Hpc _|id job|id job|w Hw|id out];
    (split; [intros i; cbn [popped running_store pending jobs holds]|intros i; cbn [popped running_store jobs holds]; try done]).
  - done.
  - rewrite Hp. set_solver.
  - rewrite Hp. set_solver.
  - by rewrite Hh.
  - done.
  - intros Hi. rewrite lookup_alter_ne; [done|set_solver].
  - set_solver.
  - intros Hi. rewrite lookup_alter_ne; [done|set_solver].
  - set_solver.
  - rewrite concluded_pending. set_solver.
  - intros Hi. pose proof (concluded_jobs q st id out) as Hc.
    destruct (verdict out) as [[[s ce] es] rs]. rewrite Hc, lookup_alter_ne; [done|set_solver].
Qed.

(** No list and no worker has the id. *)
Definition nowhere (s : sys) (id : string) : Prop :=
  id ∉ list_at (view (client s)) queueKey ++ (workers s ≫= holds).

(** A job that is neither pending nor in a worker's hands, and not finished. *)
Record abandoned (st : store) (ws : list wpc) (id : string) (j : Job.t) : Prop := {
  ab_job : jobs st !! id = Some j;
  ab_unfinished : rank j <> 2%nat;
  ab_nowhere : id ∉ places st ws
}.

Lemma sys_effect_abandoned st ws us st' ws' us' lost id j :
  agrees st ws us -> abandoned st ws id j -> sys_effect q st ws us st' ws' us' lost ->
  abandoned st' ws' id j.
Proof.
  intros Ha [Hj Hr Hn] He. unfold places in Hn.
  destruct He as [job Hf Hne|i Hf Hne| |i [d Hd]|l1 w l2 st' w' lost -> He].
  - assert (Job.ID job <> id) by (intros <-; apply Hf, (ag_used _ _ _ Ha); eauto).
    split; [cbn; by rewrite lookup_insert_ne|done|]. unfold places. cbn. set_solver.
  - by split.
  - by split.
  - split; [|done|done]. cbn. rewrite lookup_delete_ne; [done|]. intros ->.
    destruct (ag_expiring _ _ _ Ha id) as (j' & Hj' & Hn'); [eauto|]. congruence.
  - destruct (effect_places _ _ _ _ _ He) as [Hp Hs]. rewrite workers_held in Hn. split; [|done|].
    + rewrite Hs; [done|]. set_solver.
    + unfold places. rewrite workers_held. intros Hin.
      assert (Hx : id ∈ pending st' ++ holds w' \/ id ∈ (l1 ≫= holds) ++ (l2 ≫= holds)) by set_solver.
      destruct Hx as [Hx%Hp|Hx]; set_solver.
Qed.

Lemma steps_abandoned st s s' id j :
  consistent st s -> abandoned st (workers s) id j -> rtc (sys_step q reg) s s' ->
  exists st', consistent st' s' /\ abandoned st' (workers s') id j.
Proof.
  intros Hc Ha Hs. revert st Hc Ha. induction Hs as [s|s s2 s' H1 _ IH]; intros st Hc Ha; [by exists st|].
  destruct (sys_step_consistent q reg _ _ _ Hc H1) as (st2 & lost & Hc2 & He).
  eapply IH; [done|]. eapply sys_effect_abandoned; [apply Hc|done|done].
Qed.

(** ** The work is bounded *)

Definition abstract_work (st : store) (ws : list wpc) : nat :=
  7 * length (pending st) + sum_list_with effort ws.

(** The work left in a system: seven calls at most for a pending job. *)
Definition work_left (s : sys) : nat :=
  7 * length (list_at (view (client s)) queueKey) + sum_list_with effort (workers s).

Lemma consistent_work st s : consistent st s -> work_left s = abstract_work st (workers s).
Proof. intros [Hr _]. unfold work_left, abstract_work. by rewrite (rep_pending _ _ Hr). Qed.

Lemma abstract_work_at st l1 w l2 :
  abstract_work st (l1 ++ w :: l2) =
  (7 * length (pending st) + effort w + sum_list_with effort (l1 ++ l2))%nat.
Proof. unfold abstract_work. rewrite !sum_list_with_app. cbn [sum_list_with]. lia. Qed.

(** Either nothing moved, or less is left to do. *)
Lemma effect_work st w st' w' lost :
  effect q st w st' w' lost ->
  (pending st' = pending st /\ w' = w) \/
  (7 * length (pending st') + effort w' < 7 * length (pending st) + effort w)%nat.
Proof.
  intros He. destruct He as [|rest id Hp|rest id Hp|w w' Hw Hh Hpc Hlt|id job|id job|w Hw|id out];
    cbn [popped running_store pending effort]; rewrite ?concluded_pending.
  - by left.
  - right. rewrite Hp, length_app. cbn. lia.
  - right. rewrite Hp, length_app. cbn. lia.
  - right. lia.
  - right. unfold maxAttempts. lia.
  - right. lia.
  - right. destruct w; try done; cbn; lia.
  - right. lia.
Qed.

(** A call that moves a worker or takes from the queue. *)
Definition busy (s s' : sys) : Prop :=
  sys_step q reg s s' /\ used s' = used s /\
  (workers s' <> workers s \/ list_at (view (client s')) queueKey <> list_at (view (client s)) queueKey).

Lemma step_work st s s' :
  consistent st s -> sys_step q reg s s' -> used s' = used s ->
  (workers s' = workers s /\ list_at (view (client s')) queueKey = list_at (view (client s)) queueKey) \/
  (work_left s' < work_left s)%nat.
Proof.
  intros Hc Hs Hu. destruct (sys_step_consistent q reg _ _ _ Hc Hs) as (st' & lost & Hc' & He).
  rewrite (consistent_work st s Hc), (consistent_work st' s' Hc').
  rewrite (rep_pending _ _ (proj1 Hc)), (rep_pending _ _ (proj1 Hc')).
  destruct s' as [r' ws' us']. cbn [client workers used] in *. subst us'.
  inversion He as [job Hf Hn|id Hf Hn| |id Hd|l1 w l2 st2 w' lost' Hw Hx]; subst; [..|rename Hx into He'].
  - set_solver.
  - set_solver.
  - by left.
  - by left.
  - rewrite Hw, !abstract_work_at. apply effect_work in He' as [[-> ->]|Hlt]; [by left|right; lia].
Qed.

(** [n] busy calls in any company of reads, expiries and idle polls. *)
Inductive schedule : nat -> sys -> sys -> Prop :=
  | sched_done s : schedule 0 s s
  | sched_busy n s s2 s' : busy s s2 -> schedule n s2 s' -> schedule (S n) s s'
  | sched_other n s s2 s' : sys_step q reg s s2 -> used s2 = used s -> schedule n s2 s' -> schedule n s s'.

Lemma schedule_bounded n s s' st : consistent st s -> schedule n s s' -> (n + work_left s' <= work_left s)%nat.
Proof.
  intros Hc Hs. revert st Hc. induction Hs as [s|n s s2 s' (Hs & Hu & Hm) _ IH|n s s2 s' Hs Hu _ IH]; intros st Hc.
  - lia.
  - destruct (sys_step_consistent q reg _ _ _ Hc Hs) as (st2 & lost & Hc2 & _).
    specialize (IH _ Hc2). destruct (step_work _ _ _ Hc Hs Hu) as [[? ?]|?]; [tauto|lia].
  - destruct (sys_step_consistent q reg _ _ _ Hc Hs) as (st2 & lost & Hc2 & _).
    specialize (IH _ Hc2).
    destruct (step_work _ _ _ Hc Hs Hu) as [[Hw Hq]|?]; [|lia].
    assert (work_left s2 = work_left s) by (unfold work_left; by rewrite Hw, Hq). lia.
Qed.

Lemma schedule_steps n s s' : schedule n s s' -> rtc (sys_step q reg) s s'.
Proof. induction 1 as [|n s s2 s' (Hs & _) _ IH|]; [done|..]; by eapply rtc_l. Qed.

(** ** Something can always be done *)

(** A moving worker has a call that returns. *)
Lemma worker_can_move r w :
  moving w = true -> exists r' w', worker_step q reg r w r' w' /\ w' <> w /\ hung w' = false.
Proof.
  destruct w as [|id|id job|id job le n|id out|id]; [done|..|done]; intros _.
  - destruct (Load r id) as [r' [job|e]] eqn:E; eexists r', _; (split; [by econstructor|done]).
  - destruct (SetRunning r id) as [r' [e|]] eqn:E; eexists r', _; (split; [by econstructor|done]).
  - destruct (Get reg (Job.Language job)) as [lang|] eqn:E.
    + destruct n as [|n]; [by eexists _, _; split; [eapply work_gives_up|]|].
      exists r, (WTrying id job (Some (ENew "")) n). split; [by eapply work_fails|].
      split; [|done]. intros [= _ Hn]. lia.
    + by eexists _, _; split; [eapply work_unknown|].
  - by eexists _, _; split; [apply work_concludes|].
Qed.

(** Only the hung calls are left: no worker is about to make a call that
    returns, and a worker that is idle has nothing to take. *)
Definition at_rest (s : sys) : Prop :=
  (forall w, w ∈ workers s -> moving w = false) /\
  (WIdle ∈ workers s -> list_at (view (client s)) queueKey = []).

Lemma moving_worker_or_none ws :
  (forall w, w ∈ ws -> moving w = false) \/ exists l1 w l2, ws = l1 ++ w :: l2 /\ moving w = true.
Proof.
  induction ws as [|w ws [IH|(l1 & w' & l2 & -> & Hw)]]; [left; set_solver| |right; by exists (w :: l1), w', l2].
  destruct (moving w) eqn:E; [right; by exists [], w, ws|left; set_solver].
Qed.

Lemma idle_or_none (ws : list wpc) : WIdle ∈ ws \/ WIdle ∉ ws.
Proof.
  induction ws as [|w ws IH]; [right; set_solver|].
  destruct w; first [left; by left|destruct IH; [left; by right|right; set_solver]].
Qed.

(** The workers that hang, in their places. *)
Definition hanging (s : sys (R := R)) : list bool := hung <$> workers s.

(** A hung worker stays where it is. *)
Lemma step_hung s s' id :
  WBlocked id ∈ workers s -> sys_step q reg s s' -> WBlocked id ∈ workers s'.
Proof.
  intros Hin Hs. destruct Hs as [| | |l1 w l2 r' w' Hw Hs]; cbn [workers]; try done.
  rewrite Hw in Hin. destruct (elem_of_app_cons _ _ _ _ Hin) as [<-|Hx]; [by inversion Hs|set_solver].
Qed.

Lemma steps_hung s s' id :
  WBlocked id ∈ workers s -> rtc (sys_step q reg) s s' -> WBlocked id ∈ workers s'.
Proof. intros Hin. induction 1 as [|s s2 s' H1 _ IH]; [done|]. by eapply IH, step_hung. Qed.

Lemma cons_neq {A} (l1 l2 : list A) x y : x <> y -> l1 ++ x :: l2 <> l1 ++ y :: l2.
Proof. intros Hn He%app_inv_head. by injection He. Qed.

Lemma step_workers s s' : sys_step q reg s s' -> length (workers s') = length (workers s).
Proof. intros [| | |l1 w l2 r' w' Hw _]; [done..|]. cbn. rewrite Hw, !length_app. done. Qed.

Lemma steps_workers s s' : rtc (sys_step q reg) s s' -> length (workers s') = length (workers s).
Proof. induction 1 as [|s s2 s' H1 _ IH]; [done|]. by rewrite IH, (step_workers s s2). Qed.

(** ** A Redis that answers *)

(** No call fails: Redis is reachable and the client's context is live. *)
Class RedisLive : Prop := {
  tx_live : forall r cmds, (redis_tx r cmds).2 = None;
  do_live : forall r c, (redis_do r c).2 = None;
  hgetall_live : forall r k, is_ok (redis_hgetall r k).2 = true;
  brpop_live : forall r k t e, (redis_brpop r k t).2 = Err e -> e = ESentinel RedisNil
}.

Section live.
Context {live : RedisLive}.

Lemma Dequeue_live r r' res : Dequeue r = (r', res) ->
  (res = Ok "" /\ view r' = view r /\ list_at (view r) queueKey = []) \/
  (exists rest id, res = Ok id /\ list_at (view r) queueKey = rest ++ [id] /\
    view r' = set_list (view r) queueKey rest).
Proof.
  unfold Dequeue. pose proof (brpop_live r queueKey popTimeout) as Hl.
  destruct (redis_brpop r queueKey popTimeout) as [r1 [l|e]] eqn:Eb; cbn [snd] in Hl.
  - apply brpop_ok in Eb as (rest & v & Hq & -> & Hv). intros [= <- <-]. right. by exists rest, v.
  - rewrite (Hl e eq_refl) in Eb |- *. cbn. intros [= <- <-]. left.
    pose proof (brpop_nil _ _ _ _ Eb) as Hn. apply brpop_err in Eb as [Hv|[Hne _]]; [|done].
    by rewrite Hv.
Qed.

Lemma Load_live r st id r' res :
  represents (view r) st -> is_Some (jobs st !! id) -> Load r id = (r', res) ->
  exists j, jobs st !! id = Some j /\ res = Ok j.
Proof.
  intros Hr [j Hj] Hl. destruct (Load_represents _ _ _ _ _ Hr Hl) as [_ [(e & _ & e' & He)|Hres]].
  - pose proof (hgetall_live r (jobKey id)) as Hok. by rewrite He in Hok.
  - exists j. by rewrite Hj in Hres.
Qed.

Lemma SetRunning_live r id : (SetRunning r id).2 = None.
Proof. apply do_live. Qed.

Lemma Finish_live r id s ce es rs : (Finish q r id s ce es rs).2 = None.
Proof. apply tx_live. Qed.

(** No call of a worker loses a job. *)
Lemma worker_step_live st l1 w l2 us r r' w' :
  represents (view r) st -> agrees st (l1 ++ w :: l2) us -> worker_step q reg r w r' w' ->
  exists st', represents (view r') st' /\ effect q st w st' w' false.
Proof.
  intros Hr Ha Hs.
  assert (Hpc : pc_agrees st w) by (apply (ag_workers _ _ _ Ha); set_solver).
  assert (Hpop : forall r2 res, Dequeue r = (r2, res) ->
    (res = Ok "" /\ view r2 = view r) \/
    (exists rest id, id <> "" /\ res = Ok id /\ pending st = rest ++ [id] /\
      represents (view r2) (popped st rest))).
  { intros r2 res [(? & ? & _)|(rest & id & -> & Hl & Hv)]%Dequeue_live; [by left|right].
    rewrite (rep_pending _ _ Hr) in Hl. exists rest, id. split_and!; [|done|done|].
    - intros ->. destruct (ag_pending _ _ _ Ha "") as (j & Hj & _); [rewrite Hl; set_solver|].
      apply (ag_named _ _ _ Ha), (ag_used _ _ _ Ha). eauto.
    - rewrite Hv. split; cbn; [apply (rep_job _ _ Hr)|apply list_at_set|apply (rep_ttl _ _ Hr)]. }
  destruct Hs as [r' id Hd Hid|r' Hd|r' e Hd|r' id job Hl|r' id e Hl|r' id job Hm|r' id job e Hm|
    id job le n Hg|id job le n lang resp Hg Hresp|id job le n lang e Hg|id job le n lang Hg|
    id job le lang Hg|id out].
  - destruct (Hpop _ _ Hd) as [[[= ->] _]|(rest & i & _ & [= <-] & Hp & Hrep)]; [done|].
    exists (popped st rest). split; [done|by constructor].
  - destruct (Hpop _ _ Hd) as [[_ Hv]|(rest & i & Hi & [= <-] & _)]; [|done].
    exists st. rewrite Hv. split; [done|constructor].
  - destruct (Hpop _ _ Hd) as [[[=] _]|(rest & i & _ & [=] & _)].
  - destruct (load_ok_job _ _ _ _ _ Hr Hl) as [Hv Hj].
    exists st. rewrite Hv. split; [done|]. constructor; [done|done| |cbn; lia].
    destruct Hpc as (j & Hj' & Hn). rewrite Hj in Hj'. by invc Hj'.
  - destruct Hpc as (j & Hj & _). by destruct (Load_live _ _ _ _ _ Hr ltac:(eauto) Hl) as (? & _ & [=]).
  - exists (running_store st id). split; [|constructor].
    destruct Hpc as [Hj _]. apply (SetRunning_represents q r); [done| |done]. by exists job.
  - pose proof (SetRunning_live r id) as Hok. by rewrite Hm in Hok.
  - exists st. split; [done|]. constructor; [done|done|by split; [eexists|]|cbn; lia].
  - exists st. split; [done|]. constructor; [done|done|by split; [eexists|]|cbn; lia].
  - exists st. split; [done|]. constructor; [done|done|done|cbn; lia].
  - exists st. split; [done|]. constructor; [done|done|by eexists|cbn; lia].
  - exists st. split; [done|]. constructor; [done|done|by split; [eexists|]|cbn; lia].
  - destruct Hpc as [(j & Hj & _) Hwf]. pose proof (verdict_results_wf out Hwf) as Hrs.
    assert (He : effect q st (WVerdict id out) (concluded q st id out) WIdle false) by constructor.
    rewrite conclude_verdict. unfold concluded in He. destruct (verdict out) as [[[s ce] es] rs].
    pose proof (Finish_live r id s ce es rs) as Hok.
    destruct (Finish q r id s ce es rs) as [r' oe] eqn:Ef. cbn [fst snd] in *. subst oe.
    destruct (run_op_view q r (OpFinish id s ce es rs) r' None Ef) as [Hv|[Hne _]]; [|done].
    eexists. split; [|exact He]. rewrite Hv. apply op_effect_represents; [done|]. by split.
Qed.

(** Every unfinished job is somewhere. *)
Definition accounted (st : store) (ws : list wpc) : Prop :=
  forall id j, jobs st !! id = Some j -> rank j = 2%nat \/ id ∈ places st ws.

Lemma effect_accounted st w st' w' l1 l2 us :
  agrees st (l1 ++ w :: l2) us -> effect q st w st' w' false ->
  accounted st (l1 ++ w :: l2) -> accounted st' (l1 ++ w' :: l2).
Proof.
  intros Ha He Hacc.
  assert (Hmove : jobs st' = jobs st -> (forall i, i ∈ pending st ++ holds w -> i ∈ pending st' ++ holds w') ->
    accounted st' (l1 ++ w' :: l2)).
  { intros Hj Hp id j Hid. rewrite Hj in Hid. destruct (Hacc id j Hid) as [|Hin]; [by left|right].
    unfold places in *. rewrite workers_held in *. specialize (Hp id). set_solver. }
  inversion He as [|rest id Hp|rest id Hp|w0 w0' Hw Hh Hpc Hlt|id job|id job|w0 Hw|id out]; subst.
  - done.
  - apply Hmove; [done|]. intros i. cbn [popped pending holds]. rewrite Hp. set_solver.
  - apply Hmove; [done|]. intros i. by rewrite Hh.
  - intros i j. cbn. destruct (decide (id = i)) as [<-|Hn].
    + intros _. right. unfold places. rewrite workers_held. cbn. set_solver.
    + rewrite lookup_alter_ne by done. intros Hi. destruct (Hacc i j Hi) as [|Hin]; [by left|right].
      unfold places in *. rewrite workers_held in *. cbn in *. set_solver.
  - intros i j. destruct (ag_workers _ _ _ Ha (WVerdict id out)) as [(j0 & Hj0 & _) _]; [set_solver|].
    destruct (decide (id = i)) as [<-|Hn].
    + intros Hi. left. destruct (concluded_rank q st id out) as (j1 & Hj1 & Hr); [eauto|].
      rewrite Hi in Hj1. by invc Hj1.
    + destruct (effect_places _ _ _ _ _ He) as [_ Hsp]. rewrite Hsp by (cbn; set_solver).
      intros Hi. destruct (Hacc i j Hi) as [|Hin]; [by left|right].
      unfold places in *. rewrite workers_held in *. rewrite concluded_pending. cbn in *. set_solver.
Qed.

Lemma step_accounted st s s' :
  consistent st s -> accounted st (workers s) -> sys_step q reg s s' ->
  exists st', consistent st' s' /\ accounted st' (workers s').
Proof.
  intros [Hr Ha] Hacc Hs.
  assert (Hdone : forall st' lost, represents (view (client s')) st' ->
    sys_effect q st (workers s) (used s) st' (workers s') (used s') lost ->
    accounted st' (workers s') -> exists st', consistent st' s' /\ accounted st' (workers s')).
  { intros st' lost Hr' He Hacc'. exists st'. split; [|done].
    split; [done|]. by eapply sys_effect_agrees. }
  destruct Hs as [job r' oe Hf Hn Ht Hm He|r' id res Hl|r' id Ht He|l1 w l2 r' w' Hw Hs];
    cbn [client workers used] in *.
  - destruct (run_op_represents q _ st (OpEnqueue job) r' oe Hr) as [Hv|Hv]; [|done| |].
    + split_and!; [|done|done]. destruct (jobs st !! Job.ID job) eqn:E; [|done].
      destruct Hf. eapply ag_used; [done|eauto].
    + eapply (Hdone _ false); [done|by constructor|]. intros i j. cbn.
      destruct (decide (Job.ID job = i)) as [<-|Hi]; [intros _; right; unfold places; cbn; set_solver|].
      rewrite lookup_insert_ne by done. intros Hj. destruct (Hacc i j Hj) as [|Hin]; [by left|right].
      unfold places in *. cbn. set_solver.
    + by eapply (Hdone _ false); [|by constructor|].
  - destruct (Load_represents _ _ _ _ _ Hr Hl) as [Hv _].
    by eapply (Hdone st false); [rewrite Hv|constructor|].
  - rewrite (rep_ttl _ _ Hr) in Ht. apply (Hdone (dropped st id) false); [|by constructor|].
    + rewrite He. by apply expire_represents.
    + intros i j. cbn. intros [_ Hj]%lookup_delete_Some. by apply Hacc in Hj.
  - rewrite Hw in Ha, Hacc.
    destruct (worker_step_live _ _ _ _ _ _ _ _ Hr Ha Hs) as (st' & Hr' & He).
    eapply (Hdone _ false); [done|by econstructor|]. by eapply effect_accounted.
Qed.

Lemma steps_accounted st s s' :
  consistent st s -> accounted st (workers s) -> rtc (sys_step q reg) s s' ->
  exists st', consistent st' s' /\ accounted st' (workers s').
Proof.
  intros Hc Ha Hs. revert st Hc Ha. induction Hs as [s|s s2 s' H1 _ IH]; intros st Hc Ha; [by exists st|].
  destruct (step_accounted _ _ _ Hc Ha H1) as (st2 & Hc2 & Ha2). by eapply IH.
Qed.

(** An idle worker takes what is waiting. *)
Lemma idle_takes s : WIdle ∈ workers s -> list_at (view (client s)) queueKey <> [] ->
  exists s', busy s s' /\ hanging s' = hanging s.
Proof.
  intros (l1 & l2 & Hw)%list_elem_of_split Hne.
  destruct (Dequeue (client s)) as [r' res] eqn:Ed.
  destruct (Dequeue_live _ _ _ Ed) as [(_ & _ & Hnil)|(rest & id & -> & Hl & Hv)]; [done|].
  assert (Hq : list_at (view r') queueKey <> list_at (view (client s)) queueKey).
  { rewrite Hv, list_at_set, Hl. intros Hx%(f_equal length). rewrite length_app in Hx. cbn in Hx. lia. }
  assert (Hstep : exists w', hung w' = false /\ worker_step q reg (client s) WIdle r' w').
  { destruct (decide (id = "")) as [->|Hid]; [exists WIdle|exists (WPopped id)]; (split; [done|]);
      by constructor. }
  destruct Hstep as (w' & Hh & Hs).
  exists {| client := r'; workers := l1 ++ w' :: l2; used := used s |}. split.
  - split_and!; [by eapply sys_works|done|by right].
  - unfold hanging. cbn [workers]. rewrite Hw, !fmap_app. cbn. by rewrite Hh.
Qed.

(** Unless the system is at rest, a worker can make a call that returns. *)
Lemma at_rest_or_busy s : at_rest s \/ exists s', busy s s' /\ hanging s' = hanging s.
Proof.
  destruct (moving_worker_or_none (workers s)) as [Hnone|(l1 & w & l2 & Hw & Hm)].
  - destruct (idle_or_none (workers s)) as [Hi|Hi]; [|by left].
    destruct (list_at (view (client s)) queueKey) as [|x l] eqn:El; [by left|right].
    apply idle_takes; [done|by rewrite El].
  - right. destruct (worker_can_move (client s) w Hm) as (r' & w' & Hs & Hn & Hh).
    exists {| client := r'; workers := l1 ++ w' :: l2; used := used s |}. split.
    + split_and!; [by eapply sys_works|done|left]. cbn. rewrite Hw. by apply cons_neq.
    + unfold hanging. cbn [workers]. rewrite Hw, !fmap_app. cbn. rewrite Hh. by destruct w.
Qed.

(** At rest nothing can be done. *)
Lemma at_rest_stuck st s s' : consistent st s -> at_rest s -> ~ busy s s'.
Proof.
  intros [Hr _] [Hw Hq] (Hs & Hu & Hd).
  destruct Hs as [job r' oe Hf _ _ _ _|r' id res Hl|r' id Ht He|l1 w l2 r' w' Ew Hs];
    cbn [client workers used] in *.
  - set_solver.
  - destruct (Load_represents _ _ _ _ _ Hr Hl) as [Hv _]. rewrite Hv in Hd. tauto.
  - rewrite He in Hd. tauto.
  - assert (Hin : w ∈ workers s) by (rewrite Ew; set_solver). specialize (Hw w Hin).
    destruct Hs; try done; specialize (Hq Hin);
      destruct (Dequeue_live _ _ _ ltac:(done)) as [(? & Hv & _)|(rest & i & ? & Hl & _)]; simplify_eq;
      try (rewrite Hl in Hq; by destruct rest); rewrite Ew, Hv in Hd; tauto.
Qed.

(** Working on, with no further call hanging, leads to rest. *)
Lemma reaches_rest s st : consistent st s ->
  exists n s', schedule n s s' /\ at_rest s' /\ hanging s' = hanging s.
Proof.
  remember (work_left s) as k eqn:Hk. revert s st Hk.
  induction k as [k IH] using lt_wf_ind. intros s st Hk Hc.
  destruct (at_rest_or_busy s) as [Hq|(s2 & (Hs & Hu & Hm) & Hh)]; [exists 0%nat, s; split; [constructor|done]|].
  destruct (sys_step_consistent q reg _ _ _ Hc Hs) as (st2 & lost & Hc2 & _).
  destruct (step_work _ _ _ Hc Hs Hu) as [[? ?]|Hlt]; [tauto|].
  destruct (IH (work_left s2) ltac:(lia) s2 st2 eq_refl Hc2) as (n & s' & Hn & Hq & Hh').
  exists (S n), s'. split_and!; [by eapply sched_busy|done|by rewrite Hh'].
Qed.

(** At rest a job that has not finished waits for a worker that hangs. *)
Lemma at_rest_job st s id j :
  consistent st s -> accounted st (workers s) -> at_rest s -> workers s <> [] ->
  jobs st !! id = Some j ->
  Terminal (Job.Status j) = true \/ WBlocked id ∈ workers s \/
  id ∈ pending st /\ (forall w, w ∈ workers s -> hung w = true).
Proof.
  intros [Hr Ha] Hacc [Hw Hq] Hne Hj. rewrite <- (rank_2 j).
  destruct (Hacc id j Hj) as [|[Hp|(w & Hid & Hin)%list_elem_of_bind]%elem_of_app]; [by left|right; right|right; left].
  - split; [done|]. intros w Hin. specialize (Hw w Hin). destruct w; try done.
    rewrite <- (rep_pending _ _ Hr), (Hq Hin) in Hp. by apply elem_of_nil in Hp.
  - specialize (Hw w Hin). destruct w; try done; cbn in Hid; [set_solver|].
    by apply list_elem_of_singleton in Hid as ->.
Qed.
End live.
End lifecycle.

(** * Properties *)

Section properties.
Context `{RedisOk R} (cfg : Config) (q : Queue) (reg : Registry).

(** C16. The workers' work terminates: without new submissions, and whatever
    Redis and the executors answer, only boundedly many calls can move a
    worker or take from the queue - seven for each pending job and what the
    workers have in hand - in any company of reads, expiries and idle polls. *)
Theorem work_is_bounded s0 s n s' :
  sys_start cfg s0 -> rtc (sys_step q reg) s0 s -> schedule q reg n s s' ->
  (n + work_left s' <= work_left s)%nat.
Proof.
  intros Hs0%sys_start_consistent Hs Hn.
  destruct (sys_steps_consistent q reg _ _ _ Hs0 Hs) as (st & Hc & _).
  by eapply schedule_bounded.
Qed.

(** C3. What becomes of every job, on a Redis that answers and with at least
    one worker.  From every reachable state the workers can work, with no
    further executor call hanging, until the system is at rest; whatever they
    do, they are stuck exactly when it is at rest (and by work_is_bounded they
    cannot go on for ever); and at rest a stored job is done or failed, or in
    the hands of a worker whose call of Execute does not return, or waiting
    while every worker is in such a call.  So with executors that return every
    job settles; a job whose call hangs stays running for ever. *)
Theorem every_job_settles `{!RedisLive} s0 s :
  1 <= WorkerConcurrency cfg -> sys_start cfg s0 -> rtc (sys_step q reg) s0 s ->
  (exists n s', schedule q reg n s s' /\ at_rest s' /\ hanging s' = hanging s) /\
  ((forall s2, ~ busy q reg s s2) <-> at_rest s) /\
  (at_rest s -> forall id r' j, Load (client s) id = (r', Ok j) ->
     Terminal (Job.Status j) = true \/ WBlocked id ∈ workers s \/
     id ∈ list_at (view (client s)) queueKey /\ (forall w, w ∈ workers s -> hung w = true)) /\
  (forall id s' r' j, WBlocked id ∈ workers s -> rtc (sys_step q reg) s s' ->
     Load (client s') id = (r', Ok j) -> Job.Status j = StatusRunning).
Proof.
  intros Hwc Hs0 Hs. pose proof (sys_start_consistent _ _ Hs0) as Hc0.
  assert (Hacc0 : accounted empty_store (workers s0)) by (intros id j [=]).
  destruct (steps_accounted q reg _ _ _ Hc0 Hacc0 Hs) as (st & Hc & Hacc). split_and!.
  - by apply (reaches_rest q reg s st Hc).
  - split; [|intros Hr s2; by eapply at_rest_stuck]. intros Hstuck.
    destruct (at_rest_or_busy q reg s) as [|(s2 & Hb & _)]; [done|by destruct (Hstuck s2)].
  - intros Hrest id r' j Hl. destruct (load_ok_job _ _ _ _ _ (proj1 Hc) Hl) as [_ Hj].
    rewrite (rep_pending _ _ (proj1 Hc)). eapply at_rest_job; [done|done|done| |done].
    intros E. apply steps_workers in Hs. destruct Hs0 as (_ & Hw & _).
    rewrite E, Hw, length_replicate in Hs. cbn in Hs. lia.
  - intros id s' r' j Hb Hs' Hl. apply (steps_hung q reg _ s') in Hb; [|done].
    destruct (sys_steps_consistent q reg _ _ _ Hc Hs') as (st' & [Hr Ha] & _).
    destruct (load_ok_job _ _ _ _ _ Hr Hl) as [_ Hj].
    destruct (ag_workers _ _ _ Ha _ Hb) as (j' & Hj' & Hn). rewrite Hj in Hj'. invc Hj'. by apply rank_1.
Qed.

(** C20. An abandoned job is stuck for ever: once an unfinished job is neither
    on the pending list nor in a worker's hands - its hash could not be read,
    its mark or its verdict could not be stored, the reply of the dequeue was
    lost - every later read, under any interleaving, finds it as it was,
    queued or running, and it never gets a time to live. *)
Theorem abandoned_job_is_stuck s0 s s' id r1 j :
  sys_start cfg s0 -> rtc (sys_step q reg) s0 s -> rtc (sys_step q reg) s s' ->
  Load (client s) id = (r1, Ok j) -> Terminal (Job.Status j) = false -> nowhere s id ->
  is_Some (hashes (view (client s')) !! jobKey id) /\ ttls (view (client s')) !! jobKey id = None /\
  forall r2 j', Load (client s') id = (r2, Ok j') -> j' = j.
Proof.
  intros Hs0%sys_start_consistent Hs Hs' Hl Ht Hn.
  destruct (sys_steps_consistent q reg _ _ _ Hs0 Hs) as (st & Hc & _).
  destruct (load_ok_job _ _ _ _ _ (proj1 Hc) Hl) as [_ Hj].
  assert (Hr : rank j <> 2%nat) by (intros E%rank_2; congruence).
  assert (Hab : abandoned st (workers s) id j).
  { split; [done|done|]. unfold places. by rewrite <- (rep_pending _ _ (proj1 Hc)). }
  destruct (steps_abandoned q reg _ _ _ _ _ Hc Hab Hs') as (st' & [Hr' Ha'] & [Hj' _ _]).
  split_and!.
  - pose proof (rep_job _ _ Hr' id) as Hd. rewrite Hj' in Hd. destruct Hd as (m & Hm & _). eauto.
  - rewrite (rep_ttl _ _ Hr'). destruct (expiring st' !! id) eqn:E; [|done].
    destruct (ag_expiring _ _ _ Ha' id) as (j' & Hj2 & Hne); [eauto|]. congruence.
  - intros r2 j' Hl'. destruct (load_ok_job _ _ _ _ _ Hr' Hl') as [_ Hj2]. congruence.
Qed.
End properties.

(** ** The properties at concrete inputs *)

(** A Redis that always answers: a keyspace. *)
#[export] Instance keyspace_redis : Redis keyspace := {
  redis_tx k cmds := (apply_cmds k cmds, None);
  redis_do k c := (apply_cmd k c, None);
  redis_hgetall k key := (k, Ok (hash_at k key));
  redis_brpop k key _ :=
    match rest_last (list_at k key) with
    | None => (k, Err (ESentinel RedisNil))
    | Some (rest, v) => (set_list k key rest, Ok [key; v])
    end
}.

#[export] Instance keyspace_redis_ok : RedisOk keyspace.
Proof.
  refine {| view k := k |}; cbn.
  - by intros r cmds r' [= <-].
  - done.
  - by intros r c r' [= <-].
  - done.
  - by intros r k r' m [= <- <-].
  - done.
  - intros r k _ r' l. pose proof (rest_last_spec (list_at r k)) as Hl.
    destruct (rest_last _) as [[rest v]|]; [|done]. intros [= <- <-]. eauto.
  - intros r k _ r' e. destruct (rest_last _) as [[rest v]|]; [done|]. intros [= <- <-]. by left.
  - intros r k _ r'. pose proof (rest_last_spec (list_at r k)) as Hl.
    by destruct (rest_last _) as [[rest v]|].
Defined.

#[export] Instance keyspace_redis_live : RedisLive (R := keyspace).
Proof.
  split; [done..|]. intros r k t e. cbn. destruct (rest_last _) as [[rest v]|]; [done|]. by intros [= <-].
Qed.

Definition live_start : sys := {| client := empty_ks; workers := crew; used := ∅ |}.
Definition live_submitted : sys :=
  {| client := (Enqueue empty_ks demo_job).1; workers := crew; used := {["job-1"]} ∪ ∅ |}.

Lemma live_start_ok : sys_start demo_cfg live_start.
Proof. split; [apply represents_empty|by split]. Qed.

Lemma live_submits : sys_step demo_queue demo_registry live_start live_submitted.
Proof.
  eapply (sys_submits _ _ live_start demo_job _ None); [|by vm_compute..].
  vm_compute. intros H. inversion H.
Qed.

Lemma live_reached : rtc (sys_step demo_queue demo_registry) live_start live_submitted.
Proof. apply rtc_once, live_submits. Qed.

(** One busy call, of the seven that a pending job can take. *)
Definition live_popped : sys :=
  {| client := (Dequeue (client live_submitted)).1; workers := [] ++ WPopped "job-1" :: tail crew;
     used := used live_submitted |}.

Lemma work_is_bounded_witness : (1 + work_left live_popped <= work_left live_submitted)%nat.
Proof.
  apply (work_is_bounded demo_cfg demo_queue demo_registry live_start live_submitted 1 live_popped).
  - apply live_start_ok.
  - apply live_reached.
  - apply (sched_busy _ _ 0 live_submitted live_popped live_popped); [|constructor].
    split; [|split; [reflexivity|left; discriminate]].
    apply (sys_works _ _ live_submitted [] WIdle (tail crew)); [reflexivity|].
    apply work_pops; [vm_compute; reflexivity|discriminate].
Defined.

Lemma every_job_settles_witness :
  exists n s', schedule demo_queue demo_registry n live_submitted s' /\ at_rest s' /\
    hanging s' = hanging live_submitted.
Proof.
  apply (every_job_settles demo_cfg demo_queue demo_registry live_start live_submitted).
  - vm_compute. discriminate.
  - apply live_start_ok.
  - apply live_reached.
Defined.

(** A Redis whose third call fails: a worker takes the job and cannot read it. *)
Definition flaky_mem : mem := {| ks := empty_ks;
  script := [None; None; Some {| f_err := ENew "connection reset"; f_applied := false |}] |}.
Definition flaky_submitted : mem := (Enqueue flaky_mem demo_job).1.
Definition flaky_popped : mem := (Dequeue flaky_submitted).1.
Definition flaky_unread : mem := (Load flaky_popped "job-1").1.
Definition flaky_sys (r : mem) (w : wpc) (us : gset string) : sys :=
  {| client := r; workers := [] ++ w :: tail crew; used := us |}.

Lemma flaky_reached :
  rtc (sys_step demo_queue demo_registry) (flaky_sys flaky_mem WIdle ∅)
    (flaky_sys flaky_unread WIdle ({["job-1"]} ∪ ∅)).
Proof.
  eapply rtc_l.
  { eapply (sys_submits _ _ (flaky_sys flaky_mem WIdle ∅) demo_job flaky_submitted None); [|by vm_compute..].
    vm_compute. intros H. inversion H. }
  apply (work_lift demo_queue demo_registry flaky_submitted WIdle flaky_unread WIdle [] (tail crew)).
  apply (rtc_l _ _ (flaky_popped, WPopped "job-1")).
  { apply work_pops; [vm_compute; reflexivity|discriminate]. }
  apply rtc_once. apply (work_load_fails _ _ _ _ _ (ENew "connection reset")). vm_compute. reflexivity.
Qed.

(** The job is still there, and still queued, after any number of turns. *)
Lemma abandoned_job_is_stuck_witness :
  let s := flaky_sys flaky_unread WIdle ({["job-1"]} ∪ ∅) in
  let s' := flaky_sys (Dequeue flaky_unread).1 WIdle ({["job-1"]} ∪ ∅) in
  ttls (view (client s')) !! jobKey "job-1" = None /\
  snd (Load (client s') "job-1") = Ok (submitted demo_job).
Proof.
  cbn zeta.
  destruct (abandoned_job_is_stuck demo_cfg demo_queue demo_registry (flaky_sys flaky_mem WIdle ∅)
    (flaky_sys flaky_unread WIdle ({["job-1"]} ∪ ∅))
    (flaky_sys (Dequeue flaky_unread).1 WIdle ({["job-1"]} ∪ ∅))
    "job-1" (Load flaky_unread "job-1").1 (submitted demo_job)) as (_ & Ht & Hj).
  - split; [apply represents_empty|by split].
  - apply flaky_reached.
  - apply (work_lift demo_queue demo_registry flaky_unread WIdle (Dequeue flaky_unread).1 WIdle [] (tail crew)).
    apply rtc_once, work_idles. vm_compute. reflexivity.
  - vm_compute. reflexivity.
  - reflexivity.
  - vm_compute. intros H. inversion H.
  - split; [exact Ht|vm_compute; reflexivity].
Defined.
