(* ===== verification/Service.v ===== *)
(** The service as a whole: the worker over the pool executor over the wire to
    the guest agent, between the two HTTP calls of a client.  The worker's
    [Executor] interface is implemented by the pool executor, whose answers
    come from the agent. *)
From S2P Require Import Prelude GoInt Utf8 JsonText Json Codec Agent Filepath Langs Jobs Config Redis.
From S2P Require Import Queue Worker Api Clock Wire Typed Guest Driver Execute System Lifecycle.

(** * The pool executor as the worker's executor *)

Definition nil_vm : error := ENew "nil VM".

Section service.
Context `{Link} (e : Execute.Executor) `{VMPool P}.

(** [Execute] of pool/executor.go, as what the worker calls.  The flag says that
    the process is gone: the executor panicked on a nil VM, and what the worker
    would make of [nil_vm] never happens ([pool_turn]). *)
Definition pool_execute (s : P * bool) (langID : string) (req : ExecRequest) : (P * bool) * result ExecResponse :=
  let '(p, gone) := s in
  if gone then (s, Err nil_vm)
  else match Execute.Execute e p langID req with
       | (p, Some r) => ((p, false), r)
       | (p, None) => ((p, true), Err nil_vm)
       end.
End service.

(** * The agent at the other end *)

(** The bytes the agent writes when it is sent [sent]. *)
Definition guest_reply `{OS W} (w : W) (sent : bytes) : bytes :=
  match serve w (Ok tt) (Ok (stream sent)) with (_, Some g, _) => outbox g | _ => [] end.

Section guest.
Context `{OSOk W}.

(** The agent's answer to a request, as it handles it. *)
Definition agent_answer (w : W) (req : ExecRequest) : ExecResponse := (handle w (Agent.canon_request req)).2.

Lemma guest_reply_frame (w : W) req :
  Agent.request_wf req -> blen (marshal req) <= MaxFrameBytes ->
  guest_reply w (frame (marshal req)) = frame (marshal (agent_answer w req)).
Proof.
  intros Hq Hm. pose proof (marshal_pos req). unfold guest_reply, serve.
  rewrite (readFrame_frame (marshal req) []); [|by rewrite app_nil_r|lia].
  rewrite (unmarshal_marshal req); [|exact Hq|vm_compute; discriminate].
  change (j_canon req) with (Agent.canon_request req). unfold agent_answer.
  destruct (handle w (Agent.canon_request req)) as [w' resp].
  by rewrite writeFrame_healthy.
Qed.
End guest.

(** * Executing on a VM *)

Section executing.
Context `{LinkOk} (e : Execute.Executor) `{VMPool P} `{OSOk W}.

(** A VM whose guest works: dialling it gives a connection on which the
    request's frame is answered by what the agent writes on reading it. *)
Definition serves (vm : VM) (w : W) (req : ExecRequest) : Prop := exists c,
  VsockHostDial (poll_fuel dialInterval (DialTimeout e)) (attempt (VsockUDS vm))
    clock_at clock_0 (VsockUDS vm) (Port e) (DialTimeout e) = Some (Ok c) /\
  healthy (with_deadline (budget e req) c) /\
  inbox (with_deadline (budget e req) c) = guest_reply w (frame (marshal req)).

(** The frames of a request and of its answer are within the limit. *)
Definition fits_frames (w : W) (req : ExecRequest) : Prop :=
  blen (marshal req) <= MaxFrameBytes /\ blen (marshal (agent_answer w req)) <= MaxFrameBytes.

Lemma exchange_serves vm w req :
  serves vm w req -> Agent.request_wf req -> fits_frames w req ->
  exists c, exchange e (Some vm) req = Some (c, Ok (canon_response (agent_answer w req))).
Proof.
  intros (c & Hd & Hh & Hi) Hq [Hm Ha]. unfold exchange, dial. rewrite Hd.
  rewrite guest_reply_frame in Hi by done. eexists. f_equal.
  rewrite (exchange_frame _ req (marshal (agent_answer w req)) []); [|done|done| |].
  - rewrite (unmarshal_marshal (agent_answer w req)); [done|apply handle_wf|by vm_compute].
  - by rewrite app_nil_r.
  - pose proof (marshal_pos (agent_answer w req)). lia.
Qed.

Lemma pool_execute_serves p langID p1 vm w req :
  Acquire p langID = (p1, Ok (Some vm)) -> serves vm w req -> Agent.request_wf req -> fits_frames w req ->
  pool_execute e (p, false) langID req =
    ((Release p1 (Some vm), false), Ok (canon_response (agent_answer w req))).
Proof.
  intros Ha Hs Hq Hf. unfold pool_execute, Execute.Execute. rewrite Ha.
  by destruct (exchange_serves vm w req Hs Hq Hf) as [c ->].
Qed.

Lemma pool_execute_fails p langID p1 vm req c x :
  Acquire p langID = (p1, Ok (Some vm)) -> exchange e (Some vm) req = Some (c, Err x) ->
  pool_execute e (p, false) langID req = ((Discard p1 (Some vm), false), Err x).
Proof. intros Ha Hx. unfold pool_execute, Execute.Execute. by rewrite Ha, Hx. Qed.

(** Whatever the VM sends, an answer the executor returns is well typed. *)
Lemma pool_answers_typed s langID req s' resp :
  pool_execute e s langID req = (s', Ok resp) -> response_wf resp.
Proof.
  destruct s as [p [|]]; [done|]. unfold pool_execute, Execute.Execute.
  destruct (Acquire p langID) as [p1 [[vm|]|x]]; [|done|done].
  unfold exchange. destruct (dial e vm) as [[c|x]|]; [|done|done].
  destruct (Exchange req _) as [c' r] eqn:Ex. destruct r as [resp'|x]; intros [= <- <-].
  by eapply exchange_typed.
Qed.

#[export] Instance pool_executor : Worker.Executor (P * bool) := pool_execute e.

(** A turn of the worker over the pool; [None] is a process that panicked. *)
Definition pool_turn `{Redis R} (cfg : Config) (q : Queue) (reg : Registry) (s : R * P) : option (R * P) :=
  let '(r, (p, gone)) := turn cfg q reg (s.1, (s.2, false)) in if gone then None else Some (r, p).

(** The first VM fails and the second serves. *)
Lemma two_tries_second p langID p1 vm1 c x p2 vm2 w req :
  Acquire p langID = (p1, Ok (Some vm1)) -> exchange e (Some vm1) req = Some (c, Err x) ->
  Acquire (Discard p1 (Some vm1)) langID = (p2, Ok (Some vm2)) ->
  serves vm2 w req -> Agent.request_wf req -> fits_frames w req ->
  two_tries (p, false) langID req =
    ((Release p2 (Some vm2), false), inl (canon_response (agent_answer w req))).
Proof.
  intros Ha1 Hx Ha2 Hs Hq Hf. unfold two_tries, Worker.Execute, pool_executor.
  rewrite (pool_execute_fails p langID p1 vm1 req c x) by done.
  by rewrite (pool_execute_serves _ langID p2 vm2 w req).
Qed.

Lemma two_tries_first p langID p1 vm w req :
  Acquire p langID = (p1, Ok (Some vm)) -> serves vm w req -> Agent.request_wf req -> fits_frames w req ->
  two_tries (p, false) langID req =
    ((Release p1 (Some vm), false), inl (canon_response (agent_answer w req))).
Proof.
  intros Ha Hs Hq Hf. unfold two_tries, Worker.Execute, pool_executor.
  by rewrite (pool_execute_serves p langID p1 vm w req).
Qed.
End executing.

(** * A turn of the worker on a Redis that answers *)

Section turning.
Context `{RedisOk R} `{Worker.Executor E} (cfg : Config) (q : Queue) (reg : Registry).
Context {live : RedisLive (R := R)}.

Lemma turn_pops (r : R) (ex : E) st id rest :
  represents (view r) st -> pending st = rest ++ [id] -> id <> "" ->
  exists r1, represents (view r1) (popped st rest) /\ turn cfg q reg (r, ex) = process cfg q reg (r1, ex) id.
Proof.
  intros Hr Hp Hid. unfold turn. destruct (Dequeue r) as [r1 res] eqn:Ed.
  destruct (Dequeue_live _ _ _ Ed) as [(_ & _ & Hn)|(rest' & id' & -> & Hl & Hv)].
  { rewrite (rep_pending _ _ Hr), Hp in Hn. by destruct rest. }
  rewrite (rep_pending _ _ Hr), Hp in Hl. apply app_inj_tail in Hl as [<- <-].
  apply String.eqb_neq in Hid as ->. exists r1. split; [|done].
  rewrite Hv. split; cbn; [apply (rep_job _ _ Hr)|apply list_at_set|apply (rep_ttl _ _ Hr)].
Qed.

(** The job at the tail of the queue is taken, run and settled. *)
Lemma turn_settles (r : R) (ex : E) st id rest job :
  represents (view r) st -> pending st = rest ++ [id] -> id <> "" -> jobs st !! id = Some job ->
  verdict_wf (job_outcome cfg reg ex job).2 ->
  exists r', turn cfg q reg (r, ex) = (r', (job_outcome cfg reg ex job).1) /\
    represents (view r') (settled_store q (popped st rest) id job (job_outcome cfg reg ex job).2).
Proof.
  intros Hr Hp Hid Hj Hwf. destruct (turn_pops r ex st id rest) as (r1 & Hr1 & ->); [done..|].
  destruct (Load r1 id) as [r2 res] eqn:El.
  destruct (Load_live _ _ _ _ _ Hr1 ltac:(by exists job) El) as (j & Hj' & ->).
  cbn [popped jobs] in Hj'. rewrite Hj in Hj'. injection Hj' as <-.
  destruct (load_ok_job _ _ _ _ _ Hr1 El) as [Hv2 _]. rewrite <- Hv2 in Hr1.
  pose proof (SetRunning_live r2 id) as Hs. destruct (SetRunning r2 id) as [r3 oe] eqn:Es.
  cbn [snd] in Hs. subst oe.
  assert (Hrun : represents (view r3) (running_store (popped st rest) id))
    by (apply (SetRunning_represents q r2); [done|by exists job|done]).
  rewrite (process_steps cfg q reg r1 ex id r2 job r3) by done.
  eexists. split; [reflexivity|]. rewrite conclude_verdict.
  pose proof (Finish_represents q r3 (popped st rest) id job _ Hrun Hj Hwf) as Hf.
  destruct (verdict _) as [[[s ce] es] rs].
  pose proof (Finish_live q r3 id s ce es rs) as Hlf.
  destruct (Finish q r3 id s ce es rs) as [r4 oe]. cbn [fst snd] in *. subst oe.
  by destruct Hf as [|[? _]].
Qed.

(** An id without a job is taken and forgotten. *)
Lemma turn_skips (r : R) (ex : E) st id rest :
  represents (view r) st -> pending st = rest ++ [id] -> id <> "" -> jobs st !! id = None ->
  exists r', turn cfg q reg (r, ex) = (r', ex) /\ represents (view r') (popped st rest).
Proof.
  intros Hr Hp Hid Hj. destruct (turn_pops r ex st id rest) as (r1 & Hr1 & ->); [done..|].
  unfold process. destruct (Load r1 id) as [r2 res] eqn:El.
  destruct (Load_represents _ _ _ _ _ Hr1 El) as [Hv Hres]. rewrite <- Hv in Hr1. exists r2.
  destruct Hres as [(e & -> & _)| ->]; [done|]. cbn [popped jobs]. by rewrite Hj.
Qed.

(** Reading the status of a stored job. *)
Lemma status_live (r : R) st id job :
  represents (view r) st -> id <> "" -> jobs st !! id = Some job ->
  (status r id).2 = json_response StatusOK (j_enc (status_view job)).
Proof.
  intros Hr Hid Hj. unfold status. apply String.eqb_neq in Hid as ->.
  destruct (Load r id) as [r' res] eqn:El.
  destruct (Load_live _ _ _ _ _ Hr ltac:(by exists job) El) as (j & Hj' & ->).
  rewrite Hj in Hj'. by injection Hj' as <-.
Qed.
End turning.

(** * From one HTTP call to the next *)

Section submission.
Context `{RedisOk R} (cfg : Config) (q : Queue) (reg : Registry).
Context {live : RedisLive (R := R)}.

(** What [GET /status/{id}] says of a submission that came to [out]. *)
Definition reported (id : string) (req : execRequest.t) (out : ExecResponse + option error) : response :=
  json_response StatusOK (j_enc (status_view (settled out (submitted (new_job id req))))).

(** What the worker sends for a submission. *)
Definition sent_for (lang : Language.t) (id : string) (req : execRequest.t) : ExecRequest :=
  build_request cfg lang (submitted (new_job id req)).

Lemma sent_for_wf lang id limit b req :
  config_wf cfg -> decode_request limit b = Ok req -> Agent.request_wf (sent_for lang id req).
Proof.
  intros Hc Hd. apply build_request_typed; [done|].
  destruct (new_job_typed id req) as (Ht & Hm & _); [by eapply decode_request_typed|].
  split_and!; [done|done|constructor].
Qed.

(** A submission accepted on an empty queue: the next turn of a worker runs it
    and stores what comes of it, and that is what a poll reports. *)
Lemma submission_turn `{Worker.Executor E} (r0 : R) st0 b req id r1 resp1 lang (ex ex' : E) out :
  represents (view r0) st0 -> pending st0 = [] -> jobs st0 !! id = None -> id <> "" ->
  decode_request (MaxRequestBytes cfg) b = Ok req ->
  exec cfg reg r0 b (Ok id) = (r1, resp1) -> code resp1 = StatusAccepted ->
  Get reg (execRequest.Language req) = Some lang ->
  two_tries ex (Language.ID lang) (sent_for lang id req) = (ex', out) -> verdict_wf out ->
  exists r2, turn cfg q reg (r1, ex) = (r2, ex') /\ (status r2 id).2 = reported id req out.
Proof.
  intros Hr Hp Hf Hid Hd He Hc Hg Ht Hwf.
  pose proof (accepted_enqueues _ _ _ _ _ _ _ _ Hd He Hc) as Hq.
  set (job := new_job id req) in *.
  destruct (decode_request_typed _ _ _ Hd) as [Htl Hml].
  destruct (run_op_view q r0 (OpEnqueue job) r1 None Hq) as [Hv|[Hne _]]; [|done].
  assert (Hr1 : represents (view r1) (spec_op q st0 (OpEnqueue job)))
    by (rewrite Hv; by apply op_effect_represents).
  assert (Ho : job_outcome cfg reg ex (submitted job) = (ex', out)).
  { unfold job_outcome. cbn [submitted job new_job Job.Language]. by rewrite Hg. }
  destruct (turn_settles cfg q reg r1 ex _ id [] (submitted job) Hr1) as (r2 & Ht2 & Hr2).
  - cbn. by rewrite Hp.
  - done.
  - apply lookup_insert_eq.
  - by rewrite Ho.
  - rewrite Ho in Ht2, Hr2. exists r2. split; [done|].
    apply (status_live _ _ _ _ Hr2 Hid). apply lookup_insert_eq.
Qed.
End submission.

(** ** A backlog *)

(** The store without the id at the tail of its queue. *)
Definition taken (st : store) : store := popped st (removelast (pending st)).

(** The reference for the loop: the ids' jobs run one after another, each
    settled in the store by what its own run came to; an id without a job is
    only taken from the queue. *)
Fixpoint drain `{Worker.Executor E} (cfg : Config) (q : Queue) (reg : Registry) (ex : E) (st : store)
    (ids : list string) : E * store :=
  match ids with
  | [] => (ex, st)
  | id :: ids =>
      match jobs st !! id with
      | None => drain cfg q reg ex (taken st) ids
      | Some job =>
          let '(ex, out) := job_outcome cfg reg ex job in
          drain cfg q reg ex (settled_store q (taken st) id job out) ids
      end
  end.

(** What the worker relies on its executor for: the answers are well typed. *)
Class ExecutorTyped (E : Type) `{Worker.Executor E} : Prop :=
  answers_typed : forall (ex : E) langID req ex' resp,
    Worker.Execute ex langID req = (ex', Ok resp) -> response_wf resp.

#[export] Instance pool_executor_typed `{LinkOk} (e : Execute.Executor) `{VMPool P} :
  @ExecutorTyped (P * bool) (pool_executor e).
Proof. intros p langID req p' resp Hx. by eapply pool_answers_typed. Qed.

Lemma job_outcome_typed `{ExecutorTyped E} cfg reg (ex : E) job : verdict_wf (job_outcome cfg reg ex job).2.
Proof.
  unfold job_outcome, two_tries. destruct (Get reg _) as [lang|]; [|done].
  destruct (Worker.Execute ex _ _) as [e1 [resp|x]] eqn:E1; [by eapply answers_typed|].
  destruct (Worker.Execute e1 _ _) as [e2 [resp|x']] eqn:E2; [by eapply answers_typed|done].
Qed.

Section backlog.
Context `{RedisOk R} `{ExecutorTyped E} (cfg : Config) (q : Queue) (reg : Registry).
Context {live : RedisLive (R := R)}.

Lemma loop_drains ids : forall (r : R) (ex : E) st,
  represents (view r) st -> pending st = rev ids -> "" ∉ ids ->
  exists r', loop cfg q reg (replicate (length ids) false) (r, ex) = (r', (drain cfg q reg ex st ids).1) /\
    represents (view r') (drain cfg q reg ex st ids).2 /\ pending (drain cfg q reg ex st ids).2 = [].
Proof.
  induction ids as [|id ids IH]; intros r ex st Hr Hp Hn; [by exists r|].
  apply not_elem_of_cons in Hn as [Hid Hn].
  assert (Hid' : id <> "") by by intros ->.
  cbn [rev length replicate loop drain] in *.
  assert (taken st = popped st (rev ids)) as -> by (unfold taken; by rewrite Hp, removelast_last).
  destruct (jobs st !! id) as [job|] eqn:Hj.
  - destruct (turn_settles cfg q reg r ex st id (rev ids) job) as (r1 & -> & Hr1);
      [done..|apply job_outcome_typed|].
    destruct (job_outcome cfg reg ex job) as [ex1 out]. cbn [fst snd] in *. by apply IH.
  - destruct (turn_skips cfg q reg r ex st id (rev ids)) as (r1 & -> & Hr1); [done..|]. by apply IH.
Qed.
End backlog.

(** * Properties *)

Section properties.
Context `{RedisOk R} (cfg : Config) (q : Queue) (reg : Registry).
Context {live : RedisLive (R := R)}.

(** C14. A backlog is worked off in order: on a Redis that answers, [n] turns of
    one worker over [n] pending jobs take them in the order they were queued
    and come to what running each of them once, one after another, comes to -
    the executor in the state those runs leave it in, every job settled by its
    own run - and the queue is empty. *)
Theorem backlog_drains_in_order `{ExecutorTyped E} (r : R) (ex : E) st ids :
  represents (view r) st -> pending st = rev ids -> "" ∉ ids ->
  exists r', loop cfg q reg (replicate (length ids) false) (r, ex) = (r', (drain cfg q reg ex st ids).1) /\
    represents (view r') (drain cfg q reg ex st ids).2 /\ pending (drain cfg q reg ex st ids).2 = [].
Proof. intros. by apply loop_drains. Qed.

Context `{LinkOk} (e : Execute.Executor) `{VMPool P} `{OSOk W}.

(** C1. A submission end to end: a client posts a program under a fresh id to
    a service with an empty queue and gets 202; the pool hands the worker a VM
    whose guest works and messages fit their frames; then one turn of the
    worker gives the VM back to the pool, and the next [GET /status/{id}]
    answers 200 with the job settled by exactly what the agent in that VM
    makes of the request (text with invalid UTF-8 replaced). *)
Theorem submission_end_to_end (r0 : R) st0 b req id r1 resp1 lang (p p1 : P) vm (w : W) :
  config_wf cfg -> represents (view r0) st0 -> pending st0 = [] -> jobs st0 !! id = None -> id <> "" ->
  decode_request (MaxRequestBytes cfg) b = Ok req ->
  exec cfg reg r0 b (Ok id) = (r1, resp1) -> code resp1 = StatusAccepted ->
  Get reg (execRequest.Language req) = Some lang ->
  Acquire p (Language.ID lang) = (p1, Ok (Some vm)) ->
  serves e vm w (sent_for cfg lang id req) -> fits_frames w (sent_for cfg lang id req) ->
  exists r2, pool_turn e cfg q reg (r1, p) = Some (r2, Release p1 (Some vm)) /\
    (status r2 id).2 =
      reported id req (inl (canon_response (agent_answer w (sent_for cfg lang id req)))).
Proof.
  intros Hc Hr Hp Hf Hid Hd He Hcode Hg Ha Hs Hfit.
  pose proof (sent_for_wf cfg lang id _ _ _ Hc Hd) as Hwf.
  assert (Hx : pool_execute e (p, false) (Language.ID lang) (sent_for cfg lang id req) =
    ((Release p1 (Some vm), false), Ok (canon_response (agent_answer w (sent_for cfg lang id req)))))
    by (by apply pool_execute_serves).
  destruct (submission_turn cfg q reg r0 st0 b req id r1 resp1 lang (p, false) _ _ Hr Hp Hf Hid Hd He Hcode Hg
    (two_tries_first e p _ p1 vm w _ Ha Hs Hwf Hfit)) as (r2 & Ht & Hst); [by apply (answers_typed _ _ _ _ _ Hx)|].
  exists r2. unfold pool_turn. cbn [fst snd]. by rewrite Ht.
Qed.

(** C13. The retry end to end: when the exchange with the first VM fails for
    any reason - it cannot be dialled, the connection breaks, the answer is
    malformed - that VM is discarded, the request is sent again on the VM the
    pool hands out next, and the client reads the verdict of that second VM's
    agent, with no trace of the failure. *)
Theorem submission_survives_vm (r0 : R) st0 b req id r1 resp1 lang (p p1 p2 : P) vm1 c x vm2 (w : W) :
  config_wf cfg -> represents (view r0) st0 -> pending st0 = [] -> jobs st0 !! id = None -> id <> "" ->
  decode_request (MaxRequestBytes cfg) b = Ok req ->
  exec cfg reg r0 b (Ok id) = (r1, resp1) -> code resp1 = StatusAccepted ->
  Get reg (execRequest.Language req) = Some lang ->
  Acquire p (Language.ID lang) = (p1, Ok (Some vm1)) ->
  exchange e (Some vm1) (sent_for cfg lang id req) = Some (c, Err x) ->
  Acquire (Discard p1 (Some vm1)) (Language.ID lang) = (p2, Ok (Some vm2)) ->
  serves e vm2 w (sent_for cfg lang id req) -> fits_frames w (sent_for cfg lang id req) ->
  exists r2, pool_turn e cfg q reg (r1, p) = Some (r2, Release p2 (Some vm2)) /\
    (status r2 id).2 =
      reported id req (inl (canon_response (agent_answer w (sent_for cfg lang id req)))).
Proof.
  intros Hc Hr Hp Hf Hid Hd He Hcode Hg Ha1 Hx Ha2 Hs Hfit.
  pose proof (sent_for_wf cfg lang id _ _ _ Hc Hd) as Hwf.
  assert (Hy : pool_execute e (Discard p1 (Some vm1), false) (Language.ID lang) (sent_for cfg lang id req) =
    ((Release p2 (Some vm2), false), Ok (canon_response (agent_answer w (sent_for cfg lang id req)))))
    by (by apply pool_execute_serves).
  destruct (submission_turn cfg q reg r0 st0 b req id r1 resp1 lang (p, false) _ _ Hr Hp Hf Hid Hd He Hcode Hg
    (two_tries_second e p _ p1 vm1 c x p2 vm2 w _ Ha1 Hx Ha2 Hs Hwf Hfit)) as (r2 & Ht & Hst);
    [by apply (answers_typed _ _ _ _ _ Hy)|].
  exists r2. unfold pool_turn. cbn [fst snd]. by rewrite Ht.
Qed.

(** A pool that hands out nil takes the process down: the worker that was given
    it panics, so its turn does not end. *)
Theorem nil_vm_takes_down (r : R) st id rest job lang (p p1 : P) :
  represents (view r) st -> pending st = rest ++ [id] -> id <> "" -> jobs st !! id = Some job ->
  Get reg (Job.Language job) = Some lang -> Acquire p (Language.ID lang) = (p1, Ok None) ->
  pool_turn e cfg q reg (r, p) = None.
Proof.
  intros Hr Hp Hid Hj Hg Ha. pose (ex := pool_executor e : Worker.Executor (P * bool)).
  assert (Ho : job_outcome cfg reg (p, false) job = ((p1, true), inr (Some nil_vm))).
  { unfold job_outcome. rewrite Hg. unfold two_tries, Worker.Execute, ex, pool_executor,
      pool_execute, Execute.Execute. by rewrite Ha. }
  destruct (turn_settles cfg q reg r (p, false) st id rest job) as (r' & Ht & _); [done..|by rewrite Ho|].
  subst ex. unfold pool_turn. cbn [fst snd]. by rewrite Ht, Ho.
Qed.
End properties.

(** ** The properties at concrete inputs *)

(** The guests echo their input; their hosts can be dialled at once.  A pool is
    the list of the VMs it will hand out. *)
Definition service_cfg : Config := Worker.demo_cfg.
Definition service_registry : Registry := Worker.demo_registry.
Definition service_shell : Language.t := resolve "/var/lib/dredd/rootfs" shell.
Definition demo_sent : ExecRequest := sent_for service_cfg service_shell "job-1" demo_request.

#[export] Instance service_link : Link := {
  attempt uds _ := if String.eqb uds (VsockUDS toy_vm)
    then Ok (stream (b#"OK 1" ++ newline :: guest_reply tt (frame (marshal demo_sent))))
    else Err (ENew "connection refused");
  clock_at k := dialInterval * Z.of_nat k;
  clock_0 := 0;
  with_deadline := with_deadline (Link := toy_link)
}.

#[export] Instance service_link_ok : LinkOk (H := service_link).
Proof. split; [apply (link_ticks (LinkOk := toy_link_ok))|done|apply (past_deadline (LinkOk := toy_link_ok))]. Qed.

#[export] Instance list_pool : VMPool (list VM) := {
  Acquire p _ := match p with vm :: p => (p, Ok (Some vm)) | [] => ([], Err (ENew "boom")) end;
  Release p _ := p;
  Discard p _ := p
}.
Definition broken_vm : VM := Build_VM "vm-7-0" "shell" "/tmp/vm0" "/tmp/vm0/fc.sock" "/tmp/vm0/vsock.sock" 41.

Lemma service_cfg_wf : config_wf service_cfg.
Proof. apply (FromEnv_wf_aux demo_env). vm_compute. reflexivity. Qed.

Lemma demo_serves : serves NewExecutor toy_vm tt demo_sent.
Proof. eexists. split; [vm_compute; reflexivity|]. split; vm_compute; reflexivity. Qed.

Lemma demo_fits : fits_frames tt demo_sent.
Proof. split; vm_compute; discriminate. Qed.

Lemma demo_answer : canon_response (agent_answer tt demo_sent) = cat_response.
Proof. vm_compute. reflexivity. Qed.

Definition service_accepted : keyspace * response :=
  exec service_cfg service_registry empty_ks demo_body (Ok "job-1").

Lemma submission_end_to_end_witness :
  exists r2, pool_turn NewExecutor service_cfg demo_queue service_registry
      (service_accepted.1, [toy_vm]) = Some (r2, []) /\
    (status r2 "job-1").2 = reported "job-1" demo_request (inl cat_response).
Proof.
  destruct (submission_end_to_end service_cfg demo_queue service_registry NewExecutor empty_ks empty_store
    demo_body demo_request "job-1" service_accepted.1 service_accepted.2 service_shell [toy_vm] [] toy_vm tt) as (r2 & Ht & Hs).
  - apply service_cfg_wf.
  - apply represents_empty.
  - reflexivity.
  - reflexivity.
  - discriminate.
  - vm_compute. reflexivity.
  - vm_compute. reflexivity.
  - vm_compute. reflexivity.
  - vm_compute. reflexivity.
  - reflexivity.
  - apply demo_serves.
  - apply demo_fits.
  - exists r2. rewrite <- demo_answer. split; [exact Ht|exact Hs].
Defined.

(** The first VM cannot be dialled. *)
Lemma submission_survives_vm_witness :
  exists r2, pool_turn NewExecutor service_cfg demo_queue service_registry
      (service_accepted.1, [broken_vm; toy_vm]) = Some (r2, []) /\
    (status r2 "job-1").2 = reported "job-1" demo_request (inl cat_response).
Proof.
  destruct (submission_survives_vm service_cfg demo_queue service_registry NewExecutor empty_ks empty_store
    demo_body demo_request "job-1" service_accepted.1 service_accepted.2 service_shell [broken_vm; toy_vm]
    [toy_vm] [] broken_vm None
    (EWrap "vsock dial: " (EWrap "vsock dial /tmp/vm0/vsock.sock: " (ENew "connection refused"))) toy_vm tt) as (r2 & Ht & Hs).
  - apply service_cfg_wf.
  - apply represents_empty.
  - reflexivity.
  - reflexivity.
  - discriminate.
  - vm_compute. reflexivity.
  - vm_compute. reflexivity.
  - vm_compute. reflexivity.
  - vm_compute. reflexivity.
  - reflexivity.
  - vm_compute. reflexivity.
  - reflexivity.
  - apply demo_serves.
  - apply demo_fits.
  - exists r2. rewrite <- demo_answer. split; [exact Ht|exact Hs].
Defined.

(** Two jobs in the queue. *)
Definition two_jobs : keyspace := (Enqueue (Enqueue empty_ks demo_job).1 demo_job2).1.
Definition two_jobs_store : store :=
  spec_op demo_queue (spec_op demo_queue empty_store (OpEnqueue demo_job)) (OpEnqueue demo_job2).

Lemma two_jobs_represents : represents two_jobs two_jobs_store.
Proof.
  apply (op_effect_represents demo_queue (Enqueue empty_ks demo_job).1 _ (OpEnqueue demo_job2)).
  - apply (op_effect_represents demo_queue empty_ks _ (OpEnqueue demo_job)); [apply represents_empty|].
    split; [reflexivity|split; split; vm_compute; discriminate].
  - split; [vm_compute; reflexivity|split; split; vm_compute; discriminate].
Qed.

#[export] Instance steady_typed : ExecutorTyped steady := steady_answers.

Lemma backlog_drains_in_order_witness :
  exists r', loop service_cfg demo_queue service_registry [false; false] (two_jobs, Steady) = (r', Steady) /\
    list_at (view r') queueKey = [] /\
    (Job.Status <$> jobs (drain service_cfg demo_queue service_registry Steady two_jobs_store ["job-1"; "job-2"]).2)
      !! "job-2" = Some StatusDone.
Proof.
  destruct (backlog_drains_in_order service_cfg demo_queue service_registry two_jobs Steady
    two_jobs_store ["job-1"; "job-2"]) as (r' & Hl & Hr & Hp).
  - apply two_jobs_represents.
  - vm_compute. reflexivity.
  - vm_compute. intros Hx. repeat (inversion Hx as [|? ? ? Hx']; subst; clear Hx; rename Hx' into Hx).
  - exists r'. split; [exact Hl|]. split; [by rewrite (rep_pending _ _ Hr)|vm_compute; reflexivity].
Defined.
