(* ===== verification/Testkit.v ===== *)
(** dreddtest/executor.go and dreddtest/docker_executor.go: the executors that
    stand in for the VM pool - on the host, in containers, and one that fails
    its first calls - as instances of the worker's [Executor]. *)
From S2P Require Import Prelude GoInt Utf8 JsonText Json Codec Agent Filepath Langs Jobs Config Redis Queue Worker Wire Guest System.

(** The host the tests run on: scratch directories, and the tools ([docker])
    that are run for their exit status, with the timeout the code sets, if
    any; the answer is the error and what was written to standard error. *)
Class TestHost (W : Type) `{OS W} := {
  os_mkdir_temp : W -> string -> W * result string;
  os_remove_all : W -> string -> W;
  os_chmod : W -> string -> Z -> W;
  os_uid : Z;
  os_gid : Z;
  os_tool : W -> list string -> option Z -> W * (option error * string)
}.

(** * Capped output *)

(** The package's own [cappedBuffer]: the first [cap] bytes are kept. *)
Module Capped.
Record cappedBuffer := { cap : Z; buf : bytes }.

(** [func (c *cappedBuffer) Write(p []byte) (int, error)]: the error is always nil. *)
Definition Write (c : cappedBuffer) (p : bytes) : cappedBuffer * Z :=
  if (cap c <=? 0) || (cap c <=? blen (buf c)) then (c, blen p)
  else
    let room := cap c - blen (buf c) in
    if blen p <=? room then ({| cap := cap c; buf := buf c ++ p |}, blen p)
    else ({| cap := cap c; buf := buf c ++ take (Z.to_nat room) p |}, blen p).

Definition Bytes (c : cappedBuffer) : bytes := buf c.

(** What is kept of the chunks a command writes. *)
Definition collect (cap : Z) (ps : list bytes) : bytes :=
  Bytes (foldl (fun c p => fst (Write c p)) {| cap := cap; buf := [] |} ps).

(** It keeps what the agent's buffer keeps. *)
Lemma collect_agent n ps : collect n ps = Guest.Bytes (cb_writes {| Guest.cap := n; Guest.buf := [] |} ps).
Proof.
  unfold collect, cb_writes.
  assert (Hw : forall b c, Guest.buf c = b -> Guest.cap c = n ->
    buf (foldl (fun c p => fst (Write c p)) {| cap := n; buf := b |} ps) =
    Guest.buf (foldl (fun c p => fst (cb_write c p)) c ps)); [|by apply Hw].
  induction ps as [|p ps IH]; intros b [m d]; cbn [Guest.buf Guest.cap foldl]; intros <- ->; [done|].
  unfold cb_write, Write. cbn [cap buf Guest.cap Guest.buf]. repeat case_match; by apply IH.
Qed.
End Capped.

(** * Running a request in a scratch directory *)

(** A timeout in milliseconds, or [fallback] when it is not positive. *)
Definition timeout_or (fallback timeoutMs : Z) : Z :=
  let timeout := dur_mul timeoutMs Millisecond in if timeout <=? 0 then fallback else timeout.

(** The exit code both executors report. *)
Definition exit_code (err : option run_error) : Z :=
  match err with None => 0 | Some (ExitError n) => n | Some (OtherError _) => -1 end.

Section scratch.
Context `{TestHost W}.

(** A command with capped outputs: standard output, exit code, standard error
    and whether its deadline passed. *)
Definition captured (w : W) (c : command) (outCap : Z) : W * (bytes * Z * bytes * bool) :=
  let '(w, r) := os_run w c in
  (w, (Capped.collect outCap (out_chunks r), exit_code (run_err r),
       Capped.collect outCap (err_chunks r), expired r)).

(** [func runShell(parent, workDir, shellCmd, stdin, timeoutMs, outCap)] *)
Definition runShell (workDir : string) (w : W) (shellCmd stdin : string) (timeoutMs outCap : Z) :
    W * (bytes * Z * bytes * bool) :=
  captured w {|
    argv := ["/bin/sh"; "-c"; shellCmd];
    cmd_dir := workDir;
    cmd_stdin := to_bytes stdin;
    cmd_timeout := timeout_or (5 * Second) timeoutMs;
    setpgid := false |} outCap.

Section runner.
Variable run : W -> string -> string -> Z -> Z -> W * (bytes * Z * bytes * bool).

(** [for _, in := range req.Stdins] *)
Fixpoint cases (w : W) (req : ExecRequest) (results : list CaseResult) (ins : list string) :
  W * ExecResponse :=
  match ins with
  | [] => (w, Build_ExecResponse "" (Some results) "")
  | i :: ins =>
    let '(w, (stdout, code, stderr, timedOut)) :=
      run w (RunCmd req) i (TimeLimitMs req) (OutputLimitBytes req) in
    cases w req (results ++ [Build_CaseResult (of_bytes stdout) (of_bytes stderr) code 0 0 timedOut]) ins
  end.

(** Compile once, then every input. *)
Definition compile_and_run (w : W) (req : ExecRequest) : W * ExecResponse :=
  if String.eqb (CompileCmd req) "" then cases w req [] (elems (Stdins req))
  else
  let '(w, (stdout, code, stderr, _)) :=
    run w (CompileCmd req) "" (wrap64 (TimeLimitMs req * 4)) (OutputLimitBytes req) in
  if negb (code =? 0) then
    let msg := of_bytes stderr in
    let msg := if String.eqb msg "" then of_bytes stdout else msg in
    (w, Build_ExecResponse msg None "")
  else cases w req [] (elems (Stdins req)).
End runner.
End scratch.

(** * LocalExecutor *)

(** [type LocalExecutor struct{}], on a host. *)
Record LocalExecutor (W : Type) := Local { local_host : W }.
Arguments Local {W} local_host.
Arguments local_host {W} l.

(** [func (LocalExecutor) Execute(ctx, _, req)] *)
Definition local_execute `{TestHost W} (w : W) (req : ExecRequest) : W * result ExecResponse :=
  match os_mkdir_temp w "dreddtest-work-" with
  | (w, Err e) => (w, Err (EWrap "mktemp: " e))
  | (w, Ok work) =>
      let '(w, resp) :=
        match os_write_file w (Join work (SourceFile req)) (to_bytes (Source req)) with
        | (w, Some e) => (w, agent_error ("write source: " +:+ error_text e))
        | (w, None) => compile_and_run (runShell work) w req
        end in
      (os_remove_all w work, Ok resp)
  end.

#[export] Instance LocalExecutor_executor `{TestHost W} : Executor (LocalExecutor W) :=
  fun s _ req => let '(w, r) := local_execute (local_host s) req in (Local w, r).

(** * FlakyExecutor *)

(** [type FlakyExecutor struct]: the counter is an [atomic.Int32]. *)
Record FlakyExecutor (E : Type) := { Inner : E; FailuresLeft : Z }.
Arguments Inner {E} f.
Arguments FailuresLeft {E} f.

(** [func NewFlakyExecutor(inner, failures)] *)
Definition NewFlakyExecutor {E} (inner : E) (failures : Z) : FlakyExecutor E :=
  {| Inner := inner; FailuresLeft := failures |}.

(** [func (f *FlakyExecutor) Execute(ctx, langID, req)] *)
Definition flaky_execute `{Executor E} (f : FlakyExecutor E) (langID : string) (req : ExecRequest) :
    FlakyExecutor E * result ExecResponse :=
  let n := wrap32 (FailuresLeft f - 1) in
  if 0 <=? n then ({| Inner := Inner f; FailuresLeft := n |}, Err (ENew "simulated VM failure"))
  else let '(e, r) := Execute (Inner f) langID req in ({| Inner := e; FailuresLeft := n |}, r).

#[export] Instance FlakyExecutor_executor `{Executor E} : Executor (FlakyExecutor E) := flaky_execute.

(** * DockerExecutor *)

(** [type DockerExecutor struct]; [pulled] holds the images whose entry is
    true, in the map that [NewDockerExecutor] makes. *)
Record DockerExecutor := {
  Images : gmap string string;
  DockerBin : string;
  Network : string;
  PerImageNetwork : gmap string string;
  PullTimeout : Z;
  pulled : gset string
}.

(** [func NewDockerExecutor(images)] *)
Definition NewDockerExecutor (images : gmap string string) : DockerExecutor := {|
  Images := images; DockerBin := "docker"; Network := "none"; PerImageNetwork := ∅;
  PullTimeout := 5 * 60 * Second; pulled := ∅ |}.

Definition set_pulled (image : string) (e : DockerExecutor) : DockerExecutor := {|
  Images := Images e; DockerBin := DockerBin e; Network := Network e;
  PerImageNetwork := PerImageNetwork e; PullTimeout := PullTimeout e;
  pulled := {[image]} ∪ pulled e |}.

Section docker.
Context `{TestHost W}.

(** [func (e *DockerExecutor) localHas(ctx, image)] *)
Definition localHas (e : DockerExecutor) (w : W) (image : string) : W * bool :=
  let '(w, (err, _)) := os_tool w [DockerBin e; "image"; "inspect"; image] None in
  (w, bool_decide (err = None)).

(** [func (e *DockerExecutor) pull(ctx, image)] *)
Definition pull (e : DockerExecutor) (w : W) (image : string) : W * option error :=
  let timeout := if PullTimeout e <=? 0 then 5 * 60 * Second else PullTimeout e in
  match os_tool w [DockerBin e; "pull"; "--quiet"; image] (Some timeout) with
  | (w, (Some err, stderr)) => (w, Some (ENote err stderr))
  | (w, (None, _)) => (w, None)
  end.

(** [func (e *DockerExecutor) ensureImage(ctx, image)], under [ensureMu]. *)
Definition ensureImage (s : W * DockerExecutor) (image : string) : W * DockerExecutor * option error :=
  let '(w, e) := s in
  if decide (image ∈ pulled e) then (w, e, None)
  else
    match localHas e w image with
    | (w, true) => (w, set_pulled image e, None)
    | (w, false) =>
        match pull e w image with
        | (w, Some err) => (w, e, Some err)
        | (w, None) => (w, set_pulled image e, None)
        end
    end.

(** [func (e *DockerExecutor) runDocker(...)] *)
Definition runDocker (e : DockerExecutor) (image workDir network : string) (w : W)
    (shellCmd stdin : string) (timeoutMs outCap : Z) : W * (bytes * Z * bytes * bool) :=
  captured w {|
    argv := [DockerBin e; "run"; "--rm"; "-i"; "--network"; network;
             "--user"; fmt_d os_uid +:+ ":" +:+ fmt_d os_gid;
             "-v"; workDir +:+ ":/work"; "-w"; "/work"; "-e"; "HOME=/tmp";
             image; "/bin/sh"; "-c"; shellCmd];
    cmd_dir := "";
    cmd_stdin := to_bytes stdin;
    cmd_timeout := timeout_or (60 * Second) timeoutMs;
    setpgid := false |} outCap.

(** [func (e *DockerExecutor) Execute(ctx, langID, req)] *)
Definition docker_execute (s : W * DockerExecutor) (langID : string) (req : ExecRequest) :
    W * DockerExecutor * result ExecResponse :=
  let image := default "" (Images s.2 !! langID) in
  if String.eqb image "" then
    (s, Err (ENew ("docker executor: no image for language " +:+ fmt_q langID)))
  else
    match ensureImage s image with
    | (s, Some err) => (s, Err (EWrap ("ensure image " +:+ image +:+ ": ") err))
    | (w, e, None) =>
        match os_mkdir_temp w "dredd-doc-" with
        | (w, Err err) => (w, e, Err (EWrap "mktemp: " err))
        | (w, Ok work) =>
            let w := os_chmod w work 511 in
            let '(w, resp) :=
              match os_write_file w (Join work (SourceFile req)) (to_bytes (Source req)) with
              | (w, Some err) => (w, agent_error ("write source: " +:+ error_text err))
              | (w, None) =>
                  let network := default (Network e) (PerImageNetwork e !! image) in
                  compile_and_run (runDocker e image work network) w req
              end in
            (os_remove_all w work, e, Ok resp)
        end
    end.

(** [func (e *DockerExecutor) PrewarmImages(ctx)]: [imgs] are the images in the
    order the map is ranged over. *)
Fixpoint PrewarmImages (s : W * DockerExecutor) (seen : gset string) (imgs : list string) :
    W * DockerExecutor * option error :=
  match imgs with
  | [] => (s, None)
  | img :: imgs =>
      if decide (img ∈ seen) then PrewarmImages s seen imgs
      else
        match ensureImage s img with
        | (s, Some err) => (s, Some (EWrap ("pull " +:+ img +:+ ": ") err))
        | (s, None) => PrewarmImages s ({[img]} ∪ seen) imgs
        end
  end.

(** [func (e *DockerExecutor) MissingImages(ctx)]: it does not update [pulled]. *)
Fixpoint MissingImages (e : DockerExecutor) (w : W) (seen : gset string) (imgs : list string) :
    W * list string :=
  match imgs with
  | [] => (w, [])
  | img :: imgs =>
      if decide (img ∈ seen) then MissingImages e w seen imgs
      else
        let seen := {[img]} ∪ seen in
        match localHas e w img with
        | (w, true) => MissingImages e w seen imgs
        | (w, false) =>
            match pull e w img with
            | (w, None) => MissingImages e w seen imgs
            | (w, Some _) =>
                let '(w, missing) := MissingImages e w seen imgs in (w, img :: missing)
            end
        end
  end.
End docker.

#[export] Instance DockerExecutor_executor `{TestHost W} : Executor (W * DockerExecutor) := docker_execute.

(** * The local executor and the agent *)

Section mirror.
Context `{TestHost W1} `{OSOk W2}.

(** The host and the guest answer the same shell command, with the same input
    and timeout, in the same way, whatever the directory it runs in. *)
Definition mirrors (work : string) (rel : W1 -> W2 -> Prop) : Prop :=
  forall w1 w2 shellCmd stdin t, rel w1 w2 ->
    let c dir own := {| argv := ["/bin/sh"; "-c"; shellCmd]; cmd_dir := dir;
      cmd_stdin := to_bytes stdin; cmd_timeout := t; setpgid := own |} in
    (os_run w1 (c work false)).2 = (os_run w2 (c workDir true)).2 /\
    rel (os_run w1 (c work false)).1 (os_run w2 (c workDir true)).1.

Context (work : string) (rel : W1 -> W2 -> Prop) (Hm : mirrors work rel).

Lemma runShell_mirrors w1 w2 shellCmd stdin ms mem outCap :
  rel w1 w2 -> 0 < dur_mul ms Millisecond ->
  exists w1' w2' out code err expd e,
    runShell work w1 shellCmd stdin ms outCap = (w1', (out, code, err, expd)) /\
    runOnce w2 shellCmd stdin ms mem outCap = (w2', (out, code, err, expd, e)) /\
    rel w1' w2' /\ (e = None <-> code = 0).
Proof.
  intros Hr Ht. unfold runShell, captured, timeout_or, runOnce.
  rewrite (proj2 (Z.leb_gt _ _)) by done.
  destruct (Hm w1 w2 shellCmd stdin (dur_mul ms Millisecond) Hr) as [He Hr'].
  destruct (os_run w1 _) as [w1' r1]. destruct (os_run w2 _) as [w2' r2] eqn:E2.
  cbn [fst snd] in *. subst r2. rewrite !Capped.collect_agent. do 7 eexists. split_and!; [reflexivity|reflexivity|done|].
  destruct (run_err r1) as [[n|x]|] eqn:En; cbn [exit_code]; [|by split|by split].
  destruct (exit_codes _ _ _ _ _ E2 En). by split.
Qed.

Lemma cases_mirror req ins : 0 < dur_mul (TimeLimitMs req) Millisecond -> forall w1 w2 results,
  rel w1 w2 -> (cases (runShell work) w1 req results ins).2 = (run_cases w2 req results ins).2.
Proof.
  intros Ht. induction ins as [|i ins IH]; intros w1 w2 results Hr; cbn [cases run_cases]; [done|].
  destruct (runShell_mirrors w1 w2 (RunCmd req) i (TimeLimitMs req) (MemoryLimitMb req)
    (OutputLimitBytes req) Hr Ht) as (w1' & w2' & out & code & err & expd & e & -> & -> & Hr' & He).
  destruct e as [e|]; [|by apply IH].
  destruct (Z.eqb_spec code 0) as [Hc|Hc]; [by apply He in Hc|by apply IH].
Qed.

Lemma compile_and_run_mirrors req w1 w2 :
  rel w1 w2 -> 0 < dur_mul (TimeLimitMs req) Millisecond ->
  0 < dur_mul (wrap64 (TimeLimitMs req * 4)) Millisecond ->
  (compile_and_run (runShell work) w1 req).2 =
  match compile w2 req with
  | (_, Some resp) => resp
  | (w, None) => (run_cases w req [] (elems (Stdins req))).2
  end.
Proof.
  intros Hr Ht Ht4. unfold compile_and_run, compile.
  destruct (String.eqb (CompileCmd req) ""); [by apply cases_mirror|].
  destruct (runShell_mirrors w1 w2 (CompileCmd req) "" _ (MemoryLimitMb req)
    (OutputLimitBytes req) Hr Ht4) as (w1' & w2' & out & code & err & expd & e & -> & -> & Hr' & He).
  destruct e as [e|]; destruct (Z.eqb_spec code 0) as [Hc|Hc]; cbn [negb snd].
  - by apply He in Hc.
  - done.
  - by apply cases_mirror.
  - by destruct Hc; apply He.
Qed.
End mirror.

(** * Sequences of calls *)

Fixpoint calls `{Executor E} (e : E) (l : list call) : E * list (result ExecResponse) :=
  match l with
  | [] => (e, [])
  | (langID, req) :: l =>
      let '(e, r) := Execute e langID req in
      let '(e, rs) := calls e l in (e, r :: rs)
  end.

Section flaky.
Context `{Executor E}.

Definition simulated : error := ENew "simulated VM failure".

Lemma flaky_step (e : E) n langID req : - 2 ^ 31 < n < 2 ^ 31 ->
  Execute (NewFlakyExecutor e n) langID req =
  if 0 <? n then (NewFlakyExecutor e (n - 1), Err simulated)
  else let '(e, r) := Execute e langID req in (NewFlakyExecutor e (n - 1), r).
Proof.
  intros Hn. unfold Execute at 1, FlakyExecutor_executor, flaky_execute. cbn [FailuresLeft Inner NewFlakyExecutor].
  rewrite wrap32_id by lia. by destruct (Z.leb_spec 0 (n - 1)), (Z.ltb_spec 0 n); try lia.
Qed.

(** The first [n] calls fail without reaching the inner executor, which sees
    the others unchanged, until the counter wraps. *)
Theorem flaky_fails_first l : forall (e : E) n, - 2 ^ 31 < n < 2 ^ 31 ->
  Z.of_nat (length l) < n + 2 ^ 31 ->
  calls (NewFlakyExecutor e n) l =
  (NewFlakyExecutor (calls e (drop (Z.to_nat n) l)).1 (n - Z.of_nat (length l)),
   replicate (Z.to_nat n `min` length l) (Err simulated) ++ (calls e (drop (Z.to_nat n) l)).2).
Proof.
  induction l as [|[langID req] l IH]; intros e n Hn Hl; cbn [calls length].
  { rewrite drop_nil, Nat.min_0_r, Z.sub_0_r. done. }
  cbn [length] in Hl. rewrite flaky_step by done. destruct (Z.ltb_spec 0 n) as [Hp|Hp].
  - rewrite IH by lia. replace (Z.to_nat n) with (S (Z.to_nat (n - 1))) by lia.
    cbn [drop Nat.min replicate app fst snd]. rewrite Nat2Z.inj_succ.
    by replace (n - Z.succ (Z.of_nat (length l))) with (n - 1 - Z.of_nat (length l)) by lia.
  - replace (Z.to_nat n) with 0%nat by lia. cbn [drop Nat.min replicate app calls].
    destruct (Execute e langID req) as [e1 r] eqn:Ee.
    rewrite IH by lia. replace (Z.to_nat (n - 1)) with 0%nat by lia.
    cbn [Nat.min replicate app]. rewrite drop_0. destruct (calls e1 l) as [e2 rs]. cbn [fst snd].
    rewrite Nat2Z.inj_succ.
    by replace (n - Z.succ (Z.of_nat (length l))) with (n - 1 - Z.of_nat (length l)) by lia.
Qed.

(** A job under a flaky executor, at the worker. *)
Lemma two_tries_flaky (e : E) n langID req : 0 <= n < 2 ^ 31 ->
  (two_tries (NewFlakyExecutor e n) langID req).2 =
  if 1 <? n then inr (Some simulated)
  else if 0 <? n then
    match (Execute e langID req).2 with Ok resp => inl resp | Err err => inr (Some err) end
  else (two_tries e langID req).2.
Proof.
  intros Hn. unfold two_tries. rewrite flaky_step by lia.
  destruct (Z.ltb_spec 0 n) as [Hp|Hp].
  - rewrite flaky_step by lia. destruct (Z.ltb_spec 1 n), (Z.ltb_spec 0 (n - 1)); try lia; [done|].
    by destruct (Execute e langID req) as [e1 [resp|err]].
  - rewrite (proj2 (Z.ltb_ge 1 n)) by lia.
    destruct (Execute e langID req) as [e1 [resp|err]]; [done|].
    rewrite flaky_step by lia. rewrite (proj2 (Z.ltb_ge 0 (n - 1))) by lia.
    by destruct (Execute e1 langID req) as [e2 [resp|err']].
Qed.
End flaky.

(** * The images of the container executor *)

(** Any host, with the tools it ran recorded and whether they succeeded. *)
Definition tool_log : Type := list (list string * bool).
#[export] Instance logged_os `{OS W} : OS (W * tool_log) := {
  os_mkdir_all s d := let '(w, e) := os_mkdir_all s.1 d in ((w, s.2), e);
  os_write_file s p b := let '(w, e) := os_write_file s.1 p b in ((w, s.2), e);
  os_run s c := let '(w, r) := os_run s.1 c in ((w, s.2), r)
}.
#[export] Instance logged_host `{TestHost W} : TestHost (W * tool_log) := {
  os_mkdir_temp s p := let '(w, r) := os_mkdir_temp s.1 p in ((w, s.2), r);
  os_remove_all s p := (os_remove_all s.1 p, s.2);
  os_chmod s p m := (os_chmod s.1 p m, s.2);
  os_uid := os_uid;
  os_gid := os_gid;
  os_tool s args t := let '(w, r) := os_tool s.1 args t in
    ((w, s.2 ++ [(args, bool_decide (r.1 = None))]), r)
}.

(** The images pulled with success. *)
Definition pulled_image (x : list string * bool) : option string :=
  match x with ([_; "pull"; "--quiet"; image], true) => Some image | _ => None end.
Definition pulls (l : tool_log) : list string := omap pulled_image l.

Lemma pulls_app l1 l2 : pulls (l1 ++ l2) = pulls l1 ++ pulls l2.
Proof. apply omap_app. Qed.

(** Calls of [ensureImage] one after the other, whatever each returns. *)
Fixpoint ensure_all `{TestHost W} (s : W * DockerExecutor) (imgs : list string) :
    W * DockerExecutor * list (option error) :=
  match imgs with
  | [] => (s, [])
  | img :: imgs =>
      let '(s, r) := ensureImage s img in
      let '(s, rs) := ensure_all s imgs in (s, r :: rs)
  end.

Section images.
Context `{TestHost W}.
Implicit Types (s : (W * tool_log) * DockerExecutor).

(** One call: the images it pulled are what the cache gained, it succeeded
    exactly when the image is cached then, and a cached image costs nothing. *)
Lemma ensureImage_spec s img s' r :
  ensureImage s img = (s', r) ->
  exists ran, s'.1.2 = s.1.2 ++ ran /\
    (pulls ran = [] \/ (pulls ran = [img] /\ img ∉ pulled s.2 /\ r = None)) /\
    pulled s'.2 = (if decide (r = None) then {[img]} ∪ pulled s.2 else pulled s.2) /\
    (img ∈ pulled s.2 -> s' = s /\ r = None).
Proof.
  destruct s as [[w l] e]. unfold ensureImage. destruct (decide (img ∈ pulled e)) as [Hin|Hout].
  { intros [= <- <-]. exists []. rewrite app_nil_r, decide_True by done.
    split_and!; [done|by left| |done]. cbn. set_solver. }
  unfold localHas. cbn [os_tool logged_host fst snd].
  destruct (os_tool w _ None) as [w1 [[err|] t]]; cbn [fst snd]; rewrite ?bool_decide_eq_false_2, ?bool_decide_eq_true_2 by done.
  2:{ intros [= <- <-]. eexists. split; [done|]. by split_and!; [left|rewrite decide_True by done|]. }
  unfold pull. cbn [os_tool logged_host fst snd].
  destruct (os_tool w1 _ _) as [w2 [[err'|] t']]; cbn [fst snd];
    intros [= <- <-]; eexists; rewrite <- app_assoc; (split; [done|]);
    rewrite ?bool_decide_eq_false_2, ?bool_decide_eq_true_2 by done.
  - by split_and!; [left|rewrite decide_False by done|].
  - split_and!; [right; by split_and!|by rewrite decide_True by done|done].
Qed.

Lemma ensure_all_spec imgs : forall s s' rs,
  ensure_all s imgs = (s', rs) ->
  exists ran, s'.1.2 = s.1.2 ++ ran /\ NoDup (pulls ran) /\
    (forall i, i ∈ pulls ran -> i ∉ pulled s.2 /\ i ∈ pulled s'.2) /\ pulled s.2 ⊆ pulled s'.2 /\
    (forall i, i ∈ pulled s'.2 -> i ∈ pulled s.2 \/ exists k, imgs !! k = Some i /\ rs !! k = Some None).
Proof.
  induction imgs as [|img imgs IH]; intros s s' rs; cbn [ensure_all].
  { intros [= <- <-]. exists []. rewrite app_nil_r. split_and!; [done|apply NoDup_nil_2|set_solver|done|auto]. }
  destruct (ensureImage s img) as [s1 r] eqn:E1. destruct (ensure_all s1 imgs) as [s2 rs'] eqn:E2.
  intros [= <- <-]. apply ensureImage_spec in E1 as (ran1 & Hl1 & Hp1 & Hc1 & _).
  destruct (IH _ _ _ E2) as (ran2 & Hl2 & Hn2 & Hf2 & Hs2 & Hg2).
  assert (Hsub : pulled s.2 ⊆ pulled s1.2) by (rewrite Hc1; case_decide; set_solver).
  assert (Hin1 : r = None -> img ∈ pulled s1.2) by (intros ->; rewrite Hc1, decide_True by done; set_solver).
  exists (ran1 ++ ran2). rewrite Hl2, Hl1, <- app_assoc, pulls_app. split_and!; [done|..].
  - destruct Hp1 as [->|(-> & _ & Hr)]; [done|]. cbn. apply NoDup_cons. split; [|done].
    intros Hin. by apply Hf2 in Hin as [Hin _]; apply Hin, Hin1.
  - intros i [Hi|Hi]%elem_of_app.
    + destruct Hp1 as [Hp1|(Hp1 & Hnot & Hr)]; rewrite Hp1 in Hi; [set_solver|].
      apply list_elem_of_singleton in Hi as ->. auto.
    + apply Hf2 in Hi as [? ?]. set_solver.
  - set_solver.
  - intros i [Hi|(k & Hk & Hr)]%Hg2; [|right; by exists (S k)].
    rewrite Hc1 in Hi. case_decide as Hr; [|by left].
    apply elem_of_union in Hi as [->%elem_of_singleton|Hi]; [|by left]. right. exists 0%nat. by subst.
Qed.

Lemma ensureImage_images `{TestHost V} (s s' : V * DockerExecutor) img r :
  ensureImage s img = (s', r) -> Images s'.2 = Images s.2.
Proof.
  destruct s as [w e]. unfold ensureImage. case_decide; [by intros [= <- _]|].
  destruct (localHas e w img) as [w1 [|]]; [by intros [= <- _]|].
  destruct (pull e w1 img) as [w2 [|]]; by intros [= <- _].
Qed.

Lemma PrewarmImages_spec imgs : forall seen s s',
  PrewarmImages s seen imgs = (s', None) -> (forall i, i ∈ seen -> i ∈ pulled s.2) ->
  Images s'.2 = Images s.2 /\ pulled s.2 ⊆ pulled s'.2 /\ (forall i, i ∈ imgs -> i ∈ pulled s'.2).
Proof.
  induction imgs as [|img imgs IH]; intros seen s s'; cbn [PrewarmImages].
  { intros [= <-] _. split_and!; [done|done|set_solver]. }
  destruct (decide (img ∈ seen)) as [Hin|Hout]; intros Hp Hseen.
  - destruct (IH _ _ _ Hp Hseen) as (HI & Hs & Ha). split_and!; [done|done|].
    intros i [->|Hi]%elem_of_cons; auto.
  - destruct (ensureImage s img) as [s1 [err|]] eqn:E1; [done|].
    pose proof (ensureImage_images _ _ _ _ E1) as HI1.
    apply ensureImage_spec in E1 as (ran & _ & _ & Hc & _). rewrite decide_True in Hc by done.
    destruct (IH _ _ _ Hp) as (HI & Hs & Ha).
    { intros i [->%elem_of_singleton|Hi%Hseen]%elem_of_union; set_solver. }
    split_and!; [congruence|set_solver|]. intros i [->|Hi]%elem_of_cons; [|auto].
    apply Hs. rewrite Hc. set_solver.
Qed.

(** Containers do not run tools. *)
Lemma captured_log (w : W * tool_log) c n : (captured w c n).1.2 = w.2.
Proof. unfold captured. cbn [os_run logged_os]. by destruct (os_run w.1 c). Qed.

Lemma cases_log run req ins :
  (forall (w : W * tool_log) c i t n, (run w c i t n).1.2 = w.2) ->
  forall w results, (cases run w req results ins).1.2 = w.2.
Proof.
  intros Hr. induction ins as [|i ins IH]; intros w results; cbn [cases]; [done|].
  pose proof (Hr w (RunCmd req) i (TimeLimitMs req) (OutputLimitBytes req)) as Hl.
  destruct (run w _ _ _ _) as [w1 [[[out code] err] expd]]. by rewrite IH.
Qed.

Lemma compile_and_run_log run req :
  (forall (w : W * tool_log) c i t n, (run w c i t n).1.2 = w.2) ->
  forall w, (compile_and_run run w req).1.2 = w.2.
Proof.
  intros Hr w. unfold compile_and_run. destruct (String.eqb _ _); [by apply cases_log|].
  pose proof (Hr w (CompileCmd req) "" (wrap64 (TimeLimitMs req * 4)) (OutputLimitBytes req)) as Hl.
  destruct (run w _ _ _ _) as [w1 [[[out code] err] expd]].
  destruct (negb _); [done|]. by rewrite cases_log.
Qed.

Lemma docker_execute_cached s langID req img :
  Images s.2 !! langID = Some img -> img <> "" -> img ∈ pulled s.2 ->
  (docker_execute s langID req).1.1.2 = s.1.2.
Proof.
  destruct s as [w e]. cbn [fst snd]. intros Hi Hne Hin. unfold docker_execute. cbn [snd].
  rewrite Hi. change (default "" (Some img)) with img. apply String.eqb_neq in Hne as ->.
  unfold ensureImage. rewrite decide_True by done. cbn [os_mkdir_temp logged_host].
  destruct (os_mkdir_temp w.1 _) as [w1 [work|err]]; [|done].
  cbn [os_chmod os_write_file logged_host logged_os fst snd].
  destruct (os_write_file _ _ _) as [w2 [err|]]; [done|].
  pose proof (compile_and_run_log (runDocker e img work
    (default (Network e) (PerImageNetwork e !! img))) req
    (fun w c i t n => captured_log w _ _) (w2, w.2)) as Hl.
  by destruct (compile_and_run _ _ _).
Qed.
End images.

(** * Properties *)

Section properties.
Context `{TestHost W}.

(** C37. The local executor stands in for a VM: when its host answers each shell
    command as the guest does, and both could make their directory and write
    the source, a request with a time limit in range gets the response the
    agent would give - outputs, exit codes, compile error and all. *)
Theorem local_matches_agent `{OSOk W2} (w1 w1a w1b : W) (w2 w2a w2b : W2) work rel req :
  mirrors work rel ->
  0 < TimeLimitMs req -> TimeLimitMs req * 4 * Millisecond <= max_int64 ->
  os_mkdir_temp w1 "dreddtest-work-" = (w1a, Ok work) ->
  os_write_file w1a (Join work (SourceFile req)) (to_bytes (Source req)) = (w1b, None) ->
  os_mkdir_all w2 (Dir (Join workDir (SourceFile req))) = (w2a, None) ->
  os_write_file w2a (Join workDir (SourceFile req)) (to_bytes (Source req)) = (w2b, None) ->
  rel w1b w2b ->
  (local_execute w1 req).2 = Ok (handle w2 req).2.
Proof.
  intros Hm Ht Hmax Htemp Hsrc Hmk Hsrc' Hr.
  assert (Hw : forall z, 0 <= z <= max_int64 -> wrap64 z = z)
    by (intros z Hz; apply wrap64_id; unfold int64, min_int64, max_int64 in *; lia).
  unfold Millisecond in Hmax.
  assert (Hd : forall z, 0 < z -> z * 1000000 <= max_int64 -> 0 < dur_mul z Millisecond)
    by (intros z Hz Hz'; unfold dur_mul, Millisecond; rewrite Hw; lia).
  unfold local_execute, handle. rewrite Htemp, Hsrc, Hmk, Hsrc'.
  pose proof (compile_and_run_mirrors work rel Hm req w1b w2b Hr) as Hc.
  rewrite Hw in Hc by lia. specialize (Hc (Hd _ Ht ltac:(lia)) (Hd (TimeLimitMs req * 4) ltac:(lia) ltac:(lia))).
  destruct (compile_and_run _ _ _) as [w1c resp]. cbn [snd] in Hc |- *. rewrite Hc.
  by destruct (compile w2b req) as [w2c [resp'|]].
Qed.

(** Under an executor that fails its first [n] calls the worker's verdict
    on a job is the inner executor's when [n] is at most one - one failure
    costs the first of the two attempts - and the simulated failure from two
    on, in which case the inner executor is never called. *)
Theorem flaky_retry `{Executor E} cfg reg (e : E) n job lang :
  0 <= n < 2 ^ 31 -> Get reg (Job.Language job) = Some lang ->
  let req := build_request cfg lang job in
  (job_outcome cfg reg (NewFlakyExecutor e n) job).2 =
  if 1 <? n then inr (Some simulated)
  else if 0 <? n then
    match (Execute e (Language.ID lang) req).2 with Ok resp => inl resp | Err err => inr (Some err) end
  else (two_tries e (Language.ID lang) req).2.
Proof. intros Hn Hg. unfold job_outcome. rewrite Hg. by apply two_tries_flaky. Qed.

(** An image is pulled at most once: over any sequence of [ensureImage]
    calls the successful pulls are of distinct images that were not cached
    before and are cached after, only images whose call succeeded become
    cached, and a call for a cached image runs no tool. *)
Theorem image_pulled_once imgs (s s' : (W * tool_log) * DockerExecutor) rs :
  ensure_all s imgs = (s', rs) ->
  exists ran, s'.1.2 = s.1.2 ++ ran /\ NoDup (pulls ran) /\
    (forall i, i ∈ pulls ran -> i ∉ pulled s.2 /\ i ∈ pulled s'.2) /\
    (forall i, i ∈ pulled s'.2 -> i ∈ pulled s.2 \/ exists k, imgs !! k = Some i /\ rs !! k = Some None) /\
    (forall i, i ∈ pulled s'.2 -> ensureImage s' i = (s', None)).
Proof.
  intros Hs. apply ensure_all_spec in Hs as (ran & Hl & Hn & Hp & _ & Hg).
  exists ran. split_and!; [done..|]. intros i Hi.
  destruct (ensureImage s' i) as [s2 r] eqn:Ei.
  apply ensureImage_spec in Ei as (_ & _ & _ & _ & Hc). by destruct (Hc Hi) as [-> ->].
Qed.

(** Prewarming is enough: once [PrewarmImages] has returned without an
    error, whatever order it ranged over the images in, executing a request
    in any configured language runs no [docker] inspection or pull. *)
Theorem prewarm_is_enough imgs (s s' : (W * tool_log) * DockerExecutor) langID req img :
  PrewarmImages s ∅ imgs = (s', None) ->
  (forall l i, Images s.2 !! l = Some i -> i ∈ imgs) ->
  Images s.2 !! langID = Some img -> img <> "" ->
  (docker_execute s' langID req).1.1.2 = s'.1.2.
Proof.
  intros Hp Hall Hi Hne. apply PrewarmImages_spec in Hp as (HI & _ & Ha); [|set_solver].
  apply (docker_execute_cached s' langID req img); [by rewrite HI|done|by eapply Ha, Hall].
Qed.
End properties.

(** ** The properties at concrete inputs *)

(** The shell of [echo_os] in scratch directories, with a [docker] that has
    no image and can pull every one but [scratch]. *)
#[export] Instance echo_host : TestHost unit := {
  os_mkdir_temp w p := (w, Ok ("/tmp/" +:+ p +:+ "1"));
  os_remove_all w _ := w;
  os_chmod w _ _ := w;
  os_uid := 1000;
  os_gid := 1000;
  os_tool w args _ := (w,
    match args with
    | [_; "pull"; "--quiet"; image] =>
        if String.eqb image "scratch" then (Some (ENew "exit status 1"), "not found") else (None, "")
    | _ => (Some (ENew "exit status 1"), "")
    end)
}.

Lemma local_matches_agent_witness :
  (local_execute tt sample_request).2 = Ok (handle tt sample_request).2.
Proof.
  apply (local_matches_agent (W := unit) tt tt tt tt tt tt "/tmp/dreddtest-work-1" (fun _ _ => True));
    try (reflexivity || (vm_compute; (discriminate || reflexivity)) || exact I).
  intros w1 w2 c i t _. split; [reflexivity|exact I].
Defined.

Lemma flaky_retry_witness :
  (job_outcome demo_cfg demo_registry (NewFlakyExecutor Steady 1) demo_job).2 = inl demo_response /\
  (job_outcome demo_cfg demo_registry (NewFlakyExecutor Steady 2) demo_job).2 = inr (Some simulated).
Proof.
  split; rewrite (flaky_retry demo_cfg demo_registry Steady _ demo_job
    (resolve "/var/lib/dredd/rootfs" shell)); vm_compute; repeat split; discriminate.
Defined.

Definition demo_docker : DockerExecutor := NewDockerExecutor {[ "go" := "golang:1.22"; "c" := "gcc:13" ]}.

Definition demo_pulls := ensure_all ((tt, []), demo_docker) ["gcc:13"; "scratch"; "gcc:13"].

Lemma image_pulled_once_witness :
  demo_pulls.2 = [None; Some (ENote (ENew "exit status 1") "not found"); None] /\
  ensureImage demo_pulls.1 "gcc:13" = (demo_pulls.1, None) /\ pulls demo_pulls.1.1.2 = ["gcc:13"].
Proof.
  split; [vm_compute; reflexivity|].
  destruct (image_pulled_once ["gcc:13"; "scratch"; "gcc:13"] ((tt, []), demo_docker)
    demo_pulls.1 demo_pulls.2) as (ran & _ & _ & _ & _ & Hc); [vm_compute; reflexivity|].
  split; [|vm_compute; reflexivity]. apply Hc. vm_compute. reflexivity.
Defined.

Lemma prewarm_is_enough_witness :
  exists s', PrewarmImages ((tt, []), demo_docker) ∅ ["gcc:13"; "golang:1.22"] = (s', None) /\
    (docker_execute s' "go" sample_request).1.1.2 = s'.1.2.
Proof.
  eexists. split; [vm_compute; reflexivity|].
  eapply (prewarm_is_enough ["gcc:13"; "golang:1.22"] ((tt, []), demo_docker) _ "go" sample_request "golang:1.22").
  - vm_compute. reflexivity.
  - intros l i. unfold demo_docker, NewDockerExecutor. cbn [Images snd].
    intros [[_ <-]|[_ [_ <-]%lookup_singleton_Some]]%lookup_insert_Some; set_solver.
  - vm_compute. reflexivity.
  - discriminate.
Defined.
