(* ===== verification/App.v ===== *)
(** dredd.go and cmd/dredd/main.go: wiring the components into one process,
    running it until the context ends or the HTTP server fails, and taking it
    down. *)
From S2P Require Import Prelude GoInt Utf8 JsonText Json Codec Langs Config Queue Pool.

(** What the process acquires and gives back; the last three are the deferred
    calls of [main]: [cancel] of the shutdown's context, [stop] of the signal
    context and [rdb.Close]. *)
Inductive app_event :=
  | PoolStarted (st : strategy)
  | Listening (addr : string)
  | ServerStopped
  | PoolClosed (st : strategy)
  | ShutdownCtxCancelled
  | SignalsStopped
  | RedisClosed.

(** [type Options struct]: every pointer may be nil. *)
Record Options (R E : Type) := {
  oConfig : option Config;
  oRegistry : option Registry;
  oRedis : option R;
  oExecutor : option E
}.
Arguments oConfig {R E} o.
Arguments oRegistry {R E} o.
Arguments oRedis {R E} o.
Arguments oExecutor {R E} o.

(** What [worker.New] and [api.NewServer] keep.  The executor is the caller's,
    or the one over the pool. *)
Record Worker (E : Type) := { wCfg : Config; wQ : Queue; wReg : Registry; wExe : E + strategy }.
Arguments wCfg {E} w.
Arguments wQ {E} w.
Arguments wReg {E} w.
Arguments wExe {E} w.
Record Server := { sCfg : Config; sReg : Registry; sQ : Queue }.

(** [type App struct]; [pool] is nil when the executor was given. *)
Record App (E : Type) := {
  queue : Queue;
  pool : option strategy;
  worker : Worker E;
  server : Server;
  listener : string
}.
Arguments queue {E} a.
Arguments pool {E} a.
Arguments worker {E} a.
Arguments server {E} a.
Arguments listener {E} a.

Definition close_pool (p : option strategy) : list app_event :=
  match p with Some st => [PoolClosed st] | None => [] end.

Section app.
Context {R E : Type} (listen : string -> result string).

(** The executor [New] uses and the pool it owns. *)
Definition choose_executor (cfg : Config) (reg : Registry) (exe : option E) :
    result ((E + strategy) * option strategy) :=
  match exe with
  | Some e => Ok (inl e, None)
  | None =>
      match Pool.New cfg reg with
      | Err e => Err (EWrap "dredd: build pool: " e)
      | Ok st => Ok (inr st, Some st)
      end
  end.

(** [func New(o Options) ( *App, error)] *)
Definition New (o : Options R E) : list app_event * result (App E) :=
  match oConfig o, oRegistry o, oRedis o with
  | None, _, _ => ([], Err (ENew "dredd: Config is required"))
  | _, None, _ => ([], Err (ENew "dredd: Registry is required"))
  | _, _, None => ([], Err (ENew "dredd: Redis is required"))
  | Some cfg, Some reg, Some _ =>
      let q := Queue.New (ResultTTL cfg) in
      match choose_executor cfg reg (oExecutor o) with
      | Err e => ([], Err e)
      | Ok (exe, vmPool) =>
          let started := match vmPool with Some st => [PoolStarted st] | None => [] end in
          match listen (HTTPAddr cfg) with
          | Err e => (started ++ close_pool vmPool,
                      Err (EWrap ("dredd: listen " +:+ HTTPAddr cfg +:+ ": ") e))
          | Ok addr =>
              (started ++ [Listening addr],
               Ok {| queue := q; pool := vmPool;
                     worker := {| wCfg := cfg; wQ := q; wReg := reg; wExe := exe |};
                     server := {| sCfg := cfg; sReg := reg; sQ := q |};
                     listener := addr |})
          end
      end
  end.

(** How [Run] can end: its context, or what [Serve] returned. *)
Inductive ending := CtxDone | Served (err : option error).

(** [func (a *App) Run(ctx) error]: the branch of [select] that was taken. *)
Definition Run (e : ending) : option error :=
  match e with
  | CtxDone => None
  | Served (Some err) => if errors_is err ServerClosed then None else Some err
  | Served None => None
  end.

(** [func (a *App) Shutdown(ctx) error]: always nil. *)
Definition Shutdown (a : App E) : list app_event := ServerStopped :: close_pool (pool a).
End app.

(** [func (a *App) Addr() string], [Queue()] *)
Definition Addr {E} (a : App E) : string := listener a.

(** * The daemon *)

(** The outcome of starting: [log.Fatalf] with an error, or running. *)
Inductive started := Fatal (e : error) | Running (a : App Empty_set).

Section main.
Context {R : Type} (listen : string -> result string) (parse_url : string -> result R).
Context (read_file : string -> result bytes).

(** The part of [main] before the server runs. *)
Definition startup (e : environ) : list app_event * started :=
  match FromEnv e with
  | Err x => ([], Fatal (EWrap "config: " x))
  | Ok cfg =>
      match Langs.Load (read_file (LanguagesFile cfg)) (RootfsDir cfg) with
      | Err x => ([], Fatal (EWrap "load languages: " x))
      | Ok reg =>
          match parse_url (RedisURL cfg) with
          | Err x => ([], Fatal (EWrap "parse redis url: " x))
          | Ok rdb =>
              match New listen {| oConfig := Some cfg; oRegistry := Some reg;
                                  oRedis := Some rdb; oExecutor := None |} with
              | (tr, Err x) => (tr, Fatal (EWrap "dredd: " x))
              | (tr, Ok a) => (tr, Running a)
              end
          end
      end
  end.

(** The deferred calls, last first, when [main] returns. *)
Definition deferred_calls : list app_event := [ShutdownCtxCancelled; SignalsStopped; RedisClosed].

(** [main]: a signal shuts the application down; an error of [Run] ends the
    process at once ([log.Fatalf] runs no deferred call).  A server that ends
    without an error leaves [main] waiting for the signal. *)
Definition main (e : environ) (how : ending) : list app_event * option error :=
  match startup e with
  | (tr, Fatal x) => (tr, Some x)
  | (tr, Running a) =>
      match Run how with
      | Some x => (tr, Some (EWrap "dredd: " x))
      | None => (tr ++ Shutdown a ++ deferred_calls, None)
      end
  end.
End main.

(** ** What was started, and is not closed *)

(** A process has one pool at a time: closing it leaves none. *)
Definition open_step (open : list strategy) (ev : app_event) : list strategy :=
  match ev with PoolStarted st => open ++ [st] | PoolClosed _ => [] | _ => open end.
Definition open_pools (tr : list app_event) : list strategy := foldl open_step [] tr.

(** An application is wired when its worker and its server share the queue,
    the registry and the configuration, and it owns the pool its executor uses. *)
Record wired {E} (cfg : Config) (reg : Registry) (a : App E) : Prop := {
  wired_queue : queue a = Queue.New (ResultTTL cfg);
  wired_worker : wCfg (worker a) = cfg /\ wReg (worker a) = reg /\ wQ (worker a) = queue a;
  wired_server : sCfg (server a) = cfg /\ sReg (server a) = reg /\ sQ (server a) = queue a;
  wired_pool : match wExe (worker a) with
               | inl _ => pool a = None
               | inr st => pool a = Some st /\ Pool.New cfg reg = Ok st
               end
}.

Section starting.
Context {R E : Type} (listen : string -> result string).

(** [New] by cases, for options that pass its checks. *)
Lemma New_cases (o : Options R E) tr res : New listen o = (tr, res) ->
  match res with
  | Ok a => exists cfg reg, oConfig o = Some cfg /\ oRegistry o = Some reg /\ oRedis o <> None /\
      wired cfg reg a /\ listen (HTTPAddr cfg) = Ok (Addr a) /\
      tr = match pool a with Some st => [PoolStarted st] | None => [] end ++ [Listening (Addr a)]
  | Err _ => open_pools tr = [] /\ ServerStopped ∉ tr /\ RedisClosed ∉ tr
  end.
Proof.
  unfold New. destruct (oConfig o) as [cfg|]; [|intros [= <- <-]; split_and!; [done|set_solver..]].
  destruct (oRegistry o) as [reg|]; [|intros [= <- <-]; split_and!; [done|set_solver..]].
  destruct (oRedis o) as [rdb|]; [|intros [= <- <-]; split_and!; [done|set_solver..]].
  unfold choose_executor. destruct (oExecutor o) as [e|];
    [|destruct (Pool.New cfg reg) as [st|x] eqn:Ep; [|intros [= <- <-]; split_and!; [done|set_solver..]]];
    destruct (listen (HTTPAddr cfg)) as [addr|x] eqn:El; intros [= <- <-].
  1,3: exists cfg, reg; split_and!; [done..| |done|done]; by split.
  all: split_and!; [done|set_solver..].
Qed.
End starting.

Lemma Load_wf file d r : Langs.Load file d = Ok r -> registry_wf r.
Proof.
  unfold Langs.Load. destruct file as [b|x]; [|done].
  destruct (unmarshal b) as [l|x]; [|done].
  intros (Hv & ->)%load_list_inv. by apply catalogue_wf.
Qed.

(** * Properties *)

Section properties.
Context {R : Type} (listen : string -> result string) (parse_url : string -> result R).
Context (read_file : string -> result bytes).

(** C28. Starting the daemon either fails for one of four reasons - the
    environment, the languages file, the Redis URL, or the listen address -
    leaving no pool behind, or leaves an application whose worker and API
    share one queue, a well-formed registry and a well-formed configuration,
    over a pool of the configured strategy.  Neither the nil checks of [New]
    nor an unknown strategy can be the reason. *)
Theorem startup_outcomes e :
  let '(tr, s) := startup listen parse_url read_file e in
  match s with
  | Fatal x => open_pools tr = [] /\
      ((exists y, FromEnv e = Err y /\ x = EWrap "config: " y) \/
       exists cfg, FromEnv e = Ok cfg /\
       ((exists y, Langs.Load (read_file (LanguagesFile cfg)) (RootfsDir cfg) = Err y /\
           x = EWrap "load languages: " y) \/
        (exists y, parse_url (RedisURL cfg) = Err y /\ x = EWrap "parse redis url: " y) \/
        (exists y, listen (HTTPAddr cfg) = Err y /\
           x = EWrap "dredd: " (EWrap ("dredd: listen " +:+ HTTPAddr cfg +:+ ": ") y))))
  | Running a => exists cfg reg st,
      FromEnv e = Ok cfg /\ config_wf cfg /\ registry_wf reg /\ wired cfg reg a /\
      Pool.New cfg reg = Ok st /\ strategy_wf st /\ pool a = Some st /\
      listen (HTTPAddr cfg) = Ok (Addr a) /\ tr = [PoolStarted st; Listening (Addr a)]
  end.
Proof.
  unfold startup. destruct (FromEnv e) as [cfg|y] eqn:Ee; [|by split; [|left; exists y]].
  destruct (Langs.Load _ _) as [reg|y] eqn:El; [|split; [done|right; eauto 6]].
  destruct (parse_url _) as [rdb|y] eqn:Eu; [|split; [done|right; eauto 7]].
  pose proof (FromEnv_wf_aux _ _ Ee) as Hcfg. pose proof (Load_wf _ _ _ El) as Hreg.
  destruct (New_strategy_wf cfg reg Hreg) as [Hst Hok]. rewrite (cfg_strategy _ Hcfg) in Hok.
  unfold New, choose_executor. cbn [oConfig oRegistry oRedis oExecutor].
  destruct (Pool.New cfg reg) as [st|x] eqn:Ep; [|done].
  destruct (listen (HTTPAddr cfg)) as [addr|y] eqn:Ea.
  - exists cfg, reg, st. split_and!; [done..| |done| |done|done|done]; [by split|by apply Hst].
  - split; [done|]. right. exists cfg. split; [done|]. right. right. by exists y.
Qed.

(** C27. Taking the daemon down: ended by a signal (or after a server that
    stopped cleanly) it stops the HTTP server, then closes the pool it started,
    and then the deferred calls release the signals and close the Redis client;
    when starting failed no pool is left open; but when the HTTP server fails,
    the process exits with the pool - and its VMs - still open.  No failure
    runs the deferred calls: the Redis client is not closed. *)
Theorem daemon_takes_down e how :
  let '(tr, r) := main listen parse_url read_file e how in
  match r with
  | None => exists st addr, tr = [PoolStarted st; Listening addr; ServerStopped; PoolClosed st;
                                  ShutdownCtxCancelled; SignalsStopped; RedisClosed]
  | Some x =>
      (open_pools tr = [] /\ ServerStopped ∉ tr /\ RedisClosed ∉ tr) \/
      (exists err st addr, Run how = Some err /\ x = EWrap "dredd: " err /\
        tr = [PoolStarted st; Listening addr] /\ open_pools tr = [st])
  end.
Proof.
  unfold main. destruct (startup listen parse_url read_file e) as [tr s] eqn:Es. unfold startup in Es.
  destruct (FromEnv e) as [cfg|y]; [|invc Es; left; split_and!; [done|set_solver..]].
  destruct (Langs.Load _ _) as [reg|y]; [|invc Es; left; split_and!; [done|set_solver..]].
  destruct (parse_url _) as [rdb|y]; [|invc Es; left; split_and!; [done|set_solver..]].
  destruct (New listen _) as [tr' [a|y]] eqn:En; invc Es; apply New_cases in En; [|by left].
  destruct En as (cfg' & reg' & Hc & Hr & _ & [_ _ _ Hp] & Hl & ->).
  destruct (wExe (worker a)) as [[]|st]. destruct Hp as [Hp _]. rewrite Hp.
  destruct (Run how) as [err|] eqn:Er.
  - right. by exists err, st, (Addr a).
  - exists st, (Addr a). unfold Shutdown. by rewrite Hp.
Qed.
End properties.

(** ** The properties at a concrete environment *)

Definition demo_file (path : string) : result bytes :=
  if String.eqb path "/l.json" then Ok (marshal (Some demo_languages : slice Language.t))
  else Err (ENew "no such file").
Definition demo_listen (addr : string) : result string := Ok ("[::]" +:+ addr).
Definition demo_url (url : string) : result string := Ok url.
Definition demo_main := main demo_listen demo_url demo_file (sample_env "60").

Lemma startup_outcomes_witness :
  exists a st, startup demo_listen demo_url demo_file (sample_env "60")
      = ([PoolStarted st; Listening (Addr a)], Running a) /\
    strategy_wf st /\ Addr a = "[::]:8080".
Proof.
  pose proof (startup_outcomes demo_listen demo_url demo_file (sample_env "60")) as H.
  destruct (startup _ _ _ _) as [tr [x|a]] eqn:E; [exfalso; vm_compute in E; discriminate|].
  destruct H as (cfg & reg & st & Hc & _ & _ & _ & _ & Hs & _ & Hl & ->).
  exists a, st. split; [reflexivity|]. split; [exact Hs|].
  vm_compute in Hc. injection Hc as <-. vm_compute in Hl. injection Hl as Hl. symmetry. exact Hl.
Defined.

(** The server fails: the pool is left open. *)
Lemma daemon_takes_down_witness :
  exists st, open_pools (demo_main (Served (Some (ENew "accept: too many open files")))).1 = [st].
Proof.
  pose proof (daemon_takes_down demo_listen demo_url demo_file (sample_env "60")
    (Served (Some (ENew "accept: too many open files")))) as H.
  unfold demo_main. destruct (main _ _ _ _ _) as [tr [x|]] eqn:E.
  - destruct H as [[Ho _]|(err & st & addr & _ & _ & _ & Ho)]; [|exists st; exact Ho].
    exfalso. apply (f_equal (fun p => length (open_pools p.1))) in E. cbn [fst] in E.
    rewrite Ho in E. vm_compute in E. discriminate.
  - exfalso. apply (f_equal snd) in E. vm_compute in E. discriminate.
Defined.
